(** * GAMBA: expression parser and DNF minimiser

    A shallow embedding of
      - [src/bitwise-factory/utils/implicant.py]  (class [Implicant]),
      - [src/bitwise-factory/utils/dnf.py]        (class [Dnf]),
      - [src/utils/parse.py]                      (class [Parser], [parse]),
    together with the properties of these programs.

    Python integers are [Z]; list indices and loop counters that only
    count upwards from zero are [nat].  A Python exception is the
    [Raise] outcome of the [result] monad; a loop whose termination is
    not structural carries a fuel argument and may answer [OutOfFuel]. *)

From Stdlib Require Import ZArith Ascii String Lia.
From Stdlib Require DecimalString DecimalNat BinaryString HexString.
From stdpp Require Import base tactics option list gmap strings.

Set Default Proof Using "Type".

(** ** Outcomes of fallible code *)

Inductive exn : Type :=
  | AssertionError
  | IndexError
  | ValueError
  | TypeError
  | AttributeError
  | SystemExit (msg : string).

Inductive result (A : Type) : Type :=
  | Ok (a : A)
  | Raise (e : exn)
  | OutOfFuel.
Arguments Ok {A} a.
Arguments Raise {A} e.
Arguments OutOfFuel {A}.

Definition result_bind {A B} (f : A → result B) (m : result A) : result B :=
  match m with
  | Ok a => f a
  | Raise e => Raise e
  | OutOfFuel => OutOfFuel
  end.

#[global] Instance result_ret : MRet result := λ A a, Ok a.
#[global] Instance result_mbind : MBind result := λ A B f m, result_bind f m.

(** ** Implicants ([implicant.py]) *)

Module Implicant.

(** A slot of the vector is [Some 1] (variable occurs unnegated),
    [Some 0] (negated) or [None] (no influence). *)
Record t : Type := mk {
  vec : list (option Z);
  minterms : list Z;
  obsolete : bool
}.

#[global] Instance t_eq_dec : EqDecision t.
Proof. solve_decision. Defined.

Definition set_vec (v : list (option Z)) (p : t) : t :=
  mk v (minterms p) (obsolete p).
Definition set_minterms (m : list Z) (p : t) : t :=
  mk (vec p) m (obsolete p).
Definition set_obsolete (b : bool) (p : t) : t :=
  mk (vec p) (minterms p) b.

(** [__init_vec]: [vnumber] times, append [value & 1] and shift. *)
Fixpoint init_vec (vnumber : nat) (value : Z) : list (option Z) :=
  match vnumber with
  | O => []
  | S n => Some (Z.land value 1) :: init_vec n (Z.shiftr value 1)
  end.

(** [__init__]. The sentinel value -1 builds an empty implicant. *)
Definition init (vnumber : nat) (value : Z) : t :=
  if decide (value = (-1)%Z)
  then mk [] [] false
  else mk (init_vec vnumber value) [value] false.

(** [__get_copy]: a fresh implicant built with the sentinel, whose
    [vec] and [minterms] are copies of the receiver's lists. *)
Definition get_copy (self : t) : t :=
  let cpy := init (length (vec self)) (-1) in
  let cpy := set_vec (vec self) cpy in
  set_minterms (minterms self) cpy.

(** [count_ones]: [self.vec.count(1)]. *)
Definition count_ones (self : t) : nat :=
  length (filter (λ s, s = Some 1%Z) (vec self)).

(** The [for] loop of [try_merge] over the index [i], the vectors
    being walked in parallel (their lengths agree by the assertion).
    [None] is the early [return None]; [Some d] is the value of
    [diffIdx] when the loop runs to its end. *)
Fixpoint diff_loop (i : Z) (v1 v2 : list (option Z)) (diffIdx : Z)
    : option Z :=
  match v1, v2 with
  | x :: v1', y :: v2' =>
      if decide (x = y) then diff_loop (i + 1) v1' v2' diffIdx
      else if decide (diffIdx ≠ (-1)%Z) then None
      else diff_loop (i + 1) v1' v2' i
  | _, _ => Some diffIdx
  end.

(** [try_merge]. [Ok None] is Python's [None]. *)
Definition try_merge (self other : t) : result (option t) :=
  if decide (length (vec self) = length (vec other)) then
    match diff_loop 0 (vec self) (vec other) (-1) with
    | None => Ok None
    | Some diffIdx =>
        let newImpl := get_copy self in
        let newImpl :=
          set_minterms (minterms newImpl ++ minterms other) newImpl in
        let newImpl :=
          if decide (diffIdx ≠ (-1)%Z)
          then set_vec (<[Z.to_nat diffIdx := None]> (vec newImpl)) newImpl
          else newImpl in
        Ok (Some newImpl)
    end
  else Raise AssertionError.

(** Truth value of one literal of [to_bitwise]: slot [i] contributes
    variable [i], negated exactly when the slot equals 0; a [None]
    slot contributes nothing.  The assignment is the index [j], bit
    [i] of [j] being the value of variable [i]. *)
Definition literal (slot : option Z) (b : bool) : bool :=
  match slot with
  | None => true
  | Some s => if decide (s = 0%Z) then negb b else b
  end.

(** Truth value of the conjunction of the literals of slots
    [i, i+1, ...] held in [v]; no literal at all is the constant true. *)
Fixpoint holds_from (i : Z) (v : list (option Z)) (j : Z) : bool :=
  match v with
  | [] => true
  | s :: v' => literal s (Z.testbit j i) && holds_from (i + 1) v' j
  end.

Definition holds (self : t) (j : Z) : bool := holds_from 0 (vec self) j.

End Implicant.

(** ** The minimiser ([dnf.py]) *)

Module Dnf.

Fixpoint Pos_popcount (p : positive) : nat :=
  match p with
  | xH => 1
  | xO q => Pos_popcount q
  | xI q => S (Pos_popcount q)
  end.

(** [popcount]: the number of ones of the binary representation. The
    minimiser calls it on list indices only, which are never negative
    (on a negative number this is [int.bit_count], the count of the
    absolute value). *)
Definition popcount (x : Z) : nat :=
  match x with
  | Z0 => 0
  | Zpos p => Pos_popcount p
  | Zneg p => Pos_popcount p
  end.

Record t : Type := mk {
  groups : list (list Implicant.t);
  primes : list Implicant.t
}.

(** [groups[k].append(x)]; an index beyond the list raises. *)
Definition append_at (k : nat) (x : Implicant.t)
    (gs : list (list Implicant.t)) : result (list (list Implicant.t)) :=
  match gs !! k with
  | Some g => Ok (<[k := g ++ [x]]> gs)
  | None => Raise IndexError
  end.

(** The loop of [__init_groups] over the positions [i] of the truth
    vector. *)
Fixpoint init_loop (vnumber : nat) (i : Z) (vec : list Z)
    (groups : list (list Implicant.t)) : result (list (list Implicant.t)) :=
  match vec with
  | [] => Ok groups
  | bit :: rest =>
      if decide (bit = 0%Z) then init_loop vnumber (i + 1) rest groups
      else if decide (bit = 1%Z) then
        groups' ← append_at (popcount i) (Implicant.init vnumber i) groups;
        init_loop vnumber (i + 1) rest groups'
      else Raise AssertionError
  end.

(** [__init_groups]. *)
Definition init_groups (vnumber : nat) (vec : list Z)
    : result (list (list Implicant.t)) :=
  if decide (Z.of_nat (length vec) = (2 ^ Z.of_nat vnumber)%Z)
  then init_loop vnumber 0 vec (replicate (vnumber + 1) [])
  else Raise AssertionError.

(** State of the two nested loops of [__merge_step]: the implicants of
    both groups carry their [obsolete] flags, which the loops set in
    place. *)
Record loop_state : Type := mk_loop {
  newGroups : list (list Implicant.t);
  changed : bool
}.

(** [for impl2 in nextGroup], for a fixed [impl1]. Returns [impl1] and
    [nextGroup] with the flags as the loop leaves them. *)
Fixpoint merge_inner (impl1 : Implicant.t) (nextGroup : list Implicant.t)
    (st : loop_state)
    : result (Implicant.t * list Implicant.t * loop_state) :=
  match nextGroup with
  | [] => Ok (impl1, [], st)
  | impl2 :: rest =>
      r ← Implicant.try_merge impl1 impl2;
      match r with
      | None =>
          '(impl1', rest', st') ← merge_inner impl1 rest st;
          Ok (impl1', impl2 :: rest', st')
      | Some newImpl =>
          ng ← append_at (Implicant.count_ones newImpl) newImpl (newGroups st);
          '(impl1', rest', st') ←
            merge_inner (Implicant.set_obsolete true impl1) rest
                        (mk_loop ng true);
          Ok (impl1', Implicant.set_obsolete true impl2 :: rest', st')
      end
  end.

(** [for impl1 in group: for impl2 in nextGroup]. *)
Fixpoint merge_outer (group nextGroup : list Implicant.t) (st : loop_state)
    : result (list Implicant.t * list Implicant.t * loop_state) :=
  match group with
  | [] => Ok ([], nextGroup, st)
  | impl1 :: group' =>
      '(impl1', nextGroup', st') ← merge_inner impl1 nextGroup st;
      '(group'', nextGroup'', st'') ← merge_outer group' nextGroup' st';
      Ok (impl1' :: group'', nextGroup'', st'')
  end.

(** [for impl in group: if not impl.obsolete: self.primes.append(impl)]. *)
Definition collect_primes (group : list Implicant.t)
    (primes : list Implicant.t) : list Implicant.t :=
  primes ++ filter (λ impl, Implicant.obsolete impl = false) group.

(** [for onesCnt in range(len(self.__groups))]: [group] is the group at
    [onesCnt], [rest] the groups after it. *)
Fixpoint merge_groups (group : list Implicant.t)
    (rest : list (list Implicant.t)) (st : loop_state)
    (primes : list Implicant.t) : result (loop_state * list Implicant.t) :=
  match rest with
  | [] => Ok (st, collect_primes group primes)
  | nextGroup :: rest' =>
      '(group', nextGroup', st') ← merge_outer group nextGroup st;
      merge_groups nextGroup' rest' st' (collect_primes group' primes)
  end.

(** [__merge_step]: returns [changed] and the new state. *)
Definition merge_step (d : t) : result (bool * t) :=
  let st := mk_loop (map (λ _, []) (groups d)) false in
  match groups d with
  | [] => Ok (changed st, mk (newGroups st) (primes d))
  | group :: rest =>
      '(st', primes') ← merge_groups group rest st (primes d);
      Ok (changed st', mk (newGroups st') primes')
  end.

(** [__merge]: [while True]. The second component logs the value of
    [changed] that each call of [__merge_step] returned, in order. *)
Fixpoint merge (fuel : nat) (d : t) : result (t * list bool) :=
  match fuel with
  | O => OutOfFuel
  | S fuel' =>
      '(ch, d') ← merge_step d;
      if (ch : bool) then
        '(d'', log) ← merge fuel' d';
        Ok (d'', ch :: log)
      else Ok (d', [ch])
  end.

(** [[i for i in range(len(vec)) if vec[i] == 1]], from position [i]. *)
Fixpoint true_indices (i : Z) (vec : list Z) : list Z :=
  match vec with
  | [] => []
  | bit :: rest =>
      if decide (bit = 1%Z) then i :: true_indices (i + 1) rest
      else true_indices (i + 1) rest
  end.

(** The [while i < len(self.primes)] loop of
    [__drop_unrequired_implicants]. *)
Fixpoint drop_loop (fuel : nat) (i : nat) (primes : list Implicant.t)
    (requ : gset Z) : result (list Implicant.t) :=
  match primes !! i with
  | None => Ok primes
  | Some impl =>
      match fuel with
      | O => OutOfFuel
      | S fuel' =>
          let mtSet : gset Z := list_to_set (Implicant.minterms impl) in
          if decide (mtSet ∩ requ ≠ ∅)
          then drop_loop fuel' (S i) primes (requ ∖ mtSet)
          else drop_loop fuel' i (delete i primes) requ
      end
  end.

(** [__drop_unrequired_implicants]: every turn of the loop either
    advances [i] or shortens [primes], so [len(primes)] turns are
    enough. *)
Definition drop_unrequired_implicants (vec : list Z)
    (primes : list Implicant.t) : result (list Implicant.t) :=
  let requ : gset Z := list_to_set (true_indices 0 vec) in
  drop_loop (length primes) 0 primes requ.

(** [__init__]. [fuel] bounds the number of merge rounds. *)
Definition init (fuel : nat) (vnumber : nat) (vec : list Z) : result t :=
  gs ← init_groups vnumber vec;
  '(d, _) ← merge fuel (mk gs []);
  primes ← drop_unrequired_implicants vec (primes d);
  Ok (mk (groups d) primes).

(** The log of the merge rounds that [__init__] runs. *)
Definition rounds (fuel : nat) (vnumber : nat) (vec : list Z)
    : result (list bool) :=
  gs ← init_groups vnumber vec;
  '(_, log) ← merge fuel (mk gs []);
  Ok log.

(** Truth value, at the assignment [j], of the disjunction of the
    conjunctions of the primes. *)
Definition holds (d : t) (j : Z) : bool :=
  existsb (λ p, Implicant.holds p j) (primes d).

End Dnf.

(** ** Expression trees *)

Module Node.

Inductive NodeType : Type :=
  | CONSTANT
  | VARIABLE
  | POWER
  | NEGATION
  | PRODUCT
  | SUM
  | CONJUNCTION
  | EXCL_DISJUNCTION
  | INCL_DISJUNCTION.

#[global] Instance NodeType_eq_dec : EqDecision NodeType.
Proof. solve_decision. Defined.

(** Modelled from the spec: the class [Node] of [node.py], absent from
    the sources. A node has its kind, the modulus and the
    reduce-constants flag it is built with, an ordered list of
    children, an integer payload (read for CONSTANT) and a name (read
    for VARIABLE); a payload or name that was never assigned is 0 or
    the empty string. *)
#[local] Unset Elimination Schemes.
Inductive t : Type := mk {
  type : NodeType;
  modulus : Z;
  modRed : bool;
  children : list t;
  constant : Z;
  vname : string
}.
#[local] Set Elimination Schemes.

(** [Node(t, modulus, modRed)]. *)
Definition new (ty : NodeType) (modulus : Z) (modRed : bool) : t :=
  mk ty modulus modRed [] 0 EmptyString.

Definition set_children (cs : list t) (n : t) : t :=
  mk (type n) (modulus n) (modRed n) cs (constant n) (vname n).
Definition set_constant (c : Z) (n : t) : t :=
  mk (type n) (modulus n) (modRed n) (children n) c (vname n).
Definition set_vname (s : string) (n : t) : t :=
  mk (type n) (modulus n) (modRed n) (children n) (constant n) s.

(** [node.children.append(child)]. *)
Definition append_child (child : t) (n : t) : t :=
  set_children (children n ++ [child]) n.

End Node.

(** ** The parser ([parse.py]) *)

Module Parser.

Import Node.

(** The fields of a [Parser] object. *)
Record t : Type := mk {
  expr : string;
  modulus : Z;
  modRed : bool;
  idx : nat;
  error : string
}.

Definition set_idx (i : nat) (p : t) : t :=
  mk (expr p) (modulus p) (modRed p) i (error p).
Definition set_error (e : string) (p : t) : t :=
  mk (expr p) (modulus p) (modRed p) (idx p) e.

(** [__init__]: the [modulus] argument is not read; the field is set
    to the literal 32. *)
Definition init (expr : string) (modulus : Z) (modRed : bool) : t :=
  mk expr 32 modRed 0 EmptyString.

(** *** Characters *)

(** [__peek]: [None] stands for the empty string returned at the end
    of the input. *)
Definition peek (p : t) : option ascii :=
  if decide (String.length (expr p) ≤ idx p) then None
  else String.get (idx p) (expr p).

(** [__peek_next]. *)
Definition peek_next (p : t) : option ascii :=
  if decide (String.length (expr p) - 1 ≤ idx p) then None
  else String.get (idx p + 1) (expr p).

(** The character returned by [__peek] as text, for error messages. *)
Definition peek_str (p : t) : string :=
  match peek p with
  | None => EmptyString
  | Some c => String c EmptyString
  end.

Definition code_between (lo hi : nat) (c : option ascii) : bool :=
  match c with
  | None => false
  | Some a => (lo <=? nat_of_ascii a) && (nat_of_ascii a <=? hi)
  end.

Definition has_bitwise_negated_expression (p : t) : bool :=
  bool_decide (peek p = Some "~"%char).
Definition has_negative_expression (p : t) : bool :=
  bool_decide (peek p = Some "-"%char).
Definition has_multiplicator (p : t) : bool :=
  bool_decide (peek p = Some "*"%char)
  && negb (bool_decide (peek_next p = Some "*"%char)).
Definition has_power (p : t) : bool :=
  bool_decide (peek p = Some "*"%char)
  && bool_decide (peek_next p = Some "*"%char).
Definition has_lshift (p : t) : bool :=
  bool_decide (peek p = Some "<"%char)
  && bool_decide (peek_next p = Some "<"%char).
Definition has_binary_constant (p : t) : bool :=
  bool_decide (peek p = Some "0"%char)
  && bool_decide (peek_next p = Some "b"%char).
Definition has_hex_constant (p : t) : bool :=
  bool_decide (peek p = Some "0"%char)
  && bool_decide (peek_next p = Some "x"%char).
(** [re.match(r'[0-9]', ...)]. *)
Definition has_decimal_digit (p : t) : bool :=
  code_between 48 57 (peek p).
(** [... or re.match(r'[a-fA-F]', ...)]. *)
Definition has_hex_digit (p : t) : bool :=
  has_decimal_digit p
  || code_between 97 102 (peek p) || code_between 65 70 (peek p).
(** [re.match(r'[a-zA-Z]', ...)]. *)
Definition has_letter (p : t) : bool :=
  code_between 97 122 (peek p) || code_between 65 90 (peek p).
Definition has_variable (p : t) : bool := has_letter p.
Definition has_space (p : t) : bool :=
  bool_decide (peek p = Some " "%char).

(** [__skip_space]. *)
Definition skip_space (p : t) : t := set_idx (idx p + 1) p.

(** A [while cond: body] loop whose condition holds only before the
    end of the input and whose body moves [idx] forward: it makes at
    most [len(expr) - idx] turns. *)
Fixpoint repeat_while (n : nat) (cond : t → bool) (body : t → t) (p : t)
    : t :=
  match n with
  | O => p
  | S n' => if cond p then repeat_while n' cond body (body p) else p
  end.

Definition while_ (cond : t → bool) (body : t → t) (p : t) : t :=
  repeat_while (String.length (expr p) - idx p) cond body p.

(** [__get]: the character read is dropped by every caller, so only
    the new state is returned. *)
Definition get (skipSpace : bool) (p : t) : t :=
  let p := set_idx (idx p + 1) p in
  if skipSpace then while_ has_space skip_space p else p.

(** *** Text helpers *)

(** Python's [str.isspace] on the characters of the input alphabet. *)
Definition is_space (c : ascii) : bool :=
  let n := nat_of_ascii c in
  ((9 <=? n) && (n <=? 13)) || ((28 <=? n) && (n <=? 32)).

(** [s.rstrip()]. *)
Fixpoint rstrip (s : string) : string :=
  match s with
  | EmptyString => EmptyString
  | String c s' =>
      match rstrip s' with
      | EmptyString => if is_space c then EmptyString
                       else String c EmptyString
      | r => String c r
      end
  end.

(** [self.__expr[start:self.__idx]]. *)
Definition slice (start : nat) (p : t) : string :=
  String.substring start (idx p - start) (expr p).

Definition digit_value (c : ascii) : option Z :=
  let n := nat_of_ascii c in
  if (48 <=? n) && (n <=? 57) then Some (Z.of_nat n - 48)%Z
  else if (97 <=? n) && (n <=? 122) then Some (Z.of_nat n - 87)%Z
  else if (65 <=? n) && (n <=? 90) then Some (Z.of_nat n - 55)%Z
  else None.

Fixpoint int_loop (base acc : Z) (s : string) : option Z :=
  match s with
  | EmptyString => Some acc
  | String c s' =>
      match digit_value c with
      | Some d => if (d <? base)%Z then int_loop base (acc * base + d) s'
                  else None
      | None => None
      end
  end.

(** [sys.int_info.default_max_str_digits]: the largest number of
    digits that CPython converts from text to [int] in a base that is
    not a power of two. *)
Definition max_str_digits : Z := 4300.

(** [(base & (base - 1)) == 0]: the bases that are exempt from the
    limit. *)
Definition power_of_two (base : Z) : bool :=
  (Z.land base (base - 1) =? 0)%Z.

(** [int(s, base)] as [__get_constant] calls it, on a run of digits
    without sign, underscore or prefix: the value of the digits; a
    [ValueError] on a character that is no digit of the base, on the
    empty text, and on a run of more than [max_str_digits] digits in
    a base that is not a power of two. *)
Definition int_ (s : string) (base : Z) : result Z :=
  match s with
  | EmptyString => Raise ValueError
  | _ => match int_loop base 0 s with
         | Some z =>
             if power_of_two base then Ok z
             else if (max_str_digits <? Z.of_nat (String.length s))%Z
                  then Raise ValueError
                  else Ok z
         | None => Raise ValueError
         end
  end.

(** *** The parser monad: the object's state is threaded through every
    method. *)

Definition M (A : Type) : Type := t → result (A * t).

#[global] Instance M_ret : MRet M := λ A a p, Ok (a, p).
#[global] Instance M_bind : MBind M := λ A B f m p,
  match m p with
  | Ok (a, p') => f a p'
  | Raise e => Raise e
  | OutOfFuel => OutOfFuel
  end.

Definition read {A} (f : t → A) : M A := λ p, Ok (f p, p).
Definition update (f : t → t) : M unit := λ p, Ok (tt, f p).
Definition lift {A} (r : result A) : M A := λ p,
  match r with
  | Ok a => Ok (a, p)
  | Raise e => Raise e
  | OutOfFuel => OutOfFuel
  end.
Definition out_of_fuel {A} : M A := λ _, OutOfFuel.

(** [self.__error = msg + self.__peek() + rest; return None]. *)
Definition fail_near (msg rest : string) : M (option Node.t) :=
  update (λ p, set_error (msg ++ peek_str p ++ rest) p);; mret None.

(** [__new_node]. *)
Definition new_node (ty : NodeType) : M Node.t :=
  read (λ p, Node.new ty (modulus p) (modRed p)).

(** [__get_constant]. *)
Definition get_constant (start : nat) (base : Z) : M Z :=
  s ← read (slice start);
  lift (int_ (rstrip s) base).

(** [__multiply_by_minus_one]. The node is changed in place and
    returned; it is owned by the caller alone. *)
Definition multiply_by_minus_one (node : Node.t) : M Node.t :=
  if decide (type node = CONSTANT) then
    mret (set_constant (- constant node) node)
  else if decide (type node = PRODUCT) then
    match children node with
    | [] => lift (Raise IndexError)
    | first :: others =>
        if decide (type first = CONSTANT) then
          mret (set_children
                  (set_constant (constant first * -1) first :: others) node)
        else
          minusOne ← new_node CONSTANT;
          let minusOne := set_constant (-1) minusOne in
          mret (set_children (minusOne :: children node) node)
    end
  else
    minusOne ← new_node CONSTANT;
    let minusOne := set_constant (-1) minusOne in
    prod ← new_node PRODUCT;
    mret (set_children [minusOne; node] prod).

(** [while cond: self.__get(False)], and the loop skipping spaces. *)
Definition scan (cond : t → bool) : M unit :=
  update (while_ cond (get false)).
Definition skip_spaces : M unit :=
  update (while_ has_space skip_space).

(** [__parse_variable]. *)
Definition parse_variable : M (option Node.t) :=
  start ← read idx;
  update (get false);;
  scan (λ p, has_decimal_digit p || has_letter p
             || bool_decide (peek p = Some "_"%char));;
  c ← read peek;
  if decide (c = Some "["%char) then
    update (get false);;
    scan has_decimal_digit;;
    c ← read peek;
    if decide (c = Some "]"%char) then
      update (get true);;
      node ← new_node VARIABLE;
      s ← read (slice start);
      mret (Some (set_vname (rstrip s) node))
    else mret None
  else
    skip_spaces;;
    node ← new_node VARIABLE;
    s ← read (slice start);
    mret (Some (set_vname (rstrip s) node)).

(** The common end of the three constant parsers: the run of digits
    starting at [start] has been read. *)
Definition finish_constant (start : nat) (base : Z) : M (option Node.t) :=
  skip_spaces;;
  node ← new_node CONSTANT;
  c ← get_constant start base;
  mret (Some (set_constant c node)).

(** [__parse_binary_constant]. *)
Definition parse_binary_constant : M (option Node.t) :=
  update (get false);;
  update (get false);;
  c ← read peek;
  if decide (c ≠ Some "0"%char ∧ c ≠ Some "1"%char) then
    fail_near "Invalid binary digit near to " EmptyString
  else
    start ← read idx;
    scan (λ p, bool_decide (peek p = Some "0"%char)
               || bool_decide (peek p = Some "1"%char));;
    finish_constant start 2.

(** [__parse_hex_constant]. *)
Definition parse_hex_constant : M (option Node.t) :=
  update (get false);;
  update (get false);;
  h ← read has_hex_digit;
  if negb h then fail_near "Invalid hex digit near to " EmptyString
  else
    start ← read idx;
    scan has_hex_digit;;
    finish_constant start 16.

(** [__parse_decimal_constant]. *)
Definition parse_decimal_constant : M (option Node.t) :=
  h ← read has_decimal_digit;
  if negb h then
    fail_near "Expecting constant at " ", but no digit around."
  else
    start ← read idx;
    scan has_decimal_digit;;
    finish_constant start 10.

(** [__parse_constant]. *)
Definition parse_constant : M (option Node.t) :=
  b ← read has_binary_constant;
  if (b : bool) then parse_binary_constant
  else
    h ← read has_hex_constant;
    if (h : bool) then parse_hex_constant else parse_decimal_constant.

(** The loop shared by the n-ary operators:
    [while cond: self.__get(); child = sub(); if child == None: return
    None; node.children.append(child)]. Every turn reads the operator,
    so [n = len(expr) - idx] turns are enough. *)
Fixpoint operator_loop (n : nat) (cond : t → bool) (sub : M (option Node.t))
    (node : Node.t) : M (option Node.t) :=
  c ← read cond;
  if (c : bool) then
    match n with
    | O => out_of_fuel
    | S n' =>
        update (get true);;
        child ← sub;
        match child with
        | None => mret None
        | Some child =>
            operator_loop n' cond sub (append_child child node)
        end
    end
  else mret (Some node).

(** The body shared by [__parse_inclusive_disjunction],
    [__parse_exclusive_disjunction], [__parse_conjunction] and
    [__parse_product]. *)
Definition operator_chain (ty : NodeType) (cond : t → bool)
    (sub : M (option Node.t)) : M (option Node.t) :=
  child ← sub;
  match child with
  | None => mret None
  | Some child =>
      c ← read cond;
      if negb c then mret (Some child)
      else
        node ← new_node ty;
        let node := append_child child node in
        n ← read (λ p, String.length (expr p) - idx p);
        operator_loop n cond sub node
  end.

(** The loop of [__parse_sum]. *)
Fixpoint sum_loop (n : nat) (sub : M (option Node.t)) (node : Node.t)
    : M (option Node.t) :=
  c ← read peek;
  if decide (c = Some "+"%char ∨ c = Some "-"%char) then
    match n with
    | O => out_of_fuel
    | S n' =>
        let negative := bool_decide (c = Some "-"%char) in
        update (get true);;
        child ← sub;
        match child with
        | None => mret None
        | Some child =>
            if negative then
              child' ← multiply_by_minus_one child;
              sum_loop n' sub (append_child child' node)
            else sum_loop n' sub (append_child child node)
        end
    end
  else mret (Some node).

Definition is_char (c : ascii) (p : t) : bool :=
  bool_decide (peek p = Some c).

(** The grammar. [fuel] bounds the depth of the calls. *)
Fixpoint parse_inclusive_disjunction (fuel : nat) : M (option Node.t) :=
  match fuel with
  | O => out_of_fuel
  | S fuel =>
      operator_chain INCL_DISJUNCTION (is_char "|")
        (parse_exclusive_disjunction fuel)
  end

with parse_exclusive_disjunction (fuel : nat) : M (option Node.t) :=
  match fuel with
  | O => out_of_fuel
  | S fuel =>
      operator_chain EXCL_DISJUNCTION (is_char "^") (parse_conjunction fuel)
  end

with parse_conjunction (fuel : nat) : M (option Node.t) :=
  match fuel with
  | O => out_of_fuel
  | S fuel => operator_chain CONJUNCTION (is_char "&") (parse_shift fuel)
  end

with parse_shift (fuel : nat) : M (option Node.t) :=
  match fuel with
  | O => out_of_fuel
  | S fuel =>
      base ← parse_sum fuel;
      match base with
      | None => mret None
      | Some base =>
          s ← read has_lshift;
          if negb s then mret (Some base)
          else
            prod ← new_node PRODUCT;
            let prod := append_child base prod in
            update (get true);;
            update (get true);;
            op ← parse_sum fuel;
            match op with
            | None => mret None
            | Some op =>
                power ← new_node POWER;
                two ← new_node CONSTANT;
                let two := set_constant 2 two in
                let power := append_child two power in
                let power := append_child op power in
                let prod := append_child power prod in
                s ← read has_lshift;
                if (s : bool) then
                  fail_near "Disallowed nested lshift operator near "
                            EmptyString
                else mret (Some prod)
            end
      end
  end

with parse_sum (fuel : nat) : M (option Node.t) :=
  match fuel with
  | O => out_of_fuel
  | S fuel =>
      child ← parse_product fuel;
      match child with
      | None => mret None
      | Some child =>
          c ← read peek;
          if decide (c ≠ Some "+"%char ∧ c ≠ Some "-"%char)
          then mret (Some child)
          else
            node ← new_node SUM;
            let node := append_child child node in
            n ← read (λ p, String.length (expr p) - idx p);
            sum_loop n (parse_product fuel) node
      end
  end

with parse_product (fuel : nat) : M (option Node.t) :=
  match fuel with
  | O => out_of_fuel
  | S fuel => operator_chain PRODUCT has_multiplicator (parse_factor fuel)
  end

with parse_factor (fuel : nat) : M (option Node.t) :=
  match fuel with
  | O => out_of_fuel
  | S fuel =>
      b ← read has_bitwise_negated_expression;
      if (b : bool) then parse_bitwise_negated_expression fuel
      else
        n ← read has_negative_expression;
        if (n : bool) then parse_negative_expression fuel
        else parse_power fuel
  end

with parse_bitwise_negated_expression (fuel : nat) : M (option Node.t) :=
  match fuel with
  | O => out_of_fuel
  | S fuel =>
      update (get true);;
      node ← new_node NEGATION;
      child ← parse_factor fuel;
      match child with
      | None => mret None
      | Some child => mret (Some (set_children [child] node))
      end
  end

with parse_negative_expression (fuel : nat) : M (option Node.t) :=
  match fuel with
  | O => out_of_fuel
  | S fuel =>
      update (get true);;
      node ← parse_factor fuel;
      match node with
      | None => mret None
      | Some node =>
          node' ← multiply_by_minus_one node;
          mret (Some node')
      end
  end

with parse_power (fuel : nat) : M (option Node.t) :=
  match fuel with
  | O => out_of_fuel
  | S fuel =>
      base ← parse_terminal fuel;
      match base with
      | None => mret None
      | Some base =>
          w ← read has_power;
          if negb w then mret (Some base)
          else
            node ← new_node POWER;
            let node := append_child base node in
            update (get true);;
            update (get true);;
            exp ← parse_terminal fuel;
            match exp with
            | None => mret None
            | Some exp =>
                let node := append_child exp node in
                w ← read has_power;
                if (w : bool) then
                  fail_near "Disallowed nested power operator near "
                            EmptyString
                else mret (Some node)
            end
      end
  end

with parse_terminal (fuel : nat) : M (option Node.t) :=
  match fuel with
  | O => out_of_fuel
  | S fuel =>
      c ← read peek;
      if decide (c = Some "("%char) then
        update (get true);;
        node ← parse_inclusive_disjunction fuel;
        match node with
        | None => mret None
        | Some node =>
            c ← read peek;
            if decide (c ≠ Some ")"%char) then
              fail_near "Missing closing parentheses near to " EmptyString
            else update (get true);; mret (Some node)
        end
      else
        v ← read has_variable;
        if (v : bool) then parse_variable else parse_constant
  end.

(** Calls nest at most once per character read, each nesting passing
    through the eleven levels of the grammar. *)
Definition depth (expr : string) : nat := 12 * (String.length expr + 1).

(** [parse_expression]. *)
Definition parse_expression : M (option Node.t) :=
  s ← read has_space;
  (if (s : bool) then update skip_space else mret tt);;
  fuel ← read (λ p, depth (expr p));
  root ← parse_inclusive_disjunction fuel;
  update (while_ (λ p, bool_decide (idx p < String.length (expr p))
                       && has_space p) skip_space);;
  i ← read idx;
  len ← read (λ p, String.length (expr p));
  if decide (i ≠ len) then
    fail_near "Finished near to " " before everything was parsed"
  else mret root.

(** [parse]. The passes [Node.refine] and [Node.mark_linear] belong to
    [node.py]; they rewrite the tree in place and are parameters
    here. *)
Definition parse (refine_pass mark_linear_pass : Node.t → Node.t)
    (expr : string) (bitCount : Z) (reduceConstants refine marklinear : bool)
    : result (option Node.t) :=
  let parser := init expr (2 ^ bitCount) reduceConstants in
  '(root, _) ← parse_expression parser;
  match root with
  | None => Ok None
  | Some root =>
      let root := if refine then refine_pass root else root in
      if marklinear then
        if negb refine then
          Raise (SystemExit
                   "Error: Refine before marking linear subexpressions!")
        else Ok (Some (mark_linear_pass root))
      else Ok (Some root)
  end.

End Parser.

(** ** Implicants as objects of a store

    [try_merge] builds its result by copying and then updating lists in
    place. To speak about what it leaves untouched, the same methods
    are given here over a store of objects: a Python list is an object
    of its own, and an implicant holds references to its two lists. *)

Module Store.

Abbreviation loc := positive (only parsing).

Inductive obj : Type :=
  | List (elems : list (option Z))
  | Impl (vec minterms : loc) (obsolete : bool).

Abbreviation heap := (gmap positive obj) (only parsing).

Definition H (A : Type) : Type := heap → result (A * heap).

#[global] Instance H_ret : MRet H := λ A a h, Ok (a, h).
#[global] Instance H_bind : MBind H := λ A B f m h,
  match m h with
  | Ok (a, h') => f a h'
  | Raise e => Raise e
  | OutOfFuel => OutOfFuel
  end.

Definition raise {A} (e : exn) : H A := λ _, Raise e.

(** A new object lives at a location the store does not use yet. *)
Definition alloc (o : obj) : H loc := λ h,
  let l := fresh (dom h) in Ok (l, <[l := o]> h).

Definition read_list (l : loc) : H (list (option Z)) := λ h,
  match h !! l with
  | Some (List xs) => Ok (xs, h)
  | _ => Raise TypeError
  end.

Definition write_list (l : loc) (xs : list (option Z)) : H unit := λ h,
  match h !! l with
  | Some (List _) => Ok (tt, <[l := List xs]> h)
  | _ => Raise TypeError
  end.

Definition read_impl (l : loc) : H (loc * loc * bool) := λ h,
  match h !! l with
  | Some (Impl v m o) => Ok ((v, m, o), h)
  | _ => Raise AttributeError
  end.

(** [self.vec = v], [self.minterms = m]: the reference is replaced. *)
Definition set_vec_field (self v : loc) : H unit := λ h,
  match h !! self with
  | Some (Impl _ m o) => Ok (tt, <[self := Impl v m o]> h)
  | _ => Raise AttributeError
  end.

Definition set_minterms_field (self m : loc) : H unit := λ h,
  match h !! self with
  | Some (Impl v _ o) => Ok (tt, <[self := Impl v m o]> h)
  | _ => Raise AttributeError
  end.

(** [self.vec] and [self.minterms] as lists. *)
Definition vec_of (self : loc) : H (list (option Z)) :=
  '(v, _, _) ← read_impl self; read_list v.
Definition minterms_of (self : loc) : H (list (option Z)) :=
  '(_, m, _) ← read_impl self; read_list m.

(** [Implicant(vnumber, value)]: [__init_vec] appends to the new list
    [self.vec], which ends up holding [Implicant.init_vec]. *)
Definition new (vnumber : nat) (value : Z) : H loc :=
  v ← alloc (List []);
  m ← alloc (List (if decide (value = (-1)%Z) then [] else [Some value]));
  self ← alloc (Impl v m false);
  (if decide (value = (-1)%Z) then mret tt
   else write_list v (Implicant.init_vec vnumber value));;
  mret self.

(** [__get_copy]. *)
Definition get_copy (self : loc) : H loc :=
  xs ← vec_of self;
  cpy ← new (length xs) (-1);
  v ← alloc (List xs);
  set_vec_field cpy v;;
  ms ← minterms_of self;
  m ← alloc (List ms);
  set_minterms_field cpy m;;
  mret cpy.

(** [try_merge]. *)
Definition try_merge (self other : loc) : H (option loc) :=
  xs ← vec_of self;
  ys ← vec_of other;
  if decide (length xs = length ys) then
    match Implicant.diff_loop 0 xs ys (-1) with
    | None => mret None
    | Some diffIdx =>
        newImpl ← get_copy self;
        '(_, m, _) ← read_impl newImpl;
        ms ← read_list m;
        os ← minterms_of other;
        write_list m (ms ++ os);;
        set_minterms_field newImpl m;;
        (if decide (diffIdx ≠ (-1)%Z) then
           '(v, _, _) ← read_impl newImpl;
           zs ← read_list v;
           if decide (Z.to_nat diffIdx < length zs)
           then write_list v (<[Z.to_nat diffIdx := None]> zs)
           else raise IndexError
         else mret tt);;
        mret (Some newImpl)
    end
  else raise AssertionError.

End Store.

(** * Properties *)

(** ** Vocabulary of the statements *)

(** The positions, counted from [i], at which two vectors differ. A
    don't-care slot differs from an assigned one. *)
Fixpoint diff_positions (i : nat) (v1 v2 : list (option Z)) : list nat :=
  match v1, v2 with
  | x :: v1', y :: v2' =>
      if decide (x = y) then diff_positions (S i) v1' v2'
      else i :: diff_positions (S i) v1' v2'
  | _, _ => []
  end.

(** The result of a merge as the description of [try_merge] has it:
    the receiver's slots, the differing slot (if there is one) set to
    don't-care, and the minterms of both operands. *)
Definition merged (a b : Implicant.t) (slot : option nat) : Implicant.t :=
  Implicant.mk
    (match slot with
     | Some i => <[i := None]> (Implicant.vec a)
     | None => Implicant.vec a
     end)
    (Implicant.minterms a ++ Implicant.minterms b)
    false.

(** The two vectors differ in exactly one slot, assigned in both. *)
Definition one_assigned_difference (a b : Implicant.t) : Prop :=
  ∃ (i : nat) (x y : Z),
    Implicant.vec a !! i = Some (Some x) ∧
    Implicant.vec b !! i = Some (Some y) ∧
    x ≠ y ∧
    ∀ j : nat, j ≠ i → Implicant.vec a !! j = Implicant.vec b !! j.

Definition minterm_set (a : Implicant.t) : gset Z :=
  list_to_set (Implicant.minterms a).

(** The pruning pass as it is described: the primes are scanned in
    order; a prime whose minterms meet the outstanding requirement set
    is kept and its minterms leave the set, any other prime is
    dropped. *)
Fixpoint prune (primes : list Implicant.t) (requ : gset Z)
    : list Implicant.t :=
  match primes with
  | [] => []
  | p :: rest =>
      if decide (minterm_set p ∩ requ ≠ ∅)
      then p :: prune rest (requ ∖ minterm_set p)
      else prune rest requ
  end.

(** [j] is an index at which the truth vector is 1. *)
Definition true_at (tv : list Z) (j : Z) : Prop :=
  (0 ≤ j)%Z ∧ tv !! Z.to_nat j = Some 1%Z.

(** A truth vector for [vnumber] variables. *)
Definition truth_vector (vnumber : nat) (tv : list Z) : Prop :=
  Z.of_nat (length tv) = (2 ^ Z.of_nat vnumber)%Z ∧
  Forall (λ bit, bit = 0%Z ∨ bit = 1%Z) tv.

Definition none_count (v : list (option Z)) : nat :=
  length (filter (λ s, s = None) v).

Definition binary_slots (v : list (option Z)) : Prop :=
  Forall (λ s, s = None ∨ s = Some 0%Z ∨ s = Some 1%Z) v.

(** What holds of every implicant the minimiser builds in round [r]
    (counted from 0) for the truth vector [tv]: its vector has
    [vnumber] slots of which exactly [r] are don't-care, its
    conjunction is true exactly at its minterms, and its minterms are
    indices at which [tv] is 1. *)
Record impl_ok (vnumber : nat) (tv : list Z) (r : nat) (p : Implicant.t)
    : Prop := {
  ok_length : length (Implicant.vec p) = vnumber;
  ok_slots : binary_slots (Implicant.vec p);
  ok_nones : none_count (Implicant.vec p) = r;
  ok_holds : ∀ j, (0 ≤ j < 2 ^ Z.of_nat vnumber)%Z →
                  Implicant.holds p j = true ↔ j ∈ Implicant.minterms p;
  ok_true : ∀ j, j ∈ Implicant.minterms p → true_at tv j
}.

(** The groups at the start of round [r]: [vnumber + 1] of them, group
    [k] holding implicants of the round with [k] ones, none of them
    flagged. *)
Definition groups_ok (vnumber : nat) (tv : list Z) (r : nat)
    (gs : list (list Implicant.t)) : Prop :=
  length gs = vnumber + 1 ∧
  ∀ k g p, gs !! k = Some g → p ∈ g →
    impl_ok vnumber tv r p ∧ Implicant.count_ones p = k ∧
    Implicant.obsolete p = false.

(** Some implicant of the groups [gs] has all the minterms of [p]. *)
Definition covered (gs : list (list Implicant.t)) (p : Implicant.t) : Prop :=
  ∃ q, q ∈ concat gs ∧ Implicant.minterms p ⊆ Implicant.minterms q.

(** Two implicants that differ at most in their flag. *)
Definition same_data (p p' : Implicant.t) : Prop :=
  Implicant.vec p = Implicant.vec p' ∧
  Implicant.minterms p = Implicant.minterms p'.

(** The state of the minimiser at the start of round [r]. *)
Record dnf_ok (vnumber : nat) (tv : list Z) (r : nat) (d : Dnf.t) : Prop := {
  dnf_groups : groups_ok vnumber tv r (Dnf.groups d);
  dnf_primes : ∀ p, p ∈ Dnf.primes d → ∃ r', impl_ok vnumber tv r' p;
  dnf_cover : ∀ j, true_at tv j →
    ∃ p, (p ∈ Dnf.primes d ∨ p ∈ concat (Dnf.groups d)) ∧
         j ∈ Implicant.minterms p
}.

(** An implicant of round [r] with [k] ones, whatever its flag. *)
Definition data_ok (vnumber : nat) (tv : list Z) (r k : nat)
    (p : Implicant.t) : Prop :=
  impl_ok vnumber tv r p ∧ Implicant.count_ones p = k.

(** A flagged implicant has been merged into one of the new groups. *)
Definition flag_ok (ng : list (list Implicant.t)) (p : Implicant.t) : Prop :=
  Implicant.obsolete p = true → covered ng p.

(** The new groups only grow. *)
Definition extends (ng ng' : list (list Implicant.t)) : Prop :=
  ∀ q, q ∈ concat ng → q ∈ concat ng'.

(** The loop state inside round [r]: the new groups are groups of
    round [r + 1], and [changed] tells whether they hold anything. *)
Record loop_ok (vnumber : nat) (tv : list Z) (r : nat)
    (st : Dnf.loop_state) : Prop := {
  loop_new : groups_ok vnumber tv (S r) (Dnf.newGroups st);
  loop_changed :
    Dnf.changed st = true ↔ ∃ q, q ∈ concat (Dnf.newGroups st)
}.

(** Trees, written by kind: a variable, a constant and an operator
    node built by a parser whose fields are [m] and [f]. *)
Definition Var (m : Z) (f : bool) (name : string) : Node.t :=
  Node.mk Node.VARIABLE m f [] 0 name.
Definition Const (m : Z) (f : bool) (c : Z) : Node.t :=
  Node.mk Node.CONSTANT m f [] c EmptyString.
Definition Op (ty : Node.NodeType) (m : Z) (f : bool) (cs : list Node.t)
    : Node.t :=
  Node.mk ty m f cs 0 EmptyString.

(** What [Parser(expr, 2**bitCount, modRed).parse_expression()]
    returns, with the error text the parser object is left with. *)
Definition run (expr : string) (bitCount : Z) (modRed : bool)
    : result (option Node.t * string) :=
  '(root, p) ← Parser.parse_expression (Parser.init expr (2 ^ bitCount) modRed);
  Ok (root, Parser.error p).

(** [P] holds of a node and of all the nodes below it. *)
Fixpoint all_nodes (P : Node.t → Prop) (n : Node.t) : Prop :=
  match n with
  | Node.mk _ _ _ cs _ _ =>
      P n ∧ (fix all (l : list Node.t) : Prop :=
               match l with
               | [] => True
               | c :: l' => all_nodes P c ∧ all l'
               end) cs
  end.

(** A parser state over the text [E] whose fields are [M0] and [F0]
    and whose position is within the text. *)
Definition good_state (E : string) (M0 : Z) (F0 : bool) (p : Parser.t) : Prop :=
  Parser.expr p = E ∧ Parser.modulus p = M0 ∧ Parser.modRed p = F0 ∧
  Parser.idx p ≤ String.length E.

(** A parser action started in [p] returns normally, in a good state
    that is not before [p], with [Q]. *)
Definition returns {A} (E : string) (M0 : Z) (F0 : bool) (m : Parser.M A)
    (p : Parser.t) (Q : A → Parser.t → Prop) : Prop :=
  ∃ a p', m p = Ok (a, p') ∧ good_state E M0 F0 p' ∧
          Parser.idx p ≤ Parser.idx p' ∧ Q a p'.

(** The text holds a run of more than [max_str_digits] decimal
    digits. *)
Definition long_literal (E : string) : Prop :=
  ∃ start n, (Parser.max_str_digits < Z.of_nat n)%Z ∧
    ∀ i, start ≤ i < start + n →
         ∃ c, String.get i E = Some c ∧
              Parser.code_between 48 57 (Some c) = true.

(** Total correctness of a parser action started in [p]: it comes to
    an end, and it returns normally with [Q] unless [int] has refused
    a decimal literal of more than [max_str_digits] digits. *)
Definition terminates {A} (E : string) (M0 : Z) (F0 : bool) (m : Parser.M A)
    (p : Parser.t) (Q : A → Parser.t → Prop) : Prop :=
  returns E M0 F0 m p Q ∨ (m p = Raise ValueError ∧ long_literal E).

(** A node built with the fields [M0] and [F0]. *)
Definition cfg_ok (M0 : Z) (F0 : bool) (n : Node.t) : Prop :=
  Node.modulus n = M0 ∧ Node.modRed n = F0.

(** A tree as the parser returns it: every node carries [M0] and [F0],
    and a PRODUCT at the root has a child. *)
Definition ok_node (M0 : Z) (F0 : bool) (n : Node.t) : Prop :=
  all_nodes (cfg_ok M0 F0) n ∧
  (Node.type n = Node.PRODUCT → Node.children n ≠ []).

Definition ok_result (M0 : Z) (F0 : bool) (r : option Node.t)
    (p : Parser.t) : Prop :=
  ∀ n, r = Some n → ok_node M0 F0 n.

(** Fuel that a rule of level [lvl] needs in state [p]. *)
Definition need (E : string) (lvl : nat) (p : Parser.t) (fuel : nat) : Prop :=
  lvl + 10 * (String.length E - Parser.idx p) ≤ fuel.

Fixpoint all_chars (f : ascii → bool) (s : string) : bool :=
  match s with
  | EmptyString => true
  | String c s' => f c && all_chars f s'
  end.

(** [c] is a digit of the base. *)
Definition digit_in (base : Z) (c : ascii) : bool :=
  match Parser.digit_value c with
  | Some d => (d <? base)%Z
  | None => false
  end.

(** The rule [rule], given [fuel], comes to an end from every good
    state for which the fuel is enough: it returns a tree or [None],
    unless [int] has raised. *)
Definition rule_total (E : string) (M0 : Z) (F0 : bool) (lvl : nat)
    (rule : nat → Parser.M (option Node.t)) (fuel : nat) : Prop :=
  ∀ p, good_state E M0 F0 p → need E lvl p fuel →
       terminates E M0 F0 (rule fuel) p (ok_result M0 F0).

(** The same for the two rules that are entered on a character that is
    known to be there. *)
Definition prefix_rule_total (E : string) (M0 : Z) (F0 : bool)
    (rule : nat → Parser.M (option Node.t)) (fuel : nat) : Prop :=
  ∀ p, good_state E M0 F0 p → Parser.idx p < String.length E →
       need E 2 p fuel →
       terminates E M0 F0 (rule fuel) p (ok_result M0 F0).

Definition grammar_total (E : string) (M0 : Z) (F0 : bool) (fuel : nat)
    : Prop :=
  rule_total E M0 F0 9 Parser.parse_inclusive_disjunction fuel ∧
  rule_total E M0 F0 8 Parser.parse_exclusive_disjunction fuel ∧
  rule_total E M0 F0 7 Parser.parse_conjunction fuel ∧
  rule_total E M0 F0 6 Parser.parse_shift fuel ∧
  rule_total E M0 F0 5 Parser.parse_sum fuel ∧
  rule_total E M0 F0 4 Parser.parse_product fuel ∧
  rule_total E M0 F0 3 Parser.parse_factor fuel ∧
  prefix_rule_total E M0 F0 Parser.parse_bitwise_negated_expression fuel ∧
  prefix_rule_total E M0 F0 Parser.parse_negative_expression fuel ∧
  rule_total E M0 F0 2 Parser.parse_power fuel ∧
  rule_total E M0 F0 1 Parser.parse_terminal fuel.

(** A condition of a loop that looks at the current character only. *)
Definition on_char (cond : Parser.t → bool) : Prop :=
  ∃ f : option ascii → bool,
    f None = false ∧ ∀ p, cond p = f (Parser.peek p).

(** A condition that holds only before the end of the text. *)
Definition within (cond : Parser.t → bool) : Prop :=
  ∀ q, cond q = true → Parser.idx q < String.length (Parser.expr q).

(** ** Vocabulary of the further properties *)

(** An implicant after a loop of a merge round: itself, or itself with
    the flag set. *)
Definition marked (p p' : Implicant.t) : Prop :=
  p' = p ∨ p' = Implicant.set_obsolete true p.

(** [changed] tells whether the new groups hold anything. *)
Definition changed_ok (st : Dnf.loop_state) : Prop :=
  Dnf.changed st = false ↔ concat (Dnf.newGroups st) = [].

(** The number of children that the kind of a node asks for: none at a
    leaf, one below a NEGATION, two below a POWER, two or more below
    the other operators. *)
Definition arity_ok (n : Node.t) : Prop :=
  match Node.type n with
  | Node.CONSTANT | Node.VARIABLE => Node.children n = []
  | Node.NEGATION => length (Node.children n) = 1
  | Node.POWER => length (Node.children n) = 2
  | _ => 2 ≤ length (Node.children n)
  end.

Definition well_shaped (n : Node.t) : Prop := all_nodes arity_ok n.

(** The kinds of the operators with two or more operands. *)
Definition nary (ty : Node.NodeType) : Prop :=
  match ty with
  | Node.CONSTANT | Node.VARIABLE | Node.POWER | Node.NEGATION => False
  | _ => True
  end.

(** Whenever the action [m] returns from [p], [Q] holds of what it
    returns. *)
Definition post {A} (m : Parser.M A) (p : Parser.t)
    (Q : A → Parser.t → Prop) : Prop :=
  ∀ a p', m p = Ok (a, p') → Q a p'.




(** The characters of a variable name: a letter first, then letters,
    digits and underscores. *)
Definition is_letter (c : ascii) : bool :=
  Parser.code_between 97 122 (Some c) || Parser.code_between 65 90 (Some c).

Definition is_name_char (c : ascii) : bool :=
  Parser.code_between 48 57 (Some c) || is_letter c
  || bool_decide (c = "_"%char).

(** Two vectors that [try_merge] merges: equally long, and different
    in at most one slot; and the vector of the merged implicant. *)
Definition mergeable_vec (v w : list (option Z)) : Prop :=
  length v = length w ∧ length (diff_positions 0 v w) ≤ 1.

Definition merged_vec (v w : list (option Z)) : list (option Z) :=
  match diff_positions 0 v w with
  | [i] => <[i := None]> v
  | _ => v
  end.

(** The conjunction with the slots [v] is an implicant of the truth
    vector: it is true only at indices at which the vector is 1. *)
Definition implicant_of (vnumber : nat) (tv : list Z)
    (v : list (option Z)) : Prop :=
  length v = vnumber ∧ binary_slots v ∧
  ∀ j, (0 ≤ j < 2 ^ Z.of_nat vnumber)%Z →
       Implicant.holds_from 0 v j = true → true_at tv j.

(** A prime implicant: no literal can be dropped from it. *)
Definition prime_implicant (vnumber : nat) (tv : list Z)
    (v : list (option Z)) : Prop :=
  implicant_of vnumber tv v ∧
  ∀ i s, v !! i = Some (Some s) →
         ¬ implicant_of vnumber tv (<[i := None]> v).

(** The groups hold every implicant with [r] don't-care slots. *)
Definition complete (vnumber : nat) (tv : list Z) (r : nat)
    (gs : list (list Implicant.t)) : Prop :=
  ∀ v, implicant_of vnumber tv v → none_count v = r →
       ∃ p, p ∈ concat gs ∧ Implicant.vec p = v.

(** The vectors of the groups. *)
Definition vectors (gs : list (list Implicant.t))
    : list (list (list (option Z))) :=
  map (map Implicant.vec) gs.

(** The digits of the binary and of the hexadecimal literals. *)
Definition is_binary_digit (c : ascii) : bool :=
  bool_decide (Some c = Some "0"%char) || bool_decide (Some c = Some "1"%char).

Definition is_hex_digit (c : ascii) : bool :=
  Parser.code_between 48 57 (Some c) || Parser.code_between 97 102 (Some c)
  || Parser.code_between 65 70 (Some c).

(** The characters with which a factor can start: an opening
    parenthesis, one of the two prefix operators, a digit or a
    letter. *)
Definition starts_factor (c : option ascii) : bool :=
  bool_decide (c = Some "("%char) || bool_decide (c = Some "~"%char)
  || bool_decide (c = Some "-"%char) || Parser.code_between 48 57 c
  || Parser.code_between 97 122 c || Parser.code_between 65 90 c.

(** A variable name without an index, and the text
    [c x1 c x2 ... c xn] that continues a chain of the operator [c]. *)
Definition valid_name (x : string) : Prop :=
  match x with
  | EmptyString => False
  | String a r => is_letter a = true ∧ all_chars is_name_char r = true
  end.

Fixpoint rest_text (c : ascii) (xs : list string) : string :=
  match xs with
  | [] => EmptyString
  | x :: xs' => String c (x +:+ rest_text c xs')
  end.

(** What may follow an operand of a chain of [c]: the end of the
    text, or [c] and a letter. *)
Definition follows (c : ascii) (post : string) : Prop :=
  post = EmptyString ∨
  ∃ a post', post = String c (String a post') ∧ is_letter a = true.

(** What may follow a variable without an index: the end of the
    text, or a character that neither continues the name nor opens an
    index nor is a space. *)
Definition ends_name (post : string) : Prop :=
  match post with
  | EmptyString => True
  | String c _ => is_name_char c = false ∧ c ≠ "["%char ∧ c ≠ " "%char
  end.

(** The text [s1 x1 s2 x2 ...] that continues a sum, each term being
    a name with the sign before it, [true] for [-]; and the node that
    the sum holds for a term. *)
Fixpoint signed_text (ts : list (bool * string)) : string :=
  match ts with
  | [] => EmptyString
  | (negative, x) :: ts' =>
      String (if negative then "-"%char else "+"%char)
        (x +:+ signed_text ts')
  end.

Definition term_node (m : Z) (f : bool) (t : bool * string) : Node.t :=
  if t.1 then Op Node.PRODUCT m f [Const m f (-1); Var m f t.2]
  else Var m f t.2.

(** The four operators whose operands are collected by the same
    loop, with the kind of the node they build. *)
Definition chain_operator (c : ascii) : option Node.NodeType :=
  if decide (c = "|"%char) then Some Node.INCL_DISJUNCTION
  else if decide (c = "^"%char) then Some Node.EXCL_DISJUNCTION
  else if decide (c = "&"%char) then Some Node.CONJUNCTION
  else if decide (c = "*"%char) then Some Node.PRODUCT
  else None.

(** The condition and the operand rule of the chain of [c], the fuel
    being that of the terminal rule. *)
Definition chain_cond (c : ascii) : Parser.t → bool :=
  if decide (c = "*"%char) then Parser.has_multiplicator
  else Parser.is_char c.

Definition chain_operand (c : ascii) (fuel : nat)
    : Parser.M (option Node.t) :=
  if decide (c = "|"%char)
  then Parser.parse_exclusive_disjunction (7 + fuel)
  else if decide (c = "^"%char) then Parser.parse_conjunction (6 + fuel)
  else if decide (c = "&"%char) then Parser.parse_shift (5 + fuel)
  else Parser.parse_factor (2 + fuel).

(** ** [try_merge] *)

Section diff_loop.

Implicit Types v : list (option Z).

Lemma diff_loop_positions v1 : ∀ v2 (i : nat) (d : Z),
  Implicant.diff_loop (Z.of_nat i) v1 v2 d =
  match diff_positions i v1 v2 with
  | [] => Some d
  | k :: more =>
      if decide (d ≠ (-1)%Z) then None
      else match more with
           | [] => Some (Z.of_nat k)
           | _ :: _ => None
           end
  end.
Proof.
  induction v1 as [|x v1 IH]; intros [|y v2] i d; simpl; try done.
  replace (Z.of_nat i + 1)%Z with (Z.of_nat (S i)) by lia.
  destruct (decide (x = y)) as [->|Hxy]; [apply IH|].
  destruct (decide (d ≠ (-1)%Z)) as [Hd|Hd]; [done|].
  rewrite IH. destruct (diff_positions (S i) v1 v2); [done|].
  rewrite decide_True; [done|lia].
Qed.

Lemma diff_positions_ge v1 : ∀ v2 i k,
  k ∈ diff_positions i v1 v2 → i ≤ k.
Proof.
  induction v1 as [|x v1 IH]; intros [|y v2] i k; simpl;
    try (by intros ?%elem_of_nil).
  destruct (decide (x = y)).
  - intros ?%IH. lia.
  - intros [->|?%IH]%elem_of_cons; lia.
Qed.

Lemma diff_positions_nil v1 : ∀ v2 i,
  length v1 = length v2 → diff_positions i v1 v2 = [] → v1 = v2.
Proof.
  induction v1 as [|x v1 IH]; intros [|y v2] i; simpl; try done.
  intros [= Hlen]. destruct (decide (x = y)) as [->|]; [|done].
  intros ?%IH; [by f_equal|done].
Qed.

Lemma diff_positions_refl v : ∀ i, diff_positions i v v = [].
Proof.
  induction v as [|x v IH]; intros i; simpl; [done|].
  by rewrite decide_True.
Qed.

(** Exactly one differing position splits both vectors around it. *)
Lemma diff_positions_singleton v1 : ∀ v2 i k,
  length v1 = length v2 → diff_positions i v1 v2 = [k] →
  ∃ pre x y suf,
    v1 = pre ++ x :: suf ∧ v2 = pre ++ y :: suf ∧ x ≠ y ∧
    k = i + length pre.
Proof.
  induction v1 as [|x v1 IH]; intros [|y v2] i k; simpl; try done.
  intros [= Hlen]. destruct (decide (x = y)) as [->|Hxy].
  - intros (pre & x' & y' & suf & -> & -> & ? & ->)%IH; [|done].
    exists (y :: pre), x', y', suf. simpl. repeat split; try done; lia.
  - intros [= -> Hnil]. apply diff_positions_nil in Hnil as ->; [|done].
    exists [], x, y, v2. simpl. repeat split; try done; lia.
Qed.

Lemma diff_positions_lookup v1 : ∀ v2 i k,
  length v1 = length v2 →
  (i + k) ∈ diff_positions i v1 v2 ↔
  k < length v1 ∧ v1 !! k ≠ v2 !! k.
Proof.
  induction v1 as [|x v1 IH]; intros [|y v2] i k; simpl; try done.
  - intros _. split; [by intros ?%elem_of_nil|]. intros [? _]. lia.
  - intros [= Hlen]. destruct k as [|k]; simpl.
    + destruct (decide (x = y)) as [->|Hxy].
      * split; [|by intros [_ []]].
        intros ?%diff_positions_ge. lia.
      * split; [intros _; split; [lia|congruence]|].
        intros _. replace (i + 0) with i by lia. left.
    + replace (i + S k) with (S i + k) by lia.
      destruct (decide (x = y)) as [->|Hxy].
      * rewrite IH by done. split; intros [? ?]; (split; [lia|done]).
      * rewrite elem_of_cons, IH by done.
        split; [intros [?|[? ?]]; [lia|split; [lia|done]]|].
        intros [? ?]. right. split; [lia|done].
Qed.

End diff_loop.

(** [try_merge] on vectors of equal length, as a function of the
    positions at which they differ. *)
Lemma try_merge_positions (a b : Implicant.t) :
  length (Implicant.vec a) = length (Implicant.vec b) →
  Implicant.try_merge a b =
  match diff_positions 0 (Implicant.vec a) (Implicant.vec b) with
  | [] => Ok (Some (merged a b None))
  | [i] => Ok (Some (merged a b (Some i)))
  | _ :: _ :: _ => Ok None
  end.
Proof.
  intros Hlen. unfold Implicant.try_merge.
  rewrite decide_True by done.
  change 0%Z with (Z.of_nat 0). rewrite diff_loop_positions.
  destruct (diff_positions 0 _ _) as [|i [|i' more]] eqn:Hd; simpl.
  - done.
  - rewrite decide_True by lia. by rewrite Nat2Z.id.
  - done.
Qed.

Lemma diff_positions_NoDup (v1 : list (option Z)) : ∀ v2 i,
  NoDup (diff_positions i v1 v2).
Proof.
  induction v1 as [|x v1 IH]; intros [|y v2] i; simpl; try constructor.
  destruct (decide (x = y)); [apply IH|].
  constructor; [|apply IH].
  intros ?%diff_positions_ge. lia.
Qed.

Lemma one_assigned_difference_positions (a b : Implicant.t) :
  length (Implicant.vec a) = length (Implicant.vec b) →
  one_assigned_difference a b →
  ∃ i, diff_positions 0 (Implicant.vec a) (Implicant.vec b) = [i].
Proof.
  intros Hlen (i & x & y & Ha & Hb & Hxy & Hrest). exists i.
  assert (Hin : ∀ k, k ∈ diff_positions 0 (Implicant.vec a) (Implicant.vec b)
                     ↔ k = i).
  { intros k. rewrite (diff_positions_lookup _ _ 0 k Hlen). split.
    - intros [_ Hne]. destruct (decide (k = i)); [done|].
      by specialize (Hrest k ltac:(done)).
    - intros ->. split; [by eapply lookup_lt_Some|].
      rewrite Ha, Hb. congruence. }
  pose proof (diff_positions_NoDup (Implicant.vec a) (Implicant.vec b) 0) as Hnd.
  destruct (diff_positions 0 _ _) as [|k [|k' more]].
  - exfalso. by eapply elem_of_nil, Hin.
  - f_equal. apply Hin. left.
  - exfalso. assert (k = i) as -> by (apply Hin; left).
    assert (k' = i) as -> by (apply Hin; right; left).
    apply NoDup_cons in Hnd as [Hni _]. apply Hni. left.
Qed.

(** C2, as the code has it. On vectors of equal length [try_merge]
    produces an implicant exactly when the vectors differ in at most
    one slot, a don't-care slot against an assigned one counting as a
    difference like any other; two or more differences give [None].
    The result has the receiver's slots with the differing slot (if
    any) set to don't-care, the minterms of the receiver followed by
    those of the argument (as a set, the union), and a cleared
    [obsolete] flag. In particular a single difference between two
    assigned slots merges. *)
Theorem try_merge_spec (a b : Implicant.t) :
  length (Implicant.vec a) = length (Implicant.vec b) →
  let ds := diff_positions 0 (Implicant.vec a) (Implicant.vec b) in
  (∀ k, k ∈ ds ↔
        k < length (Implicant.vec a) ∧
        Implicant.vec a !! k ≠ Implicant.vec b !! k) ∧
  ((∃ q, Implicant.try_merge a b = Ok (Some q)) ↔ length ds ≤ 1) ∧
  (Implicant.try_merge a b = Ok None ↔ 2 ≤ length ds) ∧
  (∀ q, Implicant.try_merge a b = Ok (Some q) →
        q = merged a b (head ds) ∧
        minterm_set q = minterm_set a ∪ minterm_set b) ∧
  (one_assigned_difference a b →
   ∃ i, ds = [i] ∧ Implicant.try_merge a b = Ok (Some (merged a b (Some i)))).
Proof.
  intros Hlen ds. pose proof (try_merge_positions a b Hlen) as Hm.
  fold ds in Hm. split; [|split; [|split; [|split]]].
  - intros k. apply (diff_positions_lookup _ _ 0 k Hlen).
  - rewrite Hm. destruct ds as [|i [|i' more]]; simpl.
    + split; [lia|eauto].
    + split; [lia|eauto].
    + split; [by intros [? ?]|lia].
  - rewrite Hm. destruct ds as [|i [|i' more]]; simpl;
      (split; [done || lia|done || lia]).
  - intros q. rewrite Hm.
    assert (Hset : ∀ s, minterm_set (merged a b s)
                        = minterm_set a ∪ minterm_set b).
    { intros s. unfold minterm_set, merged. simpl.
      apply list_to_set_app_L. }
    destruct ds as [|i [|i' more]]; simpl; intros [= <-]; by rewrite Hset.
  - intros [i Hi]%one_assigned_difference_positions; [|done].
    exists i. fold ds in Hi. by rewrite Hm, Hi.
Qed.

Lemma try_merge_spec_witness :
  let a := Implicant.mk [Some 0; Some 1]%Z [2%Z] false in
  let b := Implicant.mk [Some 1; Some 1]%Z [3%Z] false in
  length (Implicant.vec a) = length (Implicant.vec b) ∧
  ((∃ q, Implicant.try_merge a b = Ok (Some q)) ↔
   length (diff_positions 0 (Implicant.vec a) (Implicant.vec b)) ≤ 1).
Proof.
  intros a b. split; [reflexivity|].
  exact (proj1 (proj2 (try_merge_spec a b eq_refl))).
Defined.

(** C2 as worded fails: two implicants with the same vector merge,
    although no slot differs. *)
Lemma try_merge_no_difference_merges :
  let a := Implicant.mk [Some 1%Z] [1%Z] false in
  Implicant.try_merge a a = Ok (Some (Implicant.mk [Some 1%Z] [1; 1]%Z false))
  ∧ ¬ one_assigned_difference a a.
Proof.
  intros a. split; [reflexivity|].
  intros (i & x & y & Ha & Hb & Hxy & _). congruence.
Qed.

(** A lone difference between a don't-care slot and an assigned slot
    merges as well. *)
Lemma try_merge_dont_care_difference_merges :
  let a := Implicant.mk [None; Some 0%Z] [0; 1]%Z false in
  let b := Implicant.mk [Some 1%Z; Some 0%Z] [1%Z] false in
  Implicant.try_merge a b
  = Ok (Some (Implicant.mk [None; Some 0%Z] [0; 1; 1]%Z false))
  ∧ ¬ one_assigned_difference a b.
Proof.
  intros a b. split; [reflexivity|].
  intros (i & x & y & Ha & Hb & Hxy & Hrest).
  destruct i as [|[|i]]; simpl in *; try done.
  specialize (Hrest 0 ltac:(done)). done.
Qed.

(** ** [try_merge] over the store *)

Section store.

Implicit Types (h : gmap positive Store.obj) (l : positive).

Lemma bind_ok {A B} (m : Store.H A) (f : A → Store.H B) h a h1 :
  m h = Ok (a, h1) → (m ≫= f) h = f a h1.
Proof. intros Hm. unfold mbind, Store.H_bind. by rewrite Hm. Qed.

Lemma alloc_ok o h :
  ∃ l, Store.alloc o h = Ok (l, <[l := o]> h) ∧ h !! l = None.
Proof.
  exists (fresh (dom h)). split; [done|].
  apply not_elem_of_dom, is_fresh.
Qed.

Lemma read_list_ok l xs h :
  h !! l = Some (Store.List xs) → Store.read_list l h = Ok (xs, h).
Proof. intros Hl. unfold Store.read_list. by rewrite Hl. Qed.

Lemma write_list_ok l xs ys h :
  h !! l = Some (Store.List xs) →
  Store.write_list l ys h = Ok (tt, <[l := Store.List ys]> h).
Proof. intros Hl. unfold Store.write_list. by rewrite Hl. Qed.

Lemma read_impl_ok l v m o h :
  h !! l = Some (Store.Impl v m o) → Store.read_impl l h = Ok ((v, m, o), h).
Proof. intros Hl. unfold Store.read_impl. by rewrite Hl. Qed.

Lemma vec_of_ok l v m o xs h :
  h !! l = Some (Store.Impl v m o) → h !! v = Some (Store.List xs) →
  Store.vec_of l h = Ok (xs, h).
Proof.
  intros Hl Hv. unfold Store.vec_of.
  rewrite (bind_ok _ _ _ _ _ (read_impl_ok _ _ _ _ _ Hl)).
  by apply read_list_ok.
Qed.

Lemma minterms_of_ok l v m o ms h :
  h !! l = Some (Store.Impl v m o) → h !! m = Some (Store.List ms) →
  Store.minterms_of l h = Ok (ms, h).
Proof.
  intros Hl Hm. unfold Store.minterms_of.
  rewrite (bind_ok _ _ _ _ _ (read_impl_ok _ _ _ _ _ Hl)).
  by apply read_list_ok.
Qed.

Lemma set_vec_field_ok l v v' m o h :
  h !! l = Some (Store.Impl v m o) →
  Store.set_vec_field l v' h = Ok (tt, <[l := Store.Impl v' m o]> h).
Proof. intros Hl. unfold Store.set_vec_field. by rewrite Hl. Qed.

Lemma set_minterms_field_ok l v m m' o h :
  h !! l = Some (Store.Impl v m o) →
  Store.set_minterms_field l m' h = Ok (tt, <[l := Store.Impl v m' o]> h).
Proof. intros Hl. unfold Store.set_minterms_field. by rewrite Hl. Qed.

(** The constructor called with the sentinel: three new objects. *)
Lemma new_sentinel_ok n h :
  ∃ self v m h',
    Store.new n (-1) h = Ok (self, h') ∧
    h ⊆ h' ∧ h !! self = None ∧
    h' !! self = Some (Store.Impl v m false).
Proof.
  unfold Store.new.
  destruct (alloc_ok (Store.List []) h) as (v & Hv & Hvf).
  rewrite (bind_ok _ _ _ _ _ Hv). rewrite decide_True by done.
  destruct (alloc_ok (Store.List []) (<[v:=Store.List []]> h))
    as (m & Hm & Hmf).
  rewrite (bind_ok _ _ _ _ _ Hm).
  destruct (alloc_ok (Store.Impl v m false)
              (<[m:=Store.List []]> (<[v:=Store.List []]> h)))
    as (self & Hs & Hsf).
  rewrite (bind_ok _ _ _ _ _ Hs).
  exists self, v, m. eexists. split; [reflexivity|].
  apply lookup_insert_None in Hmf as [Hmf ?].
  apply lookup_insert_None in Hsf as [Hsf ?].
  apply lookup_insert_None in Hsf as [Hsf ?].
  split; [|split; [done|by rewrite lookup_insert_eq]].
  do 3 (apply insert_subseteq_r; [done|]). done.
Qed.

(** [__get_copy]: the copy and its two lists are new objects; nothing
    that was in the store changes. *)
Lemma get_copy_ok self v m o xs ms h :
  h !! self = Some (Store.Impl v m o) →
  h !! v = Some (Store.List xs) → h !! m = Some (Store.List ms) →
  ∃ cpy v' m' h',
    Store.get_copy self h = Ok (cpy, h') ∧
    h ⊆ h' ∧
    h !! cpy = None ∧ h !! v' = None ∧ h !! m' = None ∧
    cpy ≠ v' ∧ cpy ≠ m' ∧ v' ≠ m' ∧
    h' !! cpy = Some (Store.Impl v' m' false) ∧
    h' !! v' = Some (Store.List xs) ∧
    h' !! m' = Some (Store.List ms).
Proof.
  intros Hself Hv Hm. unfold Store.get_copy.
  rewrite (bind_ok _ _ _ _ _ (vec_of_ok _ _ _ _ _ _ Hself Hv)).
  destruct (new_sentinel_ok (length xs) h)
    as (cpy & v0 & m0 & h1 & Hnew & Hsub1 & Hcf & Hc1).
  rewrite (bind_ok _ _ _ _ _ Hnew).
  destruct (alloc_ok (Store.List xs) h1) as (v' & Hv' & Hv'f).
  rewrite (bind_ok _ _ _ _ _ Hv').
  assert (cpy ≠ v') by congruence.
  rewrite (bind_ok _ _ _ _ _ (set_vec_field_ok cpy v0 v' m0 false
             (<[v':=Store.List xs]> h1)
             ltac:(by rewrite lookup_insert_ne))).
  set (h2 := <[cpy:=Store.Impl v' m0 false]> (<[v':=Store.List xs]> h1)).
  assert (Hsub2 : h ⊆ h2).
  { unfold h2. apply insert_subseteq_r; [done|].
    apply insert_subseteq_r; [|done].
    destruct (h !! v') eqn:E; [|done].
    eapply lookup_weaken in E; [|done]. congruence. }
  rewrite (bind_ok _ _ _ _ _ (minterms_of_ok self v m o ms h2
             ltac:(by eapply lookup_weaken) ltac:(by eapply lookup_weaken))).
  destruct (alloc_ok (Store.List ms) h2) as (m' & Hm' & Hm'f).
  rewrite (bind_ok _ _ _ _ _ Hm').
  assert (cpy ≠ m').
  { intros <-. unfold h2 in Hm'f. by rewrite lookup_insert_eq in Hm'f. }
  assert (v' ≠ m').
  { intros <-. unfold h2 in Hm'f.
    rewrite lookup_insert_ne, lookup_insert_eq in Hm'f; done. }
  rewrite (bind_ok _ _ _ _ _ (set_minterms_field_ok cpy v' m0 m' false
             (<[m':=Store.List ms]> h2)
             ltac:(rewrite lookup_insert_ne by done; unfold h2;
                   by rewrite lookup_insert_eq))).
  exists cpy, v', m'. eexists. split; [reflexivity|].
  assert (h !! v' = None).
  { destruct (h !! v') eqn:E; [|done].
    eapply lookup_weaken in E; [|exact Hsub1]. congruence. }
  assert (h !! m' = None).
  { destruct (h !! m') eqn:E; [|done].
    eapply lookup_weaken in E; [|exact Hsub2]. congruence. }
  split; [|split; [done|split; [done|split; [done|]]]].
  { apply insert_subseteq_r; [done|]. by apply insert_subseteq_r. }
  split; [done|split; [done|split; [done|]]].
  split; [by rewrite lookup_insert_eq|].
  split.
  - rewrite lookup_insert_ne, lookup_insert_ne by done. unfold h2.
    rewrite lookup_insert_ne by done. by rewrite lookup_insert_eq.
  - rewrite lookup_insert_ne by done. by rewrite lookup_insert_eq.
Qed.

(** C10. [try_merge] on operands with vectors of equal length returns
    normally and leaves the store it found as it was: every object
    that existed before the call, so both operands with their
    [obsolete] flags and the two lists each of them refers to, is
    unchanged after it, whether or not a merge is produced. A result
    is a new implicant object whose vector and minterm lists are new
    objects as well, so that it shares no list with an operand; its
    flag is cleared and its lists hold the merged vector and the
    minterms of both operands. *)
Theorem try_merge_frame h self other v1 m1 o1 xs ms1 v2 m2 o2 ys ms2 :
  h !! self = Some (Store.Impl v1 m1 o1) →
  h !! v1 = Some (Store.List xs) → h !! m1 = Some (Store.List ms1) →
  h !! other = Some (Store.Impl v2 m2 o2) →
  h !! v2 = Some (Store.List ys) → h !! m2 = Some (Store.List ms2) →
  length xs = length ys →
  ∃ r h',
    Store.try_merge self other h = Ok (r, h') ∧
    (∀ l o, h !! l = Some o → h' !! l = Some o) ∧
    match r with
    | None => h' = h ∧ 2 ≤ length (diff_positions 0 xs ys)
    | Some n =>
        ∃ v m,
          h !! n = None ∧ h !! v = None ∧ h !! m = None ∧
          h' !! n = Some (Store.Impl v m false) ∧
          h' !! v = Some (Store.List
                            (match head (diff_positions 0 xs ys) with
                             | Some i => <[i := None]> xs
                             | None => xs
                             end)) ∧
          h' !! m = Some (Store.List (ms1 ++ ms2))
    end.
Proof.
  intros Hself Hv1 Hm1 Hother Hv2 Hm2 Hlen. unfold Store.try_merge.
  rewrite (bind_ok _ _ _ _ _ (vec_of_ok _ _ _ _ _ _ Hself Hv1)).
  rewrite (bind_ok _ _ _ _ _ (vec_of_ok _ _ _ _ _ _ Hother Hv2)).
  rewrite decide_True by done.
  change 0%Z with (Z.of_nat 0). rewrite diff_loop_positions.
  pose proof (diff_positions_lookup xs ys 0) as Hpos.
  destruct (diff_positions 0 xs ys) as [|i more] eqn:Hds.
  2: destruct more as [|i' more]; simpl.
  3: { exists None, h. split; [done|]. split; [done|]. simpl.
       split; [done|lia]. }
  all: destruct (get_copy_ok self v1 m1 o1 xs ms1 h Hself Hv1 Hm1)
         as (cpy & v' & m' & h1 & Hcopy & Hsub & Hcf & Hvf & Hmf
             & Hcv & Hcm & Hvm & Hc1 & Hv1' & Hm1').
  all: rewrite (bind_ok _ _ _ _ _ Hcopy).
  all: rewrite (bind_ok _ _ _ _ _ (read_impl_ok _ _ _ _ _ Hc1)).
  all: rewrite (bind_ok _ _ _ _ _ (read_list_ok _ _ _ Hm1')).
  all: rewrite (bind_ok _ _ _ _ _ (minterms_of_ok other v2 m2 o2 ms2 h1
         ltac:(by eapply lookup_weaken) ltac:(by eapply lookup_weaken))).
  all: rewrite (bind_ok _ _ _ _ _
                  (write_list_ok m' ms1 (ms1 ++ ms2) h1 Hm1')).
  all: rewrite (bind_ok _ _ _ _ _
         (set_minterms_field_ok cpy v' m' m' false
            (<[m':=Store.List (ms1 ++ ms2)]> h1)
            ltac:(by rewrite lookup_insert_ne))).
  all: set (h3 := <[cpy:=Store.Impl v' m' false]>
                    (<[m':=Store.List (ms1 ++ ms2)]> h1)).
  all: assert (Hsub3 : h ⊆ h3)
         by (unfold h3; do 2 (apply insert_subseteq_r; [done|]); done).
  all: assert (Hc3 : h3 !! cpy = Some (Store.Impl v' m' false))
         by (unfold h3; by rewrite lookup_insert_eq).
  all: assert (Hv3 : h3 !! v' = Some (Store.List xs))
         by (unfold h3; by rewrite !lookup_insert_ne).
  all: assert (Hm3 : h3 !! m' = Some (Store.List (ms1 ++ ms2)))
         by (unfold h3; rewrite lookup_insert_ne by done;
             by rewrite lookup_insert_eq).
  - (* no difference: the copy is returned as it is *)
    rewrite decide_False by lia.
    exists (Some cpy), h3. split; [done|].
    split; [intros l o Hl; by eapply lookup_weaken|].
    exists v', m'. by simpl.
  - (* one difference at [i]: the slot of the copy is cleared *)
    rewrite decide_True by lia. rewrite Nat2Z.id.
    assert (i < length xs).
    { apply (Hpos i Hlen). simpl. left. }
    match goal with
    | |- context [mbind ?k ?m] =>
        assert (m h3 = Ok (tt, <[v':=Store.List (<[i:=None]> xs)]> h3))
          as Hw
    end.
    { rewrite (bind_ok _ _ _ _ _ (read_impl_ok _ _ _ _ _ Hc3)).
      rewrite (bind_ok _ _ _ _ _ (read_list_ok _ _ _ Hv3)).
      rewrite decide_True by done. by eapply write_list_ok. }
    rewrite (bind_ok _ _ _ _ _ Hw).
    exists (Some cpy). eexists. split; [reflexivity|].
    split.
    { intros l o Hl. eapply lookup_weaken; [exact Hl|].
      by apply insert_subseteq_r. }
    exists v', m'. simpl.
    rewrite lookup_insert_eq, !lookup_insert_ne by done. done.
Qed.

End store.

Lemma try_merge_frame_witness :
  let h : gmap positive Store.obj :=
    {[ 1%positive := Store.Impl 2 3 false;
       2%positive := Store.List [Some 0%Z];
       3%positive := Store.List [Some 0%Z];
       4%positive := Store.Impl 5 6 true;
       5%positive := Store.List [Some 1%Z];
       6%positive := Store.List [Some 1%Z] ]} in
  ∃ r h',
    Store.try_merge 1 4 h = Ok (r, h') ∧
    (∀ l o, h !! l = Some o → h' !! l = Some o) ∧
    match r with
    | None =>
        h' = h ∧ 2 ≤ length (diff_positions 0 [Some 0%Z] [Some 1%Z])
    | Some n =>
        ∃ v m,
          h !! n = None ∧ h !! v = None ∧ h !! m = None ∧
          h' !! n = Some (Store.Impl v m false) ∧
          h' !! v = Some (Store.List
                            (match head (diff_positions 0 [Some 0%Z]
                                           [Some 1%Z]) with
                             | Some i => <[i := None]> [Some 0%Z]
                             | None => [Some 0%Z]
                             end)) ∧
          h' !! m = Some (Store.List ([Some 0%Z] ++ [Some 1%Z]))
    end.
Proof.
  intros h.
  apply (try_merge_frame h 1 4 2 3 false [Some 0%Z] [Some 0%Z]
           5 6 true [Some 1%Z] [Some 1%Z]);
    reflexivity.
Defined.

(** ** The pruning pass *)

Lemma true_indices_spec (tv : list Z) : ∀ (i : Z) (j : Z),
  j ∈ Dnf.true_indices i tv ↔
  ∃ k : nat, j = (i + Z.of_nat k)%Z ∧ tv !! k = Some 1%Z.
Proof.
  induction tv as [|bit tv IH]; intros i j; simpl.
  - split; [by intros ?%elem_of_nil|]. by intros (k & _ & ?).
  - assert (Hrest : j ∈ Dnf.true_indices (i + 1) tv ↔
                    ∃ k : nat, j = (i + Z.of_nat (S k))%Z ∧ tv !! k = Some 1%Z).
    { rewrite IH. split; intros (k & -> & ?); exists k; split; (lia || done). }
    destruct (decide (bit = 1%Z)) as [->|Hbit].
    + rewrite elem_of_cons, Hrest. split.
      * intros [->|(k & -> & ?)]; [exists 0|exists (S k)]; split;
          (lia || done).
      * intros ([|k] & -> & Hk); [left; lia|right; by exists k].
    + rewrite Hrest. split.
      * intros (k & -> & ?). by exists (S k).
      * intros ([|k] & -> & Hk); [simpl in Hk; congruence|by exists k].
Qed.

Lemma required_spec (tv : list Z) (j : Z) :
  j ∈ (list_to_set (Dnf.true_indices 0 tv) : gset Z) ↔ true_at tv j.
Proof.
  rewrite elem_of_list_to_set, true_indices_spec. unfold true_at. split.
  - intros (k & -> & Hk). split; [lia|].
    by replace (Z.to_nat (0 + Z.of_nat k)) with k by lia.
  - intros [Hj Hk]. exists (Z.to_nat j). split; [lia|done].
Qed.

Lemma drop_loop_prune (rest : list Implicant.t) :
  ∀ (kept : list Implicant.t) (requ : gset Z) (fuel : nat),
    length rest ≤ fuel →
    Dnf.drop_loop fuel (length kept) (kept ++ rest) requ
    = Ok (kept ++ prune rest requ).
Proof.
  induction rest as [|p rest IH]; intros kept requ fuel Hfuel.
  - simpl prune. rewrite !app_nil_r.
    destruct fuel; simpl; (rewrite lookup_ge_None_2 by lia); done.
  - destruct fuel as [|fuel]; [simpl in Hfuel; lia|].
    simpl in Hfuel. simpl.
    rewrite list_lookup_middle by done. fold (minterm_set p).
    destruct (decide (minterm_set p ∩ requ ≠ ∅)).
    + specialize (IH (kept ++ [p]) (requ ∖ minterm_set p) fuel).
      rewrite length_app, <- !(assoc_L (++)) in IH. simpl in IH.
      replace (length kept + 1) with (S (length kept)) in IH by lia.
      apply IH. lia.
    + replace (delete (length kept) (kept ++ p :: rest)) with (kept ++ rest).
      * apply IH. lia.
      * rewrite delete_middle. done.
Qed.

Lemma prune_sublist (primes : list Implicant.t) : ∀ requ : gset Z,
  prune primes requ `sublist_of` primes.
Proof.
  induction primes as [|p primes IH]; intros requ; simpl; [done|].
  destruct (decide (minterm_set p ∩ requ ≠ ∅)).
  - by apply sublist_skip.
  - by apply sublist_cons.
Qed.

Lemma drop_unrequired_run (tv : list Z) (primes : list Implicant.t) :
  Dnf.drop_unrequired_implicants tv primes
  = Ok (prune primes (list_to_set (Dnf.true_indices 0 tv))).
Proof.
  unfold Dnf.drop_unrequired_implicants.
  by apply (drop_loop_prune primes []).
Qed.

(** C8. The pruning pass equals the scan [prune] of the accumulated
    primes, in their order, started with the set of the indices at
    which the truth vector is 1: a prime is kept exactly when its
    minterms meet the set outstanding when it is examined, and its
    minterms are then removed from the set. What is left is a
    sub-list of the primes: nothing else is removed, nothing is
    reordered. *)
Theorem drop_unrequired_implicants_prune (tv : list Z)
    (primes : list Implicant.t) :
  ∃ requ : gset Z,
    (∀ j, j ∈ requ ↔ true_at tv j) ∧
    Dnf.drop_unrequired_implicants tv primes = Ok (prune primes requ) ∧
    prune primes requ `sublist_of` primes.
Proof.
  exists (list_to_set (Dnf.true_indices 0 tv)).
  split; [apply required_spec|].
  split; [apply drop_unrequired_run|apply prune_sublist].
Qed.

(** Every required index that some prime covers is still covered
    after pruning. *)
Lemma prune_covers (primes : list Implicant.t) : ∀ (requ : gset Z) (j : Z),
  j ∈ requ →
  (∃ p, p ∈ primes ∧ j ∈ Implicant.minterms p) →
  ∃ p, p ∈ prune primes requ ∧ j ∈ Implicant.minterms p.
Proof.
  induction primes as [|p primes IH]; intros requ j Hj (p0 & Hp0 & Hjp0).
  - by apply elem_of_nil in Hp0.
  - simpl. destruct (decide (j ∈ Implicant.minterms p)) as [Hjp|Hjp].
    + rewrite decide_True.
      * exists p. split; [left|done].
      * intros Hempty. apply (not_elem_of_empty (C:=gset Z) j).
        rewrite <- Hempty. apply elem_of_intersection.
        split; [by apply elem_of_list_to_set|done].
    + apply elem_of_cons in Hp0. destruct Hp0 as [->|Hp0]; [done|].
      destruct (decide (minterm_set p ∩ requ ≠ ∅)).
      * destruct (IH (requ ∖ minterm_set p) j) as (q & ? & ?).
        { unfold minterm_set. set_solver. }
        { by exists p0. }
        exists q. split; [by right|done].
      * apply IH; [done|by exists p0].
Qed.

(** ** The vectors of the implicants *)

Section vectors.

Implicit Types (v pre suf : list (option Z)) (s : option Z).

Lemma holds_from_app pre : ∀ suf (i j : Z),
  Implicant.holds_from i (pre ++ suf) j =
  Implicant.holds_from i pre j
  && Implicant.holds_from (i + Z.of_nat (length pre)) suf j.
Proof.
  induction pre as [|s pre IH]; intros suf i j; simpl.
  - by rewrite Z.add_0_r.
  - rewrite IH, <- andb_assoc. do 3 f_equal. lia.
Qed.

Lemma count_ones_app pre suf p q r :
  Implicant.vec p = pre ++ suf →
  Implicant.vec q = pre → Implicant.vec r = suf →
  Implicant.count_ones p = Implicant.count_ones q + Implicant.count_ones r.
Proof.
  unfold Implicant.count_ones. intros -> -> ->.
  by rewrite filter_app, length_app.
Qed.

Lemma none_count_app pre suf :
  none_count (pre ++ suf) = none_count pre + none_count suf.
Proof. unfold none_count. by rewrite filter_app, length_app. Qed.

Lemma none_count_cons s v :
  none_count (s :: v) = (if decide (s = None) then 1 else 0) + none_count v.
Proof.
  unfold none_count. rewrite filter_cons.
  by destruct (decide (s = None)).
Qed.

Lemma none_count_le v : none_count v ≤ length v.
Proof. apply length_filter. Qed.

Lemma count_ones_le p : Implicant.count_ones p ≤ length (Implicant.vec p).
Proof. apply length_filter. Qed.

(** *** Vectors built from an index *)

Lemma init_vec_length n : ∀ x, length (Implicant.init_vec n x) = n.
Proof. induction n as [|n IH]; intros x; simpl; by rewrite ?IH. Qed.

Lemma land_1 (x : Z) : Z.land x 1 = (if Z.odd x then 1 else 0)%Z.
Proof.
  change 1%Z with (Z.ones 1) at 1. rewrite Z.land_ones by lia.
  rewrite Z.pow_1_r, Zmod_odd. done.
Qed.

Lemma init_vec_binary n : ∀ x, binary_slots (Implicant.init_vec n x).
Proof.
  induction n as [|n IH]; intros x; simpl; constructor; [|apply IH].
  rewrite land_1. destruct (Z.odd x); auto.
Qed.

Lemma init_vec_none_count n : ∀ x, none_count (Implicant.init_vec n x) = 0.
Proof.
  induction n as [|n IH]; intros x; simpl; [done|].
  rewrite none_count_cons, IH. by rewrite decide_False.
Qed.

Lemma init_vec_holds n : ∀ (i x j : Z),
  (0 ≤ i)%Z →
  Implicant.holds_from i (Implicant.init_vec n (Z.shiftr x i)) j = true ↔
  ∀ t : Z, (i ≤ t < i + Z.of_nat n)%Z → Z.testbit j t = Z.testbit x t.
Proof.
  induction n as [|n IH]; intros i x j Hi; simpl.
  - split; [intros _ t ?; lia|done].
  - rewrite andb_true_iff, Z.shiftr_shiftr by lia. rewrite IH by lia.
    rewrite land_1, <- Z.bit0_odd, Z.shiftr_spec by lia.
    replace (0 + i)%Z with i by lia.
    assert (Hlit : Implicant.literal
                     (Some (if Z.testbit x i then 1 else 0)%Z)
                     (Z.testbit j i) = true
                   ↔ Z.testbit j i = Z.testbit x i).
    { unfold Implicant.literal.
      destruct (Z.testbit x i), (Z.testbit j i); simpl; split; done. }
    rewrite Hlit. split.
    + intros [H0 Hrest] t Ht.
      destruct (decide (t = i)) as [->|]; [done|]. apply Hrest. lia.
    + intros Hall. split; [apply Hall; lia|].
      intros t Ht. apply Hall. lia.
Qed.

Lemma low_bits_eq (n : nat) (j x : Z) :
  (0 ≤ j < 2 ^ Z.of_nat n)%Z → (0 ≤ x < 2 ^ Z.of_nat n)%Z →
  (∀ t : Z, (0 ≤ t < Z.of_nat n)%Z → Z.testbit j t = Z.testbit x t) →
  j = x.
Proof.
  intros Hj Hx Hbits. apply Z.bits_inj'. intros t Ht.
  destruct (decide (t < Z.of_nat n)%Z); [apply Hbits; lia|].
  rewrite <- (Z.mod_small j (2 ^ Z.of_nat n)) by lia.
  rewrite <- (Z.mod_small x (2 ^ Z.of_nat n)) by lia.
  by rewrite !Z.mod_pow2_bits_high by lia.
Qed.

Lemma popcount_step (x : Z) :
  (0 ≤ x)%Z →
  Dnf.popcount x = (if Z.odd x then 1 else 0) + Dnf.popcount (Z.div2 x).
Proof. destruct x as [|[p|p|]|p]; simpl; intros; (done || lia). Qed.

Lemma init_vec_count_ones n : ∀ x,
  (0 ≤ x < 2 ^ Z.of_nat n)%Z →
  length (filter (λ s, s = Some 1%Z) (Implicant.init_vec n x))
  = Dnf.popcount x.
Proof.
  induction n as [|n IH]; intros x Hx; simpl.
  - assert (x = 0%Z) as -> by (simpl in Hx; lia). done.
  - rewrite filter_cons, popcount_step, land_1 by lia.
    rewrite <- Z.div2_spec. rewrite <- IH.
    + by destruct (Z.odd x).
    + rewrite Z.div2_div. rewrite Nat2Z.inj_succ, Z.pow_succ_r in Hx by lia.
      split; [apply Z.div_pos; lia|].
      apply Z.div_lt_upper_bound; lia.
Qed.

End vectors.

(** The implicant of a single true index. *)
Lemma init_impl_ok (vnumber : nat) (tv : list Z) (i : Z) :
  (0 ≤ i < 2 ^ Z.of_nat vnumber)%Z → true_at tv i →
  impl_ok vnumber tv 0 (Implicant.init vnumber i) ∧
  Implicant.count_ones (Implicant.init vnumber i) = Dnf.popcount i ∧
  Implicant.obsolete (Implicant.init vnumber i) = false ∧
  Implicant.minterms (Implicant.init vnumber i) = [i] ∧
  Dnf.popcount i < vnumber + 1.
Proof.
  intros Hi Htrue. unfold Implicant.init. rewrite decide_False by lia.
  assert (Hones : length (filter (λ s, s = Some 1%Z)
                            (Implicant.init_vec vnumber i))
                  = Dnf.popcount i) by by apply init_vec_count_ones.
  split; [|split; [done|split; [done|split; [done|]]]].
  - split; simpl.
    + apply init_vec_length.
    + apply init_vec_binary.
    + apply init_vec_none_count.
    + intros j Hj. unfold Implicant.holds. simpl.
      rewrite <- (Z.shiftr_0_r i) at 1. rewrite init_vec_holds by lia.
      rewrite list_elem_of_singleton. split.
      * intros Hbits. apply (low_bits_eq vnumber); [done|done|].
        intros t Ht. apply Hbits. lia.
      * by intros ->.
    + by intros j ->%list_elem_of_singleton.
  - rewrite <- Hones.
    pose proof (length_filter (λ s, s = Some 1%Z)
                  (Implicant.init_vec vnumber i)) as Hle.
    rewrite init_vec_length in Hle. lia.
Qed.

(** ** One merge *)

Section one_merge.

Context (vnumber : nat) (tv : list Z).

Lemma same_data_impl_ok r p p' :
  same_data p p' → impl_ok vnumber tv r p → impl_ok vnumber tv r p'.
Proof.
  intros [Hv Hm] [H1 H2 H3 H4 H5].
  split; rewrite <- ?Hv, <- ?Hm; try done.
  intros j Hj. unfold Implicant.holds. rewrite <- ?Hv, <- ?Hm. by apply H4.
Qed.

Lemma same_data_count_ones p p' :
  same_data p p' → Implicant.count_ones p' = Implicant.count_ones p.
Proof. intros [Hv _]. unfold Implicant.count_ones. by rewrite Hv. Qed.

Lemma same_data_refl p : same_data p p.
Proof. done. Qed.

Lemma same_data_set_obsolete b p : same_data p (Implicant.set_obsolete b p).
Proof. done. Qed.

(** Two implicants of the same round taken from neighbouring groups
    either do not merge, or differ in one slot that is assigned in
    both, and then their merge is an implicant of the next round. *)
Lemma try_merge_round r k a b :
  impl_ok vnumber tv r a → impl_ok vnumber tv r b →
  Implicant.count_ones a = k → Implicant.count_ones b = S k →
  ∃ res, Implicant.try_merge a b = Ok res ∧
    ∀ q, res = Some q →
      impl_ok vnumber tv (S r) q ∧
      Implicant.obsolete q = false ∧
      Implicant.minterms q = Implicant.minterms a ++ Implicant.minterms b.
Proof.
  intros Ha Hb Hka Hkb.
  assert (Hlen : length (Implicant.vec a) = length (Implicant.vec b)).
  { by rewrite (ok_length _ _ _ _ Ha), (ok_length _ _ _ _ Hb). }
  rewrite (try_merge_positions a b Hlen).
  destruct (diff_positions 0 (Implicant.vec a) (Implicant.vec b))
    as [|i [|i' more]] eqn:Hds.
  - (* the vectors would be equal, but their numbers of ones differ *)
    apply diff_positions_nil in Hds; [|done].
    unfold Implicant.count_ones in Hka, Hkb. rewrite Hds in Hka. lia.
  - apply diff_positions_singleton in Hds
      as (pre & x & y & suf & Hva & Hvb & Hxy & Hi); [|done].
    simpl in Hi. subst i.
    eexists. split; [reflexivity|]. intros q [= <-].
    (* the differing slot is assigned on both sides *)
    pose proof (ok_nones _ _ _ _ Ha) as Hna.
    pose proof (ok_nones _ _ _ _ Hb) as Hnb.
    rewrite Hva, none_count_app, none_count_cons in Hna.
    rewrite Hvb, none_count_app, none_count_cons in Hnb.
    pose proof (ok_slots _ _ _ _ Ha) as Hsa.
    pose proof (ok_slots _ _ _ _ Hb) as Hsb.
    rewrite Hva in Hsa. rewrite Hvb in Hsb.
    apply Forall_app in Hsa as [Hpre Hsa].
    apply Forall_cons in Hsa as [Hx Hsuf].
    apply Forall_app in Hsb as [_ Hsb]. apply Forall_cons in Hsb as [Hy _].
    assert (Hxy' : (x = Some 0%Z ∧ y = Some 1%Z)
                   ∨ (x = Some 1%Z ∧ y = Some 0%Z)).
    { destruct Hx as [-> | [-> | ->]], Hy as [-> | [-> | ->]];
        try rewrite decide_True in Hna by done;
        try rewrite decide_True in Hnb by done;
        try rewrite decide_False in Hna by done;
        try rewrite decide_False in Hnb by done;
        try done; try lia; auto. }
    assert (Hvq : Implicant.vec (merged a b (Some (length pre)))
                  = pre ++ None :: suf).
    { simpl. rewrite Hva. rewrite insert_app_r_alt by lia.
      by rewrite Nat.sub_diag. }
    split; [|done]. split.
    + rewrite Hvq, length_app. simpl.
      rewrite <- (ok_length _ _ _ _ Ha), Hva, length_app. done.
    + rewrite Hvq. apply Forall_app. split; [done|].
      apply Forall_cons. split; [auto|done].
    + rewrite Hvq, none_count_app, none_count_cons.
      rewrite decide_True by done.
      destruct Hxy' as [[-> ->]|[-> ->]]; rewrite decide_False in Hna by done;
        lia.
    + intros j Hj. simpl. rewrite elem_of_app.
      rewrite <- (ok_holds _ _ _ _ Ha j Hj), <- (ok_holds _ _ _ _ Hb j Hj).
      unfold Implicant.holds. rewrite Hvq, Hva, Hvb.
      rewrite !holds_from_app. simpl.
      destruct (Implicant.holds_from 0 pre j); simpl; [|intuition congruence].
      destruct (Implicant.holds_from _ suf j);
        rewrite ?andb_true_r, ?andb_false_r; [|intuition congruence].
      unfold Implicant.literal.
      destruct Hxy' as [[-> ->]|[-> ->]]; simpl;
        destruct (Z.testbit j _); simpl; intuition congruence.
    + intros j. simpl. rewrite elem_of_app.
      intros [?|?]; [by eapply (ok_true _ _ _ _ Ha)|by eapply (ok_true _ _ _ _ Hb)].
  - eexists. split; [reflexivity|]. by intros q.
Qed.

End one_merge.

(** ** The loops of a merge round *)

Lemma result_bind_ok {A B} (m : result A) (f : A → result B) (a : A) :
  m = Ok a → (m ≫= f) = f a.
Proof. by intros ->. Qed.

Lemma elem_of_concat {A} (x : A) (ls : list (list A)) :
  x ∈ concat ls ↔ ∃ k l, ls !! k = Some l ∧ x ∈ l.
Proof.
  rewrite list_elem_of_In, in_concat. split.
  - intros (l & Hl & Hx). apply list_elem_of_In, list_elem_of_lookup in Hl as [k Hk].
    exists k, l. by rewrite <- list_elem_of_In in Hx.
  - intros (k & l & Hk & Hx). exists l.
    split; apply list_elem_of_In; [by eapply list_elem_of_lookup_2|done].
Qed.

Lemma append_at_ok (k : nat) (x : Implicant.t) (gs : list (list Implicant.t)) :
  k < length gs →
  ∃ gs', Dnf.append_at k x gs = Ok gs' ∧
    length gs' = length gs ∧
    (∀ k' g' p, gs' !! k' = Some g' → p ∈ g' →
       (∃ g, gs !! k' = Some g ∧ p ∈ g) ∨ (k' = k ∧ p = x)) ∧
    (∀ q, q ∈ concat gs' ↔ q ∈ concat gs ∨ q = x).
Proof.
  intros Hk. destruct (lookup_lt_is_Some_2 gs k Hk) as [g Hg].
  unfold Dnf.append_at. rewrite Hg. eexists. split; [reflexivity|].
  assert (Hlook : ∀ k' g' p, <[k:=g ++ [x]]> gs !! k' = Some g' → p ∈ g' →
            (∃ g, gs !! k' = Some g ∧ p ∈ g) ∨ (k' = k ∧ p = x)).
  { intros k' g' p Hk' Hp. destruct (decide (k' = k)) as [->|Hne].
    - rewrite list_lookup_insert_eq in Hk' by done. injection Hk' as <-.
      apply elem_of_app in Hp as [Hp|Hp%list_elem_of_singleton]; eauto.
    - rewrite list_lookup_insert_ne in Hk' by done. eauto. }
  split; [apply length_insert|]. split; [done|].
  intros q. rewrite !elem_of_concat. split.
  - intros (k' & g' & Hk' & Hq).
    destruct (Hlook _ _ _ Hk' Hq) as [(g0 & ? & ?)|[_ ->]]; eauto.
  - intros [(k' & g' & Hk' & Hq)| ->].
    + destruct (decide (k' = k)) as [->|Hne].
      * exists k, (g ++ [x]). rewrite list_lookup_insert_eq by done.
        split; [done|]. apply elem_of_app. left. congruence.
      * exists k', g'. by rewrite list_lookup_insert_ne.
    + exists k, (g ++ [x]). rewrite list_lookup_insert_eq by done.
      split; [done|]. apply elem_of_app. right. left.
Qed.

Section loops.

Context (vnumber : nat) (tv : list Z).

Lemma groups_ok_append r k x gs gs' :
  groups_ok vnumber tv r gs →
  impl_ok vnumber tv r x → Implicant.count_ones x = k →
  Implicant.obsolete x = false →
  length gs' = length gs →
  (∀ k' g' p, gs' !! k' = Some g' → p ∈ g' →
     (∃ g, gs !! k' = Some g ∧ p ∈ g) ∨ (k' = k ∧ p = x)) →
  groups_ok vnumber tv r gs'.
Proof.
  intros [Hlen Hgs] Hx Hk Hflag Hlen' Hlook. split; [congruence|].
  intros k' g' p Hk' Hp.
  destruct (Hlook _ _ _ Hk' Hp) as [(g & ? & ?)|[-> ->]]; [by eapply Hgs|done].
Qed.

Lemma extends_refl ng : extends ng ng.
Proof. by intros q. Qed.

Lemma extends_trans ng1 ng2 ng3 :
  extends ng1 ng2 → extends ng2 ng3 → extends ng1 ng3.
Proof. intros H12 H23 q ?. by apply H23, H12. Qed.

Lemma covered_extends ng ng' p : extends ng ng' → covered ng p → covered ng' p.
Proof. intros Hext (q & ? & ?). exists q. split; [by apply Hext|done]. Qed.

Lemma covered_same_data ng p p' : same_data p p' → covered ng p → covered ng p'.
Proof. intros [_ Hm] (q & ? & ?). exists q. by rewrite <- Hm. Qed.

Lemma flag_ok_extends ng ng' p : extends ng ng' → flag_ok ng p → flag_ok ng' p.
Proof. intros Hext Hp Hflag. by eapply covered_extends, Hp. Qed.

Lemma Forall_flag_ok_extends ng ng' g :
  extends ng ng' → Forall (flag_ok ng) g → Forall (flag_ok ng') g.
Proof.
  intros Hext Hg. eapply Forall_impl; [exact Hg|].
  intros p. by apply flag_ok_extends.
Qed.

Lemma data_ok_same_data r k p p' :
  same_data p p' → data_ok vnumber tv r k p → data_ok vnumber tv r k p'.
Proof.
  intros Hs [Hp Hk]. split; [by eapply same_data_impl_ok|].
  by rewrite (same_data_count_ones _ _ Hs).
Qed.

Lemma Forall_data_ok_same_data r k g g' :
  Forall2 same_data g g' →
  Forall (data_ok vnumber tv r k) g → Forall (data_ok vnumber tv r k) g'.
Proof.
  induction 1 as [|p p' g g' Hs _ IH]; [done|].
  intros [Hp Hg]%Forall_cons. constructor; [by eapply data_ok_same_data|auto].
Qed.

Lemma same_data_trans p1 p2 p3 :
  same_data p1 p2 → same_data p2 p3 → same_data p1 p3.
Proof. intros [? ?] [? ?]. split; congruence. Qed.

(** [for impl2 in nextGroup]. *)
Lemma merge_inner_ok r k (nextGroup : list Implicant.t) :
  ∀ impl1 st,
    data_ok vnumber tv r k impl1 →
    Forall (data_ok vnumber tv r (S k)) nextGroup →
    loop_ok vnumber tv r st →
    flag_ok (Dnf.newGroups st) impl1 →
    Forall (flag_ok (Dnf.newGroups st)) nextGroup →
    ∃ impl1' next' st',
      Dnf.merge_inner impl1 nextGroup st = Ok (impl1', next', st') ∧
      same_data impl1 impl1' ∧ Forall2 same_data nextGroup next' ∧
      loop_ok vnumber tv r st' ∧
      extends (Dnf.newGroups st) (Dnf.newGroups st') ∧
      flag_ok (Dnf.newGroups st') impl1' ∧
      Forall (flag_ok (Dnf.newGroups st')) next'.
Proof.
  induction nextGroup as [|impl2 rest IH];
    intros impl1 st [H1 Hk1] Hnext Hst Hf1 Hfnext.
  - exists impl1, [], st. split; [done|]. split; [done|].
    split; [constructor|]. split; [done|]. split; [apply extends_refl|].
    split; [done|constructor].
  - apply Forall_cons in Hnext as [[H2 Hk2] Hrest].
    apply Forall_cons in Hfnext as [Hf2 Hfrest].
    destruct (try_merge_round vnumber tv r k impl1 impl2 H1 H2 Hk1 Hk2)
      as (res & Htm & Hres).
    simpl. rewrite (result_bind_ok _ _ _ Htm).
    destruct res as [q|].
    + destruct (Hres q eq_refl) as (Hq & Hqflag & Hqm).
      destruct Hst as [Hnew Hch].
      destruct (append_at_ok (Implicant.count_ones q) q (Dnf.newGroups st))
        as (ng1 & Happ & Hlen1 & Hlook1 & Hin1).
      { destruct Hnew as [-> _].
        pose proof (count_ones_le q) as Hle.
        rewrite (ok_length _ _ _ _ Hq) in Hle. lia. }
      rewrite (result_bind_ok _ _ _ Happ).
      assert (Hext1 : extends (Dnf.newGroups st) ng1).
      { intros p Hp. apply Hin1. by left. }
      assert (Hq1 : q ∈ concat ng1) by (apply Hin1; by right).
      destruct (IH (Implicant.set_obsolete true impl1) (Dnf.mk_loop ng1 true))
        as (impl1' & rest' & st' & Hrun & Hs1 & Hsrest & Hst' & Hext'
            & Hf1' & Hfrest').
      { by apply (data_ok_same_data r k impl1). }
      { done. }
      { split; simpl.
        - by eapply groups_ok_append.
        - split; [by exists q|done]. }
      { intros _. exists q. split; [done|]. simpl. rewrite Hqm.
        intros j ?. apply elem_of_app. by left. }
      { simpl. by eapply Forall_flag_ok_extends. }
      rewrite (result_bind_ok _ _ _ Hrun).
      exists impl1', (Implicant.set_obsolete true impl2 :: rest'), st'.
      split; [done|]. split; [done|]. split; [by constructor|].
      split; [done|]. split; [by eapply extends_trans|].
      split; [done|]. constructor; [|done].
      intros _. eapply covered_extends; [exact Hext'|].
      exists q. split; [done|]. simpl. rewrite Hqm.
      intros j ?. apply elem_of_app. by right.
    + destruct (IH impl1 st) as (impl1' & rest' & st' & Hrun & Hs1 & Hsrest
                                  & Hst' & Hext' & Hf1' & Hfrest'); try done.
      rewrite (result_bind_ok _ _ _ Hrun).
      exists impl1', (impl2 :: rest'), st'.
      split; [done|]. split; [done|]. split; [by constructor|].
      split; [done|]. split; [done|]. split; [done|].
      constructor; [by eapply flag_ok_extends|done].
Qed.

Lemma Forall2_same_data_trans g1 g2 g3 :
  Forall2 same_data g1 g2 → Forall2 same_data g2 g3 → Forall2 same_data g1 g3.
Proof. apply Forall2_trans. intros ???. apply same_data_trans. Qed.

Lemma Forall2_same_data_refl g : Forall2 same_data g g.
Proof. induction g; by constructor. Qed.

(** [for impl1 in group: for impl2 in nextGroup]. *)
Lemma merge_outer_ok r k (group : list Implicant.t) :
  ∀ nextGroup st,
    Forall (data_ok vnumber tv r k) group →
    Forall (data_ok vnumber tv r (S k)) nextGroup →
    loop_ok vnumber tv r st →
    Forall (flag_ok (Dnf.newGroups st)) group →
    Forall (flag_ok (Dnf.newGroups st)) nextGroup →
    ∃ group' next' st',
      Dnf.merge_outer group nextGroup st = Ok (group', next', st') ∧
      Forall2 same_data group group' ∧ Forall2 same_data nextGroup next' ∧
      loop_ok vnumber tv r st' ∧
      extends (Dnf.newGroups st) (Dnf.newGroups st') ∧
      Forall (flag_ok (Dnf.newGroups st')) group' ∧
      Forall (flag_ok (Dnf.newGroups st')) next'.
Proof.
  induction group as [|impl1 group IH];
    intros nextGroup st Hgroup Hnext Hst Hfgroup Hfnext.
  - exists [], nextGroup, st. split; [done|]. split; [constructor|].
    split; [apply Forall2_same_data_refl|]. split; [done|].
    split; [apply extends_refl|]. split; [constructor|done].
  - apply Forall_cons in Hgroup as [H1 Hgroup].
    apply Forall_cons in Hfgroup as [Hf1 Hfgroup].
    destruct (merge_inner_ok r k nextGroup impl1 st H1 Hnext Hst Hf1 Hfnext)
      as (impl1' & next1 & st1 & Hrun1 & Hs1 & Hsnext1 & Hst1 & Hext1
          & Hf1' & Hfnext1).
    destruct (IH next1 st1) as (group' & next2 & st2 & Hrun2 & Hsgroup
                                & Hsnext2 & Hst2 & Hext2 & Hfgroup' & Hfnext2).
    { done. }
    { by eapply Forall_data_ok_same_data. }
    { done. }
    { by eapply Forall_flag_ok_extends. }
    { done. }
    simpl. rewrite (result_bind_ok _ _ _ Hrun1).
    simpl. rewrite (result_bind_ok _ _ _ Hrun2).
    exists (impl1' :: group'), next2, st2.
    split; [done|]. split; [by constructor|].
    split; [by eapply Forall2_same_data_trans|]. split; [done|].
    split; [by eapply extends_trans|].
    split; [|done]. constructor; [by eapply flag_ok_extends|done].
Qed.

Lemma Forall2_same_data_elem g g' p :
  Forall2 same_data g g' → p ∈ g → ∃ p', p' ∈ g' ∧ same_data p p'.
Proof.
  intros Hs [i Hi]%list_elem_of_lookup.
  destruct (Forall2_lookup_l _ _ _ _ _ Hs Hi) as (p' & Hp' & ?).
  exists p'. split; [by eapply list_elem_of_lookup_2|done].
Qed.

(** Every implicant of a group that has been through the loops is
    either collected as a prime or merged into the new groups. *)
Lemma collect_primes_cover ng g primes p j :
  Forall (flag_ok ng) g → p ∈ g → j ∈ Implicant.minterms p →
  ∃ q, (q ∈ Dnf.collect_primes g primes ∨ q ∈ concat ng) ∧
       j ∈ Implicant.minterms q.
Proof.
  intros Hflags Hp Hj. rewrite Forall_forall in Hflags.
  destruct (Implicant.obsolete p) eqn:Hob.
  - destruct (Hflags p Hp Hob) as (q & Hq & Hsub).
    exists q. split; [by right|by apply Hsub].
  - exists p. split; [|done]. left. unfold Dnf.collect_primes.
    apply elem_of_app. right. by apply list_elem_of_filter.
Qed.

(** [for onesCnt in range(len(self.__groups))]. *)
Lemma merge_groups_ok r (rest : list (list Implicant.t)) :
  ∀ k group st primes,
    Forall (data_ok vnumber tv r k) group →
    (∀ i g, rest !! i = Some g → Forall (data_ok vnumber tv r (S k + i)) g) →
    loop_ok vnumber tv r st →
    Forall (flag_ok (Dnf.newGroups st)) group →
    (∀ i g, rest !! i = Some g → Forall (flag_ok (Dnf.newGroups st)) g) →
    ∃ st' added,
      Dnf.merge_groups group rest st primes = Ok (st', primes ++ added) ∧
      loop_ok vnumber tv r st' ∧
      extends (Dnf.newGroups st) (Dnf.newGroups st') ∧
      Forall (impl_ok vnumber tv r) added ∧
      ∀ p j, p ∈ group ∨ p ∈ concat rest → j ∈ Implicant.minterms p →
        ∃ q, (q ∈ added ∨ q ∈ concat (Dnf.newGroups st')) ∧
             j ∈ Implicant.minterms q.
Proof.
  induction rest as [|nextGroup rest IH];
    intros k group st primes Hgroup Hrest Hst Hfgroup Hfrest.
  - exists st, (filter (λ impl, Implicant.obsolete impl = false) group).
    split; [done|]. split; [done|]. split; [apply extends_refl|].
    split.
    { apply Forall_forall. intros p [_ Hp]%list_elem_of_filter.
      rewrite Forall_forall in Hgroup. by apply Hgroup. }
    intros p j [Hp|Hp] Hj; [|by apply elem_of_nil in Hp].
    destruct (collect_primes_cover _ _ [] p j Hfgroup Hp Hj) as (q & Hq & ?).
    exists q. split; [|done]. unfold Dnf.collect_primes in Hq.
    by rewrite app_nil_l in Hq.
  - destruct (merge_outer_ok r k group nextGroup st)
      as (group' & next' & st1 & Hrun1 & Hsgroup & Hsnext & Hst1 & Hext1
          & Hfgroup' & Hfnext'); try done.
    { specialize (Hrest 0 nextGroup eq_refl).
      by rewrite Nat.add_0_r in Hrest. }
    { by apply (Hfrest 0). }
    destruct (IH (S k) next' st1 (Dnf.collect_primes group' primes))
      as (st2 & added & Hrun2 & Hst2 & Hext2 & Hadded & Hcover); try done.
    { eapply Forall_data_ok_same_data; [done|].
      specialize (Hrest 0 nextGroup eq_refl).
      by rewrite Nat.add_0_r in Hrest. }
    { intros i g Hi. specialize (Hrest (S i) g Hi).
      by replace (S (S k) + i) with (S k + S i) by lia. }
    { intros i g Hi. eapply Forall_flag_ok_extends; [done|].
      by apply (Hfrest (S i)). }
    simpl. rewrite (result_bind_ok _ _ _ Hrun1). simpl. rewrite Hrun2.
    exists st2,
      (filter (λ impl, Implicant.obsolete impl = false) group' ++ added).
    split; [unfold Dnf.collect_primes; by rewrite (assoc_L (++))|].
    split; [done|]. split; [by eapply extends_trans|].
    split.
    { apply Forall_app. split; [|done].
      apply Forall_forall. intros p [_ Hp]%list_elem_of_filter.
      assert (Hg' : Forall (data_ok vnumber tv r k) group')
        by by eapply Forall_data_ok_same_data.
      rewrite Forall_forall in Hg'. by apply Hg'. }
    intros p j Hp Hj. simpl in Hp. rewrite elem_of_app in Hp.
    destruct Hp as [Hp|[Hp|Hp]].
    + destruct (Forall2_same_data_elem _ _ _ Hsgroup Hp) as (p' & Hp' & [_ Hm]).
      rewrite Hm in Hj.
      destruct (collect_primes_cover _ _ [] p' j Hfgroup' Hp' Hj)
        as (q & [Hq|Hq] & ?).
      * exists q. split; [|done]. left. apply elem_of_app. left.
        unfold Dnf.collect_primes in Hq. by rewrite app_nil_l in Hq.
      * exists q. split; [|done]. right. by apply Hext2.
    + destruct (Forall2_same_data_elem _ _ _ Hsnext Hp) as (p' & Hp' & [_ Hm]).
      rewrite Hm in Hj.
      destruct (Hcover p' j (or_introl Hp') Hj) as (q & [Hq|Hq] & ?).
      * exists q. split; [|done]. left. apply elem_of_app. by right.
      * exists q. split; [|done]. by right.
    + destruct (Hcover p j (or_intror Hp) Hj) as (q & [Hq|Hq] & ?).
      * exists q. split; [|done]. left. apply elem_of_app. by right.
      * exists q. split; [|done]. by right.
Qed.

End loops.

(** ** Rounds *)

Section rounds.

Context (vnumber : nat) (tv : list Z).

Lemma concat_empty_groups {A B} (gs : list A) :
  concat (map (λ _, @nil B) gs) = [].
Proof. induction gs; simpl; done. Qed.

Lemma no_elem_nil {A} (l : list A) : (∀ x, x ∉ l) → l = [].
Proof. destruct l as [|x l]; [done|]. intros H. destruct (H x). left. Qed.

(** One call of [__merge_step] in round [r]. *)
Lemma merge_step_ok r d :
  dnf_ok vnumber tv r d →
  ∃ ch d',
    Dnf.merge_step d = Ok (ch, d') ∧
    dnf_ok vnumber tv (S r) d' ∧
    (ch = true → r < vnumber) ∧
    (ch = false → concat (Dnf.groups d') = []).
Proof.
  intros [[Hlen Hgs] Hprimes Hcover]. unfold Dnf.merge_step.
  destruct (Dnf.groups d) as [|group rest] eqn:Hgroups;
    [simpl in Hlen; lia|].
  set (st := Dnf.mk_loop (map (λ _, []) (group :: rest)) false).
  assert (Hnoflag : ∀ ng k g, (group :: rest) !! k = Some g →
                              Forall (flag_ok ng) g).
  { intros ng k g Hk. apply Forall_forall. intros p Hp Hflag.
    destruct (Hgs k g p Hk Hp) as (_ & _ & Hfalse). congruence. }
  assert (Hdata : ∀ k g, (group :: rest) !! k = Some g →
                         Forall (data_ok vnumber tv r k) g).
  { intros k g Hk. apply Forall_forall. intros p Hp.
    destruct (Hgs k g p Hk Hp) as (? & ? & _). by split. }
  destruct (merge_groups_ok vnumber tv r rest 0 group st (Dnf.primes d))
    as (st' & added & Hrun & [Hnew Hch] & _ & Hadded & Hcov).
  { by apply (Hdata 0). }
  { intros i g Hi. by apply (Hdata (S i)). }
  { split.
    - split; [unfold st; simpl; by rewrite length_map|].
      intros k g p Hk Hp. unfold st in Hk. simpl in Hk.
      change ([] :: map (λ _, []) rest)
        with (map (λ _ : list Implicant.t, @nil Implicant.t) (group :: rest))
        in Hk.
      rewrite list_lookup_fmap in Hk.
      destruct ((group :: rest) !! k); simpl in Hk; [|done].
      injection Hk as <-. by apply elem_of_nil in Hp.
    - unfold st. simpl. split; [done|]. intros [q Hq].
      change ([] ++ concat (map (λ _, []) rest))
        with (concat (map (λ _ : list Implicant.t, @nil Implicant.t) rest))
        in Hq.
      rewrite concat_empty_groups in Hq. by apply elem_of_nil in Hq. }
  { by apply (Hnoflag _ 0). }
  { intros i g Hi. by apply (Hnoflag _ (S i)). }
  rewrite (result_bind_ok _ _ _ Hrun).
  exists (Dnf.changed st'), (Dnf.mk (Dnf.newGroups st') (Dnf.primes d ++ added)).
  split; [done|]. split; [split; simpl|split].
  - done.
  - intros p [Hp|Hp]%elem_of_app; [by apply Hprimes|].
    exists r. rewrite Forall_forall in Hadded. by apply Hadded.
  - intros j Hj. destruct (Hcover j Hj) as (p & [Hp|Hp] & Hjp).
    + exists p. split; [|done]. left. apply elem_of_app. by left.
    + destruct (Hcov p j) as (q & [Hq|Hq] & ?); [|done|..].
      * simpl in Hp. apply elem_of_app in Hp as [?|?]; auto.
      * exists q. split; [|done]. left. apply elem_of_app. by right.
      * exists q. split; [|done]. by right.
  - intros [q Hq]%Hch.
    apply elem_of_concat in Hq as (k & g & Hk & Hq).
    destruct Hnew as [_ Hnew]. destruct (Hnew k g q Hk Hq) as (Hok & _).
    pose proof (none_count_le (Implicant.vec q)) as Hle.
    rewrite (ok_nones _ _ _ _ Hok), (ok_length _ _ _ _ Hok) in Hle. lia.
  - intros Hfalse. simpl. apply no_elem_nil. intros q Hq.
    assert (Dnf.changed st' = true) by (apply Hch; by exists q). congruence.
Qed.

(** The loop of [__merge], entered in round [r]: it returns after at
    most [vnumber - r] calls of [__merge_step] that merge something
    and one last call that merges nothing, and leaves primes that
    cover every true index. *)
Lemma merge_ok (fuel : nat) : ∀ r d,
  dnf_ok vnumber tv r d → r ≤ vnumber → vnumber + 1 ≤ fuel + r →
  ∃ d' k,
    Dnf.merge fuel d = Ok (d', replicate k true ++ [false]) ∧
    k + r ≤ vnumber ∧
    (∀ p, p ∈ Dnf.primes d' → ∃ r', impl_ok vnumber tv r' p) ∧
    (∀ j, true_at tv j →
          ∃ p, p ∈ Dnf.primes d' ∧ j ∈ Implicant.minterms p).
Proof.
  induction fuel as [|fuel IH]; intros r d Hd Hr Hfuel; [lia|].
  destruct (merge_step_ok r d Hd) as (ch & d1 & Hstep & Hd1 & Htrue & Hfalse).
  simpl. rewrite (result_bind_ok _ _ _ Hstep).
  destruct ch.
  - specialize (Htrue eq_refl).
    destruct (IH (S r) d1) as (d' & k & Hrun & Hk & Hprimes & Hcover);
      [done|lia|lia|].
    rewrite (result_bind_ok _ _ _ Hrun).
    exists d', (S k). split; [done|]. split; [lia|]. done.
  - exists d1, 0. split; [done|]. split; [lia|].
    split; [apply Hd1|].
    intros j Hj. destruct (dnf_cover _ _ _ _ Hd1 j Hj) as (p & [Hp|Hp] & ?).
    + by exists p.
    + rewrite (Hfalse eq_refl) in Hp. by apply elem_of_nil in Hp.
Qed.

(** The groups built by [__init_groups]. *)
Lemma init_loop_ok (rest : list Z) : ∀ (seen : list Z) gs,
  tv = seen ++ rest →
  Z.of_nat (length tv) = (2 ^ Z.of_nat vnumber)%Z →
  Forall (λ bit, bit = 0%Z ∨ bit = 1%Z) rest →
  groups_ok vnumber tv 0 gs →
  (∀ j, true_at tv j → Z.to_nat j < length seen →
        ∃ p, p ∈ concat gs ∧ j ∈ Implicant.minterms p) →
  ∃ gs',
    Dnf.init_loop vnumber (Z.of_nat (length seen)) rest gs = Ok gs' ∧
    groups_ok vnumber tv 0 gs' ∧
    (∀ j, true_at tv j → ∃ p, p ∈ concat gs' ∧ j ∈ Implicant.minterms p).
Proof.
  induction rest as [|bit rest IH]; intros seen gs Htv Hlen Hbits Hgs Hcov.
  - exists gs. split; [done|]. split; [done|].
    intros j Hj. apply Hcov; [done|].
    destruct Hj as [_ Hj]. apply lookup_lt_Some in Hj.
    by rewrite Htv, app_nil_r in Hj.
  - apply Forall_cons in Hbits as [Hbit Hbits].
    assert (Htv' : tv = (seen ++ [bit]) ++ rest)
      by by rewrite <- (assoc_L (++)).
    assert (Hnext : (Z.of_nat (length seen) + 1)%Z
                    = Z.of_nat (length (seen ++ [bit])))
      by (rewrite length_app; simpl; lia).
    assert (Hhere : tv !! length seen = Some bit)
      by (rewrite Htv; by apply list_lookup_middle).
    simpl. destruct (decide (bit = 0%Z)) as [->|Hne].
    + rewrite Hnext. apply IH; try done.
      intros j Hj Hlt. rewrite length_app in Hlt. simpl in Hlt.
      destruct (decide (Z.to_nat j = length seen)) as [Heq|];
        [|apply Hcov; [done|lia]].
      destruct Hj as [_ Hj]. rewrite Heq in Hj. congruence.
    + destruct Hbit as [? | ->]; [done|]. rewrite decide_True by done.
      set (i := Z.of_nat (length seen)).
      assert (Hi : (0 ≤ i < 2 ^ Z.of_nat vnumber)%Z).
      { apply lookup_lt_Some in Hhere. unfold i. lia. }
      assert (Htrue : true_at tv i).
      { split; [lia|]. unfold i. by rewrite Nat2Z.id. }
      destruct (init_impl_ok vnumber tv i Hi Htrue)
        as (Hok & Hones & Hflag & Hmt & Hpop).
      destruct (append_at_ok (Dnf.popcount i) (Implicant.init vnumber i) gs)
        as (gs1 & Happ & Hlen1 & Hlook1 & Hin1).
      { by destruct Hgs as [-> _]. }
      rewrite (result_bind_ok _ _ _ Happ).
      change (i + 1)%Z with (Z.of_nat (length seen) + 1)%Z. rewrite Hnext.
      apply IH; try done.
      * by eapply groups_ok_append.
      * intros j Hj Hlt. rewrite length_app in Hlt. simpl in Hlt.
        destruct (decide (Z.to_nat j = length seen)) as [Heq|].
        -- exists (Implicant.init vnumber i).
           split; [apply Hin1; by right|]. rewrite Hmt.
           apply list_elem_of_singleton. destruct Hj as [? _]. unfold i. lia.
        -- destruct (Hcov j Hj) as (p & ? & ?); [lia|].
           exists p. split; [apply Hin1; by left|done].
Qed.

Lemma init_groups_ok :
  truth_vector vnumber tv →
  ∃ gs, Dnf.init_groups vnumber tv = Ok gs ∧
        dnf_ok vnumber tv 0 (Dnf.mk gs []).
Proof.
  intros [Hlen Hbits]. unfold Dnf.init_groups.
  rewrite decide_True by done.
  destruct (init_loop_ok tv [] (replicate (vnumber + 1) []))
    as (gs & Hrun & Hgs & Hcov); try done.
  - split; [apply length_replicate|].
    intros k g p [-> _]%lookup_replicate Hp. by apply elem_of_nil in Hp.
  - intros j _ Hlt. simpl in Hlt. lia.
  - exists gs. split; [done|]. split; simpl; [done| |].
    + intros p Hp. by apply elem_of_nil in Hp.
    + intros j Hj. destruct (Hcov j Hj) as (p & ? & ?). exists p. auto.
Qed.

End rounds.

(** ** The minimiser as a whole *)

Ltac solve_truth_vector :=
  split; [reflexivity|];
  repeat first [apply Forall_nil_2 | apply Forall_cons_2; [auto|]].

(** C1. On a truth vector for [vnumber] variables the constructor
    returns normally (given fuel for [vnumber + 1] merge rounds), and
    the disjunction of the conjunctions of the primes it leaves is
    true at exactly the indices at which the truth vector is 1, and
    false at the indices at which it is 0. *)
Theorem dnf_equivalent (vnumber : nat) (tv : list Z) (fuel : nat) :
  truth_vector vnumber tv → vnumber + 1 ≤ fuel →
  ∃ d, Dnf.init fuel vnumber tv = Ok d ∧
    ∀ j, (0 ≤ j < 2 ^ Z.of_nat vnumber)%Z →
      (Dnf.holds d j = true ↔ tv !! Z.to_nat j = Some 1%Z) ∧
      (Dnf.holds d j = false ↔ tv !! Z.to_nat j = Some 0%Z).
Proof.
  intros Htv Hfuel.
  destruct (init_groups_ok vnumber tv Htv) as (gs & Hinit & Hd0).
  destruct (merge_ok vnumber tv fuel 0 (Dnf.mk gs []) Hd0)
    as (d1 & k & Hmerge & _ & Hprimes & Hcover); [lia|lia|].
  set (requ := list_to_set (Dnf.true_indices 0 tv) : gset Z).
  pose proof (required_spec tv) as Hrequ. fold requ in Hrequ.
  pose proof (drop_unrequired_run tv (Dnf.primes d1)) as Hdrop.
  fold requ in Hdrop.
  pose proof (prune_sublist (Dnf.primes d1) requ) as Hsub.
  unfold Dnf.init. rewrite (result_bind_ok _ _ _ Hinit).
  rewrite (result_bind_ok _ _ _ Hmerge). simpl.
  rewrite (result_bind_ok _ _ _ Hdrop).
  eexists. split; [reflexivity|]. intros j Hj.
  assert (Hiff : Dnf.holds (Dnf.mk (Dnf.groups d1)
                              (prune (Dnf.primes d1) requ)) j = true
                 ↔ tv !! Z.to_nat j = Some 1%Z).
  { unfold Dnf.holds. simpl. rewrite existsb_exists. split.
    - intros (p & Hp%list_elem_of_In & Hholds).
      assert (Hp1 : p ∈ Dnf.primes d1) by by eapply elem_of_sublist.
      destruct (Hprimes p Hp1) as (r' & Hok).
      apply (ok_holds _ _ _ _ Hok j Hj) in Hholds.
      by apply (ok_true _ _ _ _ Hok j Hholds).
    - intros Hone. assert (Htrue : true_at tv j) by (split; [lia|done]).
      destruct (prune_covers (Dnf.primes d1) requ j) as (p & Hp & Hjp).
      { by apply Hrequ. }
      { by apply Hcover. }
      exists p. split; [by apply list_elem_of_In|].
      assert (Hp1 : p ∈ Dnf.primes d1) by by eapply elem_of_sublist.
      destruct (Hprimes p Hp1) as (r' & Hok).
      by apply (ok_holds _ _ _ _ Hok j Hj). }
  split; [done|].
  destruct Htv as [Hlen Hbits].
  destruct (lookup_lt_is_Some_2 tv (Z.to_nat j)) as [bit Hbit]; [lia|].
  rewrite Forall_forall in Hbits.
  destruct (Hbits bit) as [-> | ->]; [by eapply list_elem_of_lookup_2|..].
  - rewrite Hbit in *. split; [done|]. intros _.
    destruct (Dnf.holds _ j); [|done].
    destruct Hiff as [Hiff _]. by specialize (Hiff eq_refl).
  - rewrite Hbit in *. split; [|done].
    destruct Hiff as [_ Hiff]. rewrite Hiff by done. done.
Qed.

Lemma dnf_equivalent_witness :
  truth_vector 2 [0; 1; 1; 1]%Z ∧ 2 + 1 ≤ 3 ∧
  ∃ d, Dnf.init 3 2 [0; 1; 1; 1]%Z = Ok d ∧
    ∀ j, (0 ≤ j < 2 ^ Z.of_nat 2)%Z →
      (Dnf.holds d j = true ↔ [0; 1; 1; 1]%Z !! Z.to_nat j = Some 1%Z) ∧
      (Dnf.holds d j = false ↔ [0; 1; 1; 1]%Z !! Z.to_nat j = Some 0%Z).
Proof.
  assert (Htv : truth_vector 2 [0; 1; 1; 1]%Z).
  { solve_truth_vector. }
  split; [exact Htv|]. split; [lia|].
  apply (dnf_equivalent 2 [0; 1; 1; 1]%Z 3 Htv). lia.
Defined.

(** C7, as the code has it. On a truth vector for [vnumber] variables
    the loop of [__merge] returns: its rounds are [k] rounds that each
    merge something, with [k ≤ vnumber], followed by one round that
    merges nothing and ends the loop. The loop so makes at most
    [vnumber + 1] rounds. *)
Theorem merge_rounds (vnumber : nat) (tv : list Z) (fuel : nat) :
  truth_vector vnumber tv → vnumber + 1 ≤ fuel →
  ∃ k, Dnf.rounds fuel vnumber tv = Ok (replicate k true ++ [false]) ∧
       k ≤ vnumber.
Proof.
  intros Htv Hfuel.
  destruct (init_groups_ok vnumber tv Htv) as (gs & Hinit & Hd0).
  destruct (merge_ok vnumber tv fuel 0 (Dnf.mk gs []) Hd0)
    as (d1 & k & Hmerge & Hk & _); [lia|lia|].
  unfold Dnf.rounds. rewrite (result_bind_ok _ _ _ Hinit).
  rewrite (result_bind_ok _ _ _ Hmerge).
  exists k. split; [done|lia].
Qed.

Lemma merge_rounds_witness :
  truth_vector 2 [0; 1; 1; 1]%Z ∧ 2 + 1 ≤ 3 ∧
  ∃ k, Dnf.rounds 3 2 [0; 1; 1; 1]%Z = Ok (replicate k true ++ [false]) ∧
       k ≤ 2.
Proof.
  assert (Htv : truth_vector 2 [0; 1; 1; 1]%Z).
  { solve_truth_vector. }
  split; [exact Htv|]. split; [lia|].
  apply (merge_rounds 2 [0; 1; 1; 1]%Z 3 Htv). lia.
Defined.

(** C7 as worded fails: with one variable and the truth vector [1, 1]
    the loop makes two rounds, the first merging the two implicants,
    the second finding nothing to merge. *)
Lemma merge_rounds_one_variable :
  truth_vector 1 [1; 1]%Z ∧
  Dnf.rounds 2 1 [1; 1]%Z = Ok [true; false] ∧
  ¬ length [true; false] ≤ 1.
Proof.
  split; [|split].
  - solve_truth_vector.
  - vm_compute. reflexivity.
  - simpl. lia.
Qed.

(** The minimiser on the truth vector [0, 1, 1, 1]. *)
Example dnf_0111 :
  Dnf.init 3 2 [0; 1; 1; 1]%Z =
  Ok (Dnf.mk [[]; []; []]
        [Implicant.mk [Some 1; None]%Z [1; 3]%Z false;
         Implicant.mk [None; Some 1]%Z [2; 3]%Z false]).
Proof. vm_compute. reflexivity. Qed.

(** ** The parser on the examples of its description *)

Section parser_examples.

#[local] Open Scope string_scope.

Section parser_steps.

Import Parser.

Lemma bindM_ok {A B} (m : M A) (f : A → M B) p a p' :
  m p = Ok (a, p') → (m ≫= f) p = f a p'.
Proof. intros Hm. unfold mbind, M_bind. by rewrite Hm. Qed.

Lemma bindM_raise {A B} (m : M A) (f : A → M B) p e :
  m p = Raise e → (m ≫= f) p = Raise e.
Proof. intros Hm. unfold mbind, M_bind. by rewrite Hm. Qed.

Lemma bindM_read {A B} (g : Parser.t → A) (f : A → M B) p :
  (read g ≫= f) p = f (g p) p.
Proof. done. Qed.

Lemma bindM_update {B} (g : Parser.t → Parser.t) (f : unit → M B) p :
  (update g ≫= f) p = f tt (g p).
Proof. done. Qed.

Lemma bindM_new_node {B} ty (f : Node.t → M B) p :
  (new_node ty ≫= f) p = f (Node.new ty (modulus p) (modRed p)) p.
Proof. done. Qed.

Lemma bindM_ret {A B} (a : A) (f : A → M B) p : (mret a ≫= f) p = f a p.
Proof. done. Qed.

Lemma retM {A} (a : A) p : (mret a : M A) p = Ok (a, p).
Proof. done. Qed.

Lemma fail_near_run msg rest p :
  fail_near msg rest p = Ok (None, set_error (msg ++ peek_str p ++ rest) p).
Proof. done. Qed.

Lemma parse_shift_unfold fuel :
  parse_shift (S fuel) =
  (base ← parse_sum fuel;
   match base with
   | None => mret None
   | Some base =>
       s ← read has_lshift;
       if negb s then mret (Some base)
       else
         prod ← new_node Node.PRODUCT;
         let prod := Node.append_child base prod in
         update (get true);;
         update (get true);;
         op ← parse_sum fuel;
         match op with
         | None => mret None
         | Some op =>
             power ← new_node Node.POWER;
             two ← new_node Node.CONSTANT;
             let two := Node.set_constant 2 two in
             let power := Node.append_child two power in
             let power := Node.append_child op power in
             let prod := Node.append_child power prod in
             s ← read has_lshift;
             if (s : bool) then
               fail_near "Disallowed nested lshift operator near "
                         EmptyString
             else mret (Some prod)
         end
   end).
Proof. done. Qed.

Lemma parse_power_unfold fuel :
  parse_power (S fuel) =
  (base ← parse_terminal fuel;
   match base with
   | None => mret None
   | Some base =>
       w ← read has_power;
       if negb w then mret (Some base)
       else
         node ← new_node Node.POWER;
         let node := Node.append_child base node in
         update (get true);;
         update (get true);;
         exp ← parse_terminal fuel;
         match exp with
         | None => mret None
         | Some exp =>
             let node := Node.append_child exp node in
             w ← read has_power;
             if (w : bool) then
               fail_near "Disallowed nested power operator near "
                         EmptyString
             else mret (Some node)
         end
   end).
Proof. done. Qed.

End parser_steps.

(** C9, at the input on which it fails. On ["a["] and on ["a[3"] the
    parser returns no tree, and it leaves the error text empty: the
    bracket that is not closed is reported by no message. On the
    other kinds of failure it returns no tree and sets the text. *)
Theorem unclosed_index_sets_no_error :
  run "a[" 8 true = Ok (None, EmptyString)
  ∧ run "a[3" 8 true = Ok (None, EmptyString)
  ∧ run "a $" 8 true
    = Ok (None, "Finished near to $ before everything was parsed")
  ∧ run "(a" 8 true = Ok (None, "Missing closing parentheses near to ")
  ∧ run "0b2" 8 true
    = Ok (None, "Finished near to 2 before everything was parsed")
  ∧ run "0xg" 8 true
    = Ok (None, "Finished near to g before everything was parsed")
  ∧ run "a+" 8 true = Ok (None, "Expecting constant at , but no digit around.")
  ∧ run "a b" 8 true
    = Ok (None, "Finished near to b before everything was parsed").
Proof. repeat split; vm_compute; reflexivity. Qed.

(** C3, at an input on which it fails. With a bit count of 8 the nodes
    of the tree of ["a+300"] carry the modulus 32, not 2^8; the
    payload of the literal is 300, not reduced. *)
Theorem parse_modulus_is_32 :
  Parser.parse id id "a+300" 8 true false false
  = Ok (Some (Op Node.SUM 32 true [Var 32 true "a"; Const 32 true 300]))
  ∧ (32 ≠ 2 ^ 8)%Z.
Proof. split; [vm_compute; reflexivity|done]. Qed.

(** [parse] with [marklinear] and without [refine], by the outcome of
    the parser. *)
Lemma marklinear_cases (refine_pass mark_linear_pass : Node.t → Node.t)
    (expr : string) (bitCount : Z) (reduceConstants : bool) :
  Parser.parse refine_pass mark_linear_pass expr bitCount reduceConstants
    false true
  = match Parser.parse_expression
            (Parser.init expr (2 ^ bitCount) reduceConstants) with
    | Ok (Some _, _) =>
        Raise (SystemExit
                 "Error: Refine before marking linear subexpressions!")
    | Ok (None, _) => Ok None
    | Raise e => Raise e
    | OutOfFuel => OutOfFuel
    end.
Proof.
  unfold Parser.parse.
  destruct (Parser.parse_expression _) as [[[root|] p]|e|]; done.
Qed.

(** C4 as worded fails: on a text that does not parse, the call with
    [marklinear] and without [refine] returns [None] and raises no
    configuration error, while on a text that parses it exits. *)
Lemma marklinear_without_refine_returns_none :
  Parser.parse id id "a+" 8 true false true = Ok None
  ∧ Parser.parse id id "a" 8 true false true
    = Raise (SystemExit "Error: Refine before marking linear subexpressions!").
Proof. split; vm_compute; reflexivity. Qed.

End parser_examples.

(** ** The parser comes to an end on every text *)

Section strings.

Lemma substring_split (s : string) : ∀ n a b,
  String.substring n (a + b) s
  = String.substring n a s +:+ String.substring (n + a) b s.
Proof.
  induction s as [|c s IH]; intros n a b.
  - destruct n, a, b; done.
  - destruct n as [|n]; simpl.
    + destruct a as [|a]; simpl; [done|].
      rewrite (IH 0 a b). done.
    + apply IH.
Qed.

Lemma substring_all (f : ascii → bool) (s : string) : ∀ n m,
  (∀ i, n ≤ i < n + m → ∃ c, String.get i s = Some c ∧ f c = true) →
  all_chars f (String.substring n m s) = true ∧
  String.length (String.substring n m s) = m.
Proof.
  induction s as [|c s IH]; intros n m Hall.
  - destruct m as [|m]; [by destruct n|].
    destruct (Hall n ltac:(lia)) as (c & Hc & _). by destruct n.
  - destruct n as [|n]; simpl.
    + destruct m as [|m]; [done|]. simpl.
      destruct (Hall 0 ltac:(lia)) as (c' & [= <-] & Hf).
      rewrite Hf. simpl.
      destruct (IH 0 m) as [-> ->]; [|done].
      intros i Hi. apply (Hall (S i)). lia.
    + apply IH. intros i Hi. apply (Hall (S i)). lia.
Qed.

Lemma rstrip_spaces (t : string) :
  all_chars Parser.is_space t = true → Parser.rstrip t = EmptyString.
Proof.
  induction t as [|c t IH]; simpl; [done|].
  intros [Hc Ht]%andb_true_iff. by rewrite IH, Hc.
Qed.

Lemma rstrip_app (s t : string) :
  all_chars (λ c, negb (Parser.is_space c)) s = true →
  all_chars Parser.is_space t = true →
  Parser.rstrip (s +:+ t) = s.
Proof.
  intros Hs Ht. induction s as [|c s IH]; simpl.
  - by apply rstrip_spaces.
  - simpl in Hs. apply andb_true_iff in Hs as [Hc Hs].
    rewrite IH by done. destruct s; [|done].
    by apply negb_true_iff in Hc as ->.
Qed.

Lemma int_loop_digits (base : Z) (s : string) : ∀ acc,
  all_chars (digit_in base) s = true →
  ∃ z, Parser.int_loop base acc s = Some z.
Proof.
  induction s as [|c s IH]; intros acc; simpl; [by eexists|].
  intros [Hc Hs]%andb_true_iff. unfold digit_in in Hc.
  destruct (Parser.digit_value c) as [d|]; [|done].
  rewrite Hc. by apply IH.
Qed.

Lemma int_digits (base : Z) (s : string) :
  s ≠ EmptyString → all_chars (digit_in base) s = true →
  (∃ z, Parser.int_ s base = Ok z)
  ∨ (Parser.int_ s base = Raise ValueError ∧
     Parser.power_of_two base = false ∧
     (Parser.max_str_digits < Z.of_nat (String.length s))%Z).
Proof.
  intros Hne Hs. destruct (int_loop_digits base s 0 Hs) as [z Hz].
  unfold Parser.int_. destruct s as [|c s'] eqn:Htext; [done|].
  rewrite <- Htext in *. rewrite Hz.
  destruct (Parser.power_of_two base); [left; by exists z|].
  destruct (Parser.max_str_digits <? Z.of_nat (String.length s))%Z eqn:Hlim.
  - right. split; [done|]. split; [done|]. by apply Z.ltb_lt.
  - left. by exists z.
Qed.

Lemma all_chars_impl (f g : ascii → bool) (s : string) :
  (∀ c, f c = true → g c = true) →
  all_chars f s = true → all_chars g s = true.
Proof.
  intros Hfg. induction s as [|c s IH]; simpl; [done|].
  intros [Hc Hs]%andb_true_iff. by rewrite (Hfg c Hc), IH.
Qed.

End strings.

Section parser_total.

Import Parser.

Context (E : string) (M0 : Z) (F0 : bool).

#[local] Abbreviation wf := (good_state E M0 F0).
#[local] Abbreviation total := (terminates E M0 F0).
#[local] Abbreviation ok_node := (ok_node M0 F0).
#[local] Abbreviation ok_result := (ok_result M0 F0).

(** *** States *)

Lemma peek_Some p c :
  peek p = Some c →
  idx p < String.length (expr p) ∧ String.get (idx p) (expr p) = Some c.
Proof.
  unfold peek. destruct (decide (String.length (expr p) ≤ idx p)); [done|].
  intros Hget. split; [lia|done].
Qed.

Lemma peek_set_idx p i :
  i < String.length (expr p) → peek (set_idx i p) = String.get i (expr p).
Proof. intros Hi. unfold peek. simpl. by rewrite decide_False by lia. Qed.

Lemma wf_set_idx p i : wf p → i ≤ String.length E → wf (set_idx i p).
Proof. intros (? & ? & ? & ?) Hi. by repeat split. Qed.

Lemma wf_set_error p e : wf p → wf (set_error e p).
Proof. intros (? & ? & ? & ?). by repeat split. Qed.

Lemma on_char_lt cond p :
  on_char cond → cond p = true → idx p < String.length (expr p).
Proof.
  intros (f & Hnone & Hf) Hc. rewrite Hf in Hc.
  destruct (peek p) as [c|] eqn:Hp; [|congruence].
  by apply peek_Some in Hp as [? _].
Qed.

(** The scanning loops: they stop within the text, at the first
    position at which the condition fails, and pass only positions at
    which it holds. *)
Lemma repeat_while_spec cond body (n : nat) : ∀ p,
  on_char cond → (∀ q, body q = set_idx (idx q + 1) q) →
  wf p → String.length E - idx p ≤ n →
  ∃ k, repeat_while n cond body p = set_idx k p ∧
       idx p ≤ k ≤ String.length E ∧
       cond (set_idx k p) = false ∧
       ∀ i, idx p ≤ i < k → cond (set_idx i p) = true.
Proof.
  intros p Hcond Hbody. revert p.
  induction n as [|n IH]; intros p Hwf Hn.
  - exists (idx p). simpl. destruct p as [e m f i err]. simpl in *.
    split; [done|]. destruct Hwf as (He & _ & _ & Hi). simpl in *.
    split; [lia|]. split; [|intros; lia].
    destruct (cond _) eqn:Hc; [|done].
    apply (on_char_lt _ _ Hcond) in Hc. simpl in Hc. subst e. lia.
  - simpl. destruct (cond p) eqn:Hc.
    + pose proof (on_char_lt _ _ Hcond Hc) as Hlt.
      destruct Hwf as (He & Hm & Hf & Hi). rewrite He in Hlt.
      destruct (IH (body p)) as (k & Hrun & Hk & Hstop & Hpass).
      { rewrite Hbody. by apply wf_set_idx; [|lia]. }
      { rewrite Hbody. simpl. lia. }
      rewrite Hbody in Hrun, Hk, Hstop, Hpass. simpl in *.
      exists k. split; [by rewrite Hbody, Hrun|].
      split; [lia|]. split; [done|].
      intros i Hik. destruct (decide (i = idx p)) as [->|].
      * destruct p; simpl in *. done.
      * apply (Hpass i). lia.
    + exists (idx p). destruct p as [e m f i err]. simpl in *.
      destruct Hwf as (_ & _ & _ & Hi). simpl in Hi.
      split; [done|]. split; [lia|]. split; [done|]. intros; lia.
Qed.

Lemma while_spec cond body p :
  on_char cond → (∀ q, body q = set_idx (idx q + 1) q) → wf p →
  ∃ k, while_ cond body p = set_idx k p ∧
       idx p ≤ k ≤ String.length E ∧
       cond (set_idx k p) = false ∧
       ∀ i, idx p ≤ i < k → cond (set_idx i p) = true.
Proof.
  intros Hcond Hbody Hwf. apply repeat_while_spec; try done.
  destruct Hwf as (-> & _). done.
Qed.

Lemma on_char_has_space : on_char has_space.
Proof.
  exists (λ c, bool_decide (c = Some " "%char)). split; [done|]. done.
Qed.

Lemma get_false_step q : get false q = set_idx (idx q + 1) q.
Proof. done. Qed.

Lemma skip_space_step q : skip_space q = set_idx (idx q + 1) q.
Proof. done. Qed.

(** [__get] before the end of the text. *)
Lemma get_spec b p :
  wf p → idx p < String.length E →
  ∃ k, get b p = set_idx k p ∧ idx p < k ≤ String.length E.
Proof.
  intros Hwf Hlt. unfold get. destruct b.
  - destruct (while_spec has_space skip_space (set_idx (idx p + 1) p))
      as (k & Hrun & Hk & _); [apply on_char_has_space|done| |].
    { apply wf_set_idx; [done|lia]. }
    exists k. rewrite Hrun. simpl in Hk. split; [by destruct p|lia].
  - exists (idx p + 1). split; [done|lia].
Qed.

Lemma wf_get b p :
  wf p → idx p < String.length E → wf (get b p) ∧ idx p < idx (get b p).
Proof.
  intros Hwf Hlt. destruct (get_spec b p Hwf Hlt) as (k & -> & Hk).
  split; [apply wf_set_idx; [done|lia]|simpl; lia].
Qed.

(** *** Rules for the actions *)

Lemma total_bind {A B} (m : M A) (f : A → M B) p
    (Q1 : A → Parser.t → Prop) (Q2 : B → Parser.t → Prop) :
  total m p Q1 →
  (∀ a p', wf p' → idx p ≤ idx p' → Q1 a p' → total (f a) p' Q2) →
  total (m ≫= f) p Q2.
Proof.
  intros [(a & p1 & Hm & Hwf1 & Hle1 & HQ1) | [Hm Hlen]] Hf.
  - destruct (Hf a p1 Hwf1 Hle1 HQ1)
      as [(b & p2 & Hfa & Hwf2 & Hle2 & HQ2) | [Hfa Hlen]].
    + left. exists b, p2. rewrite (bindM_ok _ _ _ _ _ Hm).
      split; [done|]. split; [done|]. split; [lia|done].
    + right. by rewrite (bindM_ok _ _ _ _ _ Hm).
  - right. by rewrite (bindM_raise _ _ _ _ Hm).
Qed.

Lemma total_ret {A} (a : A) p (Q : A → Parser.t → Prop) :
  wf p → Q a p → total (mret a) p Q.
Proof.
  intros Hwf HQ. left. exists a, p.
  split; [done|]. split; [done|]. split; [lia|done].
Qed.

Lemma total_read {A} (g : Parser.t → A) p (Q : A → Parser.t → Prop) :
  wf p → Q (g p) p → total (read g) p Q.
Proof.
  intros Hwf HQ. left. exists (g p), p.
  split; [done|]. split; [done|]. split; [lia|done].
Qed.

Lemma total_update (g : Parser.t → Parser.t) p (Q : unit → Parser.t → Prop) :
  wf (g p) → idx p ≤ idx (g p) → Q tt (g p) → total (update g) p Q.
Proof.
  intros Hwf Hle HQ. left. exists tt, (g p).
  split; [done|]. split; [done|]. split; [lia|done].
Qed.

Lemma total_new_node ty p (Q : Node.t → Parser.t → Prop) :
  wf p → Q (Node.new ty M0 F0) p → total (new_node ty) p Q.
Proof.
  intros Hwf HQ. left. exists (Node.new ty M0 F0), p.
  pose proof Hwf as (_ & Hm & Hf & _). unfold new_node, read.
  rewrite Hm, Hf. split; [done|]. split; [done|]. split; [lia|done].
Qed.

Lemma total_fail_near msg rest p (Q : option Node.t → Parser.t → Prop) :
  wf p → (∀ e, Q None (set_error e p)) → total (fail_near msg rest) p Q.
Proof.
  intros Hwf HQ. left. eexists None, _. rewrite fail_near_run.
  split; [done|]. split; [by apply wf_set_error|]. split; [done|apply HQ].
Qed.

Lemma total_weaken {A} (m : M A) p (Q Q' : A → Parser.t → Prop) :
  total m p Q → (∀ a p', Q a p' → Q' a p') → total m p Q'.
Proof.
  intros [(a & p' & ? & ? & ? & ?) | ?] HQ; [|by right].
  left. exists a, p'.
  split; [done|]. split; [done|]. split; [done|auto].
Qed.

Lemma total_lift {A} (r : result A) (a : A) p (Q : A → Parser.t → Prop) :
  r = Ok a → wf p → Q a p → total (lift r) p Q.
Proof.
  intros -> Hwf HQ. left. exists a, p.
  split; [done|]. split; [done|]. split; [lia|done].
Qed.

Lemma total_get b p (Q : unit → Parser.t → Prop) :
  wf p → idx p < String.length E →
  (∀ k, idx p < k ≤ String.length E → Q tt (set_idx k p)) →
  total (update (get b)) p Q.
Proof.
  intros Hwf Hlt HQ. destruct (get_spec b p Hwf Hlt) as (k & Hk & Hrange).
  apply total_update; rewrite Hk.
  - apply wf_set_idx; [done|lia].
  - simpl. lia.
  - by apply HQ.
Qed.

Lemma total_scan cond p (Q : unit → Parser.t → Prop) :
  on_char cond → wf p →
  (∀ k, idx p ≤ k ≤ String.length E →
        cond (set_idx k p) = false →
        (∀ i, idx p ≤ i < k → cond (set_idx i p) = true) →
        Q tt (set_idx k p)) →
  total (scan cond) p Q.
Proof.
  intros Hcond Hwf HQ.
  destruct (while_spec cond (get false) p Hcond get_false_step Hwf)
    as (k & Hk & Hrange & Hstop & Hpass).
  apply total_update; rewrite Hk.
  - apply wf_set_idx; [done|lia].
  - simpl. lia.
  - by apply HQ.
Qed.

Lemma total_skip_spaces p (Q : unit → Parser.t → Prop) :
  wf p →
  (∀ k, idx p ≤ k ≤ String.length E →
        (∀ i, idx p ≤ i < k → has_space (set_idx i p) = true) →
        Q tt (set_idx k p)) →
  total skip_spaces p Q.
Proof.
  intros Hwf HQ.
  destruct (while_spec has_space skip_space p on_char_has_space
              skip_space_step Hwf) as (k & Hk & Hrange & Hstop & Hpass).
  apply total_update; rewrite Hk.
  - apply wf_set_idx; [done|lia].
  - simpl. lia.
  - by apply HQ.
Qed.

(** *** Trees *)

Lemma all_nodes_unfold (P : Node.t → Prop) n :
  all_nodes P n ↔ P n ∧ Forall (all_nodes P) (Node.children n).
Proof.
  destruct n as [ty m f cs c v]. simpl.
  assert (Hcs : (fix all (l : list Node.t) : Prop :=
                   match l with
                   | [] => True
                   | c :: l' => all_nodes P c ∧ all l'
                   end) cs ↔ Forall (all_nodes P) cs).
  { induction cs as [|c' cs IH]; [by split; [constructor|]|].
    rewrite Forall_cons, IH. done. }
  by rewrite Hcs.
Qed.

Lemma ok_leaf ty n :
  ty ≠ Node.PRODUCT → Node.type n = ty → Node.children n = [] →
  cfg_ok M0 F0 n → ok_node n.
Proof.
  intros Hty Htype Hcs Hcfg. split; [|congruence].
  apply all_nodes_unfold. rewrite Hcs. by split.
Qed.

Lemma ok_inner n :
  cfg_ok M0 F0 n → Node.children n ≠ [] →
  Forall ok_node (Node.children n) → ok_node n.
Proof.
  intros Hcfg Hne Hcs. split; [|done].
  apply all_nodes_unfold. split; [done|].
  eapply Forall_impl; [exact Hcs|]. by intros c [? _].
Qed.

Lemma ok_node_children n : ok_node n → Forall (all_nodes (cfg_ok M0 F0)) (Node.children n).
Proof. intros [Hn _]. by apply all_nodes_unfold in Hn as [_ ?]. Qed.

Lemma ok_node_cfg n : ok_node n → cfg_ok M0 F0 n.
Proof. intros [Hn _]. by apply all_nodes_unfold in Hn as [? _]. Qed.

Lemma ok_append child n :
  all_nodes (cfg_ok M0 F0) n → ok_node child →
  ok_node (Node.append_child child n).
Proof.
  intros Hn [Hchild _]. apply all_nodes_unfold in Hn as [Hcfg Hcs].
  split.
  - apply all_nodes_unfold. split; [done|]. simpl.
    apply Forall_app. split; [done|]. by constructor.
  - intros _. simpl. by destruct (Node.children n).
Qed.

Lemma ok_new ty : all_nodes (cfg_ok M0 F0) (Node.new ty M0 F0).
Proof. apply all_nodes_unfold. by split. Qed.

(** *** Characters *)

Lemma decimal_digit c :
  code_between 48 57 (Some c) = true →
  digit_in 10 c = true ∧ is_space c = false.
Proof.
  destruct c as [[] [] [] [] [] [] [] []]; vm_compute; intros; done.
Qed.

Lemma hex_digit c :
  code_between 48 57 (Some c) || code_between 97 102 (Some c)
  || code_between 65 70 (Some c) = true →
  digit_in 16 c = true ∧ is_space c = false.
Proof.
  destruct c as [[] [] [] [] [] [] [] []]; vm_compute; intros; done.
Qed.

Lemma binary_digit c :
  bool_decide (Some c = Some "0"%char) || bool_decide (Some c = Some "1"%char)
  = true →
  digit_in 2 c = true ∧ is_space c = false.
Proof.
  destruct c as [[] [] [] [] [] [] [] []]; vm_compute; intros; done.
Qed.

Lemma digit_decimal c :
  digit_in 10 c = true → code_between 48 57 (Some c) = true.
Proof.
  destruct c as [[] [] [] [] [] [] [] []]; vm_compute; intros; done.
Qed.

Lemma on_char_decimal : on_char has_decimal_digit.
Proof. exists (code_between 48 57). by split. Qed.

Lemma on_char_hex : on_char has_hex_digit.
Proof.
  exists (λ c, code_between 48 57 c || code_between 97 102 c
               || code_between 65 70 c).
  by split.
Qed.

Lemma on_char_binary :
  on_char (λ p, bool_decide (peek p = Some "0"%char)
                || bool_decide (peek p = Some "1"%char)).
Proof.
  exists (λ c, bool_decide (c = Some "0"%char)
               || bool_decide (c = Some "1"%char)).
  by split.
Qed.

Lemma on_char_name :
  on_char (λ p, has_decimal_digit p || has_letter p
                || bool_decide (peek p = Some "_"%char)).
Proof.
  exists (λ c, code_between 48 57 c
               || (code_between 97 122 c || code_between 65 90 c)
               || bool_decide (c = Some "_"%char)).
  by split.
Qed.

(** *** Terminals *)

Lemma skip_spaces_run p :
  wf p →
  ∃ k, skip_spaces p = Ok (tt, set_idx k p) ∧
       idx p ≤ k ≤ String.length E ∧
       ∀ i, idx p ≤ i < k → has_space (set_idx i p) = true.
Proof.
  intros Hwf.
  destruct (while_spec has_space skip_space p on_char_has_space
              skip_space_step Hwf) as (k & Hk & Hrange & _ & Hpass).
  exists k. unfold skip_spaces, update. by rewrite Hk.
Qed.

Lemma scan_run cond p :
  on_char cond → wf p →
  ∃ k, scan cond p = Ok (tt, set_idx k p) ∧
       idx p ≤ k ≤ String.length E ∧
       cond (set_idx k p) = false ∧
       ∀ i, idx p ≤ i < k → cond (set_idx i p) = true.
Proof.
  intros Hcond Hwf.
  destruct (while_spec cond (get false) p Hcond get_false_step Hwf)
    as (k & Hk & Hrange & Hstop & Hpass).
  exists k. unfold scan, update. by rewrite Hk.
Qed.

Lemma get_constant_run start base p z :
  int_ (rstrip (slice start p)) base = Ok z →
  get_constant start base p = Ok (z, p).
Proof.
  intros Hz. unfold get_constant. rewrite bindM_read.
  unfold lift. by rewrite Hz.
Qed.

Lemma get_constant_raise start base p e :
  int_ (rstrip (slice start p)) base = Raise e →
  get_constant start base p = Raise e.
Proof.
  intros Hz. unfold get_constant. rewrite bindM_read.
  unfold lift. by rewrite Hz.
Qed.

Lemma set_idx_set_idx i k p : set_idx k (set_idx i p) = set_idx k p.
Proof. done. Qed.

Lemma set_idx_id p : set_idx (idx p) p = p.
Proof. by destruct p. Qed.

Lemma has_space_char p i :
  wf p → has_space (set_idx i p) = true →
  ∃ c, String.get i E = Some c ∧ is_space c = true.
Proof.
  intros (He & _) Hsp. unfold has_space in Hsp.
  apply bool_decide_eq_true in Hsp.
  apply peek_Some in Hsp as [_ Hget]. simpl in Hget. rewrite He in Hget.
  by exists " "%char.
Qed.

(** The end of the constant parsers: the digits read so far are
    digits of the base, so [int] accepts them. *)
Lemma finish_constant_total start base p :
  power_of_two base = true ∨ base = 10%Z →
  wf p → start < idx p →
  (∀ i, start ≤ i < idx p →
        ∃ c, String.get i E = Some c ∧ digit_in base c = true
             ∧ is_space c = false) →
  total (finish_constant start base) p ok_result.
Proof.
  intros Hbase Hwf Hstart Hdigits.
  destruct (skip_spaces_run p Hwf) as (k & Hrun & Hk & Hspaces).
  assert (Hwfk : wf (set_idx k p)) by (apply wf_set_idx; [done|lia]).
  pose proof Hwf as (He & Hm & Hf & _).
  set (digits := String.substring start (idx p - start) E).
  set (spaces := String.substring (start + (idx p - start)) (k - idx p) E).
  assert (Hslice : slice start (set_idx k p) = digits +:+ spaces).
  { unfold slice. simpl. rewrite He.
    replace (k - start) with ((idx p - start) + (k - idx p)) by lia.
    apply substring_split. }
  destruct (substring_all (λ c, digit_in base c && negb (is_space c)) E
              start (idx p - start)) as [Hdig Hlen].
  { intros i Hi. destruct (Hdigits i) as (c & ? & Hd & Hs); [lia|].
    exists c. by rewrite Hd, Hs. }
  destruct (substring_all is_space E (start + (idx p - start)) (k - idx p))
    as [Hsp _].
  { intros i Hi. apply (has_space_char p i Hwf). apply Hspaces. lia. }
  fold digits in Hdig, Hlen. fold spaces in Hsp.
  assert (Hstrip : rstrip (slice start (set_idx k p)) = digits).
  { rewrite Hslice. apply rstrip_app; [|done].
    eapply all_chars_impl; [|exact Hdig].
    by intros c [_ ?]%andb_true_iff. }
  destruct (int_digits base digits) as [[z Hz] | (Hz & Hpow & Hlim)].
  { intros Hempty. rewrite Hempty in Hlen. simpl in Hlen. lia. }
  { eapply all_chars_impl; [|exact Hdig].
    by intros c [? _]%andb_true_iff. }
  - rewrite <- Hstrip in Hz. left.
    exists (Some (Node.set_constant z (Node.new Node.CONSTANT M0 F0))),
      (set_idx k p).
    split.
    { unfold finish_constant. rewrite (bindM_ok _ _ _ _ _ Hrun).
      rewrite bindM_new_node. simpl modulus. simpl modRed.
      rewrite (bindM_ok _ _ _ _ _ (get_constant_run _ _ _ _ Hz)).
      by rewrite Hm, Hf. }
    split; [done|]. split; [simpl; lia|].
    intros n [= <-]. by apply (ok_leaf Node.CONSTANT).
  - rewrite <- Hstrip in Hz. right. split.
    { unfold finish_constant. rewrite (bindM_ok _ _ _ _ _ Hrun).
      rewrite bindM_new_node.
      by rewrite (bindM_raise _ _ _ _ (get_constant_raise _ _ _ _ Hz)). }
    destruct Hbase as [Hbase | ->]; [congruence|].
    exists start, (idx p - start). split; [lia|].
    intros i Hi. destruct (Hdigits i) as (c & Hc & Hd & _); [lia|].
    exists c. split; [done|]. by apply digit_decimal.
Qed.

Lemma cond_char (f : option ascii → bool) p i :
  wf p → f None = false → f (peek (set_idx i p)) = true →
  ∃ c, String.get i E = Some c ∧ f (Some c) = true.
Proof.
  intros (He & _) Hnone Hf.
  destruct (peek (set_idx i p)) as [c|] eqn:Hp; [|congruence].
  apply peek_Some in Hp as [_ Hget]. simpl in Hget. rewrite He in Hget.
  by exists c.
Qed.

Lemma parse_decimal_constant_total p :
  wf p → total parse_decimal_constant p ok_result.
Proof.
  intros Hwf. destruct (has_decimal_digit p) eqn:Hd.
  - destruct (scan_run has_decimal_digit p on_char_decimal Hwf)
      as (k & Hrun & Hk & Hstop & Hpass).
    assert (Hk' : idx p < k).
    { destruct (decide (k = idx p)) as [->|]; [|lia].
      rewrite set_idx_id in Hstop. congruence. }
    assert (Hunfold : parse_decimal_constant p
                      = finish_constant (idx p) 10 (set_idx k p)).
    { unfold parse_decimal_constant. rewrite bindM_read, Hd.
      change (negb true) with false. cbv beta iota.
      rewrite bindM_read, (bindM_ok _ _ _ _ _ Hrun). done. }
    destruct (finish_constant_total (idx p) 10 (set_idx k p))
      as [(r & p' & Hfin & Hwf' & Hle & Hres) | [Hfin Hlim]].
    { by right. }
    { apply wf_set_idx; [done|lia]. }
    { done. }
    { intros i Hi. simpl in Hi.
      destruct (cond_char (code_between 48 57) p i Hwf eq_refl)
        as (c & Hc & Hdigit); [by apply Hpass|].
      exists c. split; [done|]. by apply decimal_digit. }
    + left. exists r, p'. split; [by rewrite Hunfold|].
      split; [done|]. split; [simpl in Hle; lia|done].
    + right. by rewrite Hunfold.
  - left. eexists None, _. split.
    { unfold parse_decimal_constant. rewrite bindM_read, Hd.
      change (negb false) with true. cbv beta iota. apply fail_near_run. }
    split; [by apply wf_set_error|]. split; [done|]. by intros n.
Qed.

(** After the two characters of the prefix [0b] or [0x]. *)
Lemma skip_prefix p :
  wf p → idx p + 1 < String.length E →
  get false (get false p) = set_idx (idx p + 2) p ∧
  wf (set_idx (idx p + 2) p).
Proof.
  intros Hwf Hlt. split.
  - rewrite !get_false_step. simpl. rewrite set_idx_set_idx.
    f_equal. lia.
  - apply wf_set_idx; [done|lia].
Qed.

Lemma peek_next_Some p c :
  peek_next p = Some c → idx p + 1 < String.length (expr p).
Proof.
  unfold peek_next.
  destruct (decide (String.length (expr p) - 1 ≤ idx p)); [done|]. lia.
Qed.

Lemma parse_binary_constant_total p :
  wf p → has_binary_constant p = true →
  total parse_binary_constant p ok_result.
Proof.
  intros Hwf Hbin. pose proof Hwf as (He & _).
  apply andb_true_iff in Hbin as [_ Hnext%bool_decide_eq_true].
  apply peek_next_Some in Hnext. rewrite He in Hnext.
  destruct (skip_prefix p Hwf Hnext) as [Hskip Hwf2].
  set (p2 := set_idx (idx p + 2) p) in *.
  destruct (decide (peek p2 ≠ Some "0"%char ∧ peek p2 ≠ Some "1"%char))
    as [Hbad|Hgood].
  - left. eexists None, _. split.
    { unfold parse_binary_constant. rewrite !bindM_update, Hskip.
      rewrite bindM_read. rewrite decide_True by done.
      apply fail_near_run. }
    split; [by apply wf_set_error|]. split; [simpl; lia|]. by intros n.
  - destruct (scan_run _ p2 on_char_binary Hwf2)
      as (k & Hrun & Hk & Hstop & Hpass).
    unfold p2 in Hrun, Hstop. rewrite set_idx_set_idx in Hrun, Hstop.
    fold p2 in Hrun.
    assert (Hfirst : bool_decide (peek p2 = Some "0"%char)
                     || bool_decide (peek p2 = Some "1"%char) = true).
    { apply orb_true_iff. rewrite !bool_decide_eq_true.
      destruct (decide (peek p2 = Some "0"%char)); [by left|].
      destruct (decide (peek p2 = Some "1"%char)); [by right|].
      by destruct Hgood. }
    assert (Hk' : idx p2 < k).
    { destruct (decide (k = idx p2)) as [->|]; [|lia].
      simpl in Hstop. fold p2 in Hstop. congruence. }
    assert (Hunfold : parse_binary_constant p
                      = finish_constant (idx p2) 2 (set_idx k p)).
    { unfold parse_binary_constant. rewrite !bindM_update, Hskip.
      rewrite bindM_read. rewrite decide_False by done.
      rewrite bindM_read, (bindM_ok _ _ _ _ _ Hrun). done. }
    destruct (finish_constant_total (idx p2) 2 (set_idx k p))
      as [(r & p' & Hfin & Hwf' & Hle & Hres) | [Hfin Hlim]].
    { by left. }
    { apply wf_set_idx; [done|lia]. }
    { done. }
    { intros i Hi. simpl in Hi.
      specialize (Hpass i ltac:(simpl; lia)).
      unfold p2 in Hpass. rewrite set_idx_set_idx in Hpass.
      destruct (cond_char (λ c, bool_decide (c = Some "0"%char)
                                || bool_decide (c = Some "1"%char))
                  p i Hwf ltac:(done) Hpass) as (c & Hc & Hdigit).
      exists c. split; [done|]. by apply binary_digit. }
    + left. exists r, p'. split; [by rewrite Hunfold|].
      split; [done|]. split; [simpl in Hle; simpl in Hk'; lia|done].
    + right. by rewrite Hunfold.
Qed.

Lemma parse_hex_constant_total p :
  wf p → has_hex_constant p = true →
  total parse_hex_constant p ok_result.
Proof.
  intros Hwf Hhex. pose proof Hwf as (He & _).
  apply andb_true_iff in Hhex as [_ Hnext%bool_decide_eq_true].
  apply peek_next_Some in Hnext. rewrite He in Hnext.
  destruct (skip_prefix p Hwf Hnext) as [Hskip Hwf2].
  set (p2 := set_idx (idx p + 2) p) in *.
  destruct (has_hex_digit p2) eqn:Hd.
  - destruct (scan_run _ p2 on_char_hex Hwf2)
      as (k & Hrun & Hk & Hstop & Hpass).
    unfold p2 in Hrun, Hstop. rewrite set_idx_set_idx in Hrun, Hstop.
    fold p2 in Hrun.
    assert (Hk' : idx p2 < k).
    { destruct (decide (k = idx p2)) as [->|]; [|lia].
      simpl in Hstop. fold p2 in Hstop. congruence. }
    assert (Hunfold : parse_hex_constant p
                      = finish_constant (idx p2) 16 (set_idx k p)).
    { unfold parse_hex_constant. rewrite !bindM_update, Hskip.
      rewrite bindM_read, Hd. change (negb true) with false. cbv beta iota.
      rewrite bindM_read, (bindM_ok _ _ _ _ _ Hrun). done. }
    destruct (finish_constant_total (idx p2) 16 (set_idx k p))
      as [(r & p' & Hfin & Hwf' & Hle & Hres) | [Hfin Hlim]].
    { by left. }
    { apply wf_set_idx; [done|lia]. }
    { done. }
    { intros i Hi. simpl in Hi.
      specialize (Hpass i ltac:(simpl; lia)).
      unfold p2 in Hpass. rewrite set_idx_set_idx in Hpass.
      destruct (cond_char (λ c, code_between 48 57 c
                                || code_between 97 102 c
                                || code_between 65 70 c)
                  p i Hwf eq_refl Hpass) as (c & Hc & Hdigit).
      exists c. split; [done|]. by apply hex_digit. }
    + left. exists r, p'. split; [by rewrite Hunfold|].
      split; [done|]. split; [simpl in Hle; simpl in Hk'; lia|done].
    + right. by rewrite Hunfold.
  - left. eexists None, _. split.
    { unfold parse_hex_constant. rewrite !bindM_update, Hskip.
      rewrite bindM_read, Hd. change (negb false) with true. cbv beta iota.
      apply fail_near_run. }
    split; [by apply wf_set_error|]. split; [simpl; lia|]. by intros n.
Qed.

Lemma parse_constant_total p : wf p → total parse_constant p ok_result.
Proof.
  intros Hwf. unfold total, terminates, returns, parse_constant.
  rewrite bindM_read. destruct (has_binary_constant p) eqn:Hb.
  - by apply parse_binary_constant_total.
  - rewrite bindM_read. destruct (has_hex_constant p) eqn:Hh.
    + by apply parse_hex_constant_total.
    + by apply parse_decimal_constant_total.
Qed.

Lemma total_bind_read {A B} (g : Parser.t → A) (f : A → M B) p
    (Q : B → Parser.t → Prop) :
  total (f (g p)) p Q → total (read g ≫= f) p Q.
Proof. unfold terminates, returns. by rewrite bindM_read. Qed.

Lemma total_bind_new_node {B} ty (f : Node.t → M B) p
    (Q : B → Parser.t → Prop) :
  wf p → total (f (Node.new ty M0 F0)) p Q → total (new_node ty ≫= f) p Q.
Proof.
  intros (_ & Hm & Hf & _). unfold terminates, returns.
  by rewrite bindM_new_node, Hm, Hf.
Qed.

Lemma total_bind_get {B} b (f : unit → M B) p (Q : B → Parser.t → Prop) :
  wf p → idx p < String.length E →
  (∀ q, wf q → idx p < idx q → total (f tt) q Q) →
  total (update (get b) ≫= f) p Q.
Proof.
  intros Hwf Hlt Hf. destruct (wf_get b p Hwf Hlt) as [Hwf1 Hlt1].
  destruct (Hf _ Hwf1 Hlt1)
    as [(a & p' & Hrun & Hwf' & Hle & HQ) | [Hrun Hlim]].
  - left. exists a, p'. rewrite bindM_update.
    split; [done|]. split; [done|]. split; [lia|done].
  - right. by rewrite bindM_update.
Qed.

Lemma parse_variable_total p :
  wf p → has_variable p = true → total parse_variable p ok_result.
Proof.
  intros Hwf Hvar. pose proof Hwf as (He & Hm & Hf & _).
  assert (Hlt : idx p < String.length E).
  { rewrite <- He. apply (on_char_lt has_letter); [|done].
    exists (λ c, code_between 97 122 c || code_between 65 90 c). by split. }
  assert (Hnode : ∀ s, ok_node (Node.set_vname s (Node.new Node.VARIABLE M0 F0)))
    by (intros s; by apply (ok_leaf Node.VARIABLE)).
  unfold parse_variable. apply total_bind_read.
  apply total_bind_get; [done|done|]. intros p1 Hwf1 Hlt1.
  apply (total_bind _ _ _ (λ _ _, True)).
  { apply total_scan; [apply on_char_name|done|done]. }
  intros _ p2 Hwf2 Hle2 _. apply total_bind_read.
  destruct (decide (peek p2 = Some "["%char)) as [Hopen|_].
  - apply peek_Some in Hopen as [Hlt2 _].
    destruct Hwf2 as (He2 & Hwf2'). rewrite He2 in Hlt2.
    assert (Hwf2 : wf p2) by done.
    apply total_bind_get; [done|done|]. intros p3 Hwf3 Hlt3.
    apply (total_bind _ _ _ (λ _ _, True)).
    { apply total_scan; [apply on_char_decimal|done|done]. }
    intros _ p4 Hwf4 Hle4 _. apply total_bind_read.
    destruct (decide (peek p4 = Some "]"%char)) as [Hclose|_].
    + apply peek_Some in Hclose as [Hlt4 _].
      pose proof Hwf4 as (He4 & _). rewrite He4 in Hlt4.
      apply total_bind_get; [done|done|]. intros p5 Hwf5 Hlt5.
      apply total_bind_new_node; [done|]. apply total_bind_read.
      apply total_ret; [done|]. by intros n [= <-].
    + apply total_ret; [done|]. by intros n.
  - apply (total_bind _ _ _ (λ _ _, True)).
    { apply total_skip_spaces; [done|done]. }
    intros _ p3 Hwf3 Hle3 _.
    apply total_bind_new_node; [done|]. apply total_bind_read.
    apply total_ret; [done|]. by intros n [= <-].
Qed.

Lemma all_nodes_set_constant c n :
  all_nodes (cfg_ok M0 F0) n → all_nodes (cfg_ok M0 F0) (Node.set_constant c n).
Proof. rewrite !all_nodes_unfold. by intros [? ?]. Qed.

Lemma multiply_by_minus_one_total node p :
  wf p → ok_node node →
  total (multiply_by_minus_one node) p (λ n _, ok_node n).
Proof.
  intros Hwf [Hall Hprod]. unfold multiply_by_minus_one.
  pose proof Hall as [Hcfg Hcs]%all_nodes_unfold.
  destruct (decide (Node.type node = Node.CONSTANT)) as [Hc|Hc].
  { apply total_ret; [done|]. split; [by apply all_nodes_set_constant|].
    simpl. congruence. }
  destruct (decide (Node.type node = Node.PRODUCT)) as [Hp|Hp].
  - specialize (Hprod Hp).
    destruct (Node.children node) as [|first others] eqn:Hch; [done|].
    apply Forall_cons in Hcs as [Hfirst Hothers].
    destruct (decide (Node.type first = Node.CONSTANT)).
    + apply total_ret; [done|]. split; [|done].
      apply all_nodes_unfold. split; [done|]. simpl.
      constructor; [by apply all_nodes_set_constant|done].
    + apply total_bind_new_node; [done|].
      apply total_ret; [done|]. split; [|done].
      apply all_nodes_unfold. split; [done|]. simpl.
      constructor; [apply all_nodes_set_constant, ok_new|].
      by constructor.
  - apply total_bind_new_node; [done|]. apply total_bind_new_node; [done|].
    apply total_ret; [done|]. split; [|done].
    apply all_nodes_unfold. split; [done|]. simpl.
    constructor; [apply all_nodes_set_constant, ok_new|]. by constructor.
Qed.

(** *** Operator chains *)

Lemma within_is_char c : within (is_char c).
Proof.
  intros q Hq. unfold is_char in Hq. apply bool_decide_eq_true in Hq.
  by apply peek_Some in Hq as [? _].
Qed.

Lemma within_has_multiplicator : within has_multiplicator.
Proof.
  intros q [Hq _]%andb_true_iff. apply bool_decide_eq_true in Hq.
  by apply peek_Some in Hq as [? _].
Qed.

Lemma operator_loop_total cond sub (n : nat) : ∀ node p,
  within cond → wf p → String.length E - idx p ≤ n →
  all_nodes (cfg_ok M0 F0) node → Node.children node ≠ [] →
  (∀ q, wf q → idx p ≤ idx q → total sub q ok_result) →
  total (operator_loop n cond sub node) p ok_result.
Proof.
  induction n as [|n IH]; intros node p Hcond Hwf Hn Hnode Hne Hsub.
  - simpl. apply total_bind_read. destruct (cond p) eqn:Hc.
    + apply Hcond in Hc.
      destruct Hwf as (He & _). rewrite He in Hc. lia.
    + apply total_ret; [done|]. by intros m [= <-].
  - simpl. apply total_bind_read. destruct (cond p) eqn:Hc.
    + apply Hcond in Hc.
      pose proof Hwf as (He & _). rewrite He in Hc.
      apply total_bind_get; [done|done|]. intros p1 Hwf1 Hlt1.
      apply (total_bind _ _ _ ok_result); [apply Hsub; [done|lia]|].
      intros [child|] p2 Hwf2 Hle2 Hres.
      * apply IH; try done.
        -- lia.
        -- apply ok_append; [done|]. by apply Hres.
        -- simpl. by destruct (Node.children node).
        -- intros q Hwfq Hq. apply Hsub; [done|lia].
      * apply total_ret; [done|]. by intros m.
    + apply total_ret; [done|]. by intros m [= <-].
Qed.

Lemma operator_chain_total ty cond sub p :
  within cond → wf p →
  (∀ q, wf q → idx p ≤ idx q → total sub q ok_result) →
  total (operator_chain ty cond sub) p ok_result.
Proof.
  intros Hcond Hwf Hsub. unfold operator_chain.
  apply (total_bind _ _ _ ok_result); [by apply Hsub|].
  intros [child|] p1 Hwf1 Hle1 Hres.
  - apply total_bind_read. destruct (cond p1); simpl negb; cbv beta iota.
    + apply total_bind_new_node; [done|]. cbv zeta.
      apply total_bind_read. pose proof Hwf1 as (-> & _).
      apply operator_loop_total; try done.
      * apply ok_append; [apply ok_new|by apply Hres].
      * intros q Hwfq Hq. apply Hsub; [done|lia].
    + apply total_ret; [done|]. intros m [= <-]. by apply Hres.
  - apply total_ret; [done|]. by intros m.
Qed.

Lemma sum_loop_total sub (n : nat) : ∀ node p,
  wf p → String.length E - idx p ≤ n →
  all_nodes (cfg_ok M0 F0) node → Node.children node ≠ [] →
  (∀ q, wf q → idx p ≤ idx q → total sub q ok_result) →
  total (sum_loop n sub node) p ok_result.
Proof.
  induction n as [|n IH]; intros node p Hwf Hn Hnode Hne Hsub.
  - simpl. apply total_bind_read.
    destruct (decide (peek p = Some "+"%char ∨ peek p = Some "-"%char))
      as [[Hc|Hc]|_].
    + apply peek_Some in Hc as [Hc _].
      destruct Hwf as (He & _). rewrite He in Hc. lia.
    + apply peek_Some in Hc as [Hc _].
      destruct Hwf as (He & _). rewrite He in Hc. lia.
    + apply total_ret; [done|]. by intros m [= <-].
  - simpl. apply total_bind_read.
    destruct (decide (peek p = Some "+"%char ∨ peek p = Some "-"%char))
      as [Hc|_].
    + assert (Hlt : idx p < String.length E).
      { pose proof Hwf as (He & _). rewrite <- He.
        destruct Hc as [Hc|Hc]; by apply peek_Some in Hc as [? _]. }
      apply total_bind_get; [done|done|]. intros p1 Hwf1 Hlt1.
      apply (total_bind _ _ _ ok_result); [apply Hsub; [done|lia]|].
      intros [child|] p2 Hwf2 Hle2 Hres.
      * assert (Hrest : ∀ child' q, wf q → idx p2 ≤ idx q → ok_node child' →
                  total (sum_loop n sub (Node.append_child child' node)) q
                    ok_result).
        { intros child' q Hwfq Hq Hchild. apply IH; try done.
          - lia.
          - by apply ok_append.
          - simpl. by destruct (Node.children node).
          - intros q' Hwfq' Hq'. apply Hsub; [done|lia]. }
        destruct (bool_decide (peek p = Some "-"%char)).
        -- apply (total_bind _ _ _ (λ m _, ok_node m)).
           { apply multiply_by_minus_one_total; [done|by apply Hres]. }
           intros child' q Hwfq Hq Hchild. by apply Hrest.
        -- apply Hrest; [done|done|by apply Hres].
      * apply total_ret; [done|]. by intros m.
    + apply total_ret; [done|]. by intros m [= <-].
Qed.

(** *** The grammar *)

Lemma while_stops q :
  has_space q = false → while_ has_space skip_space q = q.
Proof.
  intros Hq. unfold while_.
  destruct (String.length (expr q) - idx q); simpl; [done|]. by rewrite Hq.
Qed.

(** The two [__get] calls over an operator of two characters. *)
Lemma get_two p c :
  wf p → peek_next p = Some c → c ≠ " "%char →
  idx p + 1 < String.length E ∧
  get true p = set_idx (idx p + 1) p.
Proof.
  intros Hwf Hnext Hc. pose proof Hwf as (He & _).
  pose proof (peek_next_Some _ _ Hnext) as Hlt. rewrite He in Hlt.
  split; [done|]. unfold get. apply while_stops.
  unfold has_space. apply bool_decide_eq_false.
  unfold peek_next in Hnext.
  destruct (decide (String.length (expr p) - 1 ≤ idx p)); [done|].
  unfold peek. simpl. rewrite decide_False by lia. congruence.
Qed.

Lemma total_bind_get_two {B} (f : unit → M B) p c
    (Q : B → Parser.t → Prop) :
  wf p → peek_next p = Some c → c ≠ " "%char →
  (∀ q, wf q → idx p < idx q → total (f tt) q Q) →
  total (update (get true) ≫= λ _, update (get true) ≫= f) p Q.
Proof.
  intros Hwf Hnext Hc Hf.
  destruct (get_two p c Hwf Hnext Hc) as [Hlt Hget].
  assert (Hwf1 : wf (set_idx (idx p + 1) p))
    by (apply wf_set_idx; [done|lia]).
  destruct (total_bind_get true f (set_idx (idx p + 1) p) Q)
    as [(a & p' & Hrun & Hwf' & Hle & HQ) | [Hrun Hlim]];
    [done|simpl; lia| | |].
  { intros q Hwfq Hq. apply Hf; [done|]. simpl in Hq. lia. }
  - left. exists a, p'. rewrite bindM_update, Hget.
    split; [done|]. split; [done|]. split; [simpl in Hle; lia|done].
  - right. by rewrite bindM_update, Hget.
Qed.

Lemma grammar_step fuel :
  grammar_total E M0 F0 fuel → grammar_total E M0 F0 (S fuel).
Proof.
  intros (Hincl & Hexcl & Hconj & Hshift & Hsum & Hprod & Hfactor
          & Hbitneg & Hneg & Hpower & Hterm).
  unfold grammar_total, rule_total, prefix_rule_total, need in *.
  split; [|split; [|split; [|split; [|split; [|split;
    [|split; [|split; [|split; [|split]]]]]]]]].
  - (* inclusive disjunction *)
    intros p Hwf Hneed. simpl.
    apply operator_chain_total; [apply within_is_char|done|].
    intros q Hwfq Hq. apply Hexcl; [done|lia].
  - (* exclusive disjunction *)
    intros p Hwf Hneed. simpl.
    apply operator_chain_total; [apply within_is_char|done|].
    intros q Hwfq Hq. apply Hconj; [done|lia].
  - (* conjunction *)
    intros p Hwf Hneed. simpl.
    apply operator_chain_total; [apply within_is_char|done|].
    intros q Hwfq Hq. apply Hshift; [done|lia].
  - (* shift *)
    intros p Hwf Hneed. simpl.
    apply (total_bind _ _ _ ok_result); [apply Hsum; [done|lia]|].
    intros [base|] p1 Hwf1 Hle1 Hbase; [|apply total_ret; [done|by intros m]].
    apply total_bind_read.
    destruct (has_lshift p1) eqn:Hs; simpl negb; cbv beta iota;
      [|apply total_ret; [done|]; intros m [= <-]; by apply Hbase].
    apply andb_true_iff in Hs as [_ Hs%bool_decide_eq_true].
    apply total_bind_new_node; [done|]. cbv zeta.
    apply (total_bind_get_two _ _ "<"%char); [done|done|done|].
    intros p2 Hwf2 Hlt2.
    apply (total_bind _ _ _ ok_result); [apply Hsum; [done|lia]|].
    intros [op|] p3 Hwf3 Hle3 Hop; [|apply total_ret; [done|by intros m]].
    apply total_bind_new_node; [done|].
    apply total_bind_new_node; [done|]. cbv zeta.
    apply total_bind_read. destruct (has_lshift p3).
    + apply total_fail_near; [done|]. by intros e m.
    + apply total_ret; [done|]. intros m [= <-].
      apply ok_append; [|apply ok_append; [|by apply Hop]].
      * apply ok_append; [apply ok_new|by apply Hbase].
      * apply ok_append; [apply ok_new|].
        by apply (ok_leaf Node.CONSTANT).
  - (* sum *)
    intros p Hwf Hneed. simpl.
    apply (total_bind _ _ _ ok_result); [apply Hprod; [done|lia]|].
    intros [child|] p1 Hwf1 Hle1 Hchild; [|apply total_ret; [done|by intros m]].
    apply total_bind_read.
    destruct (decide (peek p1 ≠ Some "+"%char ∧ peek p1 ≠ Some "-"%char)).
    + apply total_ret; [done|]. intros m [= <-]. by apply Hchild.
    + apply total_bind_new_node; [done|]. cbv zeta.
      apply total_bind_read. pose proof Hwf1 as (-> & _).
      apply sum_loop_total; try done.
      * apply ok_append; [apply ok_new|by apply Hchild].
      * intros q Hwfq Hq. apply Hprod; [done|lia].
  - (* product *)
    intros p Hwf Hneed. simpl.
    apply operator_chain_total; [apply within_has_multiplicator|done|].
    intros q Hwfq Hq. apply Hfactor; [done|lia].
  - (* factor *)
    intros p Hwf Hneed. simpl. pose proof Hwf as (He & _).
    apply total_bind_read.
    destruct (has_bitwise_negated_expression p) eqn:Hb.
    { apply bool_decide_eq_true in Hb. apply peek_Some in Hb as [Hlt _].
      rewrite He in Hlt. apply Hbitneg; [done|done|lia]. }
    apply total_bind_read.
    destruct (has_negative_expression p) eqn:Hn.
    { apply bool_decide_eq_true in Hn. apply peek_Some in Hn as [Hlt _].
      rewrite He in Hlt. apply Hneg; [done|done|lia]. }
    apply Hpower; [done|lia].
  - (* bitwise negation *)
    intros p Hwf Hlt Hneed. simpl.
    apply total_bind_get; [done|done|]. intros p1 Hwf1 Hlt1.
    apply total_bind_new_node; [done|].
    apply (total_bind _ _ _ ok_result).
    { apply Hfactor; [done|]. destruct Hwf1 as (_ & _ & _ & ?). lia. }
    intros [child|] p2 Hwf2 Hle2 Hchild; [|apply total_ret; [done|by intros m]].
    apply total_ret; [done|]. intros m [= <-]. split; [|done].
    apply all_nodes_unfold. split; [done|]. simpl.
    constructor; [by apply Hchild|constructor].
  - (* unary minus *)
    intros p Hwf Hlt Hneed. simpl.
    apply total_bind_get; [done|done|]. intros p1 Hwf1 Hlt1.
    apply (total_bind _ _ _ ok_result).
    { apply Hfactor; [done|]. destruct Hwf1 as (_ & _ & _ & ?). lia. }
    intros [node|] p2 Hwf2 Hle2 Hnode; [|apply total_ret; [done|by intros m]].
    apply (total_bind _ _ _ (λ m _, ok_node m)).
    { apply multiply_by_minus_one_total; [done|by apply Hnode]. }
    intros node' p3 Hwf3 Hle3 Hnode'.
    apply total_ret; [done|]. by intros m [= <-].
  - (* power *)
    intros p Hwf Hneed. simpl.
    apply (total_bind _ _ _ ok_result); [apply Hterm; [done|lia]|].
    intros [base|] p1 Hwf1 Hle1 Hbase; [|apply total_ret; [done|by intros m]].
    apply total_bind_read.
    destruct (has_power p1) eqn:Hw; simpl negb; cbv beta iota;
      [|apply total_ret; [done|]; intros m [= <-]; by apply Hbase].
    apply andb_true_iff in Hw as [_ Hw%bool_decide_eq_true].
    apply total_bind_new_node; [done|]. cbv zeta.
    apply (total_bind_get_two _ _ "*"%char); [done|done|done|].
    intros p2 Hwf2 Hlt2.
    apply (total_bind _ _ _ ok_result); [apply Hterm; [done|lia]|].
    intros [exp|] p3 Hwf3 Hle3 Hexp; [|apply total_ret; [done|by intros m]].
    cbv zeta. apply total_bind_read. destruct (has_power p3).
    + apply total_fail_near; [done|]. by intros e m.
    + apply total_ret; [done|]. intros m [= <-].
      apply ok_append; [|by apply Hexp].
      apply ok_append; [apply ok_new|by apply Hbase].
  - (* terminal *)
    intros p Hwf Hneed. simpl. pose proof Hwf as (He & _).
    apply total_bind_read.
    destruct (decide (peek p = Some "("%char)) as [Hopen|_].
    + apply peek_Some in Hopen as [Hlt _]. rewrite He in Hlt.
      apply total_bind_get; [done|done|]. intros p1 Hwf1 Hlt1.
      apply (total_bind _ _ _ ok_result).
      { apply Hincl; [done|]. destruct Hwf1 as (_ & _ & _ & ?). lia. }
      intros [node|] p2 Hwf2 Hle2 Hnode;
        [|apply total_ret; [done|by intros m]].
      apply total_bind_read.
      destruct (decide (peek p2 ≠ Some ")"%char)) as [|Hclose].
      * apply total_fail_near; [done|]. by intros e m.
      * assert (Hc : peek p2 = Some ")"%char).
        { destruct (decide (peek p2 = Some ")"%char)); [done|].
          by destruct Hclose. }
        apply peek_Some in Hc as [Hlt2 _].
        pose proof Hwf2 as (He2 & _). rewrite He2 in Hlt2.
        apply total_bind_get; [done|done|]. intros p3 Hwf3 Hlt3.
        apply total_ret; [done|]. intros m [= <-]. by apply Hnode.
    + apply total_bind_read. destruct (has_variable p) eqn:Hv.
      * by apply parse_variable_total.
      * by apply parse_constant_total.
Qed.

Lemma grammar_total_all fuel : grammar_total E M0 F0 fuel.
Proof.
  induction fuel as [|fuel IH]; [|by apply grammar_step].
  unfold grammar_total, rule_total, prefix_rule_total, need.
  repeat split; intros; lia.
Qed.

End parser_total.

(** ** The parser as a whole *)

Section parser_whole.

Import Parser.

Lemma on_char_trailing_space :
  on_char (λ p, bool_decide (idx p < String.length (expr p)) && has_space p).
Proof.
  exists (λ c, bool_decide (c = Some " "%char)). split; [done|].
  intros p. unfold has_space, peek.
  destruct (decide (String.length (expr p) ≤ idx p)).
  - rewrite bool_decide_eq_false_2 by lia. done.
  - rewrite bool_decide_eq_true_2 by lia. done.
Qed.



(** On every text [parse_expression] comes to an end: it returns, or
    [int] has raised on a decimal literal of more than 4300 digits. *)
Lemma parse_expression_terminates (text : string) (modulus : Z)
    (modRed : bool) :
  terminates text 32 modRed parse_expression (init text modulus modRed)
    (ok_result 32 modRed).
Proof.
  set (p0 := init text modulus modRed).
  assert (Hwf0 : good_state text 32 modRed p0) by (repeat split; simpl; lia).
  unfold parse_expression. apply total_bind_read.
  apply (total_bind _ _ _ _ _ _ (λ _ _, True)).
  { destruct (has_space p0) eqn:Hs.
    - apply (on_char_lt _ _ on_char_has_space) in Hs.
      apply total_update; [|simpl; lia|done].
      apply wf_set_idx; [done|]. simpl in *. lia.
    - by apply total_ret. }
  intros _ p1 Hwf1 _ _. apply total_bind_read.
  apply (total_bind _ _ _ _ _ _ (ok_result 32 modRed)).
  { pose proof Hwf1 as (-> & _).
    apply (grammar_total_all text 32 modRed); [done|].
    unfold need, depth. lia. }
  intros root p2 Hwf2 _ Hroot.
  apply (total_bind _ _ _ _ _ _ (λ _ _, True)).
  { destruct (while_spec text 32 modRed _ skip_space p2
                on_char_trailing_space (skip_space_step) Hwf2)
      as (k & Hk & Hrange & _).
    apply total_update; rewrite ?Hk; [|simpl; lia|done].
    apply wf_set_idx; [done|lia]. }
  intros _ p3 Hwf3 _ _. do 2 apply total_bind_read.
  destruct (decide (idx p3 ≠ String.length (expr p3))).
  - apply total_fail_near; [done|]. by intros e m.
  - apply total_ret; [done|]. intros m Hm. by apply Hroot.
Qed.

(** With any flag, a tree that [parse_expression] returns carries the
    modulus 32 and the flag at all its nodes. *)
Lemma parse_expression_total (text : string) (modulus : Z) (modRed : bool) :
  (∃ r p',
     parse_expression (init text modulus modRed) = Ok (r, p') ∧
     ∀ root, r = Some root →
       all_nodes (λ n, Node.modulus n = 32%Z ∧ Node.modRed n = modRed) root)
  ∨ (parse_expression (init text modulus modRed) = Raise ValueError ∧
     long_literal text).
Proof.
  destruct (parse_expression_terminates text modulus modRed)
    as [(r & p' & Hrun & _ & _ & Hres) | ?]; [left|by right].
  exists r, p'. split; [done|]. intros root ->. by apply (Hres root).
Qed.

End parser_whole.

(** Every tree that [parse] returns, whatever the bit count, has the
    modulus 32 at all its nodes, together with the reduce-constants
    flag; and [parse] without the two passes returns on every text in
    which no decimal literal has more than 4300 digits. *)
Lemma parse_nodes_carry_32 (refine_pass mark_linear_pass : Node.t → Node.t)
    (text : string) (bitCount : Z) (reduceConstants : bool) :
  (∃ r,
     Parser.parse refine_pass mark_linear_pass text bitCount reduceConstants
       false false = Ok r ∧
     ∀ root, r = Some root →
       all_nodes (λ n, Node.modulus n = 32%Z ∧ Node.modRed n = reduceConstants)
         root)
  ∨ (Parser.parse refine_pass mark_linear_pass text bitCount reduceConstants
       false false = Raise ValueError ∧
     long_literal text).
Proof.
  destruct (parse_expression_total text (2 ^ bitCount) reduceConstants)
    as [(r & p' & Hrun & Hres) | [Hrun Hlong]].
  - left. exists r. split; [|done].
    unfold Parser.parse. rewrite Hrun. simpl. by destruct r.
  - right. split; [|done]. unfold Parser.parse. by rewrite Hrun.
Qed.

(** C4, as the code has it. When [marklinear] is requested without
    [refine], [parse] first parses the text, whatever it is. It exits
    with the configuration error when the parser returned a tree; it
    returns [None], without that error, when the parser returned
    none; and when the parser did not return, because [int] refused a
    decimal literal of more than 4300 digits, the [ValueError] leaves
    [parse], again without the configuration error. On every text one
    of the three happens. *)
Theorem marklinear_without_refine
    (refine_pass mark_linear_pass : Node.t → Node.t)
    (text : string) (bitCount : Z) (reduceConstants : bool) :
  (∃ root p',
     Parser.parse_expression (Parser.init text (2 ^ bitCount) reduceConstants)
     = Ok (Some root, p') ∧
     Parser.parse refine_pass mark_linear_pass text bitCount reduceConstants
       false true
     = Raise (SystemExit
                "Error: Refine before marking linear subexpressions!"))
  ∨ (∃ p',
       Parser.parse_expression
         (Parser.init text (2 ^ bitCount) reduceConstants)
       = Ok (None, p') ∧
       Parser.parse refine_pass mark_linear_pass text bitCount reduceConstants
         false true
       = Ok None)
  ∨ (Parser.parse_expression
       (Parser.init text (2 ^ bitCount) reduceConstants)
     = Raise ValueError ∧
     long_literal text ∧
     Parser.parse refine_pass mark_linear_pass text bitCount reduceConstants
       false true
     = Raise ValueError).
Proof.
  rewrite marklinear_cases.
  destruct (parse_expression_total text (2 ^ bitCount) reduceConstants)
    as [(r & p' & Hrun & _) | [Hrun Hlong]]; rewrite Hrun.
  - destruct r as [root|].
    + left. by exists root, p'.
    + right. left. by exists p'.
  - right. by right.
Qed.

(** * Further properties *)

(** ** Implicants *)

Lemma diff_positions_sym (v1 : list (option Z)) : ∀ v2 i,
  diff_positions i v1 v2 = diff_positions i v2 v1.
Proof.
  induction v1 as [|x v1 IH]; intros [|y v2] i; simpl; try done.
  destruct (decide (x = y)) as [->|Hxy].
  - rewrite decide_True by done. apply IH.
  - rewrite decide_False by congruence. f_equal. apply IH.
Qed.

Lemma merged_vec_sym (a b : Implicant.t) (s : option nat) :
  length (Implicant.vec a) = length (Implicant.vec b) →
  diff_positions 0 (Implicant.vec a) (Implicant.vec b)
  = match s with Some i => [i] | None => [] end →
  Implicant.vec (merged a b s) = Implicant.vec (merged b a s).
Proof.
  intros Hlen Hds. destruct s as [i|]; simpl.
  - apply diff_positions_singleton in Hds
      as (pre & x & y & suf & -> & -> & _ & ->); [|done].
    simpl. rewrite !insert_app_r_alt by lia. by rewrite Nat.sub_diag.
  - by apply diff_positions_nil in Hds.
Qed.

(** X1. [try_merge] does not depend on the order of its operands, except
    for the order of the minterm list: on vectors of equal length
    [a.try_merge(b)] and [b.try_merge(a)] both give [None] or both give
    an implicant, with the same vector and the same minterms up to
    order. *)
Theorem try_merge_symmetric (a b : Implicant.t) :
  length (Implicant.vec a) = length (Implicant.vec b) →
  (Implicant.try_merge a b = Ok None ∧ Implicant.try_merge b a = Ok None)
  ∨ ∃ q q',
      Implicant.try_merge a b = Ok (Some q) ∧
      Implicant.try_merge b a = Ok (Some q') ∧
      Implicant.vec q = Implicant.vec q' ∧
      Implicant.minterms q ≡ₚ Implicant.minterms q' ∧
      Implicant.obsolete q = false ∧ Implicant.obsolete q' = false.
Proof.
  intros Hlen.
  rewrite (try_merge_positions a b Hlen), (try_merge_positions b a (eq_sym Hlen)).
  rewrite (diff_positions_sym (Implicant.vec b)).
  destruct (diff_positions 0 (Implicant.vec a) (Implicant.vec b))
    as [|i [|i' more]] eqn:Hds.
  - right. exists (merged a b None), (merged b a None).
    split; [done|]. split; [done|].
    split; [by apply merged_vec_sym|]. split; [|done].
    simpl. apply Permutation_app_comm.
  - right. exists (merged a b (Some i)), (merged b a (Some i)).
    split; [done|]. split; [done|].
    split; [by apply merged_vec_sym|]. split; [|done].
    simpl. apply Permutation_app_comm.
  - by left.
Qed.

Lemma try_merge_symmetric_witness :
  let a := Implicant.mk [Some 0; Some 1]%Z [2%Z] false in
  let b := Implicant.mk [Some 1; Some 1]%Z [3%Z] true in
  length (Implicant.vec a) = length (Implicant.vec b) ∧
  ((Implicant.try_merge a b = Ok None ∧ Implicant.try_merge b a = Ok None)
   ∨ ∃ q q',
       Implicant.try_merge a b = Ok (Some q) ∧
       Implicant.try_merge b a = Ok (Some q') ∧
       Implicant.vec q = Implicant.vec q' ∧
       Implicant.minterms q ≡ₚ Implicant.minterms q' ∧
       Implicant.obsolete q = false ∧ Implicant.obsolete q' = false).
Proof.
  intros a b. split; [reflexivity|]. apply (try_merge_symmetric a b).
  reflexivity.
Defined.

(** X2. In the setting of the minimiser, two implicants with assigned
    slots 0 or 1, the same number of don't-care slots and numbers of
    ones that differ by one: a merge then always removes a slot that
    is 0 in the implicant with fewer ones and 1 in the other; the
    result has one more don't-care slot and as many ones as the
    implicant with fewer ones, which is the group it is filed
    under. *)
Theorem try_merge_neighbours (a b q : Implicant.t) :
  length (Implicant.vec a) = length (Implicant.vec b) →
  binary_slots (Implicant.vec a) → binary_slots (Implicant.vec b) →
  none_count (Implicant.vec a) = none_count (Implicant.vec b) →
  Implicant.count_ones b = S (Implicant.count_ones a) →
  Implicant.try_merge a b = Ok (Some q) →
  ∃ i : nat,
    Implicant.vec a !! i = Some (Some 0%Z) ∧
    Implicant.vec b !! i = Some (Some 1%Z) ∧
    (∀ j : nat, j ≠ i → Implicant.vec a !! j = Implicant.vec b !! j) ∧
    Implicant.vec q = <[i := None]> (Implicant.vec a) ∧
    Implicant.count_ones q = Implicant.count_ones a ∧
    none_count (Implicant.vec q) = S (none_count (Implicant.vec a)).
Proof.
  intros Hlen Hsa Hsb Hnone Hones. rewrite (try_merge_positions a b Hlen).
  unfold Implicant.count_ones in *.
  destruct (diff_positions 0 (Implicant.vec a) (Implicant.vec b))
    as [|i [|i' more]] eqn:Hds; [| |done].
  - apply diff_positions_nil in Hds; [|done]. rewrite Hds in Hones. lia.
  - apply diff_positions_singleton in Hds
      as (pre & x & y & suf & Hva & Hvb & Hxy & Hi); [|done].
    simpl in Hi. subst i. intros [= <-]. simpl.
    rewrite Hva, Hvb in *. clear Hva Hvb.
    rewrite !none_count_app, !none_count_cons in Hnone.
    rewrite !filter_app, !filter_cons, !length_app in Hones.
    apply Forall_app in Hsa as [_ Hsa]. apply Forall_cons in Hsa as [Hx _].
    apply Forall_app in Hsb as [_ Hsb]. apply Forall_cons in Hsb as [Hy _].
    assert (x = Some 0%Z ∧ y = Some 1%Z) as [-> ->].
    { destruct Hx as [-> | [-> | ->]], Hy as [-> | [-> | ->]];
        repeat case_decide; simpl in *; try done; lia. }
    exists (length pre).
    split; [by rewrite list_lookup_middle|].
    split; [by rewrite list_lookup_middle|].
    split.
    { intros j Hj. destruct (decide (j < length pre)).
      - by rewrite !lookup_app_l by done.
      - rewrite !lookup_app_r by lia.
        destruct (j - length pre) as [|m] eqn:Hm; [lia|done]. }
    rewrite insert_app_r_alt by lia. rewrite Nat.sub_diag. simpl.
    split; [done|].
    rewrite !filter_app, !filter_cons, !length_app.
    rewrite !none_count_app, !none_count_cons.
    repeat case_decide; simpl in *; try done; lia.
Qed.

Lemma try_merge_neighbours_witness :
  let a := Implicant.mk [Some 0; Some 1]%Z [2%Z] false in
  let b := Implicant.mk [Some 1; Some 1]%Z [3%Z] false in
  let q := Implicant.mk [None; Some 1]%Z [2; 3]%Z false in
  ∃ i : nat,
    Implicant.vec a !! i = Some (Some 0%Z) ∧
    Implicant.vec b !! i = Some (Some 1%Z) ∧
    (∀ j : nat, j ≠ i → Implicant.vec a !! j = Implicant.vec b !! j) ∧
    Implicant.vec q = <[i := None]> (Implicant.vec a) ∧
    Implicant.count_ones q = Implicant.count_ones a ∧
    none_count (Implicant.vec q) = S (none_count (Implicant.vec a)).
Proof.
  intros a b q. apply (try_merge_neighbours a b q); try reflexivity.
  - repeat first [apply Forall_nil_2 | apply Forall_cons_2; [auto|]].
  - repeat first [apply Forall_nil_2 | apply Forall_cons_2; [auto|]].
Defined.

(** X3. The implicant of the minterm [i], for [0 ≤ i < 2^vnumber]: its
    vector has [vnumber] assigned slots, it is true at the index [i]
    and at no other, and its number of ones is [popcount(i)], which is
    at most [vnumber], so that it is filed under an existing group. *)
Theorem init_implicant (vnumber : nat) (i : Z) :
  (0 ≤ i < 2 ^ Z.of_nat vnumber)%Z →
  let p := Implicant.init vnumber i in
  length (Implicant.vec p) = vnumber ∧
  none_count (Implicant.vec p) = 0 ∧
  binary_slots (Implicant.vec p) ∧
  Implicant.minterms p = [i] ∧
  Implicant.obsolete p = false ∧
  Implicant.count_ones p = Dnf.popcount i ∧
  Dnf.popcount i ≤ vnumber ∧
  ∀ j, (0 ≤ j < 2 ^ Z.of_nat vnumber)%Z →
       Implicant.holds p j = true ↔ j = i.
Proof.
  intros Hi p. unfold p, Implicant.init. rewrite decide_False by lia.
  simpl. unfold Implicant.count_ones. simpl.
  pose proof (init_vec_count_ones vnumber i Hi) as Hones.
  pose proof (length_filter (λ s, s = Some 1%Z)
                (Implicant.init_vec vnumber i)) as Hle.
  rewrite init_vec_length in Hle.
  split; [apply init_vec_length|]. split; [apply init_vec_none_count|].
  split; [apply init_vec_binary|]. split; [done|]. split; [done|].
  split; [done|]. split; [lia|].
  intros j Hj. unfold Implicant.holds. simpl.
  rewrite <- (Z.shiftr_0_r i) at 1. rewrite init_vec_holds by lia. split.
  - intros Hbits. apply (low_bits_eq vnumber); [done|done|].
    intros t Ht. apply Hbits. lia.
  - by intros ->.
Qed.

Lemma init_implicant_witness :
  (0 ≤ 5 < 2 ^ Z.of_nat 3)%Z ∧
  length (Implicant.vec (Implicant.init 3 5)) = 3 ∧
  Implicant.count_ones (Implicant.init 3 5) = Dnf.popcount 5.
Proof.
  split; [simpl; lia|].
  pose proof (init_implicant 3 5 ltac:(simpl; lia)) as H.
  simpl in H. split; [exact (proj1 H)|].
  exact (proj1 (proj2 (proj2 (proj2 (proj2 (proj2 H)))))).
Defined.

(** ** The minimiser on its boundary inputs *)

Lemma init_loop_zeros (vnumber n : nat) : ∀ (i : Z) gs,
  Dnf.init_loop vnumber i (replicate n 0%Z) gs = Ok gs.
Proof. induction n as [|n IH]; intros i gs; simpl; [done|apply IH]. Qed.

Lemma merge_groups_empty (rest : list (list Implicant.t)) : ∀ st primes,
  Forall (λ g, g = []) rest →
  Dnf.merge_groups [] rest st primes = Ok (st, primes).
Proof.
  induction rest as [|g rest IH]; intros st primes Hrest; simpl.
  - unfold Dnf.collect_primes. simpl. by rewrite app_nil_r.
  - apply Forall_cons in Hrest as [-> Hrest].
    unfold Dnf.collect_primes. simpl. rewrite app_nil_r. by apply IH.
Qed.

Lemma merge_step_empty (n : nat) (primes : list Implicant.t) :
  Dnf.merge_step (Dnf.mk (replicate (S n) []) primes)
  = Ok (false, Dnf.mk (replicate (S n) []) primes).
Proof.
  unfold Dnf.merge_step. simpl.
  rewrite merge_groups_empty by (apply Forall_replicate; done).
  simpl. do 3 f_equal.
  induction n as [|n IH]; simpl; [done|]. by rewrite IH.
Qed.

Lemma merge_unfold (fuel : nat) (d : Dnf.t) :
  Dnf.merge (S fuel) d =
  '(ch, d') ← Dnf.merge_step d;
  if (ch : bool) then
    '(d'', log) ← Dnf.merge fuel d'; Ok (d'', ch :: log)
  else Ok (d', [ch]).
Proof. done. Qed.

(** X4. A truth vector that is 0 everywhere, for any number of variables:
    the constructor makes one merge round, which merges nothing, and
    leaves no prime at all, so that the formula is false at every
    index. *)
Theorem all_zero_vector (vnumber fuel : nat) :
  1 ≤ fuel →
  Dnf.init fuel vnumber (replicate (2 ^ vnumber) 0%Z)
  = Ok (Dnf.mk (replicate (vnumber + 1) []) []) ∧
  Dnf.rounds fuel vnumber (replicate (2 ^ vnumber) 0%Z) = Ok [false].
Proof.
  intros Hfuel. destruct fuel as [|fuel]; [lia|].
  assert (Hgroups : Dnf.init_groups vnumber (replicate (2 ^ vnumber) 0%Z)
                    = Ok (replicate (vnumber + 1) [])).
  { unfold Dnf.init_groups. rewrite length_replicate.
    rewrite decide_True by (rewrite Nat2Z.inj_pow; done).
    apply init_loop_zeros. }
  split; unfold Dnf.init, Dnf.rounds;
    rewrite (result_bind_ok _ _ _ Hgroups);
    rewrite Nat.add_1_r, merge_unfold, merge_step_empty; reflexivity.
Qed.

Lemma all_zero_vector_witness :
  1 ≤ 1 ∧
  Dnf.init 1 3 (replicate (2 ^ 3) 0%Z)
  = Ok (Dnf.mk (replicate (3 + 1) []) []) ∧
  Dnf.rounds 1 3 (replicate (2 ^ 3) 0%Z) = Ok [false].
Proof. split; [lia|]. apply (all_zero_vector 3 1). lia. Defined.

Lemma popcount_le (vnumber : nat) (i : Z) :
  (0 ≤ i < 2 ^ Z.of_nat vnumber)%Z → Dnf.popcount i ≤ vnumber.
Proof.
  intros Hi. rewrite <- (init_vec_count_ones vnumber i Hi).
  pose proof (length_filter (λ s, s = Some 1%Z)
                (Implicant.init_vec vnumber i)) as Hle.
  by rewrite init_vec_length in Hle.
Qed.

(** An entry other than 0 and 1 stops [__init_groups] with the failed
    assertion; the entries before it are filed without an index
    error. *)
Lemma init_loop_bad (vnumber : nat) (rest : list Z) : ∀ (i : nat) gs,
  length gs = vnumber + 1 →
  (Z.of_nat (i + length rest) ≤ 2 ^ Z.of_nat vnumber)%Z →
  ¬ Forall (λ bit, bit = 0%Z ∨ bit = 1%Z) rest →
  Dnf.init_loop vnumber (Z.of_nat i) rest gs = Raise AssertionError.
Proof.
  induction rest as [|bit rest IH]; intros i gs Hlen Hi Hbad.
  - destruct Hbad. constructor.
  - simpl in Hi. simpl.
    replace (Z.of_nat i + 1)%Z with (Z.of_nat (S i)) by lia.
    destruct (decide (bit = 0%Z)) as [->|H0].
    { apply IH; [done|lia|]. intros Hrest. apply Hbad. constructor; auto. }
    destruct (decide (bit = 1%Z)) as [->|H1]; [|done].
    destruct (append_at_ok (Dnf.popcount (Z.of_nat i))
                (Implicant.init vnumber (Z.of_nat i)) gs)
      as (gs' & Happ & Hlen' & _).
    { rewrite Hlen. pose proof (popcount_le vnumber (Z.of_nat i)). lia. }
    rewrite (result_bind_ok _ _ _ Happ).
    apply IH; [congruence|lia|].
    intros Hrest. apply Hbad. constructor; auto.
Qed.

(** X5. The contract of the constructor: on a truth vector (length
    [2^vnumber], entries 0 or 1) it returns; on anything else it stops
    with a failed assertion, never with another error. *)
Theorem init_contract (fuel vnumber : nat) (tv : list Z) :
  vnumber + 1 ≤ fuel →
  (truth_vector vnumber tv ∧ ∃ d, Dnf.init fuel vnumber tv = Ok d)
  ∨ (¬ truth_vector vnumber tv ∧
     Dnf.init fuel vnumber tv = Raise AssertionError).
Proof.
  intros Hfuel.
  destruct (decide (Z.of_nat (length tv) = (2 ^ Z.of_nat vnumber)%Z))
    as [Hlen|Hlen].
  - destruct (Forall_dec (λ bit, bit = 0%Z ∨ bit = 1%Z) tv) as [Hbits|Hbits].
    + left. assert (Htv : truth_vector vnumber tv) by done.
      split; [done|].
      destruct (init_groups_ok vnumber tv Htv) as (gs & Hinit & Hd0).
      destruct (merge_ok vnumber tv fuel 0 (Dnf.mk gs []) Hd0)
        as (d1 & k & Hmerge & _); [lia|lia|].
      unfold Dnf.init. rewrite (result_bind_ok _ _ _ Hinit).
      rewrite (result_bind_ok _ _ _ Hmerge). simpl.
      rewrite drop_unrequired_run. by eexists.
    + right. split; [by intros [_ ?]|].
      unfold Dnf.init, Dnf.init_groups. rewrite decide_True by done.
      rewrite (init_loop_bad vnumber tv 0); try done.
      * rewrite length_replicate. done.
      * simpl. lia.
  - right. split; [by intros [? _]|].
    unfold Dnf.init, Dnf.init_groups. by rewrite decide_False.
Qed.

Lemma init_contract_witness :
  2 + 1 ≤ 3 ∧
  ((truth_vector 2 [0; 1; 2; 1]%Z ∧
    ∃ d, Dnf.init 3 2 [0; 1; 2; 1]%Z = Ok d)
   ∨ (¬ truth_vector 2 [0; 1; 2; 1]%Z ∧
      Dnf.init 3 2 [0; 1; 2; 1]%Z = Raise AssertionError)).
Proof. split; [lia|]. apply (init_contract 3 2 [0; 1; 2; 1]%Z). lia. Defined.

(** ** What a merge round does to the state, on any groups *)

Lemma result_bind_inv {A B} (m : result A) (f : A → result B) (b : B) :
  (m ≫= f) = Ok b → ∃ a, m = Ok a ∧ f a = Ok b.
Proof. destruct m as [a| |]; [|done..]. intros Hf. by exists a. Qed.

Lemma append_at_inv (k : nat) (x : Implicant.t)
    (gs gs' : list (list Implicant.t)) :
  Dnf.append_at k x gs = Ok gs' →
  length gs' = length gs ∧ x ∈ concat gs'.
Proof.
  unfold Dnf.append_at. destruct (gs !! k) as [g|] eqn:Hk; [|done].
  intros [= <-]. split; [apply length_insert|].
  apply elem_of_concat. exists k, (g ++ [x]).
  rewrite list_lookup_insert_eq by by eapply lookup_lt_Some.
  split; [done|]. apply elem_of_app. right. left.
Qed.

Lemma marked_refl p : marked p p.
Proof. by left. Qed.

Lemma marked_set p : marked p (Implicant.set_obsolete true p).
Proof. by right. Qed.

Lemma marked_trans p1 p2 p3 : marked p1 p2 → marked p2 p3 → marked p1 p3.
Proof. intros [->| ->] [->| ->]; (by left) || (by right). Qed.

Lemma Forall2_marked_refl g : Forall2 marked g g.
Proof. induction g; constructor; [apply marked_refl|done]. Qed.

Lemma Forall2_marked_trans g1 g2 g3 :
  Forall2 marked g1 g2 → Forall2 marked g2 g3 → Forall2 marked g1 g3.
Proof. apply Forall2_trans. intros ???. apply marked_trans. Qed.

(** An implicant that leaves the loops unflagged entered them
    unflagged, and unchanged. *)
Lemma marked_unflagged g g' p' :
  Forall2 marked g g' → p' ∈ g' → Implicant.obsolete p' = false → p' ∈ g.
Proof.
  intros Hm [i Hi]%list_elem_of_lookup Hflag.
  destruct (Forall2_lookup_r _ _ _ _ _ Hm Hi) as (p & Hp & [->| ->]).
  - by eapply list_elem_of_lookup_2.
  - done.
Qed.

Lemma merge_inner_frame (nextGroup : list Implicant.t) :
  ∀ impl1 st impl1' next' st',
    Dnf.merge_inner impl1 nextGroup st = Ok (impl1', next', st') →
    marked impl1 impl1' ∧ Forall2 marked nextGroup next' ∧
    length (Dnf.newGroups st') = length (Dnf.newGroups st) ∧
    (changed_ok st → changed_ok st').
Proof.
  induction nextGroup as [|impl2 rest IH];
    intros impl1 st impl1' next' st' Hrun; simpl in Hrun.
  - injection Hrun as <- <- <-.
    split; [apply marked_refl|]. split; [constructor|]. done.
  - apply result_bind_inv in Hrun as ([newImpl|] & Htm & Hrun).
    + apply result_bind_inv in Hrun as (ng & Happ & Hrun).
      apply result_bind_inv in Hrun as ([[i1 r1] s1] & Hrec & Hrun).
      injection Hrun as <- <- <-.
      destruct (IH _ _ _ _ _ Hrec) as (Hm1 & Hmrest & Hlen & Hch).
      destruct (append_at_inv _ _ _ _ Happ) as [Hlen1 Hin1].
      split; [eapply marked_trans; [apply marked_set|done]|].
      split; [constructor; [apply marked_set|done]|].
      split; [simpl in Hlen; congruence|].
      intros _. apply Hch. split; simpl; [done|].
      intros Hnil. rewrite Hnil in Hin1. by apply elem_of_nil in Hin1.
    + apply result_bind_inv in Hrun as ([[i1 r1] s1] & Hrec & Hrun).
      injection Hrun as <- <- <-.
      destruct (IH _ _ _ _ _ Hrec) as (Hm1 & Hmrest & Hlen & Hch).
      split; [done|]. split; [constructor; [apply marked_refl|done]|]. done.
Qed.

Lemma merge_outer_frame (group : list Implicant.t) :
  ∀ nextGroup st group' next' st',
    Dnf.merge_outer group nextGroup st = Ok (group', next', st') →
    Forall2 marked group group' ∧ Forall2 marked nextGroup next' ∧
    length (Dnf.newGroups st') = length (Dnf.newGroups st) ∧
    (changed_ok st → changed_ok st').
Proof.
  induction group as [|impl1 group IH];
    intros nextGroup st group' next' st' Hrun; simpl in Hrun.
  - injection Hrun as <- <- <-.
    split; [constructor|]. split; [apply Forall2_marked_refl|]. done.
  - apply result_bind_inv in Hrun as ([[i1 n1] s1] & Hin & Hrun).
    apply result_bind_inv in Hrun as ([[g2 n2] s2] & Hrec & Hrun).
    injection Hrun as <- <- <-.
    destruct (merge_inner_frame _ _ _ _ _ _ Hin) as (Hm1 & Hmn1 & Hlen1 & Hch1).
    destruct (IH _ _ _ _ _ Hrec) as (Hmg & Hmn2 & Hlen2 & Hch2).
    split; [by constructor|].
    split; [by eapply Forall2_marked_trans|].
    split; [congruence|auto].
Qed.

Lemma merge_groups_frame (rest : list (list Implicant.t)) :
  ∀ group st primes st' primes',
    Dnf.merge_groups group rest st primes = Ok (st', primes') →
    ∃ added,
      primes' = primes ++ added ∧
      (∀ p, p ∈ added →
            Implicant.obsolete p = false ∧ (p ∈ group ∨ p ∈ concat rest))
      ∧ length (Dnf.newGroups st') = length (Dnf.newGroups st)
      ∧ (changed_ok st → changed_ok st').
Proof.
  induction rest as [|nextGroup rest IH];
    intros group st primes st' primes' Hrun; simpl in Hrun.
  - injection Hrun as <- <-.
    exists (filter (λ impl, Implicant.obsolete impl = false) group).
    split; [done|]. split; [|done].
    intros p [? ?]%list_elem_of_filter. auto.
  - apply result_bind_inv in Hrun as ([[g1 n1] s1] & Hout & Hrun).
    destruct (merge_outer_frame _ _ _ _ _ _ Hout)
      as (Hmg & Hmn & Hlen1 & Hch1).
    destruct (IH _ _ _ _ _ Hrun) as (added & -> & Hadded & Hlen2 & Hch2).
    exists (filter (λ impl, Implicant.obsolete impl = false) g1 ++ added).
    split; [unfold Dnf.collect_primes; by rewrite (assoc_L (++))|].
    split; [|split; [congruence|auto]].
    intros p [[Hflag Hp]%list_elem_of_filter|Hp]%elem_of_app.
    + split; [done|]. left. by eapply marked_unflagged.
    + destruct (Hadded p Hp) as [Hflag [Hin|Hin]].
      * split; [done|]. right. simpl. apply elem_of_app. left.
        by eapply marked_unflagged.
      * split; [done|]. right. simpl. apply elem_of_app. by right.
Qed.

Lemma merge_step_run (d d' : Dnf.t) (ch : bool) :
  Dnf.merge_step d = Ok (ch, d') →
  (∃ added,
     Dnf.primes d' = Dnf.primes d ++ added ∧
     ∀ p, p ∈ added →
          Implicant.obsolete p = false ∧ p ∈ concat (Dnf.groups d)) ∧
  length (Dnf.groups d') = length (Dnf.groups d) ∧
  (ch = false ↔ concat (Dnf.groups d') = []).
Proof.
  unfold Dnf.merge_step. destruct (Dnf.groups d) as [|group rest] eqn:Hgs.
  - intros [= <- <-]. simpl. split; [|done].
    exists []. split; [by rewrite app_nil_r|]. by intros p ?%elem_of_nil.
  - intros Hrun.
    apply result_bind_inv in Hrun as ([st' primes'] & Hrun & Hret).
    injection Hret as <- <-. simpl.
    destruct (merge_groups_frame _ _ _ _ _ _ Hrun)
      as (added & -> & Hadded & Hlen & Hch).
    split; [|split].
    + exists added. split; [done|]. intros p Hp.
      destruct (Hadded p Hp) as [? Hin]. split; [done|].
      by apply elem_of_app.
    + rewrite Hlen. simpl. by rewrite length_map.
    + apply Hch. split; simpl; [intros _|done].
      change ([] ++ concat (map (λ _, []) rest))
        with (concat (map (λ _ : list Implicant.t, @nil Implicant.t) rest)).
      apply concat_empty_groups.
Qed.

(** X6. One call of [__merge_step], on any state on which it returns: the
    primes only grow, by unflagged implicants of the groups; there are
    as many new groups as old ones; and [changed] is returned false
    exactly when all new groups are empty. *)
Theorem merge_step_appends (d d' : Dnf.t) (ch : bool) :
  Dnf.merge_step d = Ok (ch, d') →
  (∃ added,
     Dnf.primes d' = Dnf.primes d ++ added ∧
     ∀ p, p ∈ added →
          Implicant.obsolete p = false ∧ p ∈ concat (Dnf.groups d)) ∧
  length (Dnf.groups d') = length (Dnf.groups d) ∧
  (ch = false ↔ concat (Dnf.groups d') = []).
Proof. apply merge_step_run. Qed.

Lemma merge_step_appends_witness :
  let d := Dnf.mk [[Implicant.mk [Some 0%Z] [0%Z] false];
                   [Implicant.mk [Some 1%Z] [1%Z] false]] [] in
  let d' := Dnf.mk [[Implicant.mk [None] [0; 1]%Z false]; []] [] in
  Dnf.merge_step d = Ok (true, d') ∧
  length (Dnf.groups d') = length (Dnf.groups d) ∧
  (true = false ↔ concat (Dnf.groups d') = []).
Proof.
  intros d d'. split; [reflexivity|].
  exact (proj2 (merge_step_appends d d' true eq_refl)).
Defined.

Lemma merge_run_end (fuel : nat) : ∀ (d d' : Dnf.t) (log : list bool),
  Dnf.merge fuel d = Ok (d', log) →
  concat (Dnf.groups d') = [] ∧
  length (Dnf.groups d') = length (Dnf.groups d) ∧
  (∃ k, log = replicate k true ++ [false]) ∧
  ∃ added, Dnf.primes d' = Dnf.primes d ++ added ∧
           ∀ p, p ∈ added → Implicant.obsolete p = false.
Proof.
  induction fuel as [|fuel IH]; intros d d' log Hrun; [done|].
  rewrite merge_unfold in Hrun.
  apply result_bind_inv in Hrun as ([ch d1] & Hstep & Hrun).
  destruct (merge_step_run d d1 ch Hstep)
    as ((added & Hprimes & Hadded) & Hlen & Hch).
  destruct ch.
  - apply result_bind_inv in Hrun as ([d2 log2] & Hrec & Hrun).
    injection Hrun as <- <-.
    destruct (IH _ _ _ Hrec)
      as (Hnil & Hlen2 & [k ->] & added2 & Hprimes2 & Hadded2).
    split; [done|]. split; [congruence|].
    split; [by exists (S k)|].
    exists (added ++ added2).
    split; [by rewrite Hprimes2, Hprimes, (assoc_L (++))|].
    intros p [Hp|Hp]%elem_of_app; [by apply Hadded|by apply Hadded2].
  - injection Hrun as <- <-.
    split; [by apply Hch|]. split; [done|].
    split; [by exists 0|]. exists added. split; [done|].
    intros p Hp. by apply Hadded.
Qed.

(** X7. The loop of [__merge], on any state on which it returns: it ends
    on the first round that merges nothing, no implicant is left in
    the groups, and the primes it started with are a prefix of the
    primes it leaves, the new ones being unflagged. *)
Theorem merge_end (fuel : nat) : ∀ (d d' : Dnf.t) (log : list bool),
  Dnf.merge fuel d = Ok (d', log) →
  concat (Dnf.groups d') = [] ∧
  length (Dnf.groups d') = length (Dnf.groups d) ∧
  (∃ k, log = replicate k true ++ [false]) ∧
  ∃ added, Dnf.primes d' = Dnf.primes d ++ added ∧
           ∀ p, p ∈ added → Implicant.obsolete p = false.
Proof. apply merge_run_end. Qed.

Lemma merge_end_witness :
  let d := Dnf.mk [[Implicant.mk [Some 0%Z] [0%Z] false];
                   [Implicant.mk [Some 1%Z] [1%Z] false]] [] in
  let d' := Dnf.mk [[]; []] [Implicant.mk [None] [0; 1]%Z false] in
  Dnf.merge 2 d = Ok (d', [true; false]) ∧
  concat (Dnf.groups d') = [] ∧
  length (Dnf.groups d') = length (Dnf.groups d).
Proof.
  intros d d'. split; [reflexivity|].
  pose proof (merge_end 2 d d' [true; false] eq_refl) as (H1 & H2 & _).
  by split.
Defined.

(** ** The pruning pass, continued *)

Lemma prune_needed (primes : list Implicant.t) :
  ∀ (requ : gset Z) (i : nat) (p : Implicant.t),
    prune primes requ !! i = Some p →
    ∃ j, j ∈ requ ∧ j ∈ Implicant.minterms p ∧
         ∀ i' p', i' < i → prune primes requ !! i' = Some p' →
                  j ∉ Implicant.minterms p'.
Proof.
  induction primes as [|p0 primes IH]; intros requ i p Hi; simpl in *;
    [done|].
  destruct (decide (minterm_set p0 ∩ requ ≠ ∅)) as [Hmeet|_];
    [|by apply IH].
  destruct i as [|i]; simpl in Hi.
  - injection Hi as <-.
    apply set_choose_L in Hmeet as [j Hj].
    apply elem_of_intersection in Hj as [Hjp Hjr].
    exists j. split; [done|].
    split; [by apply elem_of_list_to_set in Hjp|]. intros; lia.
  - destruct (IH _ _ _ Hi) as (j & Hjr & Hjp & Hearlier).
    apply elem_of_difference in Hjr as [Hjr Hnot].
    exists j. split; [done|]. split; [done|].
    intros [|i'] p' Hlt Hp'; simpl in Hp'.
    + injection Hp' as <-. intros Hin. apply Hnot.
      by apply elem_of_list_to_set.
    + apply (Hearlier i'); [lia|done].
Qed.

Lemma prune_idempotent (primes : list Implicant.t) : ∀ requ : gset Z,
  prune (prune primes requ) requ = prune primes requ.
Proof.
  induction primes as [|p0 primes IH]; intros requ; simpl; [done|].
  destruct (decide (minterm_set p0 ∩ requ ≠ ∅)) as [Hmeet|Hmeet].
  - simpl. rewrite decide_True by done. by rewrite IH.
  - apply IH.
Qed.

(** X8. The pruning pass loses no coverage and keeps nothing useless:
    every index at which the truth vector is 1 and that some prime
    covers is covered by a prime that is kept; and every prime that is
    kept covers such an index that no prime kept before it covers. *)
Theorem pruning_cover (tv : list Z) (primes : list Implicant.t) :
  ∃ kept,
    Dnf.drop_unrequired_implicants tv primes = Ok kept ∧
    (∀ j, true_at tv j →
          (∃ p, p ∈ primes ∧ j ∈ Implicant.minterms p) →
          ∃ p, p ∈ kept ∧ j ∈ Implicant.minterms p) ∧
    (∀ i p, kept !! i = Some p →
       ∃ j, true_at tv j ∧ j ∈ Implicant.minterms p ∧
            ∀ i' p', i' < i → kept !! i' = Some p' →
                     j ∉ Implicant.minterms p').
Proof.
  eexists. split; [apply drop_unrequired_run|]. split.
  - intros j Hj Hcov. apply prune_covers; [by apply required_spec|done].
  - intros i p Hi. destruct (prune_needed _ _ _ _ Hi) as (j & Hjr & Hrest).
    exists j. split; [by apply required_spec|done].
Qed.

(** X9. Pruning again changes nothing. *)
Theorem pruning_idempotent (tv : list Z) (primes kept : list Implicant.t) :
  Dnf.drop_unrequired_implicants tv primes = Ok kept →
  Dnf.drop_unrequired_implicants tv kept = Ok kept.
Proof.
  rewrite !drop_unrequired_run. intros [= <-].
  by rewrite prune_idempotent.
Qed.

Lemma pruning_idempotent_witness :
  let a := Implicant.mk [Some 1; None]%Z [1; 3]%Z false in
  let b := Implicant.mk [Some 1; Some 1]%Z [3]%Z false in
  let c := Implicant.mk [None; Some 1]%Z [2; 3]%Z false in
  Dnf.drop_unrequired_implicants [0; 1; 1; 1]%Z [a; b; c] = Ok [a; c] ∧
  Dnf.drop_unrequired_implicants [0; 1; 1; 1]%Z [a; c] = Ok [a; c].
Proof.
  intros a b c.
  assert (H : Dnf.drop_unrequired_implicants [0; 1; 1; 1]%Z [a; b; c]
              = Ok [a; c]) by (vm_compute; reflexivity).
  split; [exact H|].
  exact (pruning_idempotent [0; 1; 1; 1]%Z [a; b; c] [a; c] H).
Defined.

(** ** What the constructor leaves *)

(** X10. After the constructor, on a truth vector: the groups are empty,
    and every prime has a vector of [vnumber] slots, each don't-care,
    0 or 1; its conjunction is true at exactly the indices of its
    minterm list; these are indices at which the truth vector is 1;
    there is at least one; and its flag is not set. *)
Theorem primes_sound (vnumber : nat) (tv : list Z) (fuel : nat) (d : Dnf.t) :
  truth_vector vnumber tv → vnumber + 1 ≤ fuel →
  Dnf.init fuel vnumber tv = Ok d →
  concat (Dnf.groups d) = [] ∧
  length (Dnf.groups d) = vnumber + 1 ∧
  ∀ p, p ∈ Dnf.primes d →
    length (Implicant.vec p) = vnumber ∧
    binary_slots (Implicant.vec p) ∧
    (∀ j, (0 ≤ j < 2 ^ Z.of_nat vnumber)%Z →
          Implicant.holds p j = true ↔ j ∈ Implicant.minterms p) ∧
    (∀ j, j ∈ Implicant.minterms p → true_at tv j) ∧
    (∃ j, j ∈ Implicant.minterms p) ∧
    Implicant.obsolete p = false.
Proof.
  intros Htv Hfuel Hrun.
  destruct (init_groups_ok vnumber tv Htv) as (gs & Hinit & Hd0).
  destruct (merge_ok vnumber tv fuel 0 (Dnf.mk gs []) Hd0)
    as (d1 & k & Hmerge & _ & Hprimes & _); [lia|lia|].
  unfold Dnf.init in Hrun. rewrite (result_bind_ok _ _ _ Hinit) in Hrun.
  rewrite (result_bind_ok _ _ _ Hmerge) in Hrun. simpl in Hrun.
  rewrite drop_unrequired_run in Hrun. simpl in Hrun. injection Hrun as <-.
  destruct (merge_run_end _ _ _ _ Hmerge)
    as (Hnil & Hlen & _ & added & Hadded & Hflags).
  simpl in *. split; [done|].
  split; [rewrite Hlen; apply (dnf_groups _ _ _ _ Hd0)|].
  intros p Hp. apply list_elem_of_lookup in Hp as [i Hi].
  destruct (prune_needed _ _ _ _ Hi) as (j & _ & Hj & _).
  assert (Hp1 : p ∈ Dnf.primes d1).
  { eapply elem_of_sublist; [by eapply list_elem_of_lookup_2|].
    apply prune_sublist. }
  destruct (Hprimes p Hp1) as (r & Hok).
  split; [apply Hok|]. split; [apply Hok|]. split; [apply Hok|].
  split; [apply Hok|]. split; [by exists j|].
  apply Hflags. by rewrite <- Hadded.
Qed.

Lemma primes_sound_witness :
  truth_vector 2 [0; 1; 1; 1]%Z ∧ 2 + 1 ≤ 3 ∧
  Dnf.init 3 2 [0; 1; 1; 1]%Z
  = Ok (Dnf.mk [[]; []; []]
          [Implicant.mk [Some 1; None]%Z [1; 3]%Z false;
           Implicant.mk [None; Some 1]%Z [2; 3]%Z false]) ∧
  length [[]; []; @nil Implicant.t] = 2 + 1.
Proof.
  assert (Htv : truth_vector 2 [0; 1; 1; 1]%Z) by solve_truth_vector.
  split; [exact Htv|]. split; [lia|]. split; [vm_compute; reflexivity|].
  exact (proj1 (proj2 (primes_sound 2 [0; 1; 1; 1]%Z 3 _ Htv
                         ltac:(lia) dnf_0111))).
Defined.

(** ** The parser, continued *)

Section parser_more.

Import Parser.

#[local] Open Scope string_scope.

Lemma set_constant_twice c c' n :
  Node.set_constant c (Node.set_constant c' n) = Node.set_constant c n.
Proof. done. Qed.

Lemma set_constant_id n : Node.set_constant (Node.constant n) n = n.
Proof. by destruct n. Qed.

Lemma set_children_twice cs cs' n :
  Node.set_children cs (Node.set_children cs' n) = Node.set_children cs n.
Proof. done. Qed.

Lemma set_children_id n : Node.set_children (Node.children n) n = n.
Proof. by destruct n. Qed.

Lemma minus_constant p node :
  Node.type node = Node.CONSTANT →
  multiply_by_minus_one node p
  = Ok (Node.set_constant (- Node.constant node) node, p).
Proof. intros H. unfold multiply_by_minus_one. by rewrite decide_True. Qed.

Lemma minus_product_constant p node first others :
  Node.type node = Node.PRODUCT →
  Node.children node = first :: others →
  Node.type first = Node.CONSTANT →
  multiply_by_minus_one node p
  = Ok (Node.set_children
          (Node.set_constant (Node.constant first * -1) first :: others)
          node, p).
Proof.
  intros Hty Hcs Hfirst. unfold multiply_by_minus_one.
  rewrite decide_False by congruence. rewrite decide_True by done.
  rewrite Hcs. by rewrite decide_True.
Qed.

Lemma minus_product_other p node first others :
  Node.type node = Node.PRODUCT →
  Node.children node = first :: others →
  Node.type first ≠ Node.CONSTANT →
  multiply_by_minus_one node p
  = Ok (Node.set_children
          (Const (modulus p) (modRed p) (-1) :: first :: others) node, p).
Proof.
  intros Hty Hcs Hfirst. unfold multiply_by_minus_one.
  rewrite decide_False by congruence. rewrite decide_True by done.
  rewrite Hcs. by rewrite decide_False.
Qed.

Lemma minus_other p node :
  Node.type node ≠ Node.CONSTANT → Node.type node ≠ Node.PRODUCT →
  multiply_by_minus_one node p
  = Ok (Op Node.PRODUCT (modulus p) (modRed p)
          [Const (modulus p) (modRed p) (-1); node], p).
Proof. intros Hc Hp. unfold multiply_by_minus_one. by rewrite !decide_False. Qed.

(** X11. Negating twice. On a CONSTANT, and on a PRODUCT whose first child
    is a CONSTANT, two applications of [__multiply_by_minus_one] give
    the node back. On any other node the two signs are not cancelled:
    a PRODUCT gets the literal 1 as new first child, and any other
    node becomes the second child of a new PRODUCT whose first child
    is the literal 1. So ["--5"] is the CONSTANT 5 and ["--a"] is
    PRODUCT(1, a). *)
Theorem double_negation :
  (∀ p node,
     Node.type node = Node.CONSTANT →
     (multiply_by_minus_one node ≫= multiply_by_minus_one) p = Ok (node, p))
  ∧ (∀ p node first others,
       Node.type node = Node.PRODUCT →
       Node.children node = first :: others →
       Node.type first = Node.CONSTANT →
       (multiply_by_minus_one node ≫= multiply_by_minus_one) p
       = Ok (node, p))
  ∧ (∀ p node first others,
       Node.type node = Node.PRODUCT →
       Node.children node = first :: others →
       Node.type first ≠ Node.CONSTANT →
       (multiply_by_minus_one node ≫= multiply_by_minus_one) p
       = Ok (Node.set_children
               (Const (modulus p) (modRed p) 1 :: first :: others) node, p))
  ∧ (∀ p node,
       Node.type node ≠ Node.CONSTANT → Node.type node ≠ Node.PRODUCT →
       (multiply_by_minus_one node ≫= multiply_by_minus_one) p
       = Ok (Op Node.PRODUCT (modulus p) (modRed p)
               [Const (modulus p) (modRed p) 1; node], p))
  ∧ run "--5" 8 true = Ok (Some (Const 32 true 5), EmptyString)
  ∧ run "--a" 8 true
    = Ok (Some (Op Node.PRODUCT 32 true [Const 32 true 1; Var 32 true "a"]),
          EmptyString)
  ∧ run "--(a*b)" 8 true
    = Ok (Some (Op Node.PRODUCT 32 true
                  [Const 32 true 1; Var 32 true "a"; Var 32 true "b"]),
          EmptyString).
Proof.
  split; [|split; [|split; [|split]]].
  - intros p node Hty.
    rewrite (bindM_ok _ _ _ _ _ (minus_constant p node Hty)).
    rewrite minus_constant by (by destruct node).
    destruct node as [ty m f cs c v]. unfold Node.set_constant. simpl.
    by rewrite Z.opp_involutive.
  - intros p node first others Hty Hcs Hfirst.
    rewrite (bindM_ok _ _ _ _ _
               (minus_product_constant p node first others Hty Hcs Hfirst)).
    rewrite (minus_product_constant _ _
               (Node.set_constant (Node.constant first * -1) first) others)
      by (by destruct node, first).
    destruct node as [ty m f cs c v], first as [ty1 m1 f1 cs1 c1 v1].
    simpl in Hcs. subst cs. unfold Node.set_constant, Node.set_children.
    simpl. by replace (c1 * -1 * -1)%Z with c1 by lia.
  - intros p node first others Hty Hcs Hfirst.
    rewrite (bindM_ok _ _ _ _ _
               (minus_product_other p node first others Hty Hcs Hfirst)).
    rewrite (minus_product_constant _ _
               (Const (modulus p) (modRed p) (-1)) (first :: others))
      by (by destruct node).
    by destruct node.
  - intros p node Hc Hp.
    rewrite (bindM_ok _ _ _ _ _ (minus_other p node Hc Hp)).
    by rewrite (minus_product_constant _ _
                  (Const (modulus p) (modRed p) (-1)) [node]).
  - repeat split; vm_compute; reflexivity.
Qed.

Lemma double_negation_witness :
  Node.type (Var 32 true "a") ≠ Node.CONSTANT ∧
  Node.type (Var 32 true "a") ≠ Node.PRODUCT ∧
  (multiply_by_minus_one (Var 32 true "a") ≫= multiply_by_minus_one)
    (init "--a" (2 ^ 8) true)
  = Ok (Op Node.PRODUCT 32 true [Const 32 true 1; Var 32 true "a"],
        init "--a" (2 ^ 8) true).
Proof.
  split; [discriminate|]. split; [discriminate|].
  apply (proj1 (proj2 (proj2 (proj2 double_negation)))
           (init "--a" (2 ^ 8) true) (Var 32 true "a"));
    discriminate.
Defined.

End parser_more.

(** ** The shape of the trees that the parser returns *)

Section parser_shape.

Import Parser.

(** *** Rules for [post] *)

Lemma post_bind {A B} (m : M A) (f : A → M B) p
    (R : A → Parser.t → Prop) (Q : B → Parser.t → Prop) :
  post m p R → (∀ a p1, R a p1 → post (f a) p1 Q) → post (m ≫= f) p Q.
Proof.
  intros Hm Hf b p' Hrun. unfold mbind, M_bind in Hrun.
  destruct (m p) as [[a p1]| |] eqn:Hmp; [|done..].
  by apply (Hf a p1 (Hm a p1 Hmp)).
Qed.

Lemma post_ret {A} (a : A) p (Q : A → Parser.t → Prop) :
  Q a p → post (mret a) p Q.
Proof. intros HQ b p' Hrun. rewrite retM in Hrun. by injection Hrun as <- <-. Qed.

Lemma post_read {A B} (g : Parser.t → A) (f : A → M B) p
    (Q : B → Parser.t → Prop) :
  post (f (g p)) p Q → post (read g ≫= f) p Q.
Proof. intros H b p' Hrun. rewrite bindM_read in Hrun. by apply H. Qed.

Lemma post_update {B} (g : Parser.t → Parser.t) (f : unit → M B) p
    (Q : B → Parser.t → Prop) :
  post (f tt) (g p) Q → post (update g ≫= f) p Q.
Proof. intros H b p' Hrun. rewrite bindM_update in Hrun. by apply H. Qed.








(** *** The error text is written by [fail_near] only *)

Lemma error_repeat_while cond body (n : nat) :
  (∀ q, error (body q) = error q) →
  ∀ p, error (repeat_while n cond body p) = error p.
Proof.
  intros Hbody. induction n as [|n IH]; intros p; simpl; [done|].
  destruct (cond p); [|done]. by rewrite IH, Hbody.
Qed.

Lemma error_while_skip cond p : error (while_ cond skip_space p) = error p.
Proof. unfold while_. by apply error_repeat_while. Qed.



(** *** Shapes *)

Lemma shaped_node n :
  arity_ok n → Forall well_shaped (Node.children n) → well_shaped n.
Proof. intros Har Hcs. by apply all_nodes_unfold. Qed.




Lemma arity_nary n :
  nary (Node.type n) → 2 ≤ length (Node.children n) → arity_ok n.
Proof. unfold arity_ok, nary. by destruct (Node.type n). Qed.

Lemma shaped_append child n :
  nary (Node.type n) → 1 ≤ length (Node.children n) →
  Forall well_shaped (Node.children n) → well_shaped child →
  well_shaped (Node.append_child child n).
Proof.
  intros Hty Hlen Hcs Hchild. apply shaped_node.
  - apply arity_nary; [done|]. simpl. rewrite length_app. simpl. lia.
  - simpl. apply Forall_app. split; [done|]. by constructor.
Qed.


(** *** Leaves *)





(** *** Operator chains *)




(** *** The grammar *)




End parser_shape.

(** ** What [parse_expression] returns *)

Section parser_outcome.

Import Parser.

Lemma get_within (s : string) : ∀ n,
  n < String.length s → ∃ c, String.get n s = Some c.
Proof.
  induction s as [|c s IH]; intros n Hn; simpl in *; [lia|].
  destruct n as [|n]; [by exists c|]. apply IH. lia.
Qed.

Lemma post_true {A} (m : M A) p : post m p (λ _ _, True).
Proof. by intros a p' _. Qed.

Lemma parse_expression_rest p :
  post parse_expression p
    (λ r p', idx p' ≠ String.length (expr p') →
       r = None ∧
       error p' = "Finished near to " +:+ peek_str p'
                  +:+ " before everything was parsed").
Proof.
  unfold parse_expression. apply post_read. cbv beta.
  eapply post_bind; [apply post_true|]. intros _ p1 _.
  apply post_read. cbv beta.
  eapply post_bind; [apply post_true|]. intros root p2 _. cbv beta.
  apply post_update. do 2 (apply post_read; cbv beta).
  match goal with |- context [decide ?P] => destruct (decide P) as [Hne|Hend] end.
  - intros r p' Hrun. rewrite fail_near_run in Hrun.
    by injection Hrun as <- <-.
  - apply post_ret. intros Hne. by destruct Hend.
Qed.



(** X13. Text that is left over. When [parse_expression] stops before the
    end of the text it returns [None], whatever was parsed so far, and
    the error text is the message of [parse_expression] itself, naming
    the character it stopped at: a message that a rule of the grammar
    had set is overwritten. *)
Theorem unparsed_rest (text : string) (modulus : Z) (modRed : bool) r p' :
  parse_expression (init text modulus modRed) = Ok (r, p') →
  idx p' ≠ String.length text →
  r = None ∧ idx p' < String.length text ∧
  ∃ c, String.get (idx p') text = Some c ∧
       error p' = "Finished near to " +:+ String c EmptyString
                  +:+ " before everything was parsed".
Proof.
  intros Hrun Hne.
  destruct (parse_expression_terminates text modulus modRed)
    as [(r0 & p0 & Hrun0 & (He & _ & _ & Hidx) & _ & _) | [Hrun0 _]];
    [|congruence].
  rewrite Hrun in Hrun0. injection Hrun0 as <- <-.
  destruct (parse_expression_rest _ _ _ Hrun) as [-> Herr];
    [by rewrite He|].
  split; [done|]. split; [lia|].
  unfold peek_str, peek in Herr. rewrite He in Herr.
  rewrite decide_False in Herr by lia.
  destruct (get_within text (idx p')) as [c Hc]; [lia|].
  rewrite Hc in Herr. by exists c.
Qed.

Lemma unparsed_rest_witness :
  parse_expression (init "a**b**c" (2 ^ 8) true)
  = Ok (None, mk "a**b**c" 32 true 4
                "Finished near to * before everything was parsed") ∧
  ∃ c, String.get 4 "a**b**c" = Some c ∧
       "Finished near to * before everything was parsed"
       = "Finished near to " +:+ String c EmptyString
         +:+ " before everything was parsed".
Proof.
  assert (Hrun : parse_expression (init "a**b**c" (2 ^ 8) true)
                 = Ok (None, mk "a**b**c" 32 true 4
                          "Finished near to * before everything was parsed"))
    by (vm_compute; reflexivity).
  split; [exact Hrun|].
  exact (proj2 (proj2
    (unparsed_rest "a**b**c" (2 ^ 8) true None _ Hrun
       ltac:(simpl; lia)))).
Defined.

End parser_outcome.

(** ** A text that is one terminal *)

Section parser_literal.

Import Parser.

Lemma all_chars_get (f : ascii → bool) (s : string) : ∀ i c,
  all_chars f s = true → String.get i s = Some c → f c = true.
Proof.
  induction s as [|c' s IH]; intros i c Hall Hget; simpl in *; [done|].
  apply andb_true_iff in Hall as [Hc Hs].
  destruct i as [|i]; [by injection Hget as <-|]. by apply (IH i).
Qed.

Lemma substring_whole (s : string) :
  String.substring 0 (String.length s) s = s.
Proof. induction s as [|c s IH]; simpl; [done|]. by rewrite IH. Qed.

Lemma rstrip_id (s : string) :
  all_chars (λ c, negb (is_space c)) s = true → rstrip s = s.
Proof.
  induction s as [|c s IH]; simpl; [done|].
  intros [Hc Hs]%andb_true_iff. rewrite IH by done.
  destruct s; [|done]. by apply negb_true_iff in Hc as ->.
Qed.

Lemma while_to_end E M0 F0 cond body p :
  on_char cond → (∀ q, body q = set_idx (idx q + 1) q) →
  good_state E M0 F0 p →
  (∀ i, idx p ≤ i < String.length E → cond (set_idx i p) = true) →
  while_ cond body p = set_idx (String.length E) p.
Proof.
  intros Hcond Hbody Hwf Hall.
  destruct (while_spec E M0 F0 cond body p Hcond Hbody Hwf)
    as (k & -> & Hk & Hstop & _).
  destruct (decide (k = String.length E)) as [-> | Hne]; [done|].
  rewrite Hall in Hstop by lia. done.
Qed.

Lemma while_at_end cond body p :
  idx p = String.length (expr p) → while_ cond body p = p.
Proof. intros Hend. unfold while_. by rewrite Hend, Nat.sub_diag. Qed.

Lemma peek_None p : peek p = None → String.length (expr p) ≤ idx p.
Proof.
  unfold peek. destruct (decide (String.length (expr p) ≤ idx p)); [done|].
  destruct (get_within (expr p) (idx p)) as [c ->]; [lia|done].
Qed.

(** *** A rule that finds no operator returns what the rule below it
    returns *)

Lemma operator_chain_single ty cond sub p n p' :
  sub p = Ok (Some n, p') → cond p' = false →
  operator_chain ty cond sub p = Ok (Some n, p').
Proof.
  intros Hsub Hc. unfold operator_chain.
  rewrite (bindM_ok _ _ _ _ _ Hsub). cbv beta iota.
  by rewrite bindM_read, Hc.
Qed.

Lemma power_single k p n p' :
  parse_terminal k p = Ok (Some n, p') → has_power p' = false →
  parse_power (S k) p = Ok (Some n, p').
Proof.
  intros Hsub Hc. rewrite parse_power_unfold.
  rewrite (bindM_ok _ _ _ _ _ Hsub). cbv beta iota.
  by rewrite bindM_read, Hc.
Qed.

Lemma factor_plain k p :
  has_bitwise_negated_expression p = false →
  has_negative_expression p = false →
  parse_factor (S k) p = parse_power k p.
Proof. intros Hb Hn. simpl. by rewrite bindM_read, Hb, bindM_read, Hn. Qed.

Lemma sum_single k p n p' :
  parse_product k p = Ok (Some n, p') → peek p' = None →
  parse_sum (S k) p = Ok (Some n, p').
Proof.
  intros Hsub Hc. simpl. rewrite (bindM_ok _ _ _ _ _ Hsub). cbv beta iota.
  rewrite bindM_read, Hc. by rewrite decide_True.
Qed.

Lemma shift_single k p n p' :
  parse_sum k p = Ok (Some n, p') → has_lshift p' = false →
  parse_shift (S k) p = Ok (Some n, p').
Proof.
  intros Hsub Hc. rewrite parse_shift_unfold.
  rewrite (bindM_ok _ _ _ _ _ Hsub). cbv beta iota.
  by rewrite bindM_read, Hc.
Qed.

Lemma incl_unfold k :
  parse_inclusive_disjunction (S k)
  = operator_chain Node.INCL_DISJUNCTION (is_char "|")
      (parse_exclusive_disjunction k).
Proof. done. Qed.

Lemma excl_unfold k :
  parse_exclusive_disjunction (S k)
  = operator_chain Node.EXCL_DISJUNCTION (is_char "^") (parse_conjunction k).
Proof. done. Qed.

Lemma conj_unfold k :
  parse_conjunction (S k)
  = operator_chain Node.CONJUNCTION (is_char "&") (parse_shift k).
Proof. done. Qed.

Lemma product_unfold k :
  parse_product (S k)
  = operator_chain Node.PRODUCT has_multiplicator (parse_factor k).
Proof. done. Qed.

Lemma lone_terminal k p n p' :
  parse_terminal k p = Ok (Some n, p') →
  peek p ≠ Some "~"%char → peek p ≠ Some "-"%char → peek p' = None →
  parse_inclusive_disjunction (8 + k) p = Ok (Some n, p').
Proof.
  intros Hterm Hb Hn Hend.
  assert (Hchar : ∀ c, is_char c p' = false).
  { intros c. unfold is_char. by rewrite Hend. }
  change (8 + k) with (S (S (S (S (S (S (S (S k)))))))).
  rewrite incl_unfold. apply operator_chain_single; [|apply Hchar].
  rewrite excl_unfold. apply operator_chain_single; [|apply Hchar].
  rewrite conj_unfold. apply operator_chain_single; [|apply Hchar].
  apply shift_single; [|unfold has_lshift; by rewrite Hend].
  apply sum_single; [|done].
  rewrite product_unfold.
  apply operator_chain_single; [|unfold has_multiplicator; by rewrite Hend].
  rewrite factor_plain.
  - apply power_single; [done|]. unfold has_power. by rewrite Hend.
  - unfold has_bitwise_negated_expression. by rewrite bool_decide_eq_false_2.
  - unfold has_negative_expression. by rewrite bool_decide_eq_false_2.
Qed.

Lemma lone_terminal_expression text modulus modRed n :
  let p0 := init text modulus modRed in
  parse_terminal (12 * String.length text + 4) p0
  = Ok (Some n, set_idx (String.length text) p0) →
  peek p0 ≠ Some " "%char →
  peek p0 ≠ Some "~"%char → peek p0 ≠ Some "-"%char →
  parse_expression p0 = Ok (Some n, set_idx (String.length text) p0).
Proof.
  intros p0 Hterm Hs Hb Hn. unfold parse_expression.
  rewrite bindM_read.
  assert (Hspace : has_space p0 = false).
  { unfold has_space. by rewrite bool_decide_eq_false_2. }
  rewrite Hspace, bindM_ret, bindM_read.
  replace (depth (expr p0)) with (8 + (12 * String.length text + 4))
    by (unfold depth; simpl; lia).
  rewrite (bindM_ok _ _ _ _ _
             (lone_terminal _ _ _ _ Hterm Hb Hn
                ltac:(unfold peek; by rewrite decide_True))).
  rewrite bindM_update, while_at_end by done.
  rewrite !bindM_read. by rewrite decide_False by (intros H; by apply H).
Qed.

(** *** An exception of the terminal leaves every rule above it *)

Lemma lone_raise k p e :
  parse_terminal k p = Raise e →
  peek p ≠ Some "~"%char → peek p ≠ Some "-"%char →
  parse_inclusive_disjunction (8 + k) p = Raise e.
Proof.
  intros Hterm Hb Hn.
  change (8 + k) with (S (S (S (S (S (S (S (S k)))))))).
  rewrite incl_unfold. apply bindM_raise.
  rewrite excl_unfold. apply bindM_raise.
  rewrite conj_unfold. apply bindM_raise.
  rewrite parse_shift_unfold. apply bindM_raise.
  change (parse_sum (S (S (S (S k)))) p)
    with ((parse_product (S (S (S k))) ≫= λ child,
           match child with
           | None => mret None
           | Some child =>
               c ← read peek;
               if decide (c ≠ Some "+"%char ∧ c ≠ Some "-"%char)
               then mret (Some child)
               else
                 node ← new_node Node.SUM;
                 let node := Node.append_child child node in
                 n ← read (λ p, String.length (expr p) - idx p);
                 sum_loop n (parse_product (S (S (S k)))) node
           end) p).
  apply bindM_raise.
  rewrite product_unfold. apply bindM_raise.
  rewrite factor_plain.
  - rewrite parse_power_unfold. by apply bindM_raise.
  - unfold has_bitwise_negated_expression. by rewrite bool_decide_eq_false_2.
  - unfold has_negative_expression. by rewrite bool_decide_eq_false_2.
Qed.

Lemma lone_raise_expression text modulus modRed e :
  let p0 := init text modulus modRed in
  parse_terminal (12 * String.length text + 4) p0 = Raise e →
  peek p0 ≠ Some " "%char →
  peek p0 ≠ Some "~"%char → peek p0 ≠ Some "-"%char →
  parse_expression p0 = Raise e.
Proof.
  intros p0 Hterm Hs Hb Hn. unfold parse_expression.
  rewrite bindM_read.
  assert (Hspace : has_space p0 = false).
  { unfold has_space. by rewrite bool_decide_eq_false_2. }
  rewrite Hspace, bindM_ret, bindM_read.
  replace (depth (expr p0)) with (8 + (12 * String.length text + 4))
    by (unfold depth; simpl; lia).
  apply bindM_raise. by apply lone_raise.
Qed.

(** *** Decimal literals *)

(** [int] on digits that [int_loop] has read: the value within the
    limit and in the exempt bases, [ValueError] beyond the limit. *)
Lemma int_within (s : string) (base v : Z) :
  s ≠ EmptyString → int_loop base 0 s = Some v →
  power_of_two base = true
  ∨ (Z.of_nat (String.length s) ≤ max_str_digits)%Z →
  int_ s base = Ok v.
Proof.
  intros Hne Hv Hshort. unfold int_.
  destruct s as [|c s'] eqn:Htext; [done|]. rewrite <- Htext in *.
  rewrite Hv. destruct (power_of_two base); [done|].
  destruct Hshort as [?|Hshort]; [done|].
  by rewrite (proj2 (Z.ltb_ge _ _) Hshort).
Qed.

Lemma int_ends (s : string) (base : Z) : int_ s base ≠ OutOfFuel.
Proof.
  unfold int_. destruct s as [|c s']; [done|].
  destruct (int_loop base 0 (String c s')); [|done].
  destruct (power_of_two base); [done|].
  by destruct (max_str_digits <? Z.of_nat (String.length (String c s')))%Z.
Qed.

Lemma int_beyond (s : string) (v : Z) :
  s ≠ EmptyString → int_loop 10 0 s = Some v →
  (max_str_digits < Z.of_nat (String.length s))%Z →
  int_ s 10 = Raise ValueError.
Proof.
  intros Hne Hv Hlong. unfold int_.
  destruct s as [|c s'] eqn:Htext; [done|]. rewrite <- Htext in *.
  rewrite Hv. change (power_of_two 10) with false. cbv iota.
  by rewrite (proj2 (Z.ltb_lt _ _) Hlong).
Qed.

Lemma decimal_char c :
  code_between 48 57 (Some c) = true →
  c ≠ "("%char ∧ c ≠ "~"%char ∧ c ≠ "-"%char ∧ c ≠ " "%char ∧
  c ≠ "b"%char ∧ c ≠ "x"%char ∧
  code_between 97 122 (Some c) || code_between 65 90 (Some c) = false.
Proof.
  destruct c as [[] [] [] [] [] [] [] []]; vm_compute; intros;
    repeat split; congruence.
Qed.

Lemma decimal_text (d : Decimal.uint) :
  all_chars (λ c, code_between 48 57 (Some c))
    (DecimalString.NilEmpty.string_of_uint d) = true.
Proof. induction d; simpl; done. Qed.

Lemma decimal_value (d : Decimal.uint) : ∀ acc : nat,
  int_loop 10 (Z.of_nat acc) (DecimalString.NilEmpty.string_of_uint d)
  = Some (Z.of_nat (Nat.of_uint_acc d acc)).
Proof.
  induction d; intros acc; simpl Nat.of_uint_acc;
    rewrite ?Nat.tail_mul_spec; [done|..]; rewrite <- IHd;
    cbn [DecimalString.NilEmpty.string_of_uint int_loop].
  all: match goal with
       | |- context [digit_value ?c] =>
           let v := eval vm_compute in (digit_value c) in
           change (digit_value c) with v
       end; cbv beta iota.
  all: match goal with
       | |- context [(?k <? 10)%Z] => change (k <? 10)%Z with true
       end; cbv iota.
  all: f_equal; lia.
Qed.

Lemma decimal_terminal_run text modulus modRed k :
  text ≠ EmptyString →
  all_chars (λ c, code_between 48 57 (Some c)) text = true →
  parse_terminal (S k) (init text modulus modRed)
  = match int_ text 10 with
    | Ok v => Ok (Some (Const 32 modRed v),
                  set_idx (String.length text) (init text modulus modRed))
    | Raise e => Raise e
    | OutOfFuel => OutOfFuel
    end.
Proof.
  intros Hne Hall. set (p0 := init text modulus modRed).
  assert (Hwf : good_state text 32 modRed p0) by (repeat split; simpl; lia).
  assert (Hlen : 0 < String.length text) by (destruct text; [done|simpl; lia]).
  assert (Hdigit : ∀ i, i < String.length text →
            ∃ c, peek (set_idx i p0) = Some c ∧
                 code_between 48 57 (Some c) = true).
  { intros i Hi. destruct (get_within text i Hi) as [c Hc].
    exists c.
    split; [|by apply (all_chars_get (λ c, code_between 48 57 (Some c)) text i)].
    unfold peek. simpl. by rewrite decide_False by lia. }
  destruct (Hdigit 0 Hlen) as (c & Hpeek & Hc).
  change (set_idx 0 p0) with p0 in Hpeek.
  destruct (decimal_char c Hc) as (Hopen & _ & _ & _ & Hbin & Hhex & Hletter).
  simpl parse_terminal. rewrite bindM_read, Hpeek.
  rewrite decide_False by congruence.
  rewrite bindM_read. unfold has_variable, has_letter. rewrite Hpeek, Hletter.
  unfold parse_constant. rewrite bindM_read.
  assert (Hpn : peek_next p0 ≠ Some "b"%char ∧ peek_next p0 ≠ Some "x"%char).
  { unfold peek_next.
    destruct (decide (String.length (expr p0) - 1 ≤ idx p0)); [done|].
    destruct (Hdigit 1) as (c1 & Hp1 & Hc1); [simpl in *; lia|].
    unfold peek in Hp1. simpl in Hp1.
    rewrite decide_False in Hp1 by (simpl in *; lia).
    simpl. rewrite Hp1.
    destruct (decimal_char c1 Hc1) as (_ & _ & _ & _ & ? & ? & _).
    split; congruence. }
  destruct Hpn as [Hnb Hnx].
  unfold has_binary_constant.
  rewrite (bool_decide_eq_false_2 _ Hnb), andb_false_r, bindM_read.
  unfold has_hex_constant.
  rewrite (bool_decide_eq_false_2 _ Hnx), andb_false_r.
  unfold parse_decimal_constant. rewrite bindM_read.
  unfold has_decimal_digit at 1. rewrite Hpeek, Hc. cbn [negb].
  rewrite bindM_read. unfold scan. rewrite bindM_update.
  rewrite (while_to_end text 32 modRed _ _ _ on_char_decimal get_false_step Hwf).
  2:{ intros i Hi. destruct (Hdigit i) as (ci & Hpi & Hci); [lia|].
      unfold has_decimal_digit. by rewrite Hpi. }
  unfold finish_constant, skip_spaces. rewrite bindM_update.
  rewrite while_at_end by done. rewrite bindM_new_node.
  assert (Hstrip : rstrip (slice 0 (set_idx (String.length text) p0)) = text).
  { unfold slice. simpl. rewrite Nat.sub_0_r, substring_whole.
    rewrite rstrip_id; [done|].
    eapply all_chars_impl; [|exact Hall].
    intros c' Hc'. by destruct (decimal_digit c' Hc') as [_ ->]. }
  destruct (int_ text 10) as [v|e|] eqn:Hv; rewrite <- Hstrip in Hv.
  - by rewrite (bindM_ok _ _ _ _ _ (get_constant_run 0 10 _ v Hv)).
  - by rewrite (bindM_raise _ _ _ _ (get_constant_raise 0 10 _ e Hv)).
  - by apply int_ends in Hv.
Qed.

Lemma decimal_terminal text modulus modRed k v :
  text ≠ EmptyString →
  all_chars (λ c, code_between 48 57 (Some c)) text = true →
  int_ text 10 = Ok v →
  parse_terminal (S k) (init text modulus modRed)
  = Ok (Some (Const 32 modRed v),
        set_idx (String.length text) (init text modulus modRed)).
Proof.
  intros Hne Hall Hv. by rewrite decimal_terminal_run, Hv.
Qed.

Lemma decimal_expression text modulus modRed v :
  text ≠ EmptyString →
  all_chars (λ c, code_between 48 57 (Some c)) text = true →
  int_ text 10 = Ok v →
  parse_expression (init text modulus modRed)
  = Ok (Some (Const 32 modRed v),
        set_idx (String.length text) (init text modulus modRed)).
Proof.
  intros Hne Hall Hv.
  assert (Hfirst : ∃ c, peek (init text modulus modRed) = Some c ∧
                        code_between 48 57 (Some c) = true).
  { destruct text as [|c text]; [done|]. exists c. split; [done|].
    simpl in Hall. by apply andb_true_iff in Hall as [? _]. }
  destruct Hfirst as (c & Hpeek & Hc).
  destruct (decimal_char c Hc) as (_ & Hb & Hn & Hs & _).
  apply lone_terminal_expression; rewrite ?Hpeek; try congruence.
  replace (12 * String.length text + 4)
    with (S (12 * String.length text + 3)) by lia.
  by apply decimal_terminal.
Qed.

Lemma decimal_expression_raise text modulus modRed e :
  text ≠ EmptyString →
  all_chars (λ c, code_between 48 57 (Some c)) text = true →
  int_ text 10 = Raise e →
  parse_expression (init text modulus modRed) = Raise e.
Proof.
  intros Hne Hall Hv.
  assert (Hfirst : ∃ c, peek (init text modulus modRed) = Some c ∧
                        code_between 48 57 (Some c) = true).
  { destruct text as [|c text]; [done|]. exists c. split; [done|].
    simpl in Hall. by apply andb_true_iff in Hall as [? _]. }
  destruct Hfirst as (c & Hpeek & Hc).
  destruct (decimal_char c Hc) as (_ & Hb & Hn & Hs & _).
  apply lone_raise_expression; rewrite ?Hpeek; try congruence.
  replace (12 * String.length text + 4)
    with (S (12 * String.length text + 3)) by lia.
  by rewrite decimal_terminal_run, Hv.
Qed.

Lemma decimal_digits (d : Decimal.uint) :
  ∃ d', DecimalString.NilZero.string_of_uint d
        = DecimalString.NilEmpty.string_of_uint d' ∧
        DecimalString.NilEmpty.string_of_uint d' ≠ EmptyString ∧
        Nat.of_uint d' = Nat.of_uint d.
Proof. destruct d; [by exists (Decimal.D0 Decimal.Nil)|by eexists..]. Qed.

(** X14. Decimal literals. A text of at most 4300 decimal digits is
    parsed as the CONSTANT of its value, leading zeros included, and
    the value is not reduced modulo [2**bitCount]: printing a natural
    number of at most 4300 digits in decimal and parsing the text
    gives the number back, whatever the bit count. On a text of more
    than 4300 decimal digits [int] raises [ValueError], and the
    exception leaves the parser. *)
Theorem decimal_literal (bitCount : Z) (modRed : bool) :
  (∀ d : Decimal.uint,
     (Z.of_nat (String.length (DecimalString.NilZero.string_of_uint d))
      ≤ max_str_digits)%Z →
     run (DecimalString.NilZero.string_of_uint d) bitCount modRed
     = Ok (Some (Const 32 modRed (Z.of_nat (Nat.of_uint d))), EmptyString))
  ∧ (∀ n : nat,
       (Z.of_nat (String.length
                    (DecimalString.NilZero.string_of_uint (Nat.to_uint n)))
        ≤ max_str_digits)%Z →
       run (DecimalString.NilZero.string_of_uint (Nat.to_uint n))
         bitCount modRed
       = Ok (Some (Const 32 modRed (Z.of_nat n)), EmptyString))
  ∧ (∀ d : Decimal.uint,
       (max_str_digits
        < Z.of_nat (String.length (DecimalString.NilZero.string_of_uint d)))%Z →
       run (DecimalString.NilZero.string_of_uint d) bitCount modRed
       = Raise ValueError).
Proof.
  assert (Hloop : ∀ d' : Decimal.uint,
     int_loop 10 0 (DecimalString.NilEmpty.string_of_uint d')
     = Some (Z.of_nat (Nat.of_uint d'))).
  { intros d'. change 0%Z with (Z.of_nat 0). apply (decimal_value d' 0). }
  assert (Hd : ∀ d : Decimal.uint,
     (Z.of_nat (String.length (DecimalString.NilZero.string_of_uint d))
      ≤ max_str_digits)%Z →
     run (DecimalString.NilZero.string_of_uint d) bitCount modRed
     = Ok (Some (Const 32 modRed (Z.of_nat (Nat.of_uint d))), EmptyString)).
  { intros d. destruct (decimal_digits d) as (d' & -> & Hne & <-).
    intros Hshort. unfold run.
    rewrite (decimal_expression _ (2 ^ bitCount) modRed
               (Z.of_nat (Nat.of_uint d')) Hne (decimal_text d')); [done|].
    apply int_within; [done|apply Hloop|by right]. }
  split; [exact Hd|]. split.
  - intros n Hshort. by rewrite Hd, DecimalNat.Unsigned.of_to.
  - intros d. destruct (decimal_digits d) as (d' & -> & Hne & _).
    intros Hlong. unfold run.
    rewrite (decimal_expression_raise _ (2 ^ bitCount) modRed ValueError
               Hne (decimal_text d')); [done|].
    by apply (int_beyond _ _ Hne (Hloop d')).
Qed.

Lemma decimal_literal_witness :
  run "0300" 8 true = Ok (Some (Const 32 true 300), EmptyString)
  ∧ run (DecimalString.NilZero.string_of_uint
           (Nat.iter 4301 Decimal.D9 Decimal.Nil)) 8 true
    = Raise ValueError.
Proof.
  split.
  - apply (proj1 (decimal_literal 8 true)
             (Decimal.D0 (Decimal.D3 (Decimal.D0 (Decimal.D0 Decimal.Nil))))).
    vm_compute. discriminate.
  - apply (proj2 (proj2 (decimal_literal 8 true))
             (Nat.iter 4301 Decimal.D9 Decimal.Nil)).
    vm_compute. reflexivity.
Defined.

(** *** Variable names *)

Lemma letter_char c :
  is_letter c = true →
  c ≠ "("%char ∧ c ≠ "~"%char ∧ c ≠ "-"%char ∧ c ≠ " "%char.
Proof.
  destruct c as [[] [] [] [] [] [] [] []]; vm_compute; intros;
    repeat split; congruence.
Qed.

Lemma name_char c :
  is_name_char c = true → is_space c = false ∧ c ≠ "["%char.
Proof.
  destruct c as [[] [] [] [] [] [] [] []]; vm_compute; intros;
    repeat split; congruence.
Qed.

Lemma name_char_cond c :
  is_name_char c = true ↔
  code_between 48 57 (Some c)
  || (code_between 97 122 (Some c) || code_between 65 90 (Some c))
  || bool_decide (Some c = Some "_"%char) = true.
Proof.
  unfold is_name_char, is_letter.
  by destruct (decide (c = "_"%char)) as [-> | Hne];
    [|rewrite !(bool_decide_eq_false_2 (_ = _)) by congruence].
Qed.

Lemma variable_terminal first rest modulus modRed k :
  is_letter first = true → all_chars is_name_char rest = true →
  parse_terminal (S k) (init (String first rest) modulus modRed)
  = Ok (Some (Var 32 modRed (String first rest)),
        set_idx (String.length (String first rest))
          (init (String first rest) modulus modRed)).
Proof.
  intros Hfirst Hrest. set (text := String first rest).
  set (p0 := init text modulus modRed).
  assert (Hwf : good_state text 32 modRed (set_idx 1 p0))
    by (repeat split; simpl; lia).
  destruct (letter_char first Hfirst) as (Hopen & _).
  assert (Hpeek : peek p0 = Some first) by done.
  simpl parse_terminal. rewrite bindM_read, Hpeek.
  rewrite decide_False by congruence.
  rewrite bindM_read. unfold has_variable, has_letter. rewrite Hpeek.
  fold (is_letter first). rewrite Hfirst.
  unfold parse_variable. rewrite bindM_read, bindM_update.
  unfold scan. rewrite bindM_update.
  change (get false p0) with (set_idx 1 p0).
  rewrite (while_to_end text 32 modRed _ _ _ on_char_name get_false_step Hwf).
  2:{ intros i Hi. simpl in Hi.
      destruct i as [|i]; [lia|].
      destruct (get_within rest i) as [c Hc]; [simpl in Hi; lia|].
      assert (Hpi : peek (set_idx (S i) (set_idx 1 p0)) = Some c).
      { unfold peek. simpl. by rewrite decide_False by (simpl; lia). }
      unfold has_decimal_digit, has_letter. rewrite Hpi.
      apply name_char_cond. by apply (all_chars_get is_name_char rest i). }
  rewrite bindM_read.
  assert (Hend : peek (set_idx (String.length text) (set_idx 1 p0)) = None).
  { unfold peek. by rewrite decide_True. }
  rewrite Hend. rewrite decide_False by done.
  unfold skip_spaces. rewrite bindM_update, while_at_end by done.
  rewrite bindM_new_node, bindM_read.
  assert (Hname : rstrip (slice 0 (set_idx (String.length text)
                                     (set_idx 1 p0))) = text).
  { unfold slice. simpl idx. simpl expr.
    change (S (String.length rest)) with (String.length text).
    rewrite Nat.sub_0_r, substring_whole. apply rstrip_id. simpl.
    apply andb_true_iff. split.
    - assert (Hn : is_name_char first = true).
      { unfold is_name_char. by rewrite Hfirst, orb_true_r. }
      by destruct (name_char first Hn) as [-> _].
    - eapply all_chars_impl; [|exact Hrest].
      intros c Hc. by destruct (name_char c Hc) as [-> _]. }
  change (idx p0) with 0. by rewrite Hname.
Qed.

(** X15. Variable names. A text that is a letter followed by letters,
    digits and underscores is parsed as the VARIABLE of that name. *)
Theorem variable_name (first : ascii) (rest : string) (bitCount : Z)
    (modRed : bool) :
  is_letter first = true → all_chars is_name_char rest = true →
  run (String first rest) bitCount modRed
  = Ok (Some (Var 32 modRed (String first rest)), EmptyString).
Proof.
  intros Hfirst Hrest. unfold run.
  destruct (letter_char first Hfirst) as (_ & Hb & Hn & Hs).
  assert (Hpeek : peek (init (String first rest) (2 ^ bitCount) modRed)
                  = Some first) by done.
  rewrite (lone_terminal_expression (String first rest) (2 ^ bitCount) modRed
             (Var 32 modRed (String first rest))); [done|..].
  - replace (12 * String.length (String first rest) + 4)
      with (S (12 * String.length (String first rest) + 3)) by lia.
    by apply variable_terminal.
  - rewrite Hpeek. congruence.
  - rewrite Hpeek. congruence.
  - rewrite Hpeek. congruence.
Qed.

Lemma variable_name_witness :
  run "x_1" 8 true = Ok (Some (Var 32 true "x_1"), EmptyString).
Proof.
  exact (variable_name "x"%char "_1" 8 true eq_refl eq_refl).
Defined.

End parser_literal.

(** ** The primes are prime implicants *)

Section prime_vectors.

Implicit Types v w u : list (option Z).

Lemma holds_from_lookup v : ∀ (o j : Z),
  Implicant.holds_from o v j = true ↔
  ∀ (i : nat) s, v !! i = Some s →
    Implicant.literal s (Z.testbit j (o + Z.of_nat i)) = true.
Proof.
  induction v as [|x v IH]; intros o j; simpl.
  - split; [|done]. intros _ i s Hi. by rewrite lookup_nil in Hi.
  - rewrite andb_true_iff, IH. split.
    + intros [Hx Hv] [|i] s Hi; simpl in Hi.
      * injection Hi as <-. by rewrite Z.add_0_r.
      * replace (o + Z.of_nat (S i))%Z with (o + 1 + Z.of_nat i)%Z by lia.
        by apply Hv.
    + intros H. split.
      * specialize (H 0 x eq_refl). by rewrite Z.add_0_r in H.
      * intros i s Hi. specialize (H (S i) s Hi).
        by replace (o + Z.of_nat (S i))%Z
          with (o + 1 + Z.of_nat i)%Z in H by lia.
Qed.

(** A conjunction with more literals is still an implicant. *)
Lemma implicant_refine vnumber tv u w :
  implicant_of vnumber tv u → length w = length u → binary_slots w →
  (∀ k s, u !! k = Some (Some s) → w !! k = Some (Some s)) →
  implicant_of vnumber tv w.
Proof.
  intros (Hlen & Hbin & Hsub) Hl Hb Href.
  split; [congruence|]. split; [done|]. intros j Hj Hw.
  apply Hsub; [done|]. apply holds_from_lookup. intros k s Hk.
  destruct s as [s|]; [|done].
  apply (proj1 (holds_from_lookup w 0 j) Hw k (Some s)). by apply Href.
Qed.

Lemma filter_length_insert (P : option Z → Prop) `{!∀ x, Decision (P x)}
    v i x y :
  v !! i = Some x →
  length (filter P (<[i := y]> v)) + (if decide (P x) then 1 else 0)
  = length (filter P v) + (if decide (P y) then 1 else 0).
Proof.
  intros Hi. pose proof (lookup_lt_Some _ _ _ Hi) as Hlt.
  rewrite insert_take_drop by done.
  rewrite <- (take_drop_middle v i x Hi) at 3.
  rewrite !filter_app, !filter_cons, !length_app.
  destruct (decide (P x)), (decide (P y)); simpl; lia.
Qed.

Lemma none_count_assign v i s :
  v !! i = Some None → S (none_count (<[i := Some s]> v)) = none_count v.
Proof.
  intros Hi. unfold none_count.
  pose proof (filter_length_insert (λ s, s = None) v i None (Some s) Hi) as H.
  rewrite decide_True, decide_False in H by done. lia.
Qed.

Lemma none_count_flip v i s s' :
  v !! i = Some (Some s) →
  none_count (<[i := Some s']> v) = none_count v.
Proof.
  intros Hi. unfold none_count.
  pose proof (filter_length_insert (λ s, s = None) v i (Some s) (Some s') Hi)
    as H.
  rewrite !decide_False in H by done. lia.
Qed.

Lemma count_ones_insert v i x y :
  v !! i = Some x →
  length (filter (λ s, s = Some 1%Z) (<[i := y]> v))
  + (if decide (x = Some 1%Z) then 1 else 0)
  = length (filter (λ s, s = Some 1%Z) v)
  + (if decide (y = Some 1%Z) then 1 else 0).
Proof.
  intros Hi.
  exact (filter_length_insert (λ s, s = Some 1%Z) v i x y Hi).
Qed.

Lemma none_slot v r : none_count v = S r → ∃ i, v !! i = Some None.
Proof.
  unfold none_count. intros Hn.
  destruct (filter (λ s, s = None) v) as [|x l] eqn:Hf; [done|].
  assert (Hx : x ∈ filter (λ s, s = None) v) by (rewrite Hf; left).
  apply list_elem_of_filter in Hx as [-> Hx].
  by apply list_elem_of_lookup in Hx.
Qed.

(** Two vectors that differ in one slot, assigned in both. *)
Lemma one_difference v w i (x y : option Z) :
  v !! i = Some x → x ≠ y → w = <[i := y]> v →
  diff_positions 0 v w = [i].
Proof.
  intros Hi Hxy ->. pose proof (lookup_lt_Some _ _ _ Hi) as Hlt.
  assert (Hlen : length v = length (<[i := y]> v))
    by by rewrite length_insert.
  assert (Hin : ∀ k, k ∈ diff_positions 0 v (<[i := y]> v) ↔ k = i).
  { intros k. rewrite (diff_positions_lookup _ _ 0 k Hlen). split.
    - intros [_ Hne]. destruct (decide (k = i)); [done|].
      by rewrite list_lookup_insert_ne in Hne.
    - intros ->. split; [done|].
      rewrite list_lookup_insert_eq by done. congruence. }
  pose proof (diff_positions_NoDup v (<[i := y]> v) 0) as Hnd.
  destruct (diff_positions 0 _ _) as [|k [|k' more]].
  - exfalso. by eapply elem_of_nil, Hin.
  - f_equal. apply Hin. left.
  - exfalso. assert (k = i) as -> by (apply Hin; left).
    assert (k' = i) as -> by (apply Hin; right; left).
    apply NoDup_cons in Hnd as [Hni _]. apply Hni. left.
Qed.

Lemma one_difference_mergeable v i (x y : option Z) :
  v !! i = Some x → x ≠ y →
  mergeable_vec v (<[i := y]> v) ∧
  merged_vec v (<[i := y]> v) = <[i := None]> v.
Proof.
  intros Hi Hxy. unfold mergeable_vec, merged_vec.
  rewrite (one_difference v _ i x y Hi Hxy eq_refl).
  by rewrite length_insert.
Qed.

End prime_vectors.

(** *** What the loops of a round do to every pair they meet *)

Lemma try_merge_vec (a b : Implicant.t) r :
  Implicant.try_merge a b = Ok r →
  match r with
  | Some m =>
      mergeable_vec (Implicant.vec a) (Implicant.vec b) ∧
      Implicant.vec m = merged_vec (Implicant.vec a) (Implicant.vec b)
  | None => ¬ mergeable_vec (Implicant.vec a) (Implicant.vec b)
  end.
Proof.
  intros Hrun.
  destruct (decide (length (Implicant.vec a) = length (Implicant.vec b)))
    as [Hlen|Hne].
  - rewrite try_merge_positions in Hrun by done.
    unfold mergeable_vec, merged_vec.
    destruct (diff_positions 0 _ _) as [|i [|i' more]];
      injection Hrun as <-; simpl.
    + split; [split; [done|lia]|done].
    + split; [split; [done|lia]|done].
    + intros [_ ?]. lia.
  - unfold Implicant.try_merge in Hrun. by rewrite decide_False in Hrun.
Qed.

Lemma marked_vec p p' : marked p p' → Implicant.vec p' = Implicant.vec p.
Proof. by intros [-> | ->]. Qed.

Lemma marked_flag p p' :
  marked p p' → Implicant.obsolete p = true → Implicant.obsolete p' = true.
Proof. by intros [-> | ->]. Qed.

Lemma marked_elem_r g g' q' :
  Forall2 marked g g' → q' ∈ g' → ∃ q, q ∈ g ∧ marked q q'.
Proof.
  intros Hm [i Hi]%list_elem_of_lookup.
  destruct (Forall2_lookup_r _ _ _ _ _ Hm Hi) as (q & Hq & ?).
  exists q. split; [by eapply list_elem_of_lookup_2|done].
Qed.

Lemma marked_elem_l g g' q :
  Forall2 marked g g' → q ∈ g → ∃ q', q' ∈ g' ∧ marked q q'.
Proof.
  intros Hm [i Hi]%list_elem_of_lookup.
  destruct (Forall2_lookup_l _ _ _ _ _ Hm Hi) as (q' & Hq & ?).
  exists q'. split; [by eapply list_elem_of_lookup_2|done].
Qed.

Lemma marked_vectors g g' :
  Forall2 marked g g' → map Implicant.vec g' = map Implicant.vec g.
Proof.
  induction 1 as [|p p' g g' Hp _ IH]; simpl; [done|].
  by rewrite IH, (marked_vec _ _ Hp).
Qed.

Lemma append_at_extends k x gs gs' :
  Dnf.append_at k x gs = Ok gs' → extends gs gs'.
Proof.
  intros Hrun. assert (Hk : k < length gs).
  { unfold Dnf.append_at in Hrun.
    destruct (gs !! k) eqn:Hg; [by eapply lookup_lt_Some|done]. }
  destruct (append_at_ok k x gs Hk) as (gs'' & Hrun' & _ & _ & Hin).
  rewrite Hrun in Hrun'. injection Hrun' as <-.
  intros q Hq. apply Hin. by left.
Qed.

Lemma merge_inner_meets (nextGroup : list Implicant.t) :
  ∀ impl1 st impl1' next' st',
    Dnf.merge_inner impl1 nextGroup st = Ok (impl1', next', st') →
    ((∃ q, q ∈ nextGroup ∧
           mergeable_vec (Implicant.vec impl1) (Implicant.vec q)) →
     Implicant.obsolete impl1' = true) ∧
    (∀ q', q' ∈ next' →
           mergeable_vec (Implicant.vec impl1) (Implicant.vec q') →
           Implicant.obsolete q' = true) ∧
    (∀ q, q ∈ nextGroup →
          mergeable_vec (Implicant.vec impl1) (Implicant.vec q) →
          ∃ m, m ∈ concat (Dnf.newGroups st') ∧
               Implicant.vec m
               = merged_vec (Implicant.vec impl1) (Implicant.vec q)) ∧
    extends (Dnf.newGroups st) (Dnf.newGroups st').
Proof.
  induction nextGroup as [|impl2 rest IH];
    intros impl1 st impl1' next' st' Hrun; simpl in Hrun.
  - injection Hrun as <- <- <-.
    split; [by intros (q & ?%elem_of_nil & _)|].
    split; [by intros q' ?%elem_of_nil|].
    split; [by intros q ?%elem_of_nil|]. apply extends_refl.
  - apply result_bind_inv in Hrun as ([newImpl|] & Htm & Hrun);
      pose proof (try_merge_vec _ _ _ Htm) as Hr.
    + destruct Hr as [Hmerge Hvec].
      apply result_bind_inv in Hrun as (ng & Happ & Hrun).
      apply result_bind_inv in Hrun as ([[i1 r1] s1] & Hrec & Hrun).
      injection Hrun as <- <- <-.
      destruct (IH _ _ _ _ _ Hrec) as (_ & H2 & H3 & H4).
      destruct (merge_inner_frame _ _ _ _ _ _ Hrec) as (Hm1 & _).
      destruct (append_at_inv _ _ _ _ Happ) as [_ Hin].
      pose proof (append_at_extends _ _ _ _ Happ) as Hext.
      split; [intros _; by apply (marked_flag _ _ Hm1)|].
      split; [|split].
      * intros q' [-> | Hq']%elem_of_cons Hq; [done|]. by apply H2.
      * intros q [-> | Hq]%elem_of_cons Hmq.
        -- exists newImpl. split; [by apply H4|done].
        -- by apply H3.
      * by eapply extends_trans.
    + apply result_bind_inv in Hrun as ([[i1 r1] s1] & Hrec & Hrun).
      injection Hrun as <- <- <-.
      destruct (IH _ _ _ _ _ Hrec) as (H1 & H2 & H3 & H4).
      split; [|split; [|split; [|done]]].
      * intros (q & [-> | Hq]%elem_of_cons & Hmq); [done|].
        apply H1. by exists q.
      * intros q' [-> | Hq']%elem_of_cons Hq; [done|]. by apply H2.
      * intros q [-> | Hq]%elem_of_cons Hmq; [done|]. by apply H3.
Qed.

Lemma merge_outer_meets (group : list Implicant.t) :
  ∀ nextGroup st group' next' st',
    Dnf.merge_outer group nextGroup st = Ok (group', next', st') →
    (∀ a', a' ∈ group' →
       (∃ q, q ∈ nextGroup ∧
             mergeable_vec (Implicant.vec a') (Implicant.vec q)) →
       Implicant.obsolete a' = true) ∧
    (∀ q', q' ∈ next' →
       (∃ a, a ∈ group ∧
             mergeable_vec (Implicant.vec a) (Implicant.vec q')) →
       Implicant.obsolete q' = true) ∧
    (∀ a q, a ∈ group → q ∈ nextGroup →
       mergeable_vec (Implicant.vec a) (Implicant.vec q) →
       ∃ m, m ∈ concat (Dnf.newGroups st') ∧
            Implicant.vec m
            = merged_vec (Implicant.vec a) (Implicant.vec q)) ∧
    extends (Dnf.newGroups st) (Dnf.newGroups st').
Proof.
  induction group as [|impl1 group IH];
    intros nextGroup st group' next' st' Hrun; simpl in Hrun.
  - injection Hrun as <- <- <-.
    split; [by intros a' ?%elem_of_nil|].
    split; [by intros q' _ (a & ?%elem_of_nil & _)|].
    split; [by intros a q ?%elem_of_nil|]. apply extends_refl.
  - apply result_bind_inv in Hrun as ([[i1 n1] s1] & Hin & Hrun).
    apply result_bind_inv in Hrun as ([[g2 n2] s2] & Hrec & Hrun).
    injection Hrun as <- <- <-.
    destruct (merge_inner_frame _ _ _ _ _ _ Hin) as (Hm1 & Hmn1 & _).
    destruct (merge_outer_frame _ _ _ _ _ _ Hrec) as (Hmg & Hmn2 & _).
    destruct (merge_inner_meets _ _ _ _ _ _ Hin) as (I1 & I2 & I3 & I4).
    destruct (IH _ _ _ _ _ Hrec) as (O1 & O2 & O3 & O4).
    split; [|split; [|split]].
    + intros a' [-> | Ha']%elem_of_cons (q & Hq & Hmq).
      * apply I1. exists q. split; [done|].
        by rewrite <- (marked_vec _ _ Hm1).
      * apply O1; [done|].
        destruct (marked_elem_l _ _ _ Hmn1 Hq) as (q1 & Hq1 & Hmark).
        exists q1. split; [done|]. by rewrite (marked_vec _ _ Hmark).
    + intros q' Hq' (a & [-> | Ha]%elem_of_cons & Hmq).
      * destruct (marked_elem_r _ _ _ Hmn2 Hq') as (q1 & Hq1 & Hmark).
        apply (marked_flag _ _ Hmark). apply I2; [done|].
        by rewrite <- (marked_vec _ _ Hmark).
      * apply O2; [done|]. by exists a.
    + intros a q [-> | Ha]%elem_of_cons Hq Hmq.
      * destruct (I3 q Hq Hmq) as (m & Hm & Hvec).
        exists m. split; [by apply O4|done].
      * destruct (marked_elem_l _ _ _ Hmn1 Hq) as (q1 & Hq1 & Hmark).
        rewrite <- (marked_vec _ _ Hmark) in Hmq |- *.
        by apply O3.
    + by eapply extends_trans.
Qed.

Lemma merge_groups_meets (rest : list (list Implicant.t)) :
  ∀ (prevV : list (list (option Z))) group st primes st' primes',
    Dnf.merge_groups group rest st primes = Ok (st', primes') →
    (∀ a, a ∈ group →
       (∃ w, w ∈ prevV ∧ mergeable_vec w (Implicant.vec a)) →
       Implicant.obsolete a = true) →
    ∃ added,
      primes' = primes ++ added ∧
      (∀ p, p ∈ added →
         Implicant.obsolete p = false ∧
         ∃ n vs,
           vectors (group :: rest) !! n = Some vs ∧
           Implicant.vec p ∈ vs ∧
           (∀ ws w, (prevV :: vectors (group :: rest)) !! n = Some ws →
                    w ∈ ws → ¬ mergeable_vec w (Implicant.vec p)) ∧
           (∀ ws w, vectors (group :: rest) !! S n = Some ws →
                    w ∈ ws → ¬ mergeable_vec (Implicant.vec p) w)) ∧
      (∀ n vs ws v w,
         vectors (group :: rest) !! n = Some vs →
         vectors (group :: rest) !! S n = Some ws →
         v ∈ vs → w ∈ ws → mergeable_vec v w →
         ∃ m, m ∈ concat (Dnf.newGroups st') ∧
              Implicant.vec m = merged_vec v w) ∧
      extends (Dnf.newGroups st) (Dnf.newGroups st').
Proof.
  induction rest as [|nextGroup rest IH];
    intros prevV group st primes st' primes' Hrun Hprev; simpl in Hrun.
  - injection Hrun as <- <-.
    exists (filter (λ impl, Implicant.obsolete impl = false) group).
    split; [done|]. split; [|split; [|apply extends_refl]].
    + intros p [Hflag Hp]%list_elem_of_filter. split; [done|].
      exists 0, (map Implicant.vec group). split; [done|].
      split; [by apply list_elem_of_fmap_2|]. split.
      * intros ws w [= <-] Hw Hmw.
        assert (Implicant.obsolete p = true) by (apply Hprev; eauto).
        congruence.
      * by intros ws w.
    + intros n vs ws v w _ Hws. by destruct n.
  - apply result_bind_inv in Hrun as ([[g1 n1] s1] & Hout & Hrun).
    destruct (merge_outer_frame _ _ _ _ _ _ Hout) as (Hmg & Hmn & _).
    destruct (merge_outer_meets _ _ _ _ _ _ Hout) as (O1 & O2 & O3 & O4).
    destruct (IH (map Implicant.vec group) _ _ _ _ _ Hrun)
      as (added & -> & Hadded & Hmerges & Hext).
    { intros a Ha (w & (a0 & -> & Ha0)%list_elem_of_fmap & Hmw).
      apply O2; [done|]. by exists a0. }
    assert (HV : vectors (n1 :: rest) = vectors (nextGroup :: rest)).
    { unfold vectors. simpl. by rewrite (marked_vectors _ _ Hmn). }
    rewrite HV in Hadded, Hmerges.
    exists (filter (λ impl, Implicant.obsolete impl = false) g1 ++ added).
    split; [unfold Dnf.collect_primes; by rewrite (assoc_L (++))|].
    split; [|split; [|by eapply extends_trans]].
    + intros p [[Hflag Hp]%list_elem_of_filter|Hp]%elem_of_app.
      * split; [done|]. exists 0, (map Implicant.vec group).
        split; [done|].
        split; [rewrite <- (marked_vectors _ _ Hmg);
                by apply list_elem_of_fmap_2|].
        split.
        -- intros ws w [= <-] Hw Hmw.
           assert (Implicant.obsolete p = true).
           { apply Hprev; [by eapply marked_unflagged|eauto]. }
           congruence.
        -- intros ws w [= <-] (q & -> & Hq)%list_elem_of_fmap Hmw.
           assert (Implicant.obsolete p = true)
             by (apply O1; [done|by exists q]).
           congruence.
      * destruct (Hadded p Hp) as (Hflag & n & vs & Hn & Hin & Hp1 & Hp2).
        split; [done|]. exists (S n), vs. split; [done|].
        split; [done|]. split; [done|done].
    + intros [|n] vs ws v w Hvs Hws Hv Hw Hmw.
      * injection Hvs as <-. injection Hws as <-.
        apply list_elem_of_fmap in Hv as (a & -> & Ha).
        apply list_elem_of_fmap in Hw as (q & -> & Hq).
        destruct (O3 a q Ha Hq Hmw) as (m & Hm & Hvec).
        exists m. split; [by apply Hext|done].
      * by apply (Hmerges n vs ws).
Qed.

(** *** A round keeps the groups complete and collects prime
    implicants only *)

Section prime_rounds.

Context (vnumber : nat) (tv : list Z).

Lemma impl_ok_implicant r p :
  impl_ok vnumber tv r p → implicant_of vnumber tv (Implicant.vec p).
Proof.
  intros [Hlen Hbin _ Hholds Htrue]. split; [done|]. split; [done|].
  intros j Hj Hh. apply Htrue. by apply Hholds.
Qed.

Lemma implicant_assign u i b :
  implicant_of vnumber tv u → u !! i = Some None →
  b = 0%Z ∨ b = 1%Z →
  implicant_of vnumber tv (<[i := Some b]> u).
Proof.
  intros Hu Hi Hb. apply (implicant_refine _ _ u); [done| | |].
  - apply length_insert.
  - apply Forall_insert; [apply Hu|]. destruct Hb as [-> | ->]; auto.
  - intros k s Hk. destruct (decide (k = i)) as [-> | Hne]; [congruence|].
    by rewrite list_lookup_insert_ne.
Qed.

Lemma implicant_sibling v i s b :
  implicant_of vnumber tv (<[i := None]> v) → v !! i = Some (Some s) →
  b = 0%Z ∨ b = 1%Z →
  implicant_of vnumber tv (<[i := Some b]> v).
Proof.
  intros Hu Hi Hb. apply (implicant_refine _ _ (<[i := None]> v)); [done| | |].
  - by rewrite !length_insert.
  - destruct Hu as (_ & Hbin & _).
    rewrite <- (list_insert_insert_eq v i (Some b) None).
    apply Forall_insert; [done|]. destruct Hb as [-> | ->]; auto.
  - intros k s' Hk. destruct (decide (k = i)) as [-> | Hne].
    + rewrite list_lookup_insert_eq in Hk by by eapply lookup_lt_Some. done.
    + rewrite list_lookup_insert_ne in Hk |- * by done. done.
Qed.

(** The groups of a round, by vectors. *)
Lemma vectors_inv r gs n vs v :
  groups_ok vnumber tv r gs → vectors gs !! n = Some vs → v ∈ vs →
  implicant_of vnumber tv v ∧ none_count v = r ∧
  length (filter (λ s, s = Some 1%Z) v) = n.
Proof.
  intros [_ Hgs] Hn Hv. unfold vectors in Hn.
  rewrite list_lookup_fmap in Hn.
  destruct (gs !! n) as [g|] eqn:Hg; [|done]. injection Hn as <-.
  apply list_elem_of_fmap in Hv as (p & -> & Hp).
  destruct (Hgs n g p Hg Hp) as (Hok & Hones & _).
  split; [by eapply impl_ok_implicant|]. split; [apply Hok|done].
Qed.

Lemma vectors_complete r gs v :
  groups_ok vnumber tv r gs → complete vnumber tv r gs →
  implicant_of vnumber tv v → none_count v = r →
  ∃ vs, vectors gs !! length (filter (λ s, s = Some 1%Z) v) = Some vs ∧
        v ∈ vs.
Proof.
  intros [_ Hgs] Hcomplete Hv Hr.
  destruct (Hcomplete v Hv Hr) as (p & Hp & <-).
  apply elem_of_concat in Hp as (k & g & Hk & Hp).
  destruct (Hgs k g p Hk Hp) as (_ & Hones & _).
  exists (map Implicant.vec g). unfold vectors.
  rewrite list_lookup_fmap. unfold Implicant.count_ones in Hones.
  rewrite Hones, Hk. split; [done|]. by apply list_elem_of_fmap_2.
Qed.

Lemma merge_step_complete r d ch d' :
  dnf_ok vnumber tv r d → complete vnumber tv r (Dnf.groups d) →
  Dnf.merge_step d = Ok (ch, d') →
  complete vnumber tv (S r) (Dnf.groups d') ∧
  ∃ added, Dnf.primes d' = Dnf.primes d ++ added ∧
           ∀ p, p ∈ added → prime_implicant vnumber tv (Implicant.vec p).
Proof.
  intros [Hgs _ _] Hcomplete Hrun. unfold Dnf.merge_step in Hrun.
  destruct (Dnf.groups d) as [|group rest] eqn:Hgroups.
  { destruct Hgs as [Hlen _]. simpl in Hlen. lia. }
  apply result_bind_inv in Hrun as ([st' primes'] & Hrun & Hret).
  injection Hret as <- <-. simpl.
  destruct (merge_groups_meets _ [] _ _ _ _ _ Hrun)
    as (added & -> & Hadded & Hmerges & _).
  { by intros a _ (w & ?%elem_of_nil & _). }
  split.
  - (* every implicant with one more don't-care slot is a merge *)
    intros u Hu Hnone.
    destruct (none_slot u r Hnone) as [i Hi].
    pose proof (lookup_lt_Some _ _ _ Hi) as Hlt.
    set (a := <[i := Some 0%Z]> u). set (b := <[i := Some 1%Z]> u).
    assert (Ha : implicant_of vnumber tv a)
      by (apply implicant_assign; auto).
    assert (Hb : implicant_of vnumber tv b)
      by (apply implicant_assign; auto).
    assert (Hna : none_count a = r).
    { pose proof (none_count_assign u i 0 Hi). unfold a. lia. }
    assert (Hnb : none_count b = r).
    { pose proof (none_count_assign u i 1 Hi). unfold b. lia. }
    destruct (vectors_complete r _ a Hgs Hcomplete Ha Hna) as (vs & Hvs & Hin).
    destruct (vectors_complete r _ b Hgs Hcomplete Hb Hnb) as (ws & Hws & Hinb).
    assert (Hones : length (filter (λ s, s = Some 1%Z) b)
                    = S (length (filter (λ s, s = Some 1%Z) a))).
    { pose proof (count_ones_insert u i None (Some 0%Z) Hi) as H0.
      pose proof (count_ones_insert u i None (Some 1%Z) Hi) as H1.
      rewrite decide_False in H0, H1 by done.
      rewrite decide_False in H0 by done.
      rewrite decide_True in H1 by done. unfold a, b. lia. }
    rewrite Hones in Hws.
    assert (Hai : a !! i = Some (Some 0%Z))
      by (unfold a; by rewrite list_lookup_insert_eq).
    destruct (one_difference_mergeable a i (Some 0%Z) (Some 1%Z) Hai)
      as [Hm Hmerged]; [done|].
    assert (Hba : <[i := Some 1%Z]> a = b)
      by (unfold a, b; by rewrite list_insert_insert_eq).
    rewrite Hba in Hm, Hmerged.
    destruct (Hmerges _ vs ws a b Hvs Hws Hin Hinb Hm) as (m & Hmin & Hvec).
    exists m. split; [done|]. rewrite Hvec, Hmerged. unfold a.
    rewrite list_insert_insert_eq. by apply list_insert_id.
  - (* an implicant that stays unflagged is prime *)
    exists added. split; [done|]. intros p Hp.
    destruct (Hadded p Hp) as (_ & n & vs & Hn & Hin & Hprev & Hnext).
    destruct (vectors_inv r _ n vs _ Hgs Hn Hin) as (Himpl & Hnone & Hones).
    split; [done|]. intros i s Hi Hdrop.
    pose proof (lookup_lt_Some _ _ _ Hi) as Hlt.
    assert (Hs : s = 0%Z ∨ s = 1%Z).
    { destruct Himpl as (_ & Hbin & _).
      unfold binary_slots in Hbin. rewrite Forall_lookup in Hbin.
      destruct (Hbin i _ Hi) as [? | [[= ->] | [= ->]]]; [done|auto..]. }
    destruct Hs as [-> | ->].
    + (* the sibling with a 1 is in the next group *)
      set (w := <[i := Some 1%Z]> (Implicant.vec p)).
      assert (Hw : implicant_of vnumber tv w)
        by (eapply implicant_sibling; eauto).
      assert (Hnw : none_count w = r)
        by (unfold w; by rewrite (none_count_flip _ i 0)).
      destruct (vectors_complete r _ w Hgs Hcomplete Hw Hnw)
        as (ws & Hws & Hinw).
      pose proof (count_ones_insert _ i _ (Some 1%Z) Hi) as H1.
      rewrite decide_False, decide_True in H1 by done.
      replace (length (filter (λ s, s = Some 1%Z) w)) with (S n) in Hws
        by (unfold w; lia).
      apply (Hnext ws w Hws Hinw).
      by apply (one_difference_mergeable _ i (Some 0%Z)).
    + (* the sibling with a 0 is in the group before *)
      set (w := <[i := Some 0%Z]> (Implicant.vec p)).
      assert (Hw : implicant_of vnumber tv w)
        by (eapply implicant_sibling; eauto).
      assert (Hnw : none_count w = r)
        by (unfold w; by rewrite (none_count_flip _ i 1)).
      destruct (vectors_complete r _ w Hgs Hcomplete Hw Hnw)
        as (ws & Hws & Hinw).
      pose proof (count_ones_insert _ i _ (Some 0%Z) Hi) as H0.
      rewrite decide_True, decide_False in H0 by done.
      assert (Hn' : n = S (length (filter (λ s, s = Some 1%Z) w)))
        by (unfold w; lia).
      apply (Hprev ws w); [by rewrite Hn'|done|].
      assert (Hwi : w !! i = Some (Some 0%Z))
        by (unfold w; by rewrite list_lookup_insert_eq).
      destruct (one_difference_mergeable w i (Some 0%Z) (Some 1%Z) Hwi)
        as [Hm _]; [done|].
      unfold w in Hm at 2. rewrite list_insert_insert_eq in Hm.
      by rewrite list_insert_id in Hm.
Qed.

Lemma merge_primes (fuel : nat) : ∀ r d d' log,
  dnf_ok vnumber tv r d → complete vnumber tv r (Dnf.groups d) →
  (∀ p, p ∈ Dnf.primes d → prime_implicant vnumber tv (Implicant.vec p)) →
  Dnf.merge fuel d = Ok (d', log) →
  ∀ p, p ∈ Dnf.primes d' → prime_implicant vnumber tv (Implicant.vec p).
Proof.
  induction fuel as [|fuel IH]; intros r d d' log Hd Hcomplete Hprimes Hrun;
    [done|].
  rewrite merge_unfold in Hrun.
  apply result_bind_inv in Hrun as ([ch d1] & Hstep & Hrun).
  destruct (merge_step_ok vnumber tv r d Hd) as (ch' & d1' & Hstep' & Hd1 & _).
  rewrite Hstep in Hstep'. injection Hstep' as <- <-.
  destruct (merge_step_complete r d ch d1 Hd Hcomplete Hstep)
    as (Hc1 & added & Hadd & Hadded).
  assert (Hprimes1 : ∀ p, p ∈ Dnf.primes d1 →
            prime_implicant vnumber tv (Implicant.vec p)).
  { intros p. rewrite Hadd. intros [?|?]%elem_of_app; auto. }
  destruct ch.
  - apply result_bind_inv in Hrun as ([d2 log2] & Hrec & Hrun).
    injection Hrun as <- <-. by apply (IH (S r) d1 d2 log2).
  - by injection Hrun as <- <-.
Qed.

(** *** The first round *)

Lemma holds_index (v : list (option Z)) :
  ∃ j, (0 ≤ j < 2 ^ Z.of_nat (length v))%Z ∧
       ∀ (i : nat) s, v !! i = Some s →
         s = None ∨ s = Some 0%Z ∨ s = Some 1%Z →
         Implicant.literal s (Z.testbit j (Z.of_nat i)) = true.
Proof.
  induction v as [|x v (j & Hj & IH)].
  - exists 0%Z. split; [simpl; lia|]. intros i s Hi. by rewrite lookup_nil in Hi.
  - set (b := bool_decide (x = Some 1%Z)).
    exists (2 * j + Z.b2z b)%Z. split.
    + change (length (x :: v)) with (S (length v)).
      rewrite Nat2Z.inj_succ, Z.pow_succ_r by lia.
      destruct b; simpl; lia.
    + intros [|i] s Hi Hs; simpl in Hi.
      * injection Hi as <-. change (Z.of_nat 0) with 0%Z.
        rewrite Z.testbit_0_r. unfold b.
        destruct Hs as [-> | [-> | ->]]; done.
      * rewrite Nat2Z.inj_succ, Z.testbit_succ_r by lia. by apply IH.
Qed.

Lemma none_count_zero (v : list (option Z)) i s :
  none_count v = 0 → v !! i = Some s → s ≠ None.
Proof.
  unfold none_count. intros Hn Hi ->.
  assert (Hin : None ∈ filter (λ s : option Z, s = None) v).
  { apply list_elem_of_filter. split; [done|].
    by eapply list_elem_of_lookup_2. }
  destruct (filter _ v); [by apply elem_of_nil in Hin|done].
Qed.

Lemma assigned_eq (v w : list (option Z)) (j : Z) :
  length v = length w → binary_slots v → binary_slots w →
  none_count v = 0 → none_count w = 0 →
  Implicant.holds_from 0 v j = true → Implicant.holds_from 0 w j = true →
  v = w.
Proof.
  intros Hlen Hbv Hbw Hnv Hnw Hv Hw. apply list_eq. intros i.
  destruct (v !! i) as [x|] eqn:Hx.
  - destruct (lookup_lt_is_Some_2 w i) as [y Hy].
    { rewrite <- Hlen. by eapply lookup_lt_Some. }
    rewrite Hy. f_equal.
    pose proof (proj1 (holds_from_lookup v 0 j) Hv i x Hx) as Hlx.
    pose proof (proj1 (holds_from_lookup w 0 j) Hw i y Hy) as Hly.
    pose proof (none_count_zero v i x Hnv Hx) as Hxn.
    pose proof (none_count_zero w i y Hnw Hy) as Hyn.
    unfold binary_slots in Hbv. rewrite Forall_lookup in Hbv.
    unfold binary_slots in Hbw. rewrite Forall_lookup in Hbw.
    destruct (Hbv i x Hx) as [-> | [-> | ->]]; [done|..];
      destruct (Hbw i y Hy) as [-> | [-> | ->]]; try done;
      simpl in Hlx, Hly; destruct (Z.testbit j (0 + Z.of_nat i)); done.
  - symmetry. apply lookup_ge_None. rewrite <- Hlen. by apply lookup_ge_None.
Qed.

Lemma complete_start gs :
  dnf_ok vnumber tv 0 (Dnf.mk gs []) → complete vnumber tv 0 gs.
Proof.
  intros [[Hlen Hgs] _ Hcover] v (Hl & Hbin & Hsub) Hnone.
  destruct (holds_index v) as (j & Hj & Hlit).
  rewrite Hl in Hj.
  assert (Hv : Implicant.holds_from 0 v j = true).
  { apply holds_from_lookup. intros i s Hi. rewrite Z.add_0_l.
    apply Hlit; [done|].
    unfold binary_slots in Hbin. rewrite Forall_lookup in Hbin. by apply (Hbin i). }
  destruct (Hcover j (Hsub j Hj Hv)) as (p & [Hp | Hp] & Hjp);
    [by apply elem_of_nil in Hp|].
  simpl in Hp. exists p. split; [done|].
  apply elem_of_concat in Hp as (k & g & Hk & Hp).
  destruct (Hgs k g p Hk Hp) as ([Hpl Hpb Hpn Hph _] & _).
  symmetry. apply (assigned_eq v (Implicant.vec p) j); try done.
  - congruence.
  - by apply Hph.
Qed.

End prime_rounds.

Lemma init_primes (vnumber : nat) (tv : list Z) (fuel : nat) (d : Dnf.t) :
  truth_vector vnumber tv → vnumber + 1 ≤ fuel →
  Dnf.init fuel vnumber tv = Ok d →
  ∀ p, p ∈ Dnf.primes d → prime_implicant vnumber tv (Implicant.vec p).
Proof.
  intros Htv Hfuel Hrun.
  destruct (init_groups_ok vnumber tv Htv) as (gs & Hinit & Hd0).
  unfold Dnf.init in Hrun. rewrite (result_bind_ok _ _ _ Hinit) in Hrun.
  apply result_bind_inv in Hrun as ([d1 log] & Hmerge & Hrun).
  rewrite drop_unrequired_run in Hrun. simpl in Hrun. injection Hrun as <-.
  simpl. intros p Hp.
  apply (merge_primes vnumber tv fuel 0 (Dnf.mk gs []) d1 log); try done.
  - by apply complete_start.
  - by intros q ?%elem_of_nil.
  - eapply elem_of_sublist; [exact Hp|]. apply prune_sublist.
Qed.

(** A conjunction that is no implicant is true at an index at which
    the truth vector is not 1. *)
Lemma not_implicant (vnumber : nat) (tv : list Z) (v : list (option Z)) :
  length v = vnumber → binary_slots v → ¬ implicant_of vnumber tv v →
  ∃ j, (0 ≤ j < 2 ^ Z.of_nat vnumber)%Z ∧
       Implicant.holds_from 0 v j = true ∧ ¬ true_at tv j.
Proof.
  intros Hlen Hbin Hnot.
  assert (Hdec : ∀ j, Decision (true_at tv j)).
  { intros j. unfold true_at. apply _. }
  destruct (decide (Exists (λ j, Implicant.holds_from 0 v j = true
                                 ∧ ¬ true_at tv j)
                      (seqZ 0 (2 ^ Z.of_nat vnumber)))) as [Hex | Hall].
  - apply Exists_exists in Hex as (j & Hj%elem_of_seqZ & Hh & Hf).
    exists j. split; [lia|done].
  - destruct Hnot. split; [done|]. split; [done|]. intros j Hj Hh.
    destruct (decide (true_at tv j)) as [|Hf]; [done|].
    destruct Hall. apply Exists_exists. exists j.
    split; [apply elem_of_seqZ; lia|done].
Qed.

(** X16. The primes are prime implicants. After the constructor has run on
    a truth vector, the conjunction of every prime is true only at
    indices at which the vector is 1, and none of its literals can be
    dropped: without any one of them the conjunction is true at some
    index at which the vector is not 1. *)
Theorem primes_are_prime (vnumber : nat) (tv : list Z) (fuel : nat)
    (d : Dnf.t) :
  truth_vector vnumber tv → vnumber + 1 ≤ fuel →
  Dnf.init fuel vnumber tv = Ok d →
  ∀ p, p ∈ Dnf.primes d →
    (∀ j, (0 ≤ j < 2 ^ Z.of_nat vnumber)%Z →
          Implicant.holds p j = true → true_at tv j) ∧
    ∀ i s, Implicant.vec p !! i = Some (Some s) →
      ∃ j, (0 ≤ j < 2 ^ Z.of_nat vnumber)%Z ∧
           Implicant.holds_from 0 (<[i := None]> (Implicant.vec p)) j = true
           ∧ ¬ true_at tv j.
Proof.
  intros Htv Hfuel Hrun p Hp.
  destruct (init_primes vnumber tv fuel d Htv Hfuel Hrun p Hp)
    as [(Hlen & Hbin & Hsub) Hprime].
  split; [exact Hsub|]. intros i s Hi.
  apply not_implicant.
  - by rewrite length_insert.
  - apply Forall_insert; [done|]. by left.
  - by apply (Hprime i s).
Qed.

Lemma primes_are_prime_witness :
  ∃ j, (0 ≤ j < 2 ^ Z.of_nat 2)%Z ∧
       Implicant.holds_from 0 (<[0 := None]> [Some 1%Z; None]) j = true ∧
       ¬ true_at [0; 1; 1; 1]%Z j.
Proof.
  assert (Htv : truth_vector 2 [0; 1; 1; 1]%Z) by solve_truth_vector.
  exact (proj2 (primes_are_prime 2 [0; 1; 1; 1]%Z 3 _ Htv ltac:(lia) dnf_0111
                  (Implicant.mk [Some 1; None]%Z [1; 3]%Z false)
                  ltac:(left)) 0 1%Z eq_refl).
Defined.

Lemma init_cover (vnumber : nat) (tv : list Z) (fuel : nat) (d : Dnf.t)
    (j : Z) :
  truth_vector vnumber tv → vnumber + 1 ≤ fuel →
  Dnf.init fuel vnumber tv = Ok d →
  (0 ≤ j < 2 ^ Z.of_nat vnumber)%Z → true_at tv j →
  ∃ p, p ∈ Dnf.primes d ∧ Implicant.holds p j = true.
Proof.
  intros Htv Hfuel Hrun Hj Htrue.
  destruct (init_groups_ok vnumber tv Htv) as (gs & Hinit & Hd0).
  destruct (merge_ok vnumber tv fuel 0 (Dnf.mk gs []) Hd0)
    as (d1 & k & Hmerge & _ & Hprimes & Hcover); [lia|lia|].
  unfold Dnf.init in Hrun. rewrite (result_bind_ok _ _ _ Hinit) in Hrun.
  rewrite (result_bind_ok _ _ _ Hmerge) in Hrun. simpl in Hrun.
  rewrite drop_unrequired_run in Hrun. simpl in Hrun. injection Hrun as <-.
  simpl.
  destruct (prune_covers (Dnf.primes d1)
              (list_to_set (Dnf.true_indices 0 tv)) j) as (p & Hp & Hjp).
  { by apply required_spec. }
  { by apply Hcover. }
  exists p. split; [done|].
  assert (Hp1 : p ∈ Dnf.primes d1).
  { eapply elem_of_sublist; [exact Hp|]. apply prune_sublist. }
  destruct (Hprimes p Hp1) as (r' & Hok).
  by apply (ok_holds _ _ _ _ Hok j Hj).
Qed.

(** X17. Essential prime implicants are kept. When, at an index at which
    the truth vector is 1, only one prime implicant is true, the
    primes that the constructor leaves contain an implicant with the
    vector of that prime implicant: the pruning pass does not drop
    it. *)
Theorem essential_primes_kept (vnumber : nat) (tv : list Z) (fuel : nat)
    (d : Dnf.t) (j : Z) (v : list (option Z)) :
  truth_vector vnumber tv → vnumber + 1 ≤ fuel →
  Dnf.init fuel vnumber tv = Ok d →
  (0 ≤ j < 2 ^ Z.of_nat vnumber)%Z → true_at tv j →
  (∀ w, prime_implicant vnumber tv w →
        Implicant.holds_from 0 w j = true → w = v) →
  ∃ p, p ∈ Dnf.primes d ∧ Implicant.vec p = v.
Proof.
  intros Htv Hfuel Hrun Hj Htrue Honly.
  destruct (init_cover vnumber tv fuel d j Htv Hfuel Hrun Hj Htrue)
    as (p & Hp & Hholds).
  exists p. split; [done|]. apply Honly; [|done].
  by apply (init_primes vnumber tv fuel d).
Qed.

(** For the truth vector [0, 1, 1, 1], [x0] is the only prime
    implicant that is true at the index 1. *)
Example only_prime_at_1 (w : list (option Z)) :
  prime_implicant 2 [0; 1; 1; 1]%Z w →
  Implicant.holds_from 0 w 1 = true → w = [Some 1%Z; None].
Proof.
  intros [(Hlen & Hbin & Hsub) Hprime] Hholds.
  destruct w as [|a [|b [|c w]]]; try done.
  apply Forall_cons in Hbin as [Ha Hbin].
  apply Forall_cons in Hbin as [Hb _].
  destruct Ha as [-> | [-> | ->]]; [|done|].
  - exfalso. destruct Hb as [-> | [-> | ->]]; [| |done].
    + by destruct (Hsub 0%Z ltac:(lia) eq_refl) as [_ ?].
    + by destruct (Hsub 0%Z ltac:(lia) eq_refl) as [_ ?].
  - destruct Hb as [-> | [-> | ->]]; [done| |done].
    exfalso. apply (Hprime 1 0%Z eq_refl).
    split; [done|]. split.
    { apply Forall_cons. split; [by right; right|].
      apply Forall_cons. split; [by left|constructor]. }
    intros j Hj Hh.
    assert (Hcases : j = 0%Z ∨ j = 1%Z ∨ j = 2%Z ∨ j = 3%Z)
      by (simpl in Hj; lia).
    destruct Hcases as [-> | [-> | [-> | ->]]]; try done.
Qed.

Lemma essential_primes_kept_witness :
  ∃ p, p ∈ [Implicant.mk [Some 1; None]%Z [1; 3]%Z false;
            Implicant.mk [None; Some 1]%Z [2; 3]%Z false] ∧
       Implicant.vec p = [Some 1%Z; None].
Proof.
  assert (Htv : truth_vector 2 [0; 1; 1; 1]%Z) by solve_truth_vector.
  exact (essential_primes_kept 2 [0; 1; 1; 1]%Z 3 _ 1 [Some 1%Z; None]
           Htv ltac:(lia) dnf_0111 ltac:(simpl; lia)
           ltac:(split; [lia|reflexivity]) only_prime_at_1).
Defined.

(** ** The merge rounds find every prime implicant *)

(** *** Where a flag comes from *)

Lemma merge_inner_flags (nextGroup : list Implicant.t) :
  ∀ impl1 st impl1' next' st',
    Dnf.merge_inner impl1 nextGroup st = Ok (impl1', next', st') →
    (Implicant.obsolete impl1' = true →
     Implicant.obsolete impl1 = true ∨
     ∃ q, q ∈ nextGroup ∧
          mergeable_vec (Implicant.vec impl1) (Implicant.vec q)) ∧
    Forall2 (λ q q',
               marked q q' ∧
               (Implicant.obsolete q' = true →
                Implicant.obsolete q = true ∨
                mergeable_vec (Implicant.vec impl1) (Implicant.vec q)))
      nextGroup next'.
Proof.
  induction nextGroup as [|impl2 rest IH];
    intros impl1 st impl1' next' st' Hrun; simpl in Hrun.
  - injection Hrun as <- <- <-. split; [by left|constructor].
  - apply result_bind_inv in Hrun as ([newImpl|] & Htm & Hrun);
      pose proof (try_merge_vec _ _ _ Htm) as Hr.
    + destruct Hr as [Hmerge _].
      apply result_bind_inv in Hrun as (ng & Happ & Hrun).
      apply result_bind_inv in Hrun as ([[i1 r1] s1] & Hrec & Hrun).
      injection Hrun as <- <- <-.
      destruct (IH _ _ _ _ _ Hrec) as (_ & H2).
      split.
      * intros _. right. exists impl2. split; [left|done].
      * constructor; [split; [apply marked_set|by right]|]. exact H2.
    + apply result_bind_inv in Hrun as ([[i1 r1] s1] & Hrec & Hrun).
      injection Hrun as <- <- <-.
      destruct (IH _ _ _ _ _ Hrec) as (H1 & H2).
      split.
      * intros Hflag. destruct (H1 Hflag) as [? | (q & Hq & Hmq)]; [by left|].
        right. exists q. split; [by right|done].
      * constructor; [split; [apply marked_refl|by left]|]. exact H2.
Qed.

Lemma merge_outer_flags (group : list Implicant.t) :
  ∀ nextGroup st group' next' st',
    Dnf.merge_outer group nextGroup st = Ok (group', next', st') →
    Forall2 (λ a a',
               marked a a' ∧
               (Implicant.obsolete a' = true →
                Implicant.obsolete a = true ∨
                ∃ q, q ∈ nextGroup ∧
                     mergeable_vec (Implicant.vec a) (Implicant.vec q)))
      group group' ∧
    Forall2 (λ q q',
               marked q q' ∧
               (Implicant.obsolete q' = true →
                Implicant.obsolete q = true ∨
                ∃ a, a ∈ group ∧
                     mergeable_vec (Implicant.vec a) (Implicant.vec q)))
      nextGroup next'.
Proof.
  induction group as [|impl1 group IH];
    intros nextGroup st group' next' st' Hrun; simpl in Hrun.
  - injection Hrun as <- <- <-. split; [constructor|].
    apply Forall2_same_length_lookup. split; [done|].
    intros i q q' Hq Hq'. assert (q' = q) as -> by congruence.
    split; [apply marked_refl|by left].
  - apply result_bind_inv in Hrun as ([[i1 n1] s1] & Hin & Hrun).
    apply result_bind_inv in Hrun as ([[g2 n2] s2] & Hrec & Hrun).
    injection Hrun as <- <- <-.
    destruct (merge_inner_frame _ _ _ _ _ _ Hin) as (Hm1 & Hmn1 & _).
    destruct (merge_inner_flags _ _ _ _ _ _ Hin) as (I1 & I2).
    destruct (IH _ _ _ _ _ Hrec) as (O1 & O2).
    split.
    + constructor; [by split|].
      eapply Forall2_impl; [exact O1|].
      intros a a' [Hma Hfa]. split; [done|]. intros Hflag.
      destruct (Hfa Hflag) as [? | (q1 & Hq1 & Hmq)]; [by left|].
      destruct (marked_elem_r _ _ _ Hmn1 Hq1) as (q & Hq & Hmark).
      right. exists q. split; [done|]. by rewrite <- (marked_vec _ _ Hmark).
    + apply Forall2_same_length_lookup. split.
      { rewrite (Forall2_length _ _ _ I2). by eapply Forall2_length. }
      intros i q q2 Hq Hq2.
      destruct (Forall2_lookup_l _ _ _ _ _ I2 Hq) as (q1 & Hq1 & Hmq1 & Hf1).
      destruct (Forall2_lookup_l _ _ _ _ _ O2 Hq1) as (q2' & Hq2' & Hmq2 & Hf2).
      assert (q2' = q2) as -> by congruence.
      split; [by eapply marked_trans|]. intros Hflag.
      destruct (Hf2 Hflag) as [Hflag1 | (a & Ha & Hmq)].
      * destruct (Hf1 Hflag1) as [? | Hmq]; [by left|].
        right. exists impl1. split; [left|done].
      * right. exists a. split; [by right|].
        by rewrite <- (marked_vec _ _ Hmq1).
Qed.

Lemma merge_groups_flags (rest : list (list Implicant.t)) :
  ∀ group st primes st' primes',
    Dnf.merge_groups group rest st primes = Ok (st', primes') →
    ∃ added,
      primes' = primes ++ added ∧
      ∀ n g a,
        (group :: rest) !! n = Some g → a ∈ g →
        Implicant.obsolete a = false →
        (∃ p, p ∈ added ∧ Implicant.vec p = Implicant.vec a)
        ∨ (∃ ws w, vectors (group :: rest) !! S n = Some ws ∧ w ∈ ws ∧
                   mergeable_vec (Implicant.vec a) w)
        ∨ (∃ k ws w, n = S k ∧ vectors (group :: rest) !! k = Some ws ∧
                     w ∈ ws ∧ mergeable_vec w (Implicant.vec a)).
Proof.
  induction rest as [|nextGroup rest IH];
    intros group st primes st' primes' Hrun; simpl in Hrun.
  - injection Hrun as <- <-.
    exists (filter (λ impl, Implicant.obsolete impl = false) group).
    split; [done|]. intros [|n] g a Hg Ha Hflag; [|done].
    injection Hg as <-. left. exists a. split; [|done].
    by apply list_elem_of_filter.
  - apply result_bind_inv in Hrun as ([[g1 n1] s1] & Hout & Hrun).
    destruct (merge_outer_frame _ _ _ _ _ _ Hout) as (_ & Hmn & _).
    destruct (merge_outer_flags _ _ _ _ _ _ Hout) as (O1 & O2).
    destruct (IH _ _ _ _ _ Hrun) as (added & -> & Hadded).
    assert (HV : vectors (n1 :: rest) = vectors (nextGroup :: rest)).
    { unfold vectors. simpl. by rewrite (marked_vectors _ _ Hmn). }
    exists (filter (λ impl, Implicant.obsolete impl = false) g1 ++ added).
    split; [unfold Dnf.collect_primes; by rewrite (assoc_L (++))|].
    intros [|[|n]] g a Hg Ha Hflag.
    + injection Hg as <-.
      apply list_elem_of_lookup in Ha as [i Hi].
      destruct (Forall2_lookup_l _ _ _ _ _ O1 Hi) as (a' & Ha' & Hma & Hfa).
      destruct (Implicant.obsolete a') eqn:Hflag'.
      * destruct (Hfa eq_refl) as [? | (q & Hq & Hmq)]; [congruence|].
        right. left. exists (map Implicant.vec nextGroup), (Implicant.vec q).
        split; [done|]. split; [by apply list_elem_of_fmap_2|done].
      * left. exists a'. split; [|by apply marked_vec].
        apply elem_of_app. left. apply list_elem_of_filter.
        split; [done|]. by eapply list_elem_of_lookup_2.
    + injection Hg as <-.
      apply list_elem_of_lookup in Ha as [i Hi].
      destruct (Forall2_lookup_l _ _ _ _ _ O2 Hi) as (a1 & Ha1 & Hma & Hfa).
      destruct (Implicant.obsolete a1) eqn:Hflag1.
      * destruct (Hfa eq_refl) as [? | (b & Hb & Hmb)]; [congruence|].
        right. right. exists 0, (map Implicant.vec group), (Implicant.vec b).
        split; [done|]. split; [done|].
        split; [by apply list_elem_of_fmap_2|done].
      * destruct (Hadded 0 n1 a1 eq_refl) as [(p & Hp & Hvec) | [Hnext | Hprev]];
          [by eapply list_elem_of_lookup_2|done|..].
        -- left. exists p. split; [apply elem_of_app; by right|].
           by rewrite Hvec, (marked_vec _ _ Hma).
        -- right. left. rewrite HV, (marked_vec _ _ Hma) in Hnext. exact Hnext.
        -- by destruct Hprev as (k & ? & ? & ? & _).
    + destruct (Hadded (S n) g a Hg Ha Hflag)
        as [(p & Hp & Hvec) | [Hnext | Hprev]].
      * left. exists p. split; [apply elem_of_app; by right|done].
      * right. left. rewrite HV in Hnext. exact Hnext.
      * right. right. destruct Hprev as (k & ws & w & [= <-] & Hk & Hw & Hm).
        rewrite HV in Hk. by exists (S n), ws, w.
Qed.

Section all_primes.

Context (vnumber : nat) (tv : list Z).

Lemma vectors_elem r gs n vs v :
  groups_ok vnumber tv r gs → vectors gs !! n = Some vs → v ∈ vs →
  ∃ g p, gs !! n = Some g ∧ p ∈ g ∧ Implicant.vec p = v ∧
         impl_ok vnumber tv r p ∧ Implicant.count_ones p = n ∧
         Implicant.obsolete p = false.
Proof.
  intros [_ Hgs] Hn Hv. unfold vectors in Hn.
  rewrite list_lookup_fmap in Hn.
  destruct (gs !! n) as [g|] eqn:Hg; [|done]. injection Hn as <-.
  apply list_elem_of_fmap in Hv as (p & -> & Hp).
  destruct (Hgs n g p Hg Hp) as (Hok & Hones & Hflag).
  by exists g, p.
Qed.

(** Two implicants of neighbouring groups that merge: the literal in
    which they differ can be dropped from either. *)
Lemma merge_drops_literal r k a b :
  impl_ok vnumber tv r a → impl_ok vnumber tv r b →
  Implicant.count_ones a = k → Implicant.count_ones b = S k →
  mergeable_vec (Implicant.vec a) (Implicant.vec b) →
  ∃ i x y,
    Implicant.vec a !! i = Some (Some x) ∧
    Implicant.vec b !! i = Some (Some y) ∧
    implicant_of vnumber tv (<[i := None]> (Implicant.vec a)) ∧
    <[i := None]> (Implicant.vec b) = <[i := None]> (Implicant.vec a).
Proof.
  intros Ha Hb Hka Hkb [Hlen Hdiff].
  destruct (try_merge_round vnumber tv r k a b Ha Hb Hka Hkb)
    as (res & Hrun & Hres).
  pose proof (try_merge_vec _ _ _ Hrun) as Hvec.
  destruct res as [q|]; [|by destruct Hvec].
  destruct Hvec as [_ Hvec].
  destruct (Hres q eq_refl) as (Hq & _).
  pose proof (ok_nones _ _ _ _ Hq) as Hnq.
  pose proof (impl_ok_implicant _ _ _ _ Hq) as Himpl.
  rewrite Hvec in Hnq, Himpl. unfold merged_vec in Hnq, Himpl.
  pose proof (ok_nones _ _ _ _ Ha) as Hna.
  pose proof (ok_nones _ _ _ _ Hb) as Hnb.
  destruct (diff_positions 0 (Implicant.vec a) (Implicant.vec b))
    as [|i [|i' more]] eqn:Hd; [lia| |simpl in Hdiff; lia].
  assert (Hi : i < length (Implicant.vec a) ∧
               Implicant.vec a !! i ≠ Implicant.vec b !! i).
  { apply (diff_positions_lookup _ _ 0 i Hlen). rewrite Hd. left. }
  destruct Hi as [Hlt Hne].
  assert (Hother : ∀ j, j ≠ i →
            Implicant.vec a !! j = Implicant.vec b !! j).
  { intros j Hj.
    destruct (decide (Implicant.vec a !! j = Implicant.vec b !! j)) as [|Hnj];
      [done|].
    assert (Hin : 0 + j ∈ diff_positions 0 (Implicant.vec a) (Implicant.vec b)).
    { apply diff_positions_lookup; [done|]. split; [|done].
      destruct (decide (j < length (Implicant.vec a))); [done|].
      rewrite !lookup_ge_None_2 in Hnj by lia. done. }
    rewrite Hd in Hin. apply list_elem_of_singleton in Hin. simpl in Hin. lia. }
  assert (Heq : <[i := None]> (Implicant.vec b)
                = <[i := None]> (Implicant.vec a)).
  { apply list_eq. intros j. destruct (decide (j = i)) as [-> | Hj].
    - by rewrite !list_lookup_insert_eq by lia.
    - rewrite !list_lookup_insert_ne by done. symmetry. by apply Hother. }
  destruct (lookup_lt_is_Some_2 (Implicant.vec a) i Hlt) as [x Hx].
  destruct (lookup_lt_is_Some_2 (Implicant.vec b) i) as [y Hy]; [lia|].
  destruct x as [x|].
  - destruct y as [y|].
    + by exists i, x, y.
    + exfalso.
      pose proof (filter_length_insert (λ s, s = None) _ i _ None Hx) as H1.
      pose proof (filter_length_insert (λ s, s = None) _ i _ None Hy) as H2.
      rewrite Heq in H2. rewrite decide_False, decide_True in H1 by done.
      rewrite !decide_True in H2 by done.
      unfold none_count in Hna, Hnb, Hnq. lia.
  - exfalso. rewrite list_insert_id in Hnq by done. lia.
Qed.

(** In a round, every prime implicant of the round is collected. *)
Lemma merge_step_collects r d ch d' v :
  dnf_ok vnumber tv r d → complete vnumber tv r (Dnf.groups d) →
  Dnf.merge_step d = Ok (ch, d') →
  prime_implicant vnumber tv v → none_count v = r →
  ∃ p, p ∈ Dnf.primes d' ∧ Implicant.vec p = v.
Proof.
  intros [Hgs _ _] Hcomplete Hrun [Himpl Hprime] Hnone.
  unfold Dnf.merge_step in Hrun.
  destruct (Dnf.groups d) as [|group rest] eqn:Hgroups.
  { destruct Hgs as [Hlen _]. simpl in Hlen. lia. }
  apply result_bind_inv in Hrun as ([st' primes'] & Hrun & Hret).
  injection Hret as <- <-. simpl.
  destruct (merge_groups_flags _ _ _ _ _ _ Hrun) as (added & -> & Hadded).
  destruct (vectors_complete vnumber tv r _ v Hgs Hcomplete Himpl Hnone)
    as (vs & Hvs & Hin).
  destruct (vectors_elem r _ _ vs v Hgs Hvs Hin)
    as (g & a & Hg & Ha & Hvec & Hok & Hones & Hflag).
  destruct (Hadded _ g a Hg Ha Hflag)
    as [(p & Hp & Hpv) | [(ws & w & Hws & Hw & Hm) | (k & ws & w & Hk & Hws & Hw & Hm)]].
  - exists p. split; [apply elem_of_app; by right|]. congruence.
  - exfalso.
    destruct (vectors_elem r _ _ ws w Hgs Hws Hw)
      as (g' & b & _ & _ & Hvb & Hokb & Honesb & _).
    rewrite <- Hvb in Hm.
    destruct (merge_drops_literal r _ a b Hok Hokb Hones) as
      (i & x & y & Hx & _ & Hdrop & _); [by rewrite Honesb| done|].
    rewrite Hvec in Hx, Hdrop. by apply (Hprime i x).
  - exfalso.
    destruct (vectors_elem r _ _ ws w Hgs Hws Hw)
      as (g' & b & _ & _ & Hvb & Hokb & Honesb & _).
    rewrite <- Hvb in Hm.
    destruct (merge_drops_literal r k b a Hokb Hok Honesb) as
      (i & x & y & _ & Hy & Hdrop & Heq); [congruence|done|].
    rewrite <- Heq, Hvec in Hdrop. rewrite Hvec in Hy.
    by apply (Hprime i y).
Qed.

(** An implicant with more don't-care slots contains one with
    fewer. *)
Lemma implicant_with (k : nat) : ∀ v,
  implicant_of vnumber tv v → k ≤ none_count v →
  ∃ u, implicant_of vnumber tv u ∧ none_count u = k.
Proof.
  intros v. remember (none_count v - k) as n eqn:Hn.
  revert v Hn. induction n as [|n IH]; intros v Hn Hv Hk.
  - exists v. split; [done|lia].
  - destruct (none_slot v (none_count v - 1)) as [i Hi]; [lia|].
    pose proof (none_count_assign v i 0 Hi) as Hcount.
    apply (IH (<[i := Some 0%Z]> v)); [lia| |lia].
    apply implicant_assign; auto.
Qed.

Lemma merge_all_primes (fuel : nat) : ∀ r d d' log,
  dnf_ok vnumber tv r d → complete vnumber tv r (Dnf.groups d) →
  Dnf.merge fuel d = Ok (d', log) →
  ∀ v, prime_implicant vnumber tv v → r ≤ none_count v →
       ∃ p, p ∈ Dnf.primes d' ∧ Implicant.vec p = v.
Proof.
  induction fuel as [|fuel IH]; intros r d d' log Hd Hcomplete Hrun v Hv Hr;
    [done|].
  rewrite merge_unfold in Hrun.
  apply result_bind_inv in Hrun as ([ch d1] & Hstep & Hrun).
  destruct (merge_step_ok vnumber tv r d Hd) as (ch' & d1' & Hstep' & Hd1 & _).
  rewrite Hstep in Hstep'. injection Hstep' as <- <-.
  destruct (merge_step_complete vnumber tv r d ch d1 Hd Hcomplete Hstep)
    as (Hc1 & _).
  destruct (merge_step_run d d1 ch Hstep) as (_ & _ & Hch).
  destruct (decide (none_count v = r)) as [Heq | Hne].
  - destruct (merge_step_collects r d ch d1 v Hd Hcomplete Hstep Hv Heq)
      as (p & Hp & Hvec).
    exists p. split; [|done]. destruct ch.
    + apply result_bind_inv in Hrun as ([d2 log2] & Hrec & Hrun).
      injection Hrun as <- <-.
      destruct (merge_run_end _ _ _ _ Hrec) as (_ & _ & _ & added & -> & _).
      apply elem_of_app. by left.
    + by injection Hrun as <- <-.
  - destruct ch.
    + apply result_bind_inv in Hrun as ([d2 log2] & Hrec & Hrun).
      injection Hrun as <- <-.
      apply (IH (S r) d1 d2 log2); try done. lia.
    + exfalso. destruct Hv as [Himpl _].
      destruct (implicant_with (S r) v Himpl) as (u & Hu & Hnu); [lia|].
      destruct (Hc1 u Hu Hnu) as (p & Hp & _).
      rewrite (proj1 Hch eq_refl) in Hp. by apply elem_of_nil in Hp.
Qed.

End all_primes.

(** X18. The merge rounds compute the prime implicants. Before the pruning
    pass, that is after [__init_groups] and [__merge] have run on a
    truth vector, the vectors of the primes are exactly the prime
    implicants of the vector: the conjunctions that are true only at
    indices at which the vector is 1 and from which no literal can be
    dropped. *)
Theorem merge_finds_prime_implicants (vnumber : nat) (tv : list Z)
    (fuel : nat) (gs : list (list Implicant.t)) (d : Dnf.t)
    (log : list bool) (v : list (option Z)) :
  truth_vector vnumber tv →
  Dnf.init_groups vnumber tv = Ok gs →
  Dnf.merge fuel (Dnf.mk gs []) = Ok (d, log) →
  (∃ p, p ∈ Dnf.primes d ∧ Implicant.vec p = v)
  ↔ prime_implicant vnumber tv v.
Proof.
  intros Htv Hinit Hmerge.
  destruct (init_groups_ok vnumber tv Htv) as (gs' & Hinit' & Hd0).
  rewrite Hinit in Hinit'. injection Hinit' as <-.
  pose proof (complete_start vnumber tv gs Hd0) as Hc0.
  split.
  - intros (p & Hp & <-).
    apply (merge_primes vnumber tv fuel 0 (Dnf.mk gs []) d log); try done.
    by intros q ?%elem_of_nil.
  - intros Hv.
    apply (merge_all_primes vnumber tv fuel 0 (Dnf.mk gs []) d log);
      try done. lia.
Qed.

Lemma merge_finds_prime_implicants_witness :
  prime_implicant 2 [0; 1; 1; 1]%Z [Some 1%Z; None].
Proof.
  assert (Htv : truth_vector 2 [0; 1; 1; 1]%Z) by solve_truth_vector.
  set (gs := [[];
              [Implicant.mk [Some 1; Some 0]%Z [1%Z] false;
               Implicant.mk [Some 0; Some 1]%Z [2%Z] false];
              [Implicant.mk [Some 1; Some 1]%Z [3%Z] false]]).
  set (d := Dnf.mk [[]; []; []]
              [Implicant.mk [Some 1; None]%Z [1; 3]%Z false;
               Implicant.mk [None; Some 1]%Z [2; 3]%Z false]).
  assert (Hinit : Dnf.init_groups 2 [0; 1; 1; 1]%Z = Ok gs)
    by (vm_compute; reflexivity).
  assert (Hmerge : Dnf.merge 3 (Dnf.mk gs []) = Ok (d, [true; false]))
    by (vm_compute; reflexivity).
  apply (merge_finds_prime_implicants 2 [0; 1; 1; 1]%Z 3 gs d [true; false]
           [Some 1%Z; None] Htv Hinit Hmerge).
  exists (Implicant.mk [Some 1; None]%Z [1; 3]%Z false).
  split; [left|reflexivity].
Defined.

(** ** Binary and hexadecimal literals *)

Section parser_prefixed.

Import Parser.

Lemma finish_digits text modulus modRed start base cond v :
  on_char cond → start ≤ String.length text →
  (∀ i, start ≤ i < String.length text →
        cond (set_idx i (init text modulus modRed)) = true) →
  int_ (rstrip (String.substring start (String.length text - start) text))
    base = Ok v →
  (scan cond ≫= λ _, finish_constant start base)
    (set_idx start (init text modulus modRed))
  = Ok (Some (Const 32 modRed v),
        set_idx (String.length text) (init text modulus modRed)).
Proof.
  intros Hcond Hstart Hall Hv. set (p0 := init text modulus modRed).
  assert (Hwf : good_state text 32 modRed (set_idx start p0))
    by (repeat split; simpl; lia).
  unfold scan. rewrite bindM_update.
  rewrite (while_to_end text 32 modRed _ _ _ Hcond get_false_step Hwf).
  2:{ intros i Hi. simpl in Hi. rewrite set_idx_set_idx. by apply Hall. }
  rewrite set_idx_set_idx.
  unfold finish_constant, skip_spaces. rewrite bindM_update.
  rewrite while_at_end by done. rewrite bindM_new_node.
  assert (Hz : int_ (rstrip (slice start (set_idx (String.length text) p0)))
                 base = Ok v) by exact Hv.
  by rewrite (bindM_ok _ _ _ _ _ (get_constant_run start base _ v Hz)).
Qed.

Lemma length_append (s t : string) :
  String.length (s +:+ t) = String.length s + String.length t.
Proof. induction s as [|c s IH]; simpl; [done|]. by rewrite IH. Qed.

Lemma digits_at text modulus modRed (f : ascii → bool) pre digits i :
  text = pre +:+ digits → all_chars f digits = true →
  String.length pre ≤ i < String.length text →
  ∃ c, peek (set_idx i (init text modulus modRed)) = Some c ∧ f c = true.
Proof.
  intros -> Hall Hi.
  assert (Hget : String.get i (pre +:+ digits)
                 = String.get (i - String.length pre) digits).
  { rewrite (String.append_correct2 pre digits (i - String.length pre)).
    f_equal. lia. }
  destruct (get_within digits (i - String.length pre)) as [c Hc].
  { rewrite length_append in Hi. lia. }
  exists c.
  split; [|by apply (all_chars_get f digits (i - String.length pre) c)].
  unfold peek. simpl. rewrite decide_False by lia. congruence.
Qed.

(** *** The digits that [bin] and [hex] print *)

Lemma binary_char c :
  is_binary_digit c = true →
  is_space c = false ∧
  ∃ d : N, digit_value c = Some (Z.of_N d) ∧ (Z.of_N d <? 2)%Z = true ∧
           BinaryString.ascii_to_digit c = Some d.
Proof.
  destruct c as [[] [] [] [] [] [] [] []]; vm_compute; intros; try done;
    (split; [done|]); [by exists 1%N|by exists 0%N].
Qed.

Lemma hex_char c :
  is_hex_digit c = true →
  is_space c = false ∧
  ∃ d : N, digit_value c = Some (Z.of_N d) ∧ (Z.of_N d <? 16)%Z = true ∧
           HexString.ascii_to_digit c = Some d.
Proof.
  destruct c as [[] [] [] [] [] [] [] []]; vm_compute; intros; try done;
    (split; [done|]); eexists; repeat split; reflexivity.
Qed.

Lemma binary_value (s : string) : ∀ acc : N,
  all_chars is_binary_digit s = true →
  int_loop 2 (Z.of_N acc) s
  = Some (Z.of_N (BinaryString.Raw.to_N s acc)).
Proof.
  induction s as [|c s IH]; intros acc Hall; simpl; [done|].
  simpl in Hall. apply andb_true_iff in Hall as [Hc Hs].
  destruct (binary_char c Hc) as (_ & d & -> & -> & ->).
  rewrite <- IH by done. f_equal. lia.
Qed.

Lemma hex_value (s : string) : ∀ acc : N,
  all_chars is_hex_digit s = true →
  int_loop 16 (Z.of_N acc) s
  = Some (Z.of_N (HexString.Raw.to_N s acc)).
Proof.
  induction s as [|c s IH]; intros acc Hall; simpl; [done|].
  simpl in Hall. apply andb_true_iff in Hall as [Hc Hs].
  destruct (hex_char c Hc) as (_ & d & -> & -> & ->).
  rewrite <- IH by done. f_equal. lia.
Qed.

Lemma binary_of_pos (p : positive) : ∀ rest,
  all_chars is_binary_digit rest = true →
  all_chars is_binary_digit (BinaryString.Raw.of_pos p rest) = true ∧
  BinaryString.Raw.of_pos p rest ≠ EmptyString.
Proof.
  induction p as [p IH|p IH|]; intros rest Hrest; simpl.
  - apply IH. simpl. by rewrite Hrest.
  - apply IH. simpl. by rewrite Hrest.
  - split; [by rewrite Hrest|done].
Qed.

Lemma hex_of_pos (n : nat) : ∀ (p : positive) rest,
  Pos.size_nat p ≤ n →
  all_chars is_hex_digit rest = true →
  all_chars is_hex_digit (HexString.Raw.of_pos p rest) = true ∧
  HexString.Raw.of_pos p rest ≠ EmptyString.
Proof.
  induction n as [|n IH]; intros p rest Hn Hrest.
  { destruct p; simpl in Hn; lia. }
  do 4 try destruct p as [p|p|]; simpl in Hn |- *;
    try (apply IH; [lia|simpl; by rewrite Hrest]);
    (split; [simpl; by rewrite Hrest|done]).
Qed.

(** *** The two rules *)

Lemma binary_terminal digits modulus modRed k v :
  digits ≠ EmptyString → all_chars is_binary_digit digits = true →
  int_ digits 2 = Ok v →
  let text := String "0" (String "b" digits) in
  parse_terminal (S k) (init text modulus modRed)
  = Ok (Some (Const 32 modRed v),
        set_idx (String.length text) (init text modulus modRed)).
Proof.
  intros Hne Hall Hv text. set (p0 := init text modulus modRed).
  assert (Hpeek : peek p0 = Some "0"%char) by done.
  assert (Hnext : peek_next p0 = Some "b"%char).
  { unfold peek_next. by rewrite decide_False by (simpl; lia). }
  assert (Hdigit : ∀ i, 2 ≤ i < String.length text →
            ∃ c, peek (set_idx i p0) = Some c ∧ is_binary_digit c = true).
  { intros i Hi. by apply (digits_at text _ _ _ "0b" digits). }
  simpl parse_terminal. rewrite bindM_read, Hpeek.
  rewrite decide_False by done.
  rewrite bindM_read. unfold has_variable, has_letter. rewrite Hpeek.
  change (code_between 97 122 (Some "0"%char)
          || code_between 65 90 (Some "0"%char)) with false. cbv iota.
  unfold parse_constant. rewrite bindM_read.
  unfold has_binary_constant. rewrite Hpeek, Hnext.
  rewrite !bool_decide_eq_true_2 by done. cbn [andb].
  unfold parse_binary_constant. rewrite !bindM_update.
  change (get false (get false p0)) with (set_idx 2 p0).
  rewrite bindM_read.
  destruct (Hdigit 2) as (c & Hc & Hbin).
  { destruct digits; [done|]. simpl. lia. }
  rewrite Hc. rewrite decide_False.
  2:{ intros [H0 H1]. unfold is_binary_digit in Hbin.
      apply orb_true_iff in Hbin as [?%bool_decide_eq_true
                                    | ?%bool_decide_eq_true]; done. }
  rewrite bindM_read. change (idx (set_idx 2 p0)) with 2.
  apply finish_digits.
  - apply on_char_binary.
  - simpl. lia.
  - intros i Hi. destruct (Hdigit i Hi) as (ci & Hpi & Hci).
    unfold p0 in Hpi. cbv beta. rewrite Hpi. exact Hci.
  - change (String.length text - 2) with (String.length digits - 0).
    simpl String.substring. rewrite Nat.sub_0_r, substring_whole.
    rewrite rstrip_id; [done|].
    eapply all_chars_impl; [|exact Hall].
    intros c' Hc'. by destruct (binary_char c' Hc') as [-> _].
Qed.

Lemma hex_terminal digits modulus modRed k v :
  digits ≠ EmptyString → all_chars is_hex_digit digits = true →
  int_ digits 16 = Ok v →
  let text := String "0" (String "x" digits) in
  parse_terminal (S k) (init text modulus modRed)
  = Ok (Some (Const 32 modRed v),
        set_idx (String.length text) (init text modulus modRed)).
Proof.
  intros Hne Hall Hv text. set (p0 := init text modulus modRed).
  assert (Hpeek : peek p0 = Some "0"%char) by done.
  assert (Hnext : peek_next p0 = Some "x"%char).
  { unfold peek_next. by rewrite decide_False by (simpl; lia). }
  assert (Hdigit : ∀ i, 2 ≤ i < String.length text →
            ∃ c, peek (set_idx i p0) = Some c ∧ is_hex_digit c = true).
  { intros i Hi. by apply (digits_at text _ _ _ "0x" digits). }
  simpl parse_terminal. rewrite bindM_read, Hpeek.
  rewrite decide_False by done.
  rewrite bindM_read. unfold has_variable, has_letter. rewrite Hpeek.
  change (code_between 97 122 (Some "0"%char)
          || code_between 65 90 (Some "0"%char)) with false. cbv iota.
  unfold parse_constant. rewrite bindM_read.
  unfold has_binary_constant. rewrite Hpeek, Hnext.
  rewrite (bool_decide_eq_false_2 (Some "x"%char = Some "b"%char)) by done.
  rewrite andb_false_r, bindM_read.
  unfold has_hex_constant. rewrite Hpeek, Hnext.
  rewrite !bool_decide_eq_true_2 by done. cbn [andb].
  unfold parse_hex_constant. rewrite !bindM_update.
  change (get false (get false p0)) with (set_idx 2 p0).
  rewrite bindM_read.
  destruct (Hdigit 2) as (c & Hc & Hhex).
  { destruct digits; [done|]. simpl. lia. }
  unfold has_hex_digit at 1, has_decimal_digit at 1. rewrite Hc.
  fold (is_hex_digit c). rewrite Hhex. cbn [negb].
  rewrite bindM_read. change (idx (set_idx 2 p0)) with 2.
  apply finish_digits.
  - apply on_char_hex.
  - simpl. lia.
  - intros i Hi. destruct (Hdigit i Hi) as (ci & Hpi & Hci).
    unfold p0 in Hpi. unfold has_hex_digit, has_decimal_digit.
    by rewrite Hpi.
  - change (String.length text - 2) with (String.length digits - 0).
    simpl String.substring. rewrite Nat.sub_0_r, substring_whole.
    rewrite rstrip_id; [done|].
    eapply all_chars_impl; [|exact Hall].
    intros c' Hc'. by destruct (hex_char c' Hc') as [-> _].
Qed.

Lemma prefixed_expression text modulus modRed n :
  (∀ k, parse_terminal (S k) (init text modulus modRed)
        = Ok (Some n, set_idx (String.length text)
                        (init text modulus modRed))) →
  peek (init text modulus modRed) = Some "0"%char →
  parse_expression (init text modulus modRed)
  = Ok (Some n, set_idx (String.length text) (init text modulus modRed)).
Proof.
  intros Hterm Hpeek.
  apply lone_terminal_expression; rewrite ?Hpeek; try done.
  replace (12 * String.length text + 4)
    with (S (12 * String.length text + 3)) by lia.
  apply Hterm.
Qed.

(** X19. Literals with a prefix. The texts that Python's [bin] and [hex]
    print for a natural number, as the library's [BinaryString.of_N]
    and [HexString.of_N] build them ([0b] and binary digits, [0x] and
    lower-case hexadecimal digits), are parsed as the CONSTANT of that
    number, whatever the bit count. *)
Theorem prefixed_literals (n : N) (bitCount : Z) (modRed : bool) :
  run (BinaryString.of_N n) bitCount modRed
  = Ok (Some (Const 32 modRed (Z.of_N n)), EmptyString)
  ∧ run (HexString.of_N n) bitCount modRed
    = Ok (Some (Const 32 modRed (Z.of_N n)), EmptyString).
Proof.
  split.
  - assert (Htext : ∃ digits,
              BinaryString.of_N n = String "0" (String "b" digits) ∧
              digits ≠ EmptyString ∧
              all_chars is_binary_digit digits = true ∧
              BinaryString.Raw.to_N digits 0 = n).
    { destruct n as [|p].
      - by exists (String "0" EmptyString).
      - exists (BinaryString.Raw.of_pos p EmptyString).
        destruct (binary_of_pos p EmptyString eq_refl) as [Hall Hne].
        split; [done|]. split; [done|]. split; [done|].
        apply BinaryString.Raw.to_N_of_pos. }
    destruct Htext as (digits & -> & Hne & Hall & Hval).
    unfold run. rewrite (prefixed_expression _ _ _ (Const 32 modRed (Z.of_N n)));
      [done| |done].
    intros k. apply binary_terminal; [done|done|].
    unfold int_. destruct digits as [|c ds] eqn:Hd; [done|].
    rewrite <- Hd in *. change 0%Z with (Z.of_N 0).
    by rewrite (binary_value digits 0 Hall), Hval.
  - assert (Htext : ∃ digits,
              HexString.of_N n = String "0" (String "x" digits) ∧
              digits ≠ EmptyString ∧
              all_chars is_hex_digit digits = true ∧
              HexString.Raw.to_N digits 0 = n).
    { destruct n as [|p].
      - by exists (String "0" EmptyString).
      - exists (HexString.Raw.of_pos p EmptyString).
        destruct (hex_of_pos (Pos.size_nat p) p EmptyString ltac:(lia) eq_refl)
          as [Hall Hne].
        split; [done|]. split; [done|]. split; [done|].
        apply HexString.Raw.to_N_of_pos. }
    destruct Htext as (digits & -> & Hne & Hall & Hval).
    unfold run. rewrite (prefixed_expression _ _ _ (Const 32 modRed (Z.of_N n)));
      [done| |done].
    intros k. apply hex_terminal; [done|done|].
    unfold int_. destruct digits as [|c ds] eqn:Hd; [done|].
    rewrite <- Hd in *. change 0%Z with (Z.of_N 0).
    by rewrite (hex_value digits 0 Hall), Hval.
Qed.

End parser_prefixed.

(** ** A text that does not start with a factor *)

Section parser_start.

Import Parser.

Lemma operator_chain_none ty cond sub p p' :
  sub p = Ok (None, p') → operator_chain ty cond sub p = Ok (None, p').
Proof.
  intros Hsub. unfold operator_chain. by rewrite (bindM_ok _ _ _ _ _ Hsub).
Qed.

Lemma power_none k p p' :
  parse_terminal k p = Ok (None, p') → parse_power (S k) p = Ok (None, p').
Proof.
  intros Hsub. rewrite parse_power_unfold.
  by rewrite (bindM_ok _ _ _ _ _ Hsub).
Qed.

Lemma sum_none k p p' :
  parse_product k p = Ok (None, p') → parse_sum (S k) p = Ok (None, p').
Proof. intros Hsub. simpl. by rewrite (bindM_ok _ _ _ _ _ Hsub). Qed.

Lemma shift_none k p p' :
  parse_sum k p = Ok (None, p') → parse_shift (S k) p = Ok (None, p').
Proof.
  intros Hsub. rewrite parse_shift_unfold.
  by rewrite (bindM_ok _ _ _ _ _ Hsub).
Qed.

Lemma lone_failure k p p' :
  parse_terminal k p = Ok (None, p') →
  peek p ≠ Some "~"%char → peek p ≠ Some "-"%char →
  parse_inclusive_disjunction (8 + k) p = Ok (None, p').
Proof.
  intros Hterm Hb Hn.
  change (8 + k) with (S (S (S (S (S (S (S (S k)))))))).
  rewrite incl_unfold. apply operator_chain_none.
  rewrite excl_unfold. apply operator_chain_none.
  rewrite conj_unfold. apply operator_chain_none.
  apply shift_none, sum_none.
  rewrite product_unfold. apply operator_chain_none.
  rewrite factor_plain.
  - by apply power_none.
  - unfold has_bitwise_negated_expression. by rewrite bool_decide_eq_false_2.
  - unfold has_negative_expression. by rewrite bool_decide_eq_false_2.
Qed.

Lemma no_factor_terminal k p :
  starts_factor (peek p) = false →
  parse_terminal (S k) p
  = Ok (None,
        set_error ("Expecting constant at " +:+ peek_str p
                   +:+ ", but no digit around.") p).
Proof.
  unfold starts_factor. intros Hstart.
  repeat (apply orb_false_iff in Hstart as [Hstart ?]).
  apply bool_decide_eq_false in Hstart.
  simpl parse_terminal. rewrite bindM_read.
  rewrite decide_False by done. rewrite bindM_read.
  unfold has_variable, has_letter.
  replace (code_between 97 122 (peek p) || code_between 65 90 (peek p))
    with false by (symmetry; by apply orb_false_iff).
  unfold parse_constant. rewrite bindM_read.
  assert (Hzero : bool_decide (peek p = Some "0"%char) = false).
  { apply bool_decide_eq_false. intros Hp.
    assert (code_between 48 57 (peek p) = true) by by rewrite Hp.
    congruence. }
  unfold has_binary_constant. rewrite Hzero. cbn [andb].
  rewrite bindM_read. unfold has_hex_constant. rewrite Hzero. cbn [andb].
  unfold parse_decimal_constant. rewrite bindM_read.
  unfold has_decimal_digit.
  replace (code_between 48 57 (peek p)) with false by done.
  cbn [negb]. apply fail_near_run.
Qed.

(** X20. Only the first space is skipped before the expression, and a text
    has to start with a factor: when the character at the start, after
    at most one leading space, is not an opening parenthesis, [~],
    [-], a digit or a letter (the text is empty or blank, starts with
    two spaces, with a binary operator, ...), [parse_expression]
    returns [None] and sets an error text. *)
Theorem no_factor_at_start (text : string) (modulus : Z) (modRed : bool) :
  let p0 := init text modulus modRed in
  let p1 := if has_space p0 then skip_space p0 else p0 in
  starts_factor (peek p1) = false →
  ∃ p', parse_expression p0 = Ok (None, p') ∧ error p' ≠ EmptyString.
Proof.
  intros p0 p1 Hstart.
  assert (Hexpr : expr p1 = text) by (unfold p1; by destruct (has_space p0)).
  assert (Hfirst : ∀ {B} (f : unit → M B),
            ((if has_space p0 then update skip_space else mret tt) ≫= f) p0
            = f tt p1).
  { intros B f. unfold p1. by destruct (has_space p0). }
  pose proof Hstart as Hs. unfold starts_factor in Hs.
  apply orb_false_iff in Hs as [Hs _]. apply orb_false_iff in Hs as [Hs _].
  apply orb_false_iff in Hs as [Hs _]. apply orb_false_iff in Hs as [Hs Hn].
  apply orb_false_iff in Hs as [_ Hb].
  apply bool_decide_eq_false in Hb, Hn.
  unfold parse_expression. rewrite bindM_read, Hfirst, bindM_read.
  replace (depth (expr p1)) with (8 + S (12 * String.length text + 3))
    by (rewrite Hexpr; unfold depth; lia).
  rewrite (bindM_ok _ _ _ _ _
             (lone_failure _ _ _ (no_factor_terminal _ p1 Hstart) Hb Hn)).
  rewrite bindM_update, !bindM_read.
  match goal with |- context [decide ?P] => destruct (decide P) end.
  - rewrite fail_near_run. eexists. split; [reflexivity|]. done.
  - eexists. split; [reflexivity|]. by rewrite error_while_skip.
Qed.

Lemma no_factor_at_start_witness :
  ∃ p', parse_expression (init "  a" (2 ^ 8) true) = Ok (None, p') ∧
        error p' ≠ EmptyString.
Proof. exact (no_factor_at_start "  a" (2 ^ 8) true eq_refl). Defined.

End parser_start.

(** ** The primes that are kept differ *)

(** X21. Every prime that the constructor leaves is needed where it
    stands: there is an index at which the truth vector is 1, at which
    its conjunction is true and at which the conjunction of every
    prime before it in the list is false. In particular, although the
    merge rounds can build the same vector several times, no two of
    the primes that are left have the same vector. *)
Theorem primes_needed (vnumber : nat) (tv : list Z) (fuel : nat) (d : Dnf.t)
    (i : nat) (p : Implicant.t) :
  truth_vector vnumber tv → vnumber + 1 ≤ fuel →
  Dnf.init fuel vnumber tv = Ok d →
  Dnf.primes d !! i = Some p →
  ∃ j, (0 ≤ j < 2 ^ Z.of_nat vnumber)%Z ∧ true_at tv j ∧
       Implicant.holds p j = true ∧
       ∀ i' p', i' < i → Dnf.primes d !! i' = Some p' →
         Implicant.holds p' j = false ∧ Implicant.vec p' ≠ Implicant.vec p.
Proof.
  intros Htv Hfuel Hrun Hi.
  destruct (init_groups_ok vnumber tv Htv) as (gs & Hinit & Hd0).
  destruct (merge_ok vnumber tv fuel 0 (Dnf.mk gs []) Hd0)
    as (d1 & k & Hmerge & _ & Hprimes & _); [lia|lia|].
  unfold Dnf.init in Hrun. rewrite (result_bind_ok _ _ _ Hinit) in Hrun.
  rewrite (result_bind_ok _ _ _ Hmerge) in Hrun. simpl in Hrun.
  rewrite drop_unrequired_run in Hrun. simpl in Hrun. injection Hrun as <-.
  simpl in Hi |- *.
  assert (Hok : ∀ i q, prune (Dnf.primes d1)
                         (list_to_set (Dnf.true_indices 0 tv)) !! i = Some q →
                       ∃ r, impl_ok vnumber tv r q).
  { intros i0 q Hq. apply Hprimes.
    eapply elem_of_sublist; [by eapply list_elem_of_lookup_2|].
    apply prune_sublist. }
  destruct (prune_needed _ _ _ _ Hi) as (j & Hjr & Hjp & Hearlier).
  apply required_spec in Hjr.
  assert (Hj : (0 ≤ j < 2 ^ Z.of_nat vnumber)%Z).
  { destruct Hjr as [H0 Hlook]. apply lookup_lt_Some in Hlook.
    destruct Htv as [Hlen _]. lia. }
  destruct (Hok i p Hi) as (r & Hp).
  exists j. split; [done|]. split; [done|].
  split; [by apply (ok_holds _ _ _ _ Hp j Hj)|].
  intros i' p' Hlt Hi'. destruct (Hok i' p' Hi') as (r' & Hp').
  assert (Hfalse : Implicant.holds p' j = false).
  { destruct (Implicant.holds p' j) eqn:Hh; [|done].
    apply (ok_holds _ _ _ _ Hp' j Hj) in Hh.
    by destruct (Hearlier i' p' Hlt Hi'). }
  split; [done|]. intros Hvec.
  assert (Implicant.holds p j = true) by by apply (ok_holds _ _ _ _ Hp j Hj).
  unfold Implicant.holds in *. congruence.
Qed.

Lemma primes_needed_witness :
  ∃ j, (0 ≤ j < 2 ^ Z.of_nat 2)%Z ∧ true_at [0; 1; 1; 1]%Z j ∧
       Implicant.holds (Implicant.mk [None; Some 1]%Z [2; 3]%Z false) j
       = true.
Proof.
  assert (Htv : truth_vector 2 [0; 1; 1; 1]%Z) by solve_truth_vector.
  destruct (primes_needed 2 [0; 1; 1; 1]%Z 3 _ 1
              (Implicant.mk [None; Some 1]%Z [2; 3]%Z false)
              Htv ltac:(lia) dnf_0111 eq_refl)
    as (j & Hj & Htrue & Hholds & _).
  by exists j.
Defined.

(** ** Chains of one operator *)

Section parser_chain.

Import Parser.

(** *** Texts *)

Lemma append_cons (c : ascii) (s t : string) :
  String c s +:+ t = String c (s +:+ t).
Proof. done. Qed.

Lemma append_nil_r (s : string) : s +:+ EmptyString = s.
Proof.
  induction s as [|c s IH]; [done|]. by rewrite append_cons, IH.
Qed.

Lemma append_assoc (s t u : string) : (s +:+ t) +:+ u = s +:+ (t +:+ u).
Proof.
  induction s as [|c s IH]; [done|]. by rewrite !append_cons, IH.
Qed.

Lemma get_append_r (pre s : string) (i : nat) :
  String.get (String.length pre + i) (pre +:+ s) = String.get i s.
Proof.
  rewrite (String.append_correct2 pre s i). f_equal. lia.
Qed.

Lemma substring_middle (pre x post : string) :
  String.substring (String.length pre) (String.length x) (pre +:+ x +:+ post)
  = x.
Proof.
  induction pre as [|c pre IH]; [|by rewrite append_cons].
  change (EmptyString +:+ x +:+ post) with (x +:+ post). simpl String.length.
  induction x as [|c x IH]; [by destruct post|].
  rewrite append_cons. simpl. by rewrite IH.
Qed.

Lemma rest_text_length c xs : length xs ≤ String.length (rest_text c xs).
Proof.
  induction xs as [|x xs IH]; simpl; [done|].
  rewrite length_append. lia.
Qed.

Lemma follows_rest c xs : Forall valid_name xs → follows c (rest_text c xs).
Proof.
  intros Hxs. destruct xs as [|x xs]; [by left|].
  apply Forall_cons in Hxs as [Hx _].
  destruct x as [|a r]; [done|]. destruct Hx as [Ha _].
  right. by exists a, (r +:+ rest_text c xs).
Qed.

(** *** From a rule to the rules above it *)

Lemma sum_through k p n p' :
  parse_product k p = Ok (Some n, p') →
  peek p' ≠ Some "+"%char → peek p' ≠ Some "-"%char →
  parse_sum (S k) p = Ok (Some n, p').
Proof.
  intros Hsub Hplus Hminus. simpl.
  rewrite (bindM_ok _ _ _ _ _ Hsub). cbv beta iota.
  rewrite bindM_read. by rewrite decide_True.
Qed.

Lemma factor_through k p n p' :
  parse_terminal k p = Ok (Some n, p') →
  peek p ≠ Some "~"%char → peek p ≠ Some "-"%char →
  has_power p' = false →
  parse_factor (2 + k) p = Ok (Some n, p').
Proof.
  intros Hterm Hb Hn Hpow. change (2 + k) with (S (S k)).
  rewrite factor_plain.
  - by apply power_single.
  - unfold has_bitwise_negated_expression. by rewrite bool_decide_eq_false_2.
  - unfold has_negative_expression. by rewrite bool_decide_eq_false_2.
Qed.

Lemma shift_through k p n p' :
  parse_factor k p = Ok (Some n, p') →
  has_multiplicator p' = false →
  peek p' ≠ Some "+"%char → peek p' ≠ Some "-"%char →
  has_lshift p' = false →
  parse_shift (3 + k) p = Ok (Some n, p').
Proof.
  intros Hfactor Hmul Hplus Hminus Hshift. change (3 + k) with (S (S (S k))).
  apply shift_single; [|done]. apply sum_through; [|done..].
  rewrite product_unfold. by apply operator_chain_single.
Qed.

Lemma conj_through k p n p' :
  parse_shift k p = Ok (Some n, p') → is_char "&" p' = false →
  parse_conjunction (S k) p = Ok (Some n, p').
Proof. intros. rewrite conj_unfold. by apply operator_chain_single. Qed.

Lemma excl_through k p n p' :
  parse_conjunction k p = Ok (Some n, p') → is_char "^" p' = false →
  parse_exclusive_disjunction (S k) p = Ok (Some n, p').
Proof. intros. rewrite excl_unfold. by apply operator_chain_single. Qed.

Lemma incl_through k p n p' :
  parse_exclusive_disjunction k p = Ok (Some n, p') →
  is_char "|" p' = false →
  parse_inclusive_disjunction (S k) p = Ok (Some n, p').
Proof. intros. rewrite incl_unfold. by apply operator_chain_single. Qed.

Lemma operator_char c ty :
  chain_operator c = Some ty →
  (c = "|"%char ∧ ty = Node.INCL_DISJUNCTION)
  ∨ (c = "^"%char ∧ ty = Node.EXCL_DISJUNCTION)
  ∨ (c = "&"%char ∧ ty = Node.CONJUNCTION)
  ∨ (c = "*"%char ∧ ty = Node.PRODUCT).
Proof.
  unfold chain_operator. repeat case_decide; intros [= <-]; auto.
Qed.

Lemma letter_no_operator a :
  is_letter a = true →
  a ≠ "*"%char ∧ a ≠ " "%char ∧ a ≠ "~"%char ∧ a ≠ "-"%char.
Proof.
  destruct a as [[] [] [] [] [] [] [] []]; vm_compute; intros;
    repeat split; congruence.
Qed.

(** *** States of the parser along a text *)

Section along.

Context (E : string) (modulus : Z) (modRed : bool).

#[local] Abbreviation at_ i := (set_idx i (init E modulus modRed)).

Lemma peek_at pre c post :
  E = pre +:+ String c post → peek (at_ (String.length pre)) = Some c.
Proof.
  intros HE. unfold peek. simpl. rewrite decide_False.
  - rewrite HE. rewrite <- (Nat.add_0_r (String.length pre)).
    by rewrite get_append_r.
  - rewrite HE, length_append. simpl. lia.
Qed.

Lemma peek_next_at pre c d post :
  E = pre +:+ String c (String d post) →
  peek_next (at_ (String.length pre)) = Some d.
Proof.
  intros HE. unfold peek_next. simpl. rewrite decide_False.
  - rewrite HE. by rewrite get_append_r.
  - rewrite HE, length_append. simpl. lia.
Qed.

Lemma peek_end : peek (at_ (String.length E)) = None.
Proof. unfold peek. by rewrite decide_True. Qed.

Lemma has_space_at pre c post :
  E = pre +:+ String c post → c ≠ " "%char →
  has_space (at_ (String.length pre)) = false.
Proof.
  intros HE Hc. unfold has_space. rewrite (peek_at pre c post HE).
  apply bool_decide_eq_false. congruence.
Qed.

(** After an operand: nothing, or the operator and a letter. *)
Lemma peek_after c post pre :
  follows c post → E = pre +:+ post →
  (peek (at_ (String.length pre)) = None ∧
   peek_next (at_ (String.length pre)) = None ∧ post = EmptyString)
  ∨ (peek (at_ (String.length pre)) = Some c ∧
     ∃ a, peek_next (at_ (String.length pre)) = Some a ∧ is_letter a = true).
Proof.
  intros [-> | (a & post' & -> & Ha)] HE.
  - left. rewrite append_nil_r in HE. subst pre.
    split; [apply peek_end|]. split; [|done].
    unfold peek_next. simpl. rewrite decide_True; [done|lia].
  - right. split; [by eapply peek_at|]. exists a.
    split; [by eapply peek_next_at|done].
Qed.

Lemma while_until cond body p j :
  on_char cond → (∀ q, body q = set_idx (idx q + 1) q) →
  good_state E 32 modRed p → idx p ≤ j →
  (∀ t, idx p ≤ t < j → cond (set_idx t p) = true) →
  cond (set_idx j p) = false →
  while_ cond body p = set_idx j p.
Proof.
  intros Hcond Hbody Hwf Hj Htrue Hfalse.
  destruct (while_spec E 32 modRed cond body p Hcond Hbody Hwf)
    as (k & -> & Hk & Hstop & Hpass).
  f_equal. destruct (decide (k < j)) as [Hlt|Hge].
  - rewrite Htrue in Hstop by lia. done.
  - destruct (decide (j < k)) as [Hlt|]; [|lia].
    rewrite Hpass in Hfalse by lia. done.
Qed.

Lemma name_cond_at t ct :
  peek (at_ t) = Some ct →
  (has_decimal_digit (at_ t) || has_letter (at_ t)
   || bool_decide (peek (at_ t) = Some "_"%char)) = is_name_char ct.
Proof.
  intros Hp. unfold has_decimal_digit, has_letter. rewrite Hp.
  destruct (is_name_char ct) eqn:Hn.
  - by apply name_char_cond.
  - destruct (_ || _ || bool_decide _) eqn:Hc; [|done].
    apply name_char_cond in Hc. congruence.
Qed.

(** A variable in the middle of the text. *)
Lemma variable_before pre x post k :
  E = pre +:+ x +:+ post → valid_name x → ends_name post →
  parse_terminal (S k) (at_ (String.length pre))
  = Ok (Some (Var 32 modRed x),
        at_ (String.length pre + String.length x)).
Proof.
  intros HE Hx Hpost.
  destruct x as [|a r]; [done|]. destruct Hx as [Ha Hr].
  set (x := String a r) in *.
  set (i := String.length pre). set (j := i + String.length x).
  assert (Hlen : String.length E
                 = i + String.length x + String.length post).
  { rewrite HE, !length_append. unfold i. lia. }
  assert (Hx1 : String.length x = S (String.length r)) by done.
  assert (Hpeek : peek (at_ i) = Some a)
    by exact (peek_at pre a (r +:+ post) HE).
  destruct (letter_char a Ha) as (Hopen & _).
  assert (Hchars : ∀ t, i < t < j →
            ∃ ct, peek (at_ t) = Some ct ∧ is_name_char ct = true).
  { intros t Ht.
    destruct (get_within r (t - i - 1)) as [ct Hct].
    { unfold j in Ht. lia. }
    exists ct. split; [|by apply (all_chars_get is_name_char r (t - i - 1))].
    unfold peek. simpl. rewrite decide_False by lia.
    rewrite HE. replace t with (String.length pre + (t - i)) by (unfold i; lia).
    rewrite get_append_r. rewrite <- String.append_correct1.
    - replace (t - i) with (S (t - i - 1)) by lia. done.
    - unfold j in Ht. lia. }
  assert (Hafter : peek (at_ j) = None
                   ∨ ∃ c, peek (at_ j) = Some c ∧ is_name_char c = false ∧
                          c ≠ "["%char ∧ c ≠ " "%char).
  { destruct post as [|c post'].
    - left. rewrite append_nil_r in HE.
      replace j with (String.length E); [apply peek_end|].
      unfold j, i. by rewrite HE, length_append.
    - right. exists c. split; [|done].
      pose proof (peek_at (pre +:+ x) c post') as Hp.
      rewrite length_append in Hp. apply Hp. by rewrite append_assoc. }
  assert (Hstop : (has_decimal_digit (at_ j) || has_letter (at_ j)
                   || bool_decide (peek (at_ j) = Some "_"%char)) = false).
  { destruct Hafter as [Hp | (c & Hp & Hc & _)].
    - unfold has_decimal_digit, has_letter. by rewrite Hp.
    - by rewrite (name_cond_at j c Hp). }
  simpl parse_terminal. rewrite bindM_read, Hpeek.
  rewrite decide_False by congruence.
  rewrite bindM_read. unfold has_variable, has_letter at 1. rewrite Hpeek.
  fold (is_letter a). rewrite Ha.
  unfold parse_variable. rewrite bindM_read, bindM_update.
  change (get false (at_ i)) with (at_ (i + 1)).
  unfold scan. rewrite bindM_update.
  rewrite (while_until _ _ (at_ (i + 1)) j on_char_name get_false_step).
  2:{ repeat split; simpl; lia. }
  2:{ simpl. unfold j. lia. }
  2:{ intros t Ht. simpl in Ht. rewrite set_idx_set_idx.
      destruct (Hchars t) as (ct & Hct & Hn); [lia|].
      by rewrite (name_cond_at t ct Hct). }
  2:{ by rewrite set_idx_set_idx. }
  rewrite set_idx_set_idx, bindM_read.
  rewrite decide_False
    by (destruct Hafter as [-> | (c & -> & _ & ? & _)]; congruence).
  unfold skip_spaces. rewrite bindM_update.
  rewrite while_stops.
  2:{ unfold has_space. apply bool_decide_eq_false.
      destruct Hafter as [-> | (c & -> & _ & _ & ?)]; congruence. }
  rewrite bindM_new_node, bindM_read.
  assert (Hname : rstrip (slice (idx (at_ i)) (at_ j)) = x).
  { unfold slice. simpl idx. simpl expr.
    replace (j - i) with (String.length x) by (unfold j; lia).
    rewrite HE. unfold i. rewrite substring_middle. apply rstrip_id.
    simpl. apply andb_true_iff. split.
    - assert (Hn : is_name_char a = true).
      { unfold is_name_char. by rewrite Ha, orb_true_r. }
      by destruct (name_char a Hn) as [-> _].
    - eapply all_chars_impl; [|exact Hr].
      intros c' Hc'. by destruct (name_char c' Hc') as [-> _]. }
  by rewrite Hname.
Qed.

Lemma variable_at pre x post c k :
  E = pre +:+ x +:+ post → valid_name x → follows c post →
  is_name_char c = false → c ≠ "["%char → c ≠ " "%char →
  parse_terminal (S k) (at_ (String.length pre))
  = Ok (Some (Var 32 modRed x),
        at_ (String.length pre + String.length x)).
Proof.
  intros HE Hx Hpost Hc Hbracket Hspace. apply (variable_before _ _ post);
    [done|done|].
  by destruct Hpost as [-> | (a & post' & -> & _)].
Qed.

(** *** The operands of a chain and its loop *)

Lemma chain_operand_at c ty pre x post k :
  chain_operator c = Some ty →
  E = pre +:+ x +:+ post → valid_name x → follows c post →
  chain_operand c (S k) (at_ (String.length pre))
  = Ok (Some (Var 32 modRed x), at_ (String.length pre + String.length x)).
Proof.
  intros Hc HE Hx Hpost.
  set (p := at_ (String.length pre)).
  set (p' := at_ (String.length pre + String.length x)).
  assert (Hstops : is_name_char c = false ∧ c ≠ "["%char ∧ c ≠ " "%char).
  { destruct (operator_char c ty Hc) as [[-> _] | [[-> _] | [[-> _] | [-> _]]]];
      done. }
  destruct Hstops as (Hname & Hbracket & Hspace).
  pose proof (variable_at pre x post c k HE Hx Hpost Hname Hbracket Hspace)
    as Hterm.
  fold p p' in Hterm.
  assert (Hfirst : ∃ a, peek p = Some a ∧ is_letter a = true).
  { destruct x as [|a r]; [done|]. exists a. split; [|apply Hx].
    exact (peek_at pre a (r +:+ post) HE). }
  destruct Hfirst as (a & Hpa & Ha).
  destruct (letter_no_operator a Ha) as (_ & _ & Htilde & Hminus).
  assert (Hafter :
    (peek p' = None ∧ peek_next p' = None)
    ∨ (peek p' = Some c ∧
       ∃ b, peek_next p' = Some b ∧ b ≠ "*"%char)).
  { destruct (peek_after c post (pre +:+ x) Hpost)
      as [(Hp & Hn & _) | (Hp & b & Hn & Hb)].
    - by rewrite append_assoc.
    - left. by rewrite length_append in Hp, Hn.
    - right. rewrite length_append in Hp, Hn. split; [done|].
      exists b. split; [done|]. by destruct (letter_no_operator b Hb). }
  assert (Hpow : has_power p' = false).
  { unfold has_power.
    destruct Hafter as [[-> _] | [_ (b & -> & Hb)]]; [done|].
    rewrite (bool_decide_eq_false_2 (Some b = Some "*"%char)) by congruence.
    apply andb_false_r. }
  assert (Hfactor : parse_factor (2 + S k) p
                    = Ok (Some (Var 32 modRed x), p')).
  { apply factor_through; rewrite ?Hpa; congruence. }
  destruct (operator_char c ty Hc)
    as [[-> _] | [[-> _] | [[-> _] | [-> _]]]];
    [change (parse_exclusive_disjunction (7 + S k) p
             = Ok (Some (Var 32 modRed x), p'))
    |change (parse_conjunction (6 + S k) p
             = Ok (Some (Var 32 modRed x), p'))
    |change (parse_shift (5 + S k) p = Ok (Some (Var 32 modRed x), p'))
    |change (parse_factor (2 + S k) p = Ok (Some (Var 32 modRed x), p'))].
  - assert (Hpk : peek p' = None ∨ peek p' = Some "|"%char)
      by (destruct Hafter as [[? _] | [? _]]; auto).
    apply (excl_through (6 + S k));
      [apply (conj_through (5 + S k));
       [apply (shift_through (2 + S k)); [exact Hfactor|..]|]|];
      unfold is_char, has_multiplicator, has_lshift;
      destruct Hpk as [Hq | Hq]; rewrite Hq; done.
  - assert (Hpk : peek p' = None ∨ peek p' = Some "^"%char)
      by (destruct Hafter as [[? _] | [? _]]; auto).
    apply (conj_through (5 + S k));
      [apply (shift_through (2 + S k)); [exact Hfactor|..]|];
      unfold is_char, has_multiplicator, has_lshift;
      destruct Hpk as [Hq | Hq]; rewrite Hq; done.
  - assert (Hpk : peek p' = None ∨ peek p' = Some "&"%char)
      by (destruct Hafter as [[? _] | [? _]]; auto).
    apply (shift_through (2 + S k)); [exact Hfactor|..];
      unfold is_char, has_multiplicator, has_lshift;
      destruct Hpk as [Hq | Hq]; rewrite Hq; done.
  - exact Hfactor.
Qed.

Lemma chain_cond_at c ty pre a post :
  chain_operator c = Some ty →
  E = pre +:+ String c (String a post) → is_letter a = true →
  chain_cond c (at_ (String.length pre)) = true.
Proof.
  intros Hc HE Ha. unfold chain_cond.
  pose proof (peek_at pre c _ HE) as Hp.
  pose proof (peek_next_at pre c a post HE) as Hn.
  destruct (letter_no_operator a Ha) as (Hstar & _).
  destruct (operator_char c ty Hc)
    as [[-> _] | [[-> _] | [[-> _] | [-> _]]]];
    [change (is_char "|" (at_ (String.length pre)) = true)
    |change (is_char "^" (at_ (String.length pre)) = true)
    |change (is_char "&" (at_ (String.length pre)) = true)
    |change (has_multiplicator (at_ (String.length pre)) = true)];
    unfold is_char, has_multiplicator; rewrite Hp; try done.
  rewrite Hn. rewrite (bool_decide_eq_false_2 (Some a = Some "*"%char))
    by congruence. done.
Qed.

Lemma chain_cond_end c ty :
  chain_operator c = Some ty →
  chain_cond c (at_ (String.length E)) = false.
Proof.
  intros Hc. unfold chain_cond.
  destruct (operator_char c ty Hc)
    as [[-> _] | [[-> _] | [[-> _] | [-> _]]]];
    [change (is_char "|" (at_ (String.length E)) = false)
    |change (is_char "^" (at_ (String.length E)) = false)
    |change (is_char "&" (at_ (String.length E)) = false)
    |change (has_multiplicator (at_ (String.length E)) = false)];
    unfold is_char, has_multiplicator; by rewrite peek_end.
Qed.

Lemma chain_loop c ty k (xs : list string) : ∀ (n : nat) node pre,
  chain_operator c = Some ty →
  E = pre +:+ rest_text c xs → Forall valid_name xs → length xs ≤ n →
  operator_loop n (chain_cond c) (chain_operand c (S k)) node
    (at_ (String.length pre))
  = Ok (Some (Node.set_children
                (Node.children node ++ map (Var 32 modRed) xs) node),
        at_ (String.length E)).
Proof.
  induction xs as [|x xs IH]; intros n node pre Hc HE Hxs Hn.
  - simpl in HE. rewrite append_nil_r in HE. subst pre.
    assert (Hstop : chain_cond c (at_ (String.length E)) = false)
      by by eapply chain_cond_end.
    destruct n; simpl; rewrite bindM_read, Hstop;
      by rewrite app_nil_r, set_children_id.
  - apply Forall_cons in Hxs as [Hx Hxs].
    destruct n as [|n]; [simpl in Hn; lia|].
    destruct x as [|a r] eqn:Hxa; [done|]. rewrite <- Hxa in *.
    assert (HE1 : E = pre +:+ String c (String a (r +:+ rest_text c xs))).
    { rewrite HE. simpl. by rewrite Hxa. }
    assert (Ha : is_letter a = true) by (rewrite Hxa in Hx; apply Hx).
    pose proof (chain_cond_at c ty pre a _ Hc HE1 Ha) as Hcond.
    assert (HE2 : E = (pre +:+ String c EmptyString) +:+ x
                      +:+ rest_text c xs).
    { rewrite HE. simpl. by rewrite append_assoc. }
    assert (Hlen2 : String.length (pre +:+ String c EmptyString)
                    = String.length pre + 1)
      by by rewrite length_append.
    assert (Hget : get true (at_ (String.length pre))
                   = at_ (String.length pre + 1)).
    { unfold get. apply while_stops. simpl idx.
      rewrite <- Hlen2.
      apply (has_space_at _ a (r +:+ rest_text c xs)).
      - rewrite HE2, Hxa. done.
      - by destruct (letter_no_operator a Ha) as (_ & ? & _). }
    pose proof (chain_operand_at c ty _ x _ k Hc HE2 Hx
                  (follows_rest c xs Hxs)) as Hsub.
    rewrite Hlen2 in Hsub.
    simpl operator_loop. rewrite bindM_read, Hcond, bindM_update, Hget.
    rewrite (bindM_ok _ _ _ _ _ Hsub). cbv beta iota.
    assert (HE3 : E = ((pre +:+ String c EmptyString) +:+ x)
                      +:+ rest_text c xs) by by rewrite append_assoc.
    pose proof (IH n (Node.append_child (Var 32 modRed x) node)
                  ((pre +:+ String c EmptyString) +:+ x) Hc HE3 Hxs
                  ltac:(simpl in Hn; lia)) as Hloop.
    rewrite !length_append in Hloop.
    change (String.length (String c EmptyString)) with 1 in Hloop.
    rewrite Hloop. simpl. by rewrite <- (assoc_L (++)).
Qed.

Lemma chain_rule c ty x0 x1 xs k :
  chain_operator c = Some ty →
  E = x0 +:+ rest_text c (x1 :: xs) →
  Forall valid_name (x0 :: x1 :: xs) →
  operator_chain ty (chain_cond c) (chain_operand c (S k)) (at_ 0)
  = Ok (Some (Op ty 32 modRed (map (Var 32 modRed) (x0 :: x1 :: xs))),
        at_ (String.length E)).
Proof.
  intros Hc HE Hxs. apply Forall_cons in Hxs as [Hx0 Hxs].
  pose proof Hxs as [Hx1 _]%Forall_cons.
  pose proof (chain_operand_at c ty EmptyString x0 _ k Hc HE Hx0
                (follows_rest c (x1 :: xs) Hxs)) as Hsub.
  change (String.length EmptyString) with 0 in Hsub.
  rewrite Nat.add_0_l in Hsub.
  destruct x1 as [|a r] eqn:Hx1a; [done|]. rewrite <- Hx1a in *.
  assert (Hcond : chain_cond c (at_ (String.length x0)) = true).
  { apply (chain_cond_at c ty x0 a (r +:+ rest_text c xs) Hc).
    - rewrite HE. simpl. by rewrite Hx1a.
    - rewrite Hx1a in Hx1. apply Hx1. }
  unfold operator_chain. rewrite (bindM_ok _ _ _ _ _ Hsub). cbv beta iota.
  rewrite bindM_read, Hcond. cbn [negb]. rewrite bindM_new_node. cbv zeta.
  rewrite bindM_read.
  rewrite (chain_loop c ty k (x1 :: xs) _ _ x0 Hc HE Hxs); [done|].
  simpl expr. simpl idx. rewrite HE at 1. rewrite length_append.
  pose proof (rest_text_length c (x1 :: xs)). lia.
Qed.

Lemma chain_to_expression c ty k n :
  chain_operator c = Some ty →
  operator_chain ty (chain_cond c) (chain_operand c (S k)) (at_ 0)
  = Ok (Some n, at_ (String.length E)) →
  parse_inclusive_disjunction (9 + k) (at_ 0)
  = Ok (Some n, at_ (String.length E)).
Proof.
  intros Hc Hrun.
  assert (Hchar : ∀ d, is_char d (at_ (String.length E)) = false).
  { intros d. unfold is_char. by rewrite peek_end. }
  destruct (operator_char c ty Hc)
    as [[-> ->] | [[-> ->] | [[-> ->] | [-> ->]]]].
  - exact Hrun.
  - apply (incl_through (8 + k)); [|done]. exact Hrun.
  - apply (incl_through (8 + k)); [|done].
    apply (excl_through (7 + k)); [|done]. exact Hrun.
  - apply (incl_through (8 + k)); [|done].
    apply (excl_through (7 + k)); [|done].
    apply (conj_through (6 + k)); [|done].
    apply (shift_single (5 + k)); [|unfold has_lshift; by rewrite peek_end].
    apply (sum_through (4 + k)); [|by rewrite peek_end..].
    exact Hrun.
Qed.

Lemma whole_expression n :
  peek (at_ 0) ≠ Some " "%char →
  parse_inclusive_disjunction (depth E) (at_ 0)
  = Ok (Some n, at_ (String.length E)) →
  parse_expression (at_ 0) = Ok (Some n, at_ (String.length E)).
Proof.
  intros Hs Hrun. unfold parse_expression. rewrite bindM_read.
  assert (Hspace : has_space (at_ 0) = false).
  { unfold has_space. by rewrite bool_decide_eq_false_2. }
  rewrite Hspace, bindM_ret, bindM_read.
  change (depth (expr (at_ 0))) with (depth E).
  rewrite (bindM_ok _ _ _ _ _ Hrun).
  rewrite bindM_update, while_at_end by done.
  rewrite !bindM_read. by rewrite decide_False by (intros H; by apply H).
Qed.

(** *** Sums *)

Lemma sum_loop_unfold n sub node :
  sum_loop (S n) sub node =
  (c ← read peek;
   if decide (c = Some "+"%char ∨ c = Some "-"%char) then
     let negative := bool_decide (c = Some "-"%char) in
     update (get true);;
     child ← sub;
     match child with
     | None => mret None
     | Some child =>
         if negative then
           child' ← multiply_by_minus_one child;
           sum_loop n sub (Node.append_child child' node)
         else sum_loop n sub (Node.append_child child node)
     end
   else mret (Some node)).
Proof. done. Qed.

Lemma parse_sum_unfold fuel :
  parse_sum (S fuel) =
  (child ← parse_product fuel;
   match child with
   | None => mret None
   | Some child =>
       c ← read peek;
       if decide (c ≠ Some "+"%char ∧ c ≠ Some "-"%char)
       then mret (Some child)
       else
         node ← new_node Node.SUM;
         let node := Node.append_child child node in
         n ← read (λ p, String.length (expr p) - idx p);
         sum_loop n (parse_product fuel) node
   end).
Proof. done. Qed.

Lemma sum_operand_at pre x post k :
  E = pre +:+ x +:+ post → valid_name x → follows "+" post →
  parse_product (3 + S k) (at_ (String.length pre))
  = Ok (Some (Var 32 modRed x), at_ (String.length pre + String.length x)).
Proof.
  intros HE Hx Hpost.
  set (p := at_ (String.length pre)).
  set (p' := at_ (String.length pre + String.length x)).
  pose proof (variable_at pre x post "+" k HE Hx Hpost eq_refl
                ltac:(done) ltac:(done)) as Hterm.
  fold p p' in Hterm.
  assert (Hfirst : ∃ a, peek p = Some a ∧ is_letter a = true).
  { destruct x as [|a r]; [done|]. exists a. split; [|apply Hx].
    exact (peek_at pre a (r +:+ post) HE). }
  destruct Hfirst as (a & Hpa & Ha).
  destruct (letter_no_operator a Ha) as (_ & _ & Htilde & Hminus).
  assert (Hpk : peek p' = None ∨ peek p' = Some "+"%char).
  { destruct (peek_after "+" post (pre +:+ x) Hpost)
      as [(Hp & _) | (Hp & _)].
    - by rewrite append_assoc.
    - left. by rewrite length_append in Hp.
    - right. by rewrite length_append in Hp. }
  change (3 + S k) with (S (2 + S k)). rewrite product_unfold.
  apply operator_chain_single.
  - apply factor_through; rewrite ?Hpa; try congruence.
    unfold has_power. destruct Hpk as [-> | ->]; done.
  - unfold has_multiplicator. destruct Hpk as [-> | ->]; done.
Qed.

Lemma sum_loop_at k (xs : list string) : ∀ (n : nat) node pre,
  E = pre +:+ rest_text "+" xs → Forall valid_name xs → length xs ≤ n →
  sum_loop n (parse_product (3 + S k)) node (at_ (String.length pre))
  = Ok (Some (Node.set_children
                (Node.children node ++ map (Var 32 modRed) xs) node),
        at_ (String.length E)).
Proof.
  induction xs as [|x xs IH]; intros n node pre HE Hxs Hn.
  - simpl in HE. rewrite append_nil_r in HE. subst pre.
    destruct n; simpl; rewrite bindM_read, peek_end;
      (rewrite decide_False by (intros [? | ?]; done));
      by rewrite app_nil_r, set_children_id.
  - apply Forall_cons in Hxs as [Hx Hxs].
    destruct n as [|n]; [simpl in Hn; lia|].
    destruct x as [|a r] eqn:Hxa; [done|]. rewrite <- Hxa in *.
    assert (HE1 : E = pre +:+ String "+" (String a (r +:+ rest_text "+" xs))).
    { rewrite HE. simpl. by rewrite Hxa. }
    assert (Ha : is_letter a = true) by (rewrite Hxa in Hx; apply Hx).
    pose proof (peek_at pre "+" _ HE1) as Hpeek.
    assert (HE2 : E = (pre +:+ String "+" EmptyString) +:+ x
                      +:+ rest_text "+" xs).
    { rewrite HE. simpl. by rewrite append_assoc. }
    assert (Hlen2 : String.length (pre +:+ String "+" EmptyString)
                    = String.length pre + 1)
      by by rewrite length_append.
    assert (Hget : get true (at_ (String.length pre))
                   = at_ (String.length pre + 1)).
    { unfold get. apply while_stops. simpl idx.
      rewrite <- Hlen2.
      apply (has_space_at _ a (r +:+ rest_text "+" xs)).
      - rewrite HE2, Hxa. done.
      - by destruct (letter_no_operator a Ha) as (_ & ? & _). }
    pose proof (sum_operand_at _ x _ k HE2 Hx (follows_rest "+" xs Hxs))
      as Hsub.
    rewrite Hlen2 in Hsub.
    rewrite sum_loop_unfold, bindM_read, Hpeek.
    rewrite decide_True by by left. cbv zeta.
    rewrite bindM_update, Hget.
    rewrite (bindM_ok _ _ _ _ _ Hsub). cbv beta iota.
    rewrite (bool_decide_eq_false_2 (Some "+"%char = Some "-"%char)) by done.
    assert (HE3 : E = ((pre +:+ String "+" EmptyString) +:+ x)
                      +:+ rest_text "+" xs) by by rewrite append_assoc.
    pose proof (IH n (Node.append_child (Var 32 modRed x) node)
                  ((pre +:+ String "+" EmptyString) +:+ x) HE3 Hxs
                  ltac:(simpl in Hn; lia)) as Hloop.
    rewrite !length_append in Hloop.
    change (String.length (String "+" EmptyString)) with 1 in Hloop.
    rewrite Hloop. simpl. by rewrite <- (assoc_L (++)).
Qed.

Lemma sum_rule x0 x1 xs k :
  E = x0 +:+ rest_text "+" (x1 :: xs) →
  Forall valid_name (x0 :: x1 :: xs) →
  parse_inclusive_disjunction (9 + k) (at_ 0)
  = Ok (Some (Op Node.SUM 32 modRed (map (Var 32 modRed) (x0 :: x1 :: xs))),
        at_ (String.length E)).
Proof.
  intros HE Hxs. apply Forall_cons in Hxs as [Hx0 Hxs].
  pose proof Hxs as [Hx1 _]%Forall_cons.
  pose proof (sum_operand_at EmptyString x0 _ k HE Hx0
                (follows_rest "+" (x1 :: xs) Hxs)) as Hsub.
  change (String.length EmptyString) with 0 in Hsub.
  rewrite Nat.add_0_l in Hsub.
  destruct x1 as [|a r] eqn:Hx1a; [done|]. rewrite <- Hx1a in *.
  assert (Hpeek : peek (at_ (String.length x0)) = Some "+"%char).
  { apply (peek_at x0 "+" (x1 +:+ rest_text "+" xs)). by rewrite HE. }
  assert (Hchar : ∀ d, is_char d (at_ (String.length E)) = false).
  { intros d. unfold is_char. by rewrite peek_end. }
  apply (incl_through (8 + k)); [|done].
  apply (excl_through (7 + k)); [|done].
  apply (conj_through (6 + k)); [|done].
  apply (shift_single (5 + k)); [|unfold has_lshift; by rewrite peek_end].
  change (5 + k) with (S (3 + S k)). rewrite parse_sum_unfold.
  rewrite (bindM_ok _ _ _ _ _ Hsub). cbv beta iota.
  rewrite bindM_read, Hpeek. rewrite decide_False by (intros [? _]; done).
  rewrite bindM_new_node. cbv zeta. rewrite bindM_read.
  rewrite (sum_loop_at k (x1 :: xs) _ _ x0 HE Hxs); [done|].
  simpl expr. simpl idx. rewrite HE at 1. rewrite length_append.
  pose proof (rest_text_length "+" (x1 :: xs)). lia.
Qed.

End along.

(** X22. Chains are flat. A text [x0 c x1 c ... c xn] of two or more
    variable names joined by one of the operators [|], [^], [&] and
    [*], without spaces, is parsed as one node of the kind of the
    operator whose children are the variables, in the order of the
    text: the operands are not nested in pairs. *)
Theorem chains_are_flat (c : ascii) (ty : Node.NodeType)
    (x0 x1 : string) (xs : list string) (bitCount : Z) (modRed : bool) :
  chain_operator c = Some ty →
  Forall valid_name (x0 :: x1 :: xs) →
  run (x0 +:+ rest_text c (x1 :: xs)) bitCount modRed
  = Ok (Some (Op ty 32 modRed (map (Var 32 modRed) (x0 :: x1 :: xs))),
        EmptyString).
Proof.
  intros Hc Hxs. set (E := x0 +:+ rest_text c (x1 :: xs)).
  pose proof (chain_rule E (2 ^ bitCount) modRed c ty x0 x1 xs
                (12 * String.length E + 3) Hc eq_refl Hxs) as Hchain.
  apply (chain_to_expression E (2 ^ bitCount) modRed c ty) in Hchain;
    [|done].
  replace (9 + (12 * String.length E + 3)) with (depth E) in Hchain
    by (unfold depth; lia).
  apply whole_expression in Hchain.
  - unfold run.
    change (init E (2 ^ bitCount) modRed)
      with (set_idx 0 (init E (2 ^ bitCount) modRed)).
    by rewrite (result_bind_ok _ _ _ Hchain).
  - apply Forall_cons in Hxs as [Hx0 _].
    destruct x0 as [|a r]; [done|]. destruct Hx0 as [Ha _].
    destruct (letter_no_operator a Ha) as (_ & Hsp & _).
    change (peek (set_idx 0 (init E (2 ^ bitCount) modRed))) with (Some a).
    congruence.
Qed.

Lemma chains_are_flat_witness :
  run "a|b|c" 8 true
  = Ok (Some (Op Node.INCL_DISJUNCTION 32 true
                [Var 32 true "a"; Var 32 true "b"; Var 32 true "c"]),
        EmptyString).
Proof.
  apply (chains_are_flat "|" Node.INCL_DISJUNCTION "a" "b" ["c"] 8 true
           eq_refl).
  repeat constructor.
Defined.

(** X23. Sums are flat. A text [x0+x1+...+xn] of two or more variable
    names joined by [+], without spaces, is parsed as one SUM node
    whose children are the variables in the order of the text. *)
Theorem sums_are_flat (x0 x1 : string) (xs : list string) (bitCount : Z)
    (modRed : bool) :
  Forall valid_name (x0 :: x1 :: xs) →
  run (x0 +:+ rest_text "+" (x1 :: xs)) bitCount modRed
  = Ok (Some (Op Node.SUM 32 modRed (map (Var 32 modRed) (x0 :: x1 :: xs))),
        EmptyString).
Proof.
  intros Hxs. set (E := x0 +:+ rest_text "+" (x1 :: xs)).
  pose proof (sum_rule E (2 ^ bitCount) modRed x0 x1 xs
                (12 * String.length E + 3) eq_refl Hxs) as Hsum.
  replace (9 + (12 * String.length E + 3)) with (depth E) in Hsum
    by (unfold depth; lia).
  apply whole_expression in Hsum.
  - unfold run.
    change (init E (2 ^ bitCount) modRed)
      with (set_idx 0 (init E (2 ^ bitCount) modRed)).
    by rewrite (result_bind_ok _ _ _ Hsum).
  - apply Forall_cons in Hxs as [Hx0 _].
    destruct x0 as [|a r]; [done|]. destruct Hx0 as [Ha _].
    destruct (letter_no_operator a Ha) as (_ & Hsp & _).
    change (peek (set_idx 0 (init E (2 ^ bitCount) modRed))) with (Some a).
    congruence.
Qed.

Lemma sums_are_flat_witness :
  run "a+b+c" 8 true
  = Ok (Some (Op Node.SUM 32 true
                [Var 32 true "a"; Var 32 true "b"; Var 32 true "c"]),
        EmptyString).
Proof.
  apply (sums_are_flat "a" "b" ["c"] 8 true). repeat constructor.
Defined.

End parser_chain.
(** ** Shift, power and minus between operands *)

Section parser_operators.

Import Parser.

(** *** The two rules, by what their operands return *)

Lemma shift_nested fuel p base p1 op p2 :
  parse_sum fuel p = Ok (Some base, p1) →
  has_lshift p1 = true →
  parse_sum fuel (get true (get true p1)) = Ok (Some op, p2) →
  has_lshift p2 = true →
  parse_shift (S fuel) p
  = Ok (None,
        set_error ("Disallowed nested lshift operator near "
                   ++ peek_str p2 ++ EmptyString) p2).
Proof.
  intros Hbase Hs1 Hop Hs2. rewrite parse_shift_unfold.
  rewrite (bindM_ok _ _ _ _ _ Hbase). cbv beta iota.
  rewrite bindM_read, Hs1. change (negb true) with false. cbv beta iota.
  rewrite bindM_new_node. cbv beta zeta.
  rewrite !bindM_update, (bindM_ok _ _ _ _ _ Hop). cbv beta iota.
  rewrite !bindM_new_node. cbv beta zeta. rewrite bindM_read, Hs2.
  apply fail_near_run.
Qed.

Lemma power_nested fuel p base p1 exp p2 :
  parse_terminal fuel p = Ok (Some base, p1) →
  has_power p1 = true →
  parse_terminal fuel (get true (get true p1)) = Ok (Some exp, p2) →
  has_power p2 = true →
  parse_power (S fuel) p
  = Ok (None,
        set_error ("Disallowed nested power operator near "
                   ++ peek_str p2 ++ EmptyString) p2).
Proof.
  intros Hbase Hw1 Hexp Hw2. rewrite parse_power_unfold.
  rewrite (bindM_ok _ _ _ _ _ Hbase). cbv beta iota.
  rewrite bindM_read, Hw1. change (negb true) with false. cbv beta iota.
  rewrite bindM_new_node. cbv beta zeta.
  rewrite !bindM_update, (bindM_ok _ _ _ _ _ Hexp). cbv beta iota zeta.
  rewrite bindM_read, Hw2.
  apply fail_near_run.
Qed.

Lemma shift_desugars fuel p base p1 op p2 :
  parse_sum fuel p = Ok (Some base, p1) →
  has_lshift p1 = true →
  parse_sum fuel (get true (get true p1)) = Ok (Some op, p2) →
  has_lshift p2 = false →
  parse_shift (S fuel) p
  = Ok (Some (Op Node.PRODUCT (modulus p1) (modRed p1)
                [base;
                 Op Node.POWER (modulus p2) (modRed p2)
                   [Const (modulus p2) (modRed p2) 2; op]]), p2).
Proof.
  intros Hbase Hs1 Hop Hs2. rewrite parse_shift_unfold.
  rewrite (bindM_ok _ _ _ _ _ Hbase). cbv beta iota.
  rewrite bindM_read, Hs1. change (negb true) with false. cbv beta iota.
  rewrite bindM_new_node. cbv beta zeta.
  rewrite !bindM_update, (bindM_ok _ _ _ _ _ Hop). cbv beta iota.
  rewrite !bindM_new_node. cbv beta zeta. by rewrite bindM_read, Hs2.
Qed.

Lemma power_builds fuel p base p1 exp p2 :
  parse_terminal fuel p = Ok (Some base, p1) →
  has_power p1 = true →
  parse_terminal fuel (get true (get true p1)) = Ok (Some exp, p2) →
  has_power p2 = false →
  parse_power (S fuel) p
  = Ok (Some (Op Node.POWER (modulus p1) (modRed p1) [base; exp]), p2).
Proof.
  intros Hbase Hw1 Hexp Hw2. rewrite parse_power_unfold.
  rewrite (bindM_ok _ _ _ _ _ Hbase). cbv beta iota.
  rewrite bindM_read, Hw1. change (negb true) with false. cbv beta iota.
  rewrite bindM_new_node. cbv beta zeta.
  rewrite !bindM_update, (bindM_ok _ _ _ _ _ Hexp). cbv beta iota zeta.
  by rewrite bindM_read, Hw2.
Qed.

(** *** From a rule to the whole expression *)

Lemma shift_to_expression k p n p' :
  parse_shift k p = Ok (Some n, p') → peek p' = None →
  parse_inclusive_disjunction (3 + k) p = Ok (Some n, p').
Proof.
  intros Hshift Hend.
  assert (Hchar : ∀ c, is_char c p' = false).
  { intros c. unfold is_char. by rewrite Hend. }
  apply (incl_through (2 + k)); [|done].
  apply (excl_through (1 + k)); [|done].
  by apply (conj_through k).
Qed.

Lemma factor_to_expression k p n p' :
  parse_factor k p = Ok (Some n, p') → peek p' = None →
  parse_inclusive_disjunction (6 + k) p = Ok (Some n, p').
Proof.
  intros Hfactor Hend. apply (shift_to_expression (3 + k)); [|done].
  apply shift_through; [done|..]; rewrite ?Hend; try done.
  - unfold has_multiplicator. by rewrite Hend.
  - unfold has_lshift. by rewrite Hend.
Qed.

Lemma shift_none_expression k p p' :
  parse_shift k p = Ok (None, p') →
  parse_inclusive_disjunction (3 + k) p = Ok (None, p').
Proof.
  intros Hshift. change (3 + k) with (S (S (S k))).
  rewrite incl_unfold. apply operator_chain_none.
  rewrite excl_unfold. apply operator_chain_none.
  rewrite conj_unfold. by apply operator_chain_none.
Qed.

Lemma factor_none_expression k p p' :
  parse_factor k p = Ok (None, p') →
  parse_inclusive_disjunction (6 + k) p = Ok (None, p').
Proof.
  intros Hfactor. apply (shift_none_expression (3 + k)).
  change (3 + k) with (S (S (S k))). apply shift_none, sum_none.
  rewrite product_unfold. by apply operator_chain_none.
Qed.

(** *** Names around an operator of two characters *)

Section operands.

Context (E : string) (modulus : Z) (modRed : bool).

#[local] Abbreviation at_ i := (set_idx i (init E modulus modRed)).

Lemma peek_post pre post :
  E = pre +:+ post →
  peek (at_ (String.length pre))
  = match post with EmptyString => None | String c _ => Some c end.
Proof.
  intros HE. destruct post as [|c post'].
  - rewrite append_nil_r in HE. subst pre. apply peek_end.
  - by eapply peek_at.
Qed.

Lemma peek_next_post pre c post :
  E = pre +:+ String c post →
  peek_next (at_ (String.length pre))
  = match post with EmptyString => None | String d _ => Some d end.
Proof.
  intros HE. destruct post as [|d post'].
  - unfold peek_next. simpl. rewrite decide_True; [done|].
    rewrite HE, length_append. simpl. lia.
  - by eapply peek_next_at.
Qed.

Lemma get_at pre c post :
  E = pre +:+ String c post →
  match post with EmptyString => True | String d _ => d ≠ " "%char end →
  get true (at_ (String.length pre)) = at_ (String.length pre + 1).
Proof.
  intros HE Hd. unfold get. apply while_stops.
  change (has_space (at_ (String.length pre + 1)) = false).
  pose proof (peek_post (pre +:+ String c EmptyString) post) as Hp.
  rewrite length_append in Hp.
  change (String.length (String c EmptyString)) with 1 in Hp.
  unfold has_space. rewrite Hp.
  - destruct post; apply bool_decide_eq_false; congruence.
  - by rewrite HE, append_assoc.
Qed.

(** The two [__get] calls over an operator [c c] before a name. *)
Lemma get_operator pre c a post :
  E = pre +:+ String c (String c (String a post)) →
  c ≠ " "%char → is_letter a = true →
  get true (get true (at_ (String.length pre)))
  = at_ (String.length pre + 2).
Proof.
  intros HE Hc Ha.
  rewrite (get_at pre c (String c (String a post))); [|done|done].
  pose proof (get_at (pre +:+ String c EmptyString) c (String a post)) as Hget.
  rewrite length_append in Hget.
  change (String.length (String c EmptyString)) with 1 in Hget.
  rewrite Hget.
  - f_equal. lia.
  - by rewrite HE, append_assoc.
  - by destruct (letter_no_operator a Ha) as (_ & ? & _).
Qed.

Lemma first_letter pre x post :
  E = pre +:+ x +:+ post → valid_name x →
  ∃ a, peek (at_ (String.length pre)) = Some a ∧ is_letter a = true.
Proof.
  intros HE Hx. destruct x as [|a r]; [done|]. exists a.
  split; [|apply Hx]. exact (peek_at E modulus modRed pre a (r +:+ post) HE).
Qed.

(** A name as operand of a shift: it is a sum of its own. *)
Lemma name_sum pre x post k :
  E = pre +:+ x +:+ post → valid_name x →
  post = EmptyString ∨ (∃ post', post = String "<" post') →
  parse_sum (4 + S k) (at_ (String.length pre))
  = Ok (Some (Var 32 modRed x), at_ (String.length pre + String.length x)).
Proof.
  intros HE Hx Hpost.
  set (p := at_ (String.length pre)).
  set (p' := at_ (String.length pre + String.length x)).
  assert (Hterm : parse_terminal (S k) p = Ok (Some (Var 32 modRed x), p')).
  { apply (variable_before E modulus modRed pre x post k HE Hx).
    by destruct Hpost as [-> | [post' ->]]. }
  destruct (first_letter pre x post HE Hx) as (a & Hpa & Ha). fold p in Hpa.
  destruct (letter_no_operator a Ha) as (_ & _ & Htilde & Hminus).
  assert (Hpk : peek p' = None ∨ peek p' = Some "<"%char).
  { pose proof (peek_post (pre +:+ x) post) as Hp.
    rewrite length_append in Hp. fold p' in Hp.
    rewrite Hp by by rewrite append_assoc.
    destruct Hpost as [-> | [post' ->]]; auto. }
  change (4 + S k) with (S (S (2 + S k))).
  apply sum_through; [|destruct Hpk as [-> | ->]; done..].
  rewrite product_unfold. apply operator_chain_single.
  - apply factor_through; rewrite ?Hpa; try congruence.
    unfold has_power. destruct Hpk as [-> | ->]; done.
  - unfold has_multiplicator. destruct Hpk as [-> | ->]; done.
Qed.

(** The operands of [x<<y] and what is between them. *)
Lemma shift_operands x y post k :
  E = x +:+ "<<" +:+ y +:+ post → valid_name x → valid_name y →
  post = EmptyString ∨ (∃ post', post = String "<" post') →
  parse_sum (4 + S k) (at_ 0)
  = Ok (Some (Var 32 modRed x), at_ (String.length x))
  ∧ has_lshift (at_ (String.length x)) = true
  ∧ parse_sum (4 + S k) (get true (get true (at_ (String.length x))))
    = Ok (Some (Var 32 modRed y),
          at_ (String.length x + 2 + String.length y)).
Proof.
  intros HE Hx Hy Hpost.
  destruct y as [|a r] eqn:Hya; [done|]. rewrite <- Hya in *.
  assert (Ha : is_letter a = true) by (rewrite Hya in Hy; apply Hy).
  assert (HE1 : E = x +:+ String "<" (String "<" (String a (r +:+ post))))
    by by rewrite HE, Hya.
  split; [|split].
  - apply (name_sum EmptyString x ("<<" +:+ y +:+ post) k HE Hx).
    right. by eexists.
  - unfold has_lshift. rewrite (peek_post x _ HE1).
    by rewrite (peek_next_post x _ _ HE1).
  - rewrite (get_operator x "<" a _ HE1 ltac:(done) Ha).
    pose proof (name_sum (x +:+ "<<") y post k) as Hop.
    rewrite length_append in Hop.
    change (String.length "<<") with 2 in Hop.
    apply Hop; [|done..]. by rewrite HE, append_assoc.
Qed.

Lemma shift_names x y k :
  E = x +:+ "<<" +:+ y → valid_name x → valid_name y →
  parse_shift (5 + S k) (at_ 0)
  = Ok (Some (Op Node.PRODUCT 32 modRed
                [Var 32 modRed x;
                 Op Node.POWER 32 modRed
                   [Const 32 modRed 2; Var 32 modRed y]]),
        at_ (String.length E)).
Proof.
  intros HE Hx Hy.
  assert (Hlen : String.length E = String.length x + 2 + String.length y).
  { rewrite HE, !length_append. simpl. lia. }
  destruct (shift_operands x y EmptyString k) as (Hbase & Hs1 & Hop);
    [by rewrite append_nil_r|done|done|by left|].
  rewrite <- Hlen in Hop.
  assert (Hs2 : has_lshift (at_ (String.length E)) = false).
  { unfold has_lshift. by rewrite peek_end. }
  exact (shift_desugars (4 + S k) (at_ 0) _ _ _ _ Hbase Hs1 Hop Hs2).
Qed.

Lemma shift_names_nested x y rest k :
  E = x +:+ "<<" +:+ y +:+ "<<" +:+ rest → valid_name x → valid_name y →
  parse_shift (5 + S k) (at_ 0)
  = Ok (None,
        set_error "Disallowed nested lshift operator near <"
          (at_ (String.length x + 2 + String.length y))).
Proof.
  intros HE Hx Hy.
  destruct (shift_operands x y ("<<" +:+ rest) k) as (Hbase & Hs1 & Hop);
    [done|done|done|right; by eexists|].
  assert (HE2 : E = ((x +:+ "<<") +:+ y) +:+ String "<" (String "<" rest))
    by by rewrite HE, !append_assoc.
  assert (Hlen2 : String.length ((x +:+ "<<") +:+ y)
                  = String.length x + 2 + String.length y).
  { rewrite !length_append. done. }
  pose proof (peek_post _ _ HE2) as Hpeek.
  pose proof (peek_next_post _ _ _ HE2) as Hnext.
  rewrite Hlen2 in Hpeek, Hnext.
  assert (Hs2 : has_lshift (at_ (String.length x + 2 + String.length y))
                = true).
  { unfold has_lshift. by rewrite Hpeek, Hnext. }
  pose proof (shift_nested (4 + S k) (at_ 0) _ _ _ _ Hbase Hs1 Hop Hs2)
    as Hrun.
  unfold peek_str in Hrun. rewrite Hpeek in Hrun. exact Hrun.
Qed.

(** The same for [x**y]. *)
Lemma power_operands x y post k :
  E = x +:+ "**" +:+ y +:+ post → valid_name x → valid_name y →
  post = EmptyString ∨ (∃ post', post = String "*" post') →
  parse_terminal (S k) (at_ 0)
  = Ok (Some (Var 32 modRed x), at_ (String.length x))
  ∧ has_power (at_ (String.length x)) = true
  ∧ parse_terminal (S k) (get true (get true (at_ (String.length x))))
    = Ok (Some (Var 32 modRed y),
          at_ (String.length x + 2 + String.length y)).
Proof.
  intros HE Hx Hy Hpost.
  destruct y as [|a r] eqn:Hya; [done|]. rewrite <- Hya in *.
  assert (Ha : is_letter a = true) by (rewrite Hya in Hy; apply Hy).
  assert (HE1 : E = x +:+ String "*" (String "*" (String a (r +:+ post))))
    by by rewrite HE, Hya.
  split; [|split].
  - by apply (variable_before E modulus modRed EmptyString x
                ("**" +:+ y +:+ post) k HE Hx).
  - unfold has_power. rewrite (peek_post x _ HE1).
    by rewrite (peek_next_post x _ _ HE1).
  - rewrite (get_operator x "*" a _ HE1 ltac:(done) Ha).
    pose proof (variable_before E modulus modRed (x +:+ "**") y post k)
      as Hexp.
    rewrite length_append in Hexp.
    change (String.length "**") with 2 in Hexp.
    apply Hexp; [by rewrite HE, append_assoc|done|].
    by destruct Hpost as [-> | [post' ->]].
Qed.

Lemma power_names x y k :
  E = x +:+ "**" +:+ y → valid_name x → valid_name y →
  parse_factor (3 + k) (at_ 0)
  = Ok (Some (Op Node.POWER 32 modRed [Var 32 modRed x; Var 32 modRed y]),
        at_ (String.length E)).
Proof.
  intros HE Hx Hy.
  assert (Hlen : String.length E = String.length x + 2 + String.length y).
  { rewrite HE, !length_append. simpl. lia. }
  destruct (power_operands x y EmptyString k) as (Hbase & Hw1 & Hexp);
    [by rewrite append_nil_r|done|done|by left|].
  rewrite <- Hlen in Hexp.
  assert (Hw2 : has_power (at_ (String.length E)) = false).
  { unfold has_power. by rewrite peek_end. }
  destruct (first_letter EmptyString x ("**" +:+ y) HE Hx) as (a & Hpa & Ha).
  destruct (letter_no_operator a Ha) as (_ & _ & Htilde & Hminus).
  change (3 + k) with (S (S (S k))). rewrite factor_plain.
  - exact (power_builds (S k) (at_ 0) _ _ _ _ Hbase Hw1 Hexp Hw2).
  - unfold has_bitwise_negated_expression.
    apply bool_decide_eq_false. simpl in Hpa. rewrite Hpa. congruence.
  - unfold has_negative_expression.
    apply bool_decide_eq_false. simpl in Hpa. rewrite Hpa. congruence.
Qed.

Lemma power_names_nested x y rest k :
  E = x +:+ "**" +:+ y +:+ "**" +:+ rest → valid_name x → valid_name y →
  parse_factor (3 + k) (at_ 0)
  = Ok (None,
        set_error "Disallowed nested power operator near *"
          (at_ (String.length x + 2 + String.length y))).
Proof.
  intros HE Hx Hy.
  destruct (power_operands x y ("**" +:+ rest) k) as (Hbase & Hw1 & Hexp);
    [done|done|done|right; by eexists|].
  assert (HE2 : E = ((x +:+ "**") +:+ y) +:+ String "*" (String "*" rest))
    by by rewrite HE, !append_assoc.
  assert (Hlen2 : String.length ((x +:+ "**") +:+ y)
                  = String.length x + 2 + String.length y).
  { rewrite !length_append. done. }
  pose proof (peek_post _ _ HE2) as Hpeek.
  pose proof (peek_next_post _ _ _ HE2) as Hnext.
  rewrite Hlen2 in Hpeek, Hnext.
  assert (Hw2 : has_power (at_ (String.length x + 2 + String.length y))
                = true).
  { unfold has_power. by rewrite Hpeek, Hnext. }
  destruct (first_letter EmptyString x _ HE Hx) as (a & Hpa & Ha).
  destruct (letter_no_operator a Ha) as (_ & _ & Htilde & Hminus).
  change (3 + k) with (S (S (S k))). rewrite factor_plain.
  - pose proof (power_nested (S k) (at_ 0) _ _ _ _ Hbase Hw1 Hexp Hw2)
      as Hrun.
    unfold peek_str in Hrun. rewrite Hpeek in Hrun. exact Hrun.
  - unfold has_bitwise_negated_expression.
    apply bool_decide_eq_false. simpl in Hpa. rewrite Hpa. congruence.
  - unfold has_negative_expression.
    apply bool_decide_eq_false. simpl in Hpa. rewrite Hpa. congruence.
Qed.

(** [parse_expression] after a rule that has stopped in the text. *)
Lemma stopped_expression r p' c :
  peek (at_ 0) ≠ Some " "%char →
  parse_inclusive_disjunction (depth E) (at_ 0) = Ok (r, p') →
  expr p' = E → peek p' = Some c → c ≠ " "%char →
  parse_expression (at_ 0)
  = Ok (None,
        set_error ("Finished near to " +:+ String c EmptyString
                   +:+ " before everything was parsed") p').
Proof.
  intros Hs Hrun HE Hpeek Hc. unfold parse_expression. rewrite bindM_read.
  assert (Hspace : has_space (at_ 0) = false).
  { unfold has_space. by rewrite bool_decide_eq_false_2. }
  rewrite Hspace, bindM_ret, bindM_read.
  change (depth (expr (at_ 0))) with (depth E).
  rewrite (bindM_ok _ _ _ _ _ Hrun). rewrite bindM_update.
  assert (Hstay : while_ (λ p, bool_decide (idx p < String.length (expr p))
                               && has_space p) skip_space p' = p').
  { unfold while_. destruct (String.length (expr p') - idx p'); simpl; [done|].
    unfold has_space. rewrite Hpeek.
    rewrite (bool_decide_eq_false_2 (Some c = Some " "%char)) by congruence.
    by rewrite andb_false_r. }
  rewrite Hstay, !bindM_read.
  apply peek_Some in Hpeek as Hlt. destruct Hlt as [Hlt _].
  rewrite decide_True by lia. rewrite fail_near_run.
  unfold peek_str. by rewrite Hpeek.
Qed.

End operands.

(** *** Minus in a factor and in a sum, by what the operands return *)

Lemma negative_factor fuel p node p1 node' p2 :
  has_negative_expression p = true →
  parse_factor fuel (get true p) = Ok (Some node, p1) →
  multiply_by_minus_one node p1 = Ok (node', p2) →
  parse_factor (S (S fuel)) p = Ok (Some node', p2).
Proof.
  intros Hneg Hsub Hminus. simpl parse_factor.
  assert (Hb : has_bitwise_negated_expression p = false).
  { unfold has_negative_expression in Hneg.
    apply bool_decide_eq_true in Hneg.
    unfold has_bitwise_negated_expression. rewrite Hneg.
    by apply bool_decide_eq_false. }
  rewrite bindM_read, Hb, bindM_read, Hneg, bindM_update.
  rewrite (bindM_ok _ _ _ _ _ Hsub). cbv beta iota.
  by rewrite (bindM_ok _ _ _ _ _ Hminus).
Qed.

Lemma sum_enters fuel p child p1 :
  parse_product fuel p = Ok (Some child, p1) →
  peek p1 = Some "+"%char ∨ peek p1 = Some "-"%char →
  parse_sum (S fuel) p
  = sum_loop (String.length (expr p1) - idx p1) (parse_product fuel)
      (Op Node.SUM (modulus p1) (modRed p1) [child]) p1.
Proof.
  intros Hsub Hc. rewrite parse_sum_unfold.
  rewrite (bindM_ok _ _ _ _ _ Hsub). cbv beta iota.
  rewrite bindM_read.
  rewrite decide_False by (intros [? ?]; by destruct Hc).
  by rewrite bindM_new_node.
Qed.

Lemma sum_loop_minus n sub node p child p1 child' p2 :
  peek p = Some "-"%char →
  sub (get true p) = Ok (Some child, p1) →
  multiply_by_minus_one child p1 = Ok (child', p2) →
  sum_loop (S n) sub node p
  = sum_loop n sub (Node.append_child child' node) p2.
Proof.
  intros Hc Hsub Hminus. rewrite sum_loop_unfold, bindM_read, Hc.
  rewrite decide_True by by right. cbv zeta.
  rewrite bindM_update, (bindM_ok _ _ _ _ _ Hsub). cbv beta iota.
  rewrite bool_decide_eq_true_2 by done.
  by rewrite (bindM_ok _ _ _ _ _ Hminus).
Qed.

Lemma sum_loop_plus n sub node p child p1 :
  peek p = Some "+"%char →
  sub (get true p) = Ok (Some child, p1) →
  sum_loop (S n) sub node p
  = sum_loop n sub (Node.append_child child node) p1.
Proof.
  intros Hc Hsub. rewrite sum_loop_unfold, bindM_read, Hc.
  rewrite decide_True by by left. cbv zeta.
  rewrite bindM_update, (bindM_ok _ _ _ _ _ Hsub). cbv beta iota.
  by rewrite bool_decide_eq_false_2.
Qed.

Lemma sum_loop_ends n sub node p :
  peek p ≠ Some "+"%char → peek p ≠ Some "-"%char →
  sum_loop n sub node p = Ok (Some node, p).
Proof.
  intros Hplus Hminus.
  destruct n; simpl; rewrite bindM_read;
    by rewrite decide_False by (intros [? | ?]; done).
Qed.

(** *** Sums of names with signs *)

Lemma signed_text_length ts : length ts ≤ String.length (signed_text ts).
Proof.
  induction ts as [|[s x] ts IH]; simpl; [done|].
  rewrite length_append. lia.
Qed.

Section signed.

Context (E : string) (modulus : Z) (modRed : bool).

#[local] Abbreviation at_ i := (set_idx i (init E modulus modRed)).

(** A name as a term of a sum: it is a product of its own. *)
Lemma term_operand pre x post k :
  E = pre +:+ x +:+ post → valid_name x →
  post = EmptyString
  ∨ (∃ c post', post = String c post' ∧ (c = "+"%char ∨ c = "-"%char)) →
  parse_product (3 + S k) (at_ (String.length pre))
  = Ok (Some (Var 32 modRed x), at_ (String.length pre + String.length x)).
Proof.
  intros HE Hx Hpost.
  set (p := at_ (String.length pre)).
  set (p' := at_ (String.length pre + String.length x)).
  assert (Hterm : parse_terminal (S k) p = Ok (Some (Var 32 modRed x), p')).
  { apply (variable_before E modulus modRed pre x post k HE Hx).
    by destruct Hpost as [-> | (c & post' & -> & [-> | ->])]. }
  destruct (first_letter E modulus modRed pre x post HE Hx)
    as (a & Hpa & Ha).
  fold p in Hpa.
  destruct (letter_no_operator a Ha) as (_ & _ & Htilde & Hminus).
  assert (Hpk : peek p' = None ∨ peek p' = Some "+"%char
                ∨ peek p' = Some "-"%char).
  { pose proof (peek_post E modulus modRed (pre +:+ x) post) as Hp.
    rewrite length_append in Hp. fold p' in Hp.
    rewrite Hp by by rewrite append_assoc.
    destruct Hpost as [-> | (c & post' & -> & [-> | ->])]; auto. }
  change (3 + S k) with (S (2 + S k)).
  rewrite product_unfold. apply operator_chain_single.
  - apply factor_through; rewrite ?Hpa; try congruence.
    unfold has_power. destruct Hpk as [-> | [-> | ->]]; done.
  - unfold has_multiplicator. destruct Hpk as [-> | [-> | ->]]; done.
Qed.

Lemma signed_text_follows ts :
  signed_text ts = EmptyString
  ∨ (∃ c post', signed_text ts = String c post' ∧
                (c = "+"%char ∨ c = "-"%char)).
Proof.
  destruct ts as [|[[] x] ts]; [by left|right..]; simpl; eauto.
Qed.

Lemma signed_loop k (ts : list (bool * string)) : ∀ (n : nat) node pre,
  E = pre +:+ signed_text ts → Forall (λ t, valid_name t.2) ts →
  length ts ≤ n →
  sum_loop n (parse_product (3 + S k)) node (at_ (String.length pre))
  = Ok (Some (Node.set_children
                (Node.children node ++ map (term_node 32 modRed) ts) node),
        at_ (String.length E)).
Proof.
  induction ts as [|[negative x] ts IH]; intros n node pre HE Hts Hn.
  - simpl in HE. rewrite append_nil_r in HE. subst pre.
    rewrite sum_loop_ends by by rewrite peek_end.
    by rewrite app_nil_r, set_children_id.
  - apply Forall_cons in Hts as [Hx Hts]. simpl in Hx.
    destruct n as [|n]; [simpl in Hn; lia|].
    set (s := if negative then "-"%char else "+"%char).
    destruct x as [|a r] eqn:Hxa; [done|]. rewrite <- Hxa in *.
    assert (Ha : is_letter a = true) by (rewrite Hxa in Hx; apply Hx).
    assert (HE1 : E = pre +:+ String s (String a (r +:+ signed_text ts))).
    { rewrite HE. simpl. by rewrite Hxa. }
    pose proof (peek_at E modulus modRed pre s _ HE1) as Hpeek.
    assert (Hget : get true (at_ (String.length pre))
                   = at_ (String.length pre + 1)).
    { apply (get_at E modulus modRed pre s _ HE1).
      by destruct (letter_no_operator a Ha) as (_ & ? & _). }
    assert (HE2 : E = (pre +:+ String s EmptyString) +:+ x
                      +:+ signed_text ts).
    { rewrite HE. simpl. by rewrite append_assoc. }
    pose proof (term_operand _ x _ k HE2 Hx (signed_text_follows ts)) as Hsub.
    rewrite length_append in Hsub.
    change (String.length (String s EmptyString)) with 1 in Hsub.
    rewrite <- Hget in Hsub.
    assert (HE3 : E = ((pre +:+ String s EmptyString) +:+ x)
                      +:+ signed_text ts) by by rewrite append_assoc.
    pose proof (IH n (Node.append_child (term_node 32 modRed (negative, x))
                        node)
                  ((pre +:+ String s EmptyString) +:+ x) HE3 Hts
                  ltac:(simpl in Hn; lia)) as Hloop.
    rewrite !length_append in Hloop.
    change (String.length (String s EmptyString)) with 1 in Hloop.
    assert (Hstep : sum_loop (S n) (parse_product (3 + S k)) node
                      (at_ (String.length pre))
                    = sum_loop n (parse_product (3 + S k))
                        (Node.append_child
                           (term_node 32 modRed (negative, x)) node)
                        (at_ (String.length pre + 1 + String.length x))).
    { destruct negative.
      - by apply (sum_loop_minus _ _ _ _ _ _ _ _ Hpeek Hsub).
      - by apply (sum_loop_plus _ _ _ _ _ _ Hpeek Hsub). }
    rewrite Hstep, Hloop. simpl. by rewrite <- (assoc_L (++)).
Qed.

Lemma signed_sum x0 t1 ts k :
  E = x0 +:+ signed_text (t1 :: ts) → valid_name x0 →
  Forall (λ t, valid_name t.2) (t1 :: ts) →
  parse_shift (5 + S k) (at_ 0)
  = Ok (Some (Op Node.SUM 32 modRed
                (Var 32 modRed x0 :: map (term_node 32 modRed) (t1 :: ts))),
        at_ (String.length E)).
Proof.
  intros HE Hx0 Hts.
  pose proof (term_operand EmptyString x0 _ k HE Hx0
                (signed_text_follows (t1 :: ts))) as Hsub.
  change (String.length EmptyString + String.length x0)
    with (String.length x0) in Hsub.
  change (String.length EmptyString) with 0 in Hsub.
  assert (Hpeek : peek (at_ (String.length x0)) = Some "+"%char
                  ∨ peek (at_ (String.length x0)) = Some "-"%char).
  { rewrite (peek_post E modulus modRed x0 _ HE).
    destruct t1 as [[] x1]; simpl; auto. }
  apply (shift_single (4 + S k)); [|unfold has_lshift; by rewrite peek_end].
  etrans; [exact (sum_enters (3 + S k) (at_ 0) _ _ Hsub Hpeek)|].
  rewrite (signed_loop k (t1 :: ts) _ _ x0 HE Hts); [done|].
  simpl expr. simpl idx. rewrite HE at 1. rewrite length_append.
  pose proof (signed_text_length (t1 :: ts)). lia.
Qed.

(** A name after a unary minus. *)
Lemma negative_name x k :
  E = "-" +:+ x → valid_name x →
  parse_factor (4 + S k) (at_ 0)
  = Ok (Some (Op Node.PRODUCT 32 modRed
                [Const 32 modRed (-1); Var 32 modRed x]),
        at_ (String.length E)).
Proof.
  intros HE Hx.
  destruct x as [|a r] eqn:Hxa; [done|]. rewrite <- Hxa in *.
  assert (Ha : is_letter a = true) by (rewrite Hxa in Hx; apply Hx).
  destruct (letter_no_operator a Ha) as (_ & Hsp & Htilde & Hminus).
  assert (HE1 : E = EmptyString +:+ String "-" (String a r))
    by by rewrite HE, Hxa.
  pose proof (get_at E modulus modRed EmptyString "-" _ HE1 Hsp) as Hget.
  change (String.length EmptyString + 1) with 1 in Hget.
  change (String.length EmptyString) with 0 in Hget.
  assert (HE2 : E = "-" +:+ x +:+ EmptyString) by by rewrite append_nil_r.
  pose proof (variable_before E modulus modRed "-" x EmptyString k HE2 Hx I)
    as Hterm.
  change (String.length "-") with 1 in Hterm.
  replace (1 + String.length x) with (String.length E) in Hterm
    by (rewrite HE, length_append; done).
  assert (Hfactor : parse_factor (2 + S k) (get true (at_ 0))
                    = Ok (Some (Var 32 modRed x), at_ (String.length E))).
  { pose proof (peek_post E modulus modRed "-" x HE) as Hp1.
    change (String.length "-") with 1 in Hp1. rewrite Hxa in Hp1.
    rewrite Hget. apply factor_through; [done|rewrite Hp1; congruence..|].
    unfold has_power. by rewrite peek_end. }
  assert (Hneg : has_negative_expression (at_ 0) = true).
  { unfold has_negative_expression.
    pose proof (peek_post E modulus modRed EmptyString _ HE1) as Hp0.
    change (String.length EmptyString) with 0 in Hp0. by rewrite Hp0. }
  exact (negative_factor (2 + S k) (at_ 0) _ _ _ _ Hneg Hfactor eq_refl).
Qed.

End signed.

Lemma name_start x rest modulus modRed :
  valid_name x →
  peek (set_idx 0 (init (x +:+ rest) modulus modRed)) ≠ Some " "%char.
Proof.
  intros Hx.
  destruct (first_letter (x +:+ rest) modulus modRed EmptyString x rest
              eq_refl Hx) as (a & Hpa & Ha).
  destruct (letter_no_operator a Ha) as (_ & Hsp & _).
  change (String.length EmptyString) with 0 in Hpa. rewrite Hpa. congruence.
Qed.

Lemma run_whole E bitCount modRed n :
  peek (set_idx 0 (init E (2 ^ bitCount) modRed)) ≠ Some " "%char →
  parse_inclusive_disjunction (depth E)
    (set_idx 0 (init E (2 ^ bitCount) modRed))
  = Ok (Some n, set_idx (String.length E) (init E (2 ^ bitCount) modRed)) →
  run E bitCount modRed = Ok (Some n, EmptyString).
Proof.
  intros Hs Hrun. apply whole_expression in Hrun; [|done].
  unfold run.
  change (init E (2 ^ bitCount) modRed)
    with (set_idx 0 (init E (2 ^ bitCount) modRed)).
  by rewrite (result_bind_ok _ _ _ Hrun).
Qed.

Lemma run_stopped E bitCount modRed j e c :
  peek (set_idx 0 (init E (2 ^ bitCount) modRed)) ≠ Some " "%char →
  parse_inclusive_disjunction (depth E)
    (set_idx 0 (init E (2 ^ bitCount) modRed))
  = Ok (None, set_error e (set_idx j (init E (2 ^ bitCount) modRed))) →
  peek (set_idx j (init E (2 ^ bitCount) modRed)) = Some c → c ≠ " "%char →
  run E bitCount modRed
  = Ok (None, "Finished near to " +:+ String c EmptyString
              +:+ " before everything was parsed").
Proof.
  intros Hs Hrun Hpeek Hc.
  apply (stopped_expression _ _ _ _ _ c) in Hrun; [|done..].
  unfold run.
  change (init E (2 ^ bitCount) modRed)
    with (set_idx 0 (init E (2 ^ bitCount) modRed)).
  by rewrite (result_bind_ok _ _ _ Hrun).
Qed.

Lemma run_shift_names x y bitCount modRed :
  valid_name x → valid_name y →
  run (x +:+ "<<" +:+ y) bitCount modRed
  = Ok (Some (Op Node.PRODUCT 32 modRed
                [Var 32 modRed x;
                 Op Node.POWER 32 modRed
                   [Const 32 modRed 2; Var 32 modRed y]]),
        EmptyString).
Proof.
  intros Hx Hy. set (E := x +:+ "<<" +:+ y).
  pose proof (shift_names E (2 ^ bitCount) modRed x y
                (12 * String.length E + 3) eq_refl Hx Hy) as Hrun.
  apply shift_to_expression in Hrun; [|apply peek_end].
  replace (3 + (5 + S (12 * String.length E + 3))) with (depth E) in Hrun
    by (unfold depth; lia).
  apply run_whole; [by apply name_start|done].
Qed.

Lemma run_power_names x y bitCount modRed :
  valid_name x → valid_name y →
  run (x +:+ "**" +:+ y) bitCount modRed
  = Ok (Some (Op Node.POWER 32 modRed [Var 32 modRed x; Var 32 modRed y]),
        EmptyString).
Proof.
  intros Hx Hy. set (E := x +:+ "**" +:+ y).
  pose proof (power_names E (2 ^ bitCount) modRed x y
                (12 * String.length E + 3) eq_refl Hx Hy) as Hrun.
  apply factor_to_expression in Hrun; [|apply peek_end].
  replace (6 + (3 + (12 * String.length E + 3))) with (depth E) in Hrun
    by (unfold depth; lia).
  apply run_whole; [by apply name_start|done].
Qed.

Lemma run_shift_nested x y rest bitCount modRed :
  valid_name x → valid_name y →
  run (x +:+ "<<" +:+ y +:+ "<<" +:+ rest) bitCount modRed
  = Ok (None, "Finished near to < before everything was parsed").
Proof.
  intros Hx Hy. set (E := x +:+ "<<" +:+ y +:+ "<<" +:+ rest).
  pose proof (shift_names_nested E (2 ^ bitCount) modRed x y rest
                (12 * String.length E + 3) eq_refl Hx Hy) as Hrun.
  apply shift_none_expression in Hrun.
  replace (3 + (5 + S (12 * String.length E + 3))) with (depth E) in Hrun
    by (unfold depth; lia).
  apply (run_stopped _ _ _ _ _ "<") in Hrun; [done|by apply name_start| |done].
  pose proof (peek_post E (2 ^ bitCount) modRed ((x +:+ "<<") +:+ y)
                ("<<" +:+ rest)) as Hpeek.
  rewrite !length_append in Hpeek. apply Hpeek.
  unfold E. by rewrite !append_assoc.
Qed.

Lemma run_power_nested x y rest bitCount modRed :
  valid_name x → valid_name y →
  run (x +:+ "**" +:+ y +:+ "**" +:+ rest) bitCount modRed
  = Ok (None, "Finished near to * before everything was parsed").
Proof.
  intros Hx Hy. set (E := x +:+ "**" +:+ y +:+ "**" +:+ rest).
  pose proof (power_names_nested E (2 ^ bitCount) modRed x y rest
                (12 * String.length E + 3) eq_refl Hx Hy) as Hrun.
  apply factor_none_expression in Hrun.
  replace (6 + (3 + (12 * String.length E + 3))) with (depth E) in Hrun
    by (unfold depth; lia).
  apply (run_stopped _ _ _ _ _ "*") in Hrun; [done|by apply name_start| |done].
  pose proof (peek_post E (2 ^ bitCount) modRed ((x +:+ "**") +:+ y)
                ("**" +:+ rest)) as Hpeek.
  rewrite !length_append in Hpeek. apply Hpeek.
  unfold E. by rewrite !append_assoc.
Qed.

Lemma run_negative_name x bitCount modRed :
  valid_name x →
  run ("-" +:+ x) bitCount modRed
  = Ok (Some (Op Node.PRODUCT 32 modRed
                [Const 32 modRed (-1); Var 32 modRed x]),
        EmptyString).
Proof.
  intros Hx. set (E := "-" +:+ x).
  pose proof (negative_name E (2 ^ bitCount) modRed x
                (12 * String.length E + 1) eq_refl Hx) as Hrun.
  apply factor_to_expression in Hrun; [|apply peek_end].
  replace (6 + (4 + S (12 * String.length E + 1))) with (depth E) in Hrun
    by (unfold depth; lia).
  by apply run_whole.
Qed.

Lemma run_signed_sum x0 t1 ts bitCount modRed :
  valid_name x0 → Forall (λ t, valid_name t.2) (t1 :: ts) →
  run (x0 +:+ signed_text (t1 :: ts)) bitCount modRed
  = Ok (Some (Op Node.SUM 32 modRed
                (Var 32 modRed x0 :: map (term_node 32 modRed) (t1 :: ts))),
        EmptyString).
Proof.
  intros Hx0 Hts. set (E := x0 +:+ signed_text (t1 :: ts)).
  pose proof (signed_sum E (2 ^ bitCount) modRed x0 t1 ts
                (12 * String.length E + 3) eq_refl Hx0 Hts) as Hrun.
  apply shift_to_expression in Hrun; [|apply peek_end].
  replace (3 + (5 + S (12 * String.length E + 3))) with (depth E) in Hrun
    by (unfold depth; lia).
  apply run_whole; [by apply name_start|done].
Qed.

(** C5. ["a<<b"] parses to PRODUCT(a, POWER(2, b)) and ["a**b"] to
    POWER(a, b), and so for every pair of operands: whenever
    [__parse_shift] has read a base and, after [<<], a second operand
    that no [<<] follows, it returns PRODUCT(base, POWER(2, operand));
    whenever [__parse_power] has read a base and, after [**], an
    exponent that no [**] follows, it returns POWER(base, exponent).
    A second shift after the right operand of a shift, or a second
    power after the exponent of a power, makes the rule answer [None]
    with the error text set. On texts: for all variable names [x] and
    [y], ["x<<y"] is PRODUCT(x, POWER(2, y)) and ["x**y"] is
    POWER(x, y), while ["x<<y<<..."] and ["x**y**..."] yield no tree,
    whatever follows the second operator; with parentheses the
    operators nest. *)
Theorem shift_and_power :
  run "a<<b" 8 true
  = Ok (Some (Op Node.PRODUCT 32 true
                [Var 32 true "a";
                 Op Node.POWER 32 true [Const 32 true 2; Var 32 true "b"]]),
        EmptyString)
  ∧ run "a**b" 8 true
    = Ok (Some (Op Node.POWER 32 true [Var 32 true "a"; Var 32 true "b"]),
          EmptyString)
  ∧ (∃ msg, run "a<<b<<c" 8 true = Ok (None, msg) ∧ msg ≠ EmptyString)
  ∧ (∃ msg, run "a**b**c" 8 true = Ok (None, msg) ∧ msg ≠ EmptyString)
  ∧ (∀ fuel p base p1 op p2,
       Parser.parse_sum fuel p = Ok (Some base, p1) →
       Parser.has_lshift p1 = true →
       Parser.parse_sum fuel (Parser.get true (Parser.get true p1))
       = Ok (Some op, p2) →
       Parser.has_lshift p2 = true →
       Parser.parse_shift (S fuel) p
       = Ok (None,
             Parser.set_error
               ("Disallowed nested lshift operator near "
                ++ Parser.peek_str p2 ++ EmptyString) p2))
  ∧ (∀ fuel p base p1 exp p2,
       Parser.parse_terminal fuel p = Ok (Some base, p1) →
       Parser.has_power p1 = true →
       Parser.parse_terminal fuel (Parser.get true (Parser.get true p1))
       = Ok (Some exp, p2) →
       Parser.has_power p2 = true →
       Parser.parse_power (S fuel) p
       = Ok (None,
             Parser.set_error
               ("Disallowed nested power operator near "
                ++ Parser.peek_str p2 ++ EmptyString) p2))
  ∧ (∀ fuel p base p1 op p2,
       Parser.parse_sum fuel p = Ok (Some base, p1) →
       Parser.has_lshift p1 = true →
       Parser.parse_sum fuel (Parser.get true (Parser.get true p1))
       = Ok (Some op, p2) →
       Parser.has_lshift p2 = false →
       Parser.parse_shift (S fuel) p
       = Ok (Some (Op Node.PRODUCT (Parser.modulus p1) (Parser.modRed p1)
                     [base;
                      Op Node.POWER (Parser.modulus p2) (Parser.modRed p2)
                        [Const (Parser.modulus p2) (Parser.modRed p2) 2;
                         op]]), p2))
  ∧ (∀ fuel p base p1 exp p2,
       Parser.parse_terminal fuel p = Ok (Some base, p1) →
       Parser.has_power p1 = true →
       Parser.parse_terminal fuel (Parser.get true (Parser.get true p1))
       = Ok (Some exp, p2) →
       Parser.has_power p2 = false →
       Parser.parse_power (S fuel) p
       = Ok (Some (Op Node.POWER (Parser.modulus p1) (Parser.modRed p1)
                     [base; exp]), p2))
  ∧ (∀ x y bitCount modRed,
       valid_name x → valid_name y →
       run (x +:+ "<<" +:+ y) bitCount modRed
       = Ok (Some (Op Node.PRODUCT 32 modRed
                     [Var 32 modRed x;
                      Op Node.POWER 32 modRed
                        [Const 32 modRed 2; Var 32 modRed y]]),
             EmptyString))
  ∧ (∀ x y bitCount modRed,
       valid_name x → valid_name y →
       run (x +:+ "**" +:+ y) bitCount modRed
       = Ok (Some (Op Node.POWER 32 modRed
                     [Var 32 modRed x; Var 32 modRed y]),
             EmptyString))
  ∧ (∀ x y rest bitCount modRed,
       valid_name x → valid_name y →
       run (x +:+ "<<" +:+ y +:+ "<<" +:+ rest) bitCount modRed
       = Ok (None, "Finished near to < before everything was parsed"))
  ∧ (∀ x y rest bitCount modRed,
       valid_name x → valid_name y →
       run (x +:+ "**" +:+ y +:+ "**" +:+ rest) bitCount modRed
       = Ok (None, "Finished near to * before everything was parsed"))
  ∧ run "a<<2" 8 true
    = Ok (Some (Op Node.PRODUCT 32 true
                  [Var 32 true "a";
                   Op Node.POWER 32 true [Const 32 true 2; Const 32 true 2]]),
          EmptyString)
  ∧ run "3<<a" 8 true
    = Ok (Some (Op Node.PRODUCT 32 true
                  [Const 32 true 3;
                   Op Node.POWER 32 true [Const 32 true 2; Var 32 true "a"]]),
          EmptyString)
  ∧ run "a**3" 8 true
    = Ok (Some (Op Node.POWER 32 true [Var 32 true "a"; Const 32 true 3]),
          EmptyString)
  ∧ run "2**a" 8 true
    = Ok (Some (Op Node.POWER 32 true [Const 32 true 2; Var 32 true "a"]),
          EmptyString)
  ∧ run "a+b<<c*d" 8 true
    = Ok (Some (Op Node.PRODUCT 32 true
                  [Op Node.SUM 32 true [Var 32 true "a"; Var 32 true "b"];
                   Op Node.POWER 32 true
                     [Const 32 true 2;
                      Op Node.PRODUCT 32 true
                        [Var 32 true "c"; Var 32 true "d"]]]),
          EmptyString)
  ∧ run "(a<<b)<<c" 8 true
    = Ok (Some (Op Node.PRODUCT 32 true
                  [Op Node.PRODUCT 32 true
                     [Var 32 true "a";
                      Op Node.POWER 32 true
                        [Const 32 true 2; Var 32 true "b"]];
                   Op Node.POWER 32 true [Const 32 true 2; Var 32 true "c"]]),
          EmptyString)
  ∧ run "a**(b**c)" 8 true
    = Ok (Some (Op Node.POWER 32 true
                  [Var 32 true "a";
                   Op Node.POWER 32 true [Var 32 true "b"; Var 32 true "c"]]),
          EmptyString).
Proof.
  split; [vm_compute; reflexivity|].
  split; [vm_compute; reflexivity|].
  split; [eexists; split; [vm_compute; reflexivity|done]|].
  split; [eexists; split; [vm_compute; reflexivity|done]|].
  split; [exact shift_nested|]. split; [exact power_nested|].
  split; [exact shift_desugars|]. split; [exact power_builds|].
  split; [exact run_shift_names|]. split; [exact run_power_names|].
  split; [exact run_shift_nested|]. split; [exact run_power_nested|].
  repeat split; vm_compute; reflexivity.
Qed.

Lemma shift_and_power_witness :
  Parser.parse_shift 6 (Parser.init "a<<b<<c" (2 ^ 8) true)
  = Ok (None,
        Parser.mk "a<<b<<c" 32 true 4
          "Disallowed nested lshift operator near <")
  ∧ Parser.parse_shift 6 (Parser.init "a<<2" (2 ^ 8) true)
    = Ok (Some (Op Node.PRODUCT 32 true
                  [Var 32 true "a";
                   Op Node.POWER 32 true [Const 32 true 2; Const 32 true 2]]),
          Parser.mk "a<<2" 32 true 4 EmptyString)
  ∧ Parser.parse_power 3 (Parser.init "a**3" (2 ^ 8) true)
    = Ok (Some (Op Node.POWER 32 true [Var 32 true "a"; Const 32 true 3]),
          Parser.mk "a**3" 32 true 4 EmptyString)
  ∧ run "x1<<y_2" 8 true
    = Ok (Some (Op Node.PRODUCT 32 true
                  [Var 32 true "x1";
                   Op Node.POWER 32 true
                     [Const 32 true 2; Var 32 true "y_2"]]),
          EmptyString)
  ∧ run "x1**y_2**(" 8 true
    = Ok (None, "Finished near to * before everything was parsed").
Proof.
  pose proof shift_and_power
    as (_ & _ & _ & _ & Hnested & _ & Hshift & Hpower & Hnames & _ & _
        & Hstop & _).
  split; [|split; [|split; [|split]]].
  - refine (Hnested 5 (Parser.init "a<<b<<c" (2 ^ 8) true)
              (Var 32 true "a") (Parser.mk "a<<b<<c" 32 true 1 EmptyString)
              (Var 32 true "b") (Parser.mk "a<<b<<c" 32 true 4 EmptyString)
              _ _ _ _); vm_compute; reflexivity.
  - refine (Hshift 5 (Parser.init "a<<2" (2 ^ 8) true)
              (Var 32 true "a") (Parser.mk "a<<2" 32 true 1 EmptyString)
              (Const 32 true 2) (Parser.mk "a<<2" 32 true 4 EmptyString)
              _ _ _ _); vm_compute; reflexivity.
  - refine (Hpower 2 (Parser.init "a**3" (2 ^ 8) true)
              (Var 32 true "a") (Parser.mk "a**3" 32 true 1 EmptyString)
              (Const 32 true 3) (Parser.mk "a**3" 32 true 4 EmptyString)
              _ _ _ _); vm_compute; reflexivity.
  - apply (Hnames "x1" "y_2" 8%Z true); by vm_compute.
  - apply (Hstop "x1" "y_2" "(" 8%Z true); by vm_compute.
Defined.

(** C6. [__multiply_by_minus_one] negates the payload of a CONSTANT in
    place; in a PRODUCT whose first child is a CONSTANT it multiplies
    that child's payload by -1 in place; into any other PRODUCT it
    inserts the literal -1 as new first child; any other node becomes
    the second child of a new PRODUCT whose first child is the literal
    -1. Unary minus and the [-] of a sum both go through it while
    parsing, whatever the operand: a factor that starts with [-] is
    what [__multiply_by_minus_one] makes of the factor after the [-],
    and every operand that the loop of [__parse_sum] reads after a
    [-] is appended as what [__multiply_by_minus_one] makes of it,
    while an operand after a [+] is appended as it is. So ["-5"] is
    the single CONSTANT -5, ["-(a*b)"] is PRODUCT(-1, a, b), ["-x"] is
    PRODUCT(-1, x) for every variable name [x], and a text
    [x0 s1 x1 ... sn xn] of names and signs is the SUM of [x0] and,
    for each further name, the variable after a [+] and
    PRODUCT(-1, variable) after a [-]. *)
Theorem minus_normalisation :
  (∀ p node,
     Node.type node = Node.CONSTANT →
     Parser.multiply_by_minus_one node p
     = Ok (Node.set_constant (- Node.constant node) node, p))
  ∧ (∀ p node first others,
       Node.type node = Node.PRODUCT →
       Node.children node = first :: others →
       Node.type first = Node.CONSTANT →
       Parser.multiply_by_minus_one node p
       = Ok (Node.set_children
               (Node.set_constant (Node.constant first * -1) first :: others)
               node, p))
  ∧ (∀ p node first others,
       Node.type node = Node.PRODUCT →
       Node.children node = first :: others →
       Node.type first ≠ Node.CONSTANT →
       Parser.multiply_by_minus_one node p
       = Ok (Node.set_children
               (Const (Parser.modulus p) (Parser.modRed p) (-1)
                :: first :: others) node, p))
  ∧ (∀ p node,
       Node.type node ≠ Node.CONSTANT → Node.type node ≠ Node.PRODUCT →
       Parser.multiply_by_minus_one node p
       = Ok (Op Node.PRODUCT (Parser.modulus p) (Parser.modRed p)
               [Const (Parser.modulus p) (Parser.modRed p) (-1); node], p))
  ∧ run "-5" 8 true = Ok (Some (Const 32 true (-5)), EmptyString)
  ∧ run "-(a*b)" 8 true
    = Ok (Some (Op Node.PRODUCT 32 true
                  [Const 32 true (-1); Var 32 true "a"; Var 32 true "b"]),
          EmptyString)
  ∧ run "-2*b" 8 true
    = Ok (Some (Op Node.PRODUCT 32 true
                  [Const 32 true (-2); Var 32 true "b"]), EmptyString)
  ∧ run "a-5" 8 true
    = Ok (Some (Op Node.SUM 32 true [Var 32 true "a"; Const 32 true (-5)]),
          EmptyString)
  ∧ run "a-2*b" 8 true
    = Ok (Some (Op Node.SUM 32 true
                  [Var 32 true "a";
                   Op Node.PRODUCT 32 true
                     [Const 32 true (-2); Var 32 true "b"]]), EmptyString)
  ∧ run "a-b*c" 8 true
    = Ok (Some (Op Node.SUM 32 true
                  [Var 32 true "a";
                   Op Node.PRODUCT 32 true
                     [Const 32 true (-1); Var 32 true "b"; Var 32 true "c"]]),
          EmptyString)
  ∧ run "a-b" 8 true
    = Ok (Some (Op Node.SUM 32 true
                  [Var 32 true "a";
                   Op Node.PRODUCT 32 true
                     [Const 32 true (-1); Var 32 true "b"]]), EmptyString)
  ∧ (∀ fuel p node p1 node' p2,
       Parser.has_negative_expression p = true →
       Parser.parse_factor fuel (Parser.get true p) = Ok (Some node, p1) →
       Parser.multiply_by_minus_one node p1 = Ok (node', p2) →
       Parser.parse_factor (S (S fuel)) p = Ok (Some node', p2))
  ∧ (∀ fuel p child p1,
       Parser.parse_product fuel p = Ok (Some child, p1) →
       Parser.peek p1 = Some "+"%char ∨ Parser.peek p1 = Some "-"%char →
       Parser.parse_sum (S fuel) p
       = Parser.sum_loop
           (String.length (Parser.expr p1) - Parser.idx p1)
           (Parser.parse_product fuel)
           (Op Node.SUM (Parser.modulus p1) (Parser.modRed p1) [child]) p1)
  ∧ (∀ n sub node p child p1 child' p2,
       Parser.peek p = Some "-"%char →
       sub (Parser.get true p) = Ok (Some child, p1) →
       Parser.multiply_by_minus_one child p1 = Ok (child', p2) →
       Parser.sum_loop (S n) sub node p
       = Parser.sum_loop n sub (Node.append_child child' node) p2)
  ∧ (∀ n sub node p child p1,
       Parser.peek p = Some "+"%char →
       sub (Parser.get true p) = Ok (Some child, p1) →
       Parser.sum_loop (S n) sub node p
       = Parser.sum_loop n sub (Node.append_child child node) p1)
  ∧ (∀ n sub node p,
       Parser.peek p ≠ Some "+"%char → Parser.peek p ≠ Some "-"%char →
       Parser.sum_loop n sub node p = Ok (Some node, p))
  ∧ (∀ x bitCount modRed,
       valid_name x →
       run ("-" +:+ x) bitCount modRed
       = Ok (Some (Op Node.PRODUCT 32 modRed
                     [Const 32 modRed (-1); Var 32 modRed x]),
             EmptyString))
  ∧ (∀ x0 t1 ts bitCount modRed,
       valid_name x0 → Forall (λ t, valid_name t.2) (t1 :: ts) →
       run (x0 +:+ signed_text (t1 :: ts)) bitCount modRed
       = Ok (Some (Op Node.SUM 32 modRed
                     (Var 32 modRed x0
                      :: map (term_node 32 modRed) (t1 :: ts))),
             EmptyString))
  ∧ run "-a" 8 true
    = Ok (Some (Op Node.PRODUCT 32 true
                  [Const 32 true (-1); Var 32 true "a"]), EmptyString)
  ∧ run "a+b-c" 8 true
    = Ok (Some (Op Node.SUM 32 true
                  [Var 32 true "a"; Var 32 true "b";
                   Op Node.PRODUCT 32 true
                     [Const 32 true (-1); Var 32 true "c"]]), EmptyString)
  ∧ run "a-b-c" 8 true
    = Ok (Some (Op Node.SUM 32 true
                  [Var 32 true "a";
                   Op Node.PRODUCT 32 true
                     [Const 32 true (-1); Var 32 true "b"];
                   Op Node.PRODUCT 32 true
                     [Const 32 true (-1); Var 32 true "c"]]), EmptyString)
  ∧ run "-a-5" 8 true
    = Ok (Some (Op Node.SUM 32 true
                  [Op Node.PRODUCT 32 true
                     [Const 32 true (-1); Var 32 true "a"];
                   Const 32 true (-5)]), EmptyString)
  ∧ run "a-(b+c)" 8 true
    = Ok (Some (Op Node.SUM 32 true
                  [Var 32 true "a";
                   Op Node.PRODUCT 32 true
                     [Const 32 true (-1);
                      Op Node.SUM 32 true
                        [Var 32 true "b"; Var 32 true "c"]]]), EmptyString)
  ∧ run "a*-b" 8 true
    = Ok (Some (Op Node.PRODUCT 32 true
                  [Var 32 true "a";
                   Op Node.PRODUCT 32 true
                     [Const 32 true (-1); Var 32 true "b"]]), EmptyString).
Proof.
  split; [exact minus_constant|]. split; [exact minus_product_constant|].
  split; [exact minus_product_other|]. split; [exact minus_other|].
  do 7 (split; [vm_compute; reflexivity|]).
  split; [exact negative_factor|]. split; [exact sum_enters|].
  split; [exact sum_loop_minus|]. split; [exact sum_loop_plus|].
  split; [exact sum_loop_ends|].
  split; [exact run_negative_name|]. split; [exact run_signed_sum|].
  repeat split; vm_compute; reflexivity.
Qed.

Lemma minus_normalisation_witness :
  Parser.multiply_by_minus_one
    (Op Node.PRODUCT 32 true [Var 32 true "a"; Var 32 true "b"])
    (Parser.init "-(a*b)" (2 ^ 8) true)
  = Ok (Op Node.PRODUCT 32 true
          [Const 32 true (-1); Var 32 true "a"; Var 32 true "b"],
        Parser.init "-(a*b)" (2 ^ 8) true)
  ∧ Parser.parse_factor 5 (Parser.init "-a" (2 ^ 8) true)
    = Ok (Some (Op Node.PRODUCT 32 true
                  [Const 32 true (-1); Var 32 true "a"]),
          Parser.mk "-a" 32 true 2 EmptyString)
  ∧ Parser.sum_loop 2 (Parser.parse_product 4)
      (Op Node.SUM 32 true [Var 32 true "a"])
      (Parser.mk "a-b" 32 true 1 EmptyString)
    = Parser.sum_loop 1 (Parser.parse_product 4)
        (Op Node.SUM 32 true
           [Var 32 true "a";
            Op Node.PRODUCT 32 true [Const 32 true (-1); Var 32 true "b"]])
        (Parser.mk "a-b" 32 true 3 EmptyString)
  ∧ run "x-y+z_1-y" 8 true
    = Ok (Some (Op Node.SUM 32 true
                  [Var 32 true "x";
                   Op Node.PRODUCT 32 true
                     [Const 32 true (-1); Var 32 true "y"];
                   Var 32 true "z_1";
                   Op Node.PRODUCT 32 true
                     [Const 32 true (-1); Var 32 true "y"]]), EmptyString).
Proof.
  pose proof minus_normalisation
    as (_ & _ & Hproduct & _ & _ & _ & _ & _ & _ & _ & _ & Hfactor & _
        & Hminus & _ & _ & _ & Hsigned & _).
  split; [|split; [|split]].
  - apply (Hproduct (Parser.init "-(a*b)" (2 ^ 8) true)
             (Op Node.PRODUCT 32 true [Var 32 true "a"; Var 32 true "b"])
             (Var 32 true "a") [Var 32 true "b"]);
      [reflexivity|reflexivity|discriminate].
  - refine (Hfactor 3 (Parser.init "-a" (2 ^ 8) true) (Var 32 true "a")
              (Parser.mk "-a" 32 true 2 EmptyString) _
              (Parser.mk "-a" 32 true 2 EmptyString) _ _ _);
      vm_compute; reflexivity.
  - refine (Hminus 1 (Parser.parse_product 4)
              (Op Node.SUM 32 true [Var 32 true "a"])
              (Parser.mk "a-b" 32 true 1 EmptyString) (Var 32 true "b")
              (Parser.mk "a-b" 32 true 3 EmptyString) _
              (Parser.mk "a-b" 32 true 3 EmptyString) _ _ _);
      vm_compute; reflexivity.
  - apply (Hsigned "x" (true, "y") [(false, "z_1"); (true, "y")] 8%Z true).
    + by vm_compute.
    + repeat constructor.
Defined.

End parser_operators.
